(** * Box compiler front end: parser lowering, optimizer passes and the
      memory-safety analyzer, embedded from the C++ sources.

    - [src/lexer/token.hpp]               : [TokenType], [LiteralValue], [Token]
    - [src/parser/parser.hpp], parser.cpp : the AST and the recursive-descent [Parser]
    - [src/optimizer/optimizer.cpp]       : the optimisation passes and [Optimizer.optimize]
    - [src/memory_analyzer/*.cpp]         : [MemorySafetyAnalyzer]

    Conventions of the embedding.
    - [double] is the kernel's binary64 [float]; comparisons are the IEEE ones.
    - A [StmtPtr] may be null: the constructor [NullStmt] stands for [nullptr].
      An [ExprPtr] is never null in a tree built by the parser or by a pass,
      so [Expr] has no null constructor.
    - [std::unordered_map<std::string, V>] is [gmap string V] and
      [std::unordered_set<std::string>] is [gset string].  The C++ iteration
      order of these containers is unspecified; where the code iterates, the
      model iterates over [map_to_list] / [elements].
    - Exceptions are explicit results that carry the state reached at the
      [throw]; member variables are fields of a state record that is threaded
      through the calls. *)

From Stdlib Require Import ZArith String List Bool Lia.
From Stdlib Require Import Floats.PrimFloat Floats.FloatOps Floats.SpecFloat.
From Stdlib Require Floats.FloatAxioms.
From stdpp Require Import base option list gmap strings pretty.

Set Warnings "-register-all".
Local Open Scope string_scope.
Local Open Scope list_scope.
Local Open Scope Z_scope.

(* ===================================================================== *)
(** * Numbers: what the sources use of [double] and [int]                *)
(* ===================================================================== *)

Module Double.

(** [x == y], [x != y], [x < y], ... on [double]. *)
Definition eq (x y : float) : bool := PrimFloat.eqb x y.
Definition ne (x y : float) : bool := negb (PrimFloat.eqb x y).
Definition lt (x y : float) : bool := PrimFloat.ltb x y.
Definition le (x y : float) : bool := PrimFloat.leb x y.
Definition gt (x y : float) : bool := PrimFloat.ltb y x.
Definition ge (x y : float) : bool := PrimFloat.leb y x.

Definition INT_MIN : Z := -2147483648.
Definition INT_MAX : Z := 2147483647.

(** [static_cast<int>(x)]: truncation toward zero.  Out of range (and for
    NaN and the infinities) the C++ conversion is undefined; the model
    returns what x86-64 [cvttsd2si] produces there, [INT_MIN]. *)
Definition static_cast_int (x : float) : Z :=
  match Prim2SF x with
  | S754_zero _ => 0
  | S754_finite s m e =>
      let a := if 0 <=? e then Z.pos m * 2 ^ e else Z.pos m / 2 ^ (- e) in
      let v := if s then - a else a in
      if (INT_MIN <=? v) && (v <=? INT_MAX) then v else INT_MIN
  | _ => INT_MIN
  end.

(** [static_cast<double>(n)] for an [int] [n] (exact: |n| <= 2^31). *)
Definition of_int (n : Z) : float :=
  match n with
  | Z0 => PrimFloat.zero
  | Zpos p => SF2Prim (S754_finite false p 0)
  | Zneg p => SF2Prim (S754_finite true p 0)
  end.

(** Drop the trailing zero bits of a mantissa. *)
Fixpoint strip (p : positive) (e : Z) : positive * Z :=
  match p with
  | xO p' => strip p' (e + 1)
  | _ => (p, e)
  end.

(** [std::fmod(x, y)] of <cmath>: the exact remainder of the truncated
    division, with the sign of [x]. *)
Definition fmod (x y : float) : float :=
  match Prim2SF x, Prim2SF y with
  | S754_nan, _ | _, S754_nan => PrimFloat.nan
  | S754_infinity _, _ => PrimFloat.nan
  | _, S754_zero _ => PrimFloat.nan
  | S754_zero _, _ => x
  | S754_finite _ _ _, S754_infinity _ => x
  | S754_finite sx mx ex, S754_finite _ my ey =>
      let e := Z.min ex ey in
      let X := Z.pos mx * 2 ^ (ex - e) in
      let Y := Z.pos my * 2 ^ (ey - e) in
      match X mod Y with
      | Zpos r => let '(r', e') := strip r e in SF2Prim (S754_finite sx r' e')
      | _ => if sx then PrimFloat.neg_zero else PrimFloat.zero
      end
  end.

Definition round_half_even (n d : Z) : Z :=
  let q := n / d in
  let r := n mod d in
  if 2 * r <? d then q
  else if d <? 2 * r then q + 1
  else if Z.even q then q else q + 1.

Definition pad6 (k : Z) : string :=
  let s := pretty k in
  String.concat "" (repeat "0" (6 - String.length s)%nat) +:+ s.

(** [std::to_string(double)]: the "%f" rendering, six decimals. *)
Definition to_string (x : float) : string :=
  let sign (s : bool) := if s then "-" else "" in
  match Prim2SF x with
  | S754_nan => "nan"
  | S754_infinity s => sign s +:+ "inf"
  | S754_zero s => sign s +:+ "0.000000"
  | S754_finite s m e =>
      let num := Z.pos m * 1000000 in
      let q := if 0 <=? e then num * 2 ^ e else round_half_even num (2 ^ (- e)) in
      sign s +:+ pretty (q / 1000000) +:+ "." +:+ pad6 (q mod 1000000)
  end.

End Double.

(* ===================================================================== *)
(** * Tokens (src/lexer/token.hpp)                                       *)
(* ===================================================================== *)

Inductive TokenType :=
| NUMBER | STRING | TRUE | FALSE | NIL | IDENTIFIER
| PLUS | MINUS | STAR | SLASH | PERCENT
| BANG | BANG_EQUAL | EQUAL | EQUAL_EQUAL
| GREATER | GREATER_EQUAL | LESS | LESS_EQUAL
| AND | OR
| LPAREN | RPAREN | LBRACE | RBRACE | LBRACKET | RBRACKET
| COMMA | SEMICOLON | COLON
| VAR | PRINT | IF | ELSE | WHILE | FOR | FUN | RETURN
| LEN | HAS | KEYS | VALUES | SWITCH | CASE | DEFAULT | BREAK
| INPUT | INPUT_NUM | READ_FILE | WRITE_FILE | APPEND_FILE | FILE_EXISTS
| IMPORT
| PTR | MALLOC | FREE | CALLOC | REALLOC | ADDR_OF | DEREF | AMPERSAND | ARROW
| UNSAFE | LLVM_INLINE
| END_OF_FILE.

(** The enumerator's value, used to compare two token types. *)
Definition TokenType_value (t : TokenType) : nat :=
  match t with
  | NUMBER => 0 | STRING => 1 | TRUE => 2 | FALSE => 3 | NIL => 4
  | IDENTIFIER => 5 | PLUS => 6 | MINUS => 7 | STAR => 8 | SLASH => 9
  | PERCENT => 10 | BANG => 11 | BANG_EQUAL => 12 | EQUAL => 13
  | EQUAL_EQUAL => 14 | GREATER => 15 | GREATER_EQUAL => 16 | LESS => 17
  | LESS_EQUAL => 18 | AND => 19 | OR => 20 | LPAREN => 21 | RPAREN => 22
  | LBRACE => 23 | RBRACE => 24 | LBRACKET => 25 | RBRACKET => 26
  | COMMA => 27 | SEMICOLON => 28 | COLON => 29 | VAR => 30 | PRINT => 31
  | IF => 32 | ELSE => 33 | WHILE => 34 | FOR => 35 | FUN => 36
  | RETURN => 37 | LEN => 38 | HAS => 39 | KEYS => 40 | VALUES => 41
  | SWITCH => 42 | CASE => 43 | DEFAULT => 44 | BREAK => 45 | INPUT => 46
  | INPUT_NUM => 47 | READ_FILE => 48 | WRITE_FILE => 49
  | APPEND_FILE => 50 | FILE_EXISTS => 51 | IMPORT => 52 | PTR => 53
  | MALLOC => 54 | FREE => 55 | CALLOC => 56 | REALLOC => 57
  | ADDR_OF => 58 | DEREF => 59 | AMPERSAND => 60 | ARROW => 61
  | UNSAFE => 62 | LLVM_INLINE => 63 | END_OF_FILE => 64
  end%nat.

Definition TokenType_eqb (a b : TokenType) : bool :=
  Nat.eqb (TokenType_value a) (TokenType_value b).

(** [std::variant<std::monostate, double, std::string, bool>]. *)
Inductive LiteralValue :=
| monostate
| LDouble (d : float)
| LString (s : string)
| LBool (b : bool).

Record Token := mkToken {
  type : TokenType;
  lexeme : string;
  literal : LiteralValue;
  line : Z;
  column : Z
}.

(** The four-argument constructor: the literal is [std::monostate]. *)
Definition Token4 (t : TokenType) (lx : string) (l c : Z) : Token :=
  mkToken t lx monostate l c.

(* ===================================================================== *)
(** * The abstract syntax tree (src/parser/parser.hpp)                   *)
(* ===================================================================== *)

(** [Variable] is reserved in Rocq: the node is [Variable_]. *)
Inductive Expr :=
| Literal (value : LiteralValue) (token : Token)
| Variable_ (name : Token)
| Assign (name : Token) (value : Expr)
| Binary (left : Expr) (op : Token) (right : Expr)
| Unary (op : Token) (right : Expr)
| Logical (left : Expr) (op : Token) (right : Expr)
| Call (callee : Expr) (paren : Token) (arguments : list Expr)
| Grouping (expression : Expr)
| ArrayLiteral (elements : list Expr) (bracket : Token)
| IndexGet (array : Expr) (index : Expr) (bracket : Token)
| IndexSet (array : Expr) (index : Expr) (value : Expr) (bracket : Token)
| DictLiteral (pairs : list (Expr * Expr)) (brace : Token).

(** [class CaseClause], over the statement type it is nested in. *)
Record CaseClauseOf (S : Type) := CaseClause {
  case_value : Expr;
  case_statements : list S
}.
Arguments CaseClause {S} _ _.
Arguments case_value {S} _.
Arguments case_statements {S} _.

Inductive Stmt :=
| NullStmt
| ExprStmt (expression : Expr)
| PrintStmt (expression : Expr) (keyword : Token)
| VarStmt (name : Token) (initializer : option Expr)
| Block (statements : list Stmt) (opening_brace : Token)
| IfStmt (condition : Expr) (then_branch : Stmt) (else_branch : option Stmt)
         (keyword : Token)
| WhileStmt (condition : Expr) (body : Stmt) (keyword : Token)
| FunctionStmt (name : Token) (params : list Token) (body : list Stmt)
| ReturnStmt (keyword : Token) (value : option Expr)
| BreakStmt (keyword : Token)
| SwitchStmt (keyword : Token) (condition : Expr)
             (cases : list (CaseClauseOf Stmt))
             (default_case : option (list Stmt))
| UnsafeBlock (keyword : Token) (statements : list Stmt)
| LLVMInlineStmt (keyword : Token) (llvm_code : string)
                 (variables_map : gmap string string)
| ImportStmt (keyword : Token) (file_path : string) (path_token : Token).

Abbreviation CaseClauseT := (CaseClauseOf Stmt).

(** [if (stmt)] on a [StmtPtr]. *)
Definition non_null (s : Stmt) : bool :=
  match s with NullStmt => false | _ => true end.

(** The loops [for (s : xs) { auto r = f(s); if (r) out.push_back(r); }]
    keep the non-null results. *)
Definition keep_non_null (l : list Stmt) : list Stmt := List.filter non_null l.

(** ** Induction principles that reach the nested lists *)

Section Expr_induction.
Variable P : Expr -> Prop.
Hypothesis HLiteral : forall v t, P (Literal v t).
Hypothesis HVariable : forall n, P (Variable_ n).
Hypothesis HAssign : forall n v, P v -> P (Assign n v).
Hypothesis HBinary : forall l op r, P l -> P r -> P (Binary l op r).
Hypothesis HUnary : forall op r, P r -> P (Unary op r).
Hypothesis HLogical : forall l op r, P l -> P r -> P (Logical l op r).
Hypothesis HCall : forall c p args, P c -> Forall P args -> P (Call c p args).
Hypothesis HGrouping : forall e, P e -> P (Grouping e).
Hypothesis HArray : forall es b, Forall P es -> P (ArrayLiteral es b).
Hypothesis HIndexGet : forall a i b, P a -> P i -> P (IndexGet a i b).
Hypothesis HIndexSet : forall a i v b, P a -> P i -> P v -> P (IndexSet a i v b).
Hypothesis HDict : forall ps b,
    Forall (fun kv => P (fst kv) /\ P (snd kv)) ps -> P (DictLiteral ps b).

Fixpoint Expr_nested_ind (e : Expr) : P e :=
  match e with
  | Literal v t => HLiteral v t
  | Variable_ n => HVariable n
  | Assign n v => HAssign n v (Expr_nested_ind v)
  | Binary l op r => HBinary l op r (Expr_nested_ind l) (Expr_nested_ind r)
  | Unary op r => HUnary op r (Expr_nested_ind r)
  | Logical l op r => HLogical l op r (Expr_nested_ind l) (Expr_nested_ind r)
  | Call c p args =>
      HCall c p args (Expr_nested_ind c)
        ((fix go (l : list Expr) : Forall P l :=
            match l with
            | [] => Forall_nil_2 P
            | x :: l' => Forall_cons_2 P x l' (Expr_nested_ind x) (go l')
            end) args)
  | Grouping e' => HGrouping e' (Expr_nested_ind e')
  | ArrayLiteral es b =>
      HArray es b
        ((fix go (l : list Expr) : Forall P l :=
            match l with
            | [] => Forall_nil_2 P
            | x :: l' => Forall_cons_2 P x l' (Expr_nested_ind x) (go l')
            end) es)
  | IndexGet a i b => HIndexGet a i b (Expr_nested_ind a) (Expr_nested_ind i)
  | IndexSet a i v b =>
      HIndexSet a i v b (Expr_nested_ind a) (Expr_nested_ind i) (Expr_nested_ind v)
  | DictLiteral ps b =>
      HDict ps b
        ((fix go (l : list (Expr * Expr))
            : Forall (fun kv => P (fst kv) /\ P (snd kv)) l :=
            match l with
            | [] => Forall_nil_2 _
            | (k, v) :: l' =>
                Forall_cons_2 (fun kv => P (fst kv) /\ P (snd kv)) (k, v) l'
                  (conj (Expr_nested_ind k) (Expr_nested_ind v)) (go l')
            end) ps)
  end.
End Expr_induction.

Section Stmt_induction.
Variable P : Stmt -> Prop.
Hypothesis HNull : P NullStmt.
Hypothesis HExpr : forall e, P (ExprStmt e).
Hypothesis HPrint : forall e k, P (PrintStmt e k).
Hypothesis HVar : forall n i, P (VarStmt n i).
Hypothesis HBlock : forall ss b, Forall P ss -> P (Block ss b).
Hypothesis HIf : forall c t e k,
    P t -> (forall s, e = Some s -> P s) -> P (IfStmt c t e k).
Hypothesis HWhile : forall c b k, P b -> P (WhileStmt c b k).
Hypothesis HFunction : forall n ps b, Forall P b -> P (FunctionStmt n ps b).
Hypothesis HReturn : forall k v, P (ReturnStmt k v).
Hypothesis HBreak : forall k, P (BreakStmt k).
Hypothesis HSwitch : forall k c cs d,
    Forall (fun cl => Forall P (case_statements cl)) cs ->
    (forall ss, d = Some ss -> Forall P ss) ->
    P (SwitchStmt k c cs d).
Hypothesis HUnsafe : forall k ss, Forall P ss -> P (UnsafeBlock k ss).
Hypothesis HLLVM : forall k c m, P (LLVMInlineStmt k c m).
Hypothesis HImport : forall k f p, P (ImportStmt k f p).

Fixpoint Stmt_nested_ind (s : Stmt) : P s :=
  let all :=
    fix go (l : list Stmt) : Forall P l :=
      match l with
      | [] => Forall_nil_2 P
      | x :: l' => Forall_cons_2 P x l' (Stmt_nested_ind x) (go l')
      end in
  match s with
  | NullStmt => HNull
  | ExprStmt e => HExpr e
  | PrintStmt e k => HPrint e k
  | VarStmt n i => HVar n i
  | Block ss b => HBlock ss b (all ss)
  | IfStmt c t e k =>
      HIf c t e k (Stmt_nested_ind t)
        (match e as e0 return forall s0, e0 = Some s0 -> P s0 with
         | Some s1 => fun s0 H =>
             match H in _ = o return match o with Some x => P x | None => True end
             with eq_refl => Stmt_nested_ind s1 end
         | None => fun s0 H => match H with end
         end)
  | WhileStmt c b k => HWhile c b k (Stmt_nested_ind b)
  | FunctionStmt n ps b => HFunction n ps b (all b)
  | ReturnStmt k v => HReturn k v
  | BreakStmt k => HBreak k
  | SwitchStmt k c cs d =>
      HSwitch k c cs d
        ((fix goc (l : list CaseClauseT)
            : Forall (fun cl => Forall P (case_statements cl)) l :=
            match l with
            | [] => Forall_nil_2 _
            | CaseClause v ss :: l' =>
                Forall_cons_2 (fun cl => Forall P (case_statements cl))
                  (CaseClause v ss) l' (all ss) (goc l')
            end) cs)
        (match d as d0 return forall ss, d0 = Some ss -> Forall P ss with
         | Some ss1 => fun ss H =>
             match H in _ = o
                   return match o with Some x => Forall P x | None => True end
             with eq_refl => all ss1 end
         | None => fun ss H => match H with end
         end)
  | UnsafeBlock k ss => HUnsafe k ss (all ss)
  | LLVMInlineStmt k c m => HLLVM k c m
  | ImportStmt k f p => HImport k f p
  end.
End Stmt_induction.

(* ===================================================================== *)
(** * The optimizer (src/optimizer/optimizer.cpp)                        *)
(* ===================================================================== *)

(** [struct OptimizerConfig] with its default member initialisers. *)
Record OptimizerConfig := mkOptimizerConfig {
  constant_folding : bool;
  constant_propagation : bool;
  dead_code_elimination : bool;
  common_subexpression_elimination : bool;
  loop_invariant_code_motion : bool;
  loop_unrolling : bool;
  loop_unroll_threshold : Z;
  strength_reduction : bool;
  function_inlining : bool;
  inline_threshold : Z;
  algebraic_simplification : bool;
  peephole_optimization : bool;
  optimize_level : Z;
  aggressive_optimization : bool;
  loop_fusion : bool;
  loop_interchange : bool
}.

Definition default_config : OptimizerConfig :=
  {| constant_folding := true;
     constant_propagation := true;
     dead_code_elimination := true;
     common_subexpression_elimination := true;
     loop_invariant_code_motion := true;
     loop_unrolling := true;
     loop_unroll_threshold := 32;
     strength_reduction := true;
     function_inlining := true;
     inline_threshold := 10;
     algebraic_simplification := true;
     peephole_optimization := true;
     optimize_level := 3;
     aggressive_optimization := true;
     loop_fusion := false;
     loop_interchange := false |}.

(** A pass computes a tree and raises [OptimizationPass::modified]; the
    flag is only ever set to [true] after [run] cleared it, so a
    computation is its result paired with "was [modified] set". *)
Definition Pass (A : Type) : Type := (A * bool)%type.

Definition pret {A} (a : A) : Pass A := (a, false).

Definition pbind {A B} (m : Pass A) (f : A -> Pass B) : Pass B :=
  let '(a, m1) := m in
  let '(b, m2) := f a in
  (b, m1 || m2).

(** [modified = true;] *)
Definition set_modified : Pass unit := (tt, true).

Declare Scope pass_scope.
Delimit Scope pass_scope with pass.
Notation "x <- m ;; k" := (pbind m (fun x => k))
  (at level 20, m at level 99, k at level 200, only parsing) : pass_scope.
Notation "m ;; k" := (pbind m (fun _ => k))
  (at level 100, k at level 200, only parsing, right associativity) : pass_scope.

Definition pmap {A B} (f : A -> Pass B) : list A -> Pass (list B) :=
  fix go (l : list A) : Pass (list B) :=
    match l with
    | [] => pret []
    | x :: l' => (y <- f x ;; ys <- go l' ;; pret (y :: ys))%pass
    end.

Definition pmap_option {A B} (f : A -> Pass B) (o : option A) : Pass (option B) :=
  match o with
  | Some a => (b <- f a ;; pret (Some b))%pass
  | None => pret None
  end.

(** ** ConstantFolder *)
Module ConstantFolder.

(** The [cond_val] computed from a literal condition of [if] / [while]. *)
Definition cond_val (v : LiteralValue) : bool :=
  match v with
  | LBool b => b
  | LDouble d => Double.ne d 0
  | _ => false
  end.

(** The truthiness of a literal left operand of [and] / [or]. *)
Definition logical_truthy (v : LiteralValue) : bool :=
  match v with
  | LBool b => b
  | LDouble d => Double.ne d 0
  | _ => true
  end.

(** The chain of [if (op == ...)] on two numeric literals: the value of
    the folded literal, or [None] when no branch returns. *)
Definition fold_numeric (op : TokenType) (left_val right_val : float)
  : option LiteralValue :=
  match op with
  | PLUS => Some (LDouble (PrimFloat.add left_val right_val))
  | MINUS => Some (LDouble (PrimFloat.sub left_val right_val))
  | STAR => Some (LDouble (PrimFloat.mul left_val right_val))
  | SLASH =>
      if Double.ne right_val 0
      then Some (LDouble (PrimFloat.div left_val right_val)) else None
  | PERCENT =>
      if Double.ne right_val 0
      then Some (LDouble (Double.fmod left_val right_val)) else None
  | LESS => Some (LBool (Double.lt left_val right_val))
  | LESS_EQUAL => Some (LBool (Double.le left_val right_val))
  | GREATER => Some (LBool (Double.gt left_val right_val))
  | GREATER_EQUAL => Some (LBool (Double.ge left_val right_val))
  | EQUAL_EQUAL => Some (LBool (Double.eq left_val right_val))
  | BANG_EQUAL => Some (LBool (Double.ne left_val right_val))
  | _ => None
  end.

Definition fold_boolean (op : TokenType) (left_val right_val : bool)
  : option LiteralValue :=
  match op with
  | EQUAL_EQUAL => Some (LBool (Bool.eqb left_val right_val))
  | BANG_EQUAL => Some (LBool (negb (Bool.eqb left_val right_val)))
  | _ => None
  end.

Fixpoint fold_expr (expr : Expr) : Pass Expr :=
  match expr with
  | Literal _ _ => pret expr
  | Grouping e => fold_expr e
  | Unary op right_e =>
      (folded_right <- fold_expr right_e ;;
       match folded_right with
       | Literal v _ =>
           set_modified ;;
           match type op, v with
           | MINUS, LDouble val => pret (Literal (LDouble (PrimFloat.opp val)) op)
           | BANG, LBool val => pret (Literal (LBool (negb val)) op)
           | BANG, LDouble val => pret (Literal (LBool (Double.eq val 0)) op)
           | _, _ => pret (Unary op folded_right)
           end
       | _ => pret (Unary op folded_right)
       end)%pass
  | Binary left_e op right_e =>
      (folded_left <- fold_expr left_e ;;
       folded_right <- fold_expr right_e ;;
       match folded_left, folded_right with
       | Literal (LDouble left_val) _, Literal (LDouble right_val) _ =>
           set_modified ;;
           match fold_numeric (type op) left_val right_val with
           | Some v => pret (Literal v op)
           | None => pret (Binary folded_left op folded_right)
           end
       | Literal (LBool left_val) _, Literal (LBool right_val) _ =>
           set_modified ;;
           match fold_boolean (type op) left_val right_val with
           | Some v => pret (Literal v op)
           | None => pret (Binary folded_left op folded_right)
           end
       | _, _ => pret (Binary folded_left op folded_right)
       end)%pass
  | Logical left_e op right_e =>
      (folded_left <- fold_expr left_e ;;
       folded_right <- fold_expr right_e ;;
       match folded_left with
       | Literal v _ =>
           let is_truthy := logical_truthy v in
           match type op with
           | AND =>
               set_modified ;;
               pret (if negb is_truthy then Literal (LBool false) op
                     else folded_right)
           | OR =>
               set_modified ;;
               pret (if is_truthy then Literal (LBool true) op
                     else folded_right)
           | _ => pret (Logical folded_left op folded_right)
           end
       | _ => pret (Logical folded_left op folded_right)
       end)%pass
  | ArrayLiteral elements bracket =>
      (new_elems <- pmap fold_expr elements ;;
       pret (ArrayLiteral new_elems bracket))%pass
  | DictLiteral pairs brace =>
      (new_pairs <-
         pmap (fun kv : Expr * Expr =>
                 let '(k, v) := kv in
                 k' <- fold_expr k ;; v' <- fold_expr v ;; pret (k', v'))
              pairs ;;
       pret (DictLiteral new_pairs brace))%pass
  | IndexGet array index bracket =>
      (a <- fold_expr array ;; i <- fold_expr index ;;
       pret (IndexGet a i bracket))%pass
  | IndexSet array index value bracket =>
      (a <- fold_expr array ;; i <- fold_expr index ;; v <- fold_expr value ;;
       pret (IndexSet a i v bracket))%pass
  | Assign name value =>
      (v <- fold_expr value ;; pret (Assign name v))%pass
  | Call callee paren arguments =>
      (new_args <- pmap fold_expr arguments ;;
       pret (Call callee paren new_args))%pass
  | Variable_ _ => pret expr
  end.

Fixpoint fold_stmt (stmt : Stmt) : Pass Stmt :=
  let fold_list (l : list Stmt) : Pass (list Stmt) :=
    (r <- pmap fold_stmt l ;; pret (keep_non_null r))%pass in
  match stmt with
  | NullStmt => pret NullStmt
  | ExprStmt e => (e' <- fold_expr e ;; pret (ExprStmt e'))%pass
  | PrintStmt e kw => (e' <- fold_expr e ;; pret (PrintStmt e' kw))%pass
  | VarStmt name init =>
      (init' <- pmap_option fold_expr init ;; pret (VarStmt name init'))%pass
  | Block statements brace =>
      (new_stmts <- fold_list statements ;; pret (Block new_stmts brace))%pass
  | IfStmt condition then_branch else_branch kw =>
      (folded_cond <- fold_expr condition ;;
       match folded_cond with
       | Literal v _ =>
           set_modified ;;
           if cond_val v then fold_stmt then_branch
           else match else_branch with
                | Some e => fold_stmt e
                | None => pret NullStmt
                end
       | _ =>
           then_br <- fold_stmt then_branch ;;
           else_br <- pmap_option fold_stmt else_branch ;;
           pret (IfStmt folded_cond then_br else_br kw)
       end)%pass
  | WhileStmt condition body kw =>
      (folded_cond <- fold_expr condition ;;
       let keep :=
         (b <- fold_stmt body ;; pret (WhileStmt folded_cond b kw))%pass in
       match folded_cond with
       | Literal v _ =>
           if negb (cond_val v) then (set_modified ;; pret NullStmt) else keep
       | _ => keep
       end)%pass
  | SwitchStmt kw condition cases default_case =>
      (folded_cond <- fold_expr condition ;;
       new_cases <-
         pmap (fun c : CaseClauseT =>
                 let '(CaseClause v ss) := c in
                 folded_val <- fold_expr v ;;
                 case_stmts <- fold_list ss ;;
                 pret (CaseClause folded_val case_stmts))
              cases ;;
       new_default <- pmap_option fold_list default_case ;;
       pret (SwitchStmt kw folded_cond new_cases new_default))%pass
  | FunctionStmt name params body =>
      (new_body <- fold_list body ;; pret (FunctionStmt name params new_body))%pass
  | ReturnStmt kw value =>
      (val <- pmap_option fold_expr value ;; pret (ReturnStmt kw val))%pass
  | _ => pret stmt
  end.

Definition run (statements : list Stmt) : Pass (list Stmt) :=
  (r <- pmap fold_stmt statements ;; pret (keep_non_null r))%pass.

End ConstantFolder.

(** ** AlgebraicSimplifier *)
Module AlgebraicSimplifier.

Definition is_power_of_two (n : float) : bool :=
  if Double.le n 0 || Double.ne n (Double.of_int (Double.static_cast_int n))
  then false
  else
    let val := Double.static_cast_int n in
    Z.land val (val - 1) =? 0.

Definition is_zero (expr : Expr) : bool :=
  match expr with
  | Literal (LDouble d) _ => Double.eq d 0
  | _ => false
  end.

Definition is_one (expr : Expr) : bool :=
  match expr with
  | Literal (LDouble d) _ => Double.eq d 1
  | _ => false
  end.

Definition are_equal_variables (a b : Expr) : bool :=
  match a, b with
  | Variable_ na, Variable_ nb => String.eqb (lexeme na) (lexeme nb)
  | _, _ => false
  end.

Definition create_literal (value : float) : Expr :=
  let val_str := Double.to_string value in
  let dummy := mkToken NUMBER val_str (LDouble value) 0 0 in
  Literal (LDouble value) dummy.

Fixpoint deep_copy_expr (expr : Expr) : Expr :=
  match expr with
  | Literal v t => Literal v t
  | Variable_ n => Variable_ n
  | Binary l op r => Binary (deep_copy_expr l) op (deep_copy_expr r)
  | Unary op r => Unary op (deep_copy_expr r)
  | _ => expr
  end.

(** [for (int i = 0; i < power; ++i) result = Binary(result, +, copy(result))]. *)
Fixpoint double_times (power : nat) (plus_op : Token) (result : Expr) : Expr :=
  match power with
  | O => result
  | S p =>
      double_times p plus_op (Binary result plus_op (deep_copy_expr result))
  end.

(** [static_cast<int>(std::log2(val))] for a [val] that passed
    [is_power_of_two] (a positive power of two that fits an [int],
    on which [std::log2] is exact). *)
Definition log2_of (val : float) : Z := Z.log2 (Double.static_cast_int val).

Fixpoint simplify_expr (expr : Expr) : Pass Expr :=
  match expr with
  | Binary left_e bop right_e =>
      (left_s <- simplify_expr left_e ;;
       right_s <- simplify_expr right_e ;;
       let plus_op := Token4 PLUS "+" 0 0 in
       let rebuilt := pret (Binary left_s bop right_s) in
       match type bop with
       | PLUS =>
           if is_zero left_s then (set_modified ;; pret right_s)
           else if is_zero right_s then (set_modified ;; pret left_s)
           else rebuilt
       | MINUS =>
           if is_zero right_s then (set_modified ;; pret left_s)
           else if are_equal_variables left_s right_s
                then (set_modified ;; pret (create_literal 0))
           else rebuilt
       | STAR =>
           if is_zero left_s then (set_modified ;; pret (create_literal 0))
           else if is_zero right_s then (set_modified ;; pret (create_literal 0))
           else if is_one left_s then (set_modified ;; pret right_s)
           else if is_one right_s then (set_modified ;; pret left_s)
           else
             match right_s with
             | Literal (LDouble val) _ =>
                 if Double.eq val 2
                 then (set_modified ;;
                       pret (Binary left_s plus_op (deep_copy_expr left_s)))
                 else if is_power_of_two val
                 then (set_modified ;;
                       pret (double_times (Z.to_nat (log2_of val)) plus_op left_s))
                 else rebuilt
             | _ => rebuilt
             end
       | SLASH =>
           if is_one right_s then (set_modified ;; pret left_s)
           else if are_equal_variables left_s right_s
                then (set_modified ;; pret (create_literal 1))
           else rebuilt
       | _ => rebuilt
       end)%pass
  | Unary uop right_e =>
      (right_s <- simplify_expr right_e ;;
       match type uop, right_s with
       | MINUS, Unary inner_op inner_right =>
           match type inner_op with
           | MINUS => set_modified ;; pret inner_right
           | _ => pret (Unary uop right_s)
           end
       | _, _ => pret (Unary uop right_s)
       end)%pass
  | Grouping e => simplify_expr e
  | Logical left_e lop right_e =>
      (l <- simplify_expr left_e ;; r <- simplify_expr right_e ;;
       pret (Logical l lop r))%pass
  | ArrayLiteral elements bracket =>
      (new_elems <- pmap simplify_expr elements ;;
       pret (ArrayLiteral new_elems bracket))%pass
  | DictLiteral pairs brace =>
      (new_pairs <-
         pmap (fun kv : Expr * Expr =>
                 let '(k, v) := kv in
                 k' <- simplify_expr k ;; v' <- simplify_expr v ;; pret (k', v'))
              pairs ;;
       pret (DictLiteral new_pairs brace))%pass
  | IndexGet array index bracket =>
      (a <- simplify_expr array ;; i <- simplify_expr index ;;
       pret (IndexGet a i bracket))%pass
  | IndexSet array index value bracket =>
      (a <- simplify_expr array ;; i <- simplify_expr index ;;
       v <- simplify_expr value ;;
       pret (IndexSet a i v bracket))%pass
  | Assign name value =>
      (v <- simplify_expr value ;; pret (Assign name v))%pass
  | Call callee paren arguments =>
      (new_args <- pmap simplify_expr arguments ;;
       pret (Call callee paren new_args))%pass
  | _ => pret expr
  end.

Fixpoint simplify_stmt (stmt : Stmt) : Pass Stmt :=
  let simplify_list (l : list Stmt) : Pass (list Stmt) :=
    (r <- pmap simplify_stmt l ;; pret (keep_non_null r))%pass in
  match stmt with
  | NullStmt => pret NullStmt
  | ExprStmt e => (e' <- simplify_expr e ;; pret (ExprStmt e'))%pass
  | PrintStmt e kw => (e' <- simplify_expr e ;; pret (PrintStmt e' kw))%pass
  | VarStmt name init =>
      (init' <- pmap_option simplify_expr init ;; pret (VarStmt name init'))%pass
  | Block statements brace =>
      (new_stmts <- simplify_list statements ;; pret (Block new_stmts brace))%pass
  | IfStmt condition then_branch else_branch kw =>
      (cond <- simplify_expr condition ;;
       then_br <- simplify_stmt then_branch ;;
       else_br <- pmap_option simplify_stmt else_branch ;;
       pret (IfStmt cond then_br else_br kw))%pass
  | WhileStmt condition body kw =>
      (c <- simplify_expr condition ;; b <- simplify_stmt body ;;
       pret (WhileStmt c b kw))%pass
  | SwitchStmt kw condition cases default_case =>
      (cond <- simplify_expr condition ;;
       new_cases <-
         pmap (fun c : CaseClauseT =>
                 let '(CaseClause v ss) := c in
                 val <- simplify_expr v ;;
                 stmts <- simplify_list ss ;;
                 pret (CaseClause val stmts))
              cases ;;
       new_default <- pmap_option simplify_list default_case ;;
       pret (SwitchStmt kw cond new_cases new_default))%pass
  | FunctionStmt name params body =>
      (new_body <- simplify_list body ;;
       pret (FunctionStmt name params new_body))%pass
  | ReturnStmt kw value =>
      (val <- pmap_option simplify_expr value ;; pret (ReturnStmt kw val))%pass
  | _ => pret stmt
  end.

Definition run (statements : list Stmt) : Pass (list Stmt) :=
  (r <- pmap simplify_stmt statements ;; pret (keep_non_null r))%pass.

End AlgebraicSimplifier.

(** ** DeadCodeEliminator *)
Module DeadCodeEliminator.

(** The three member containers; [run] clears them first. *)
Record State := mkState {
  used_vars : gset string;
  defined_vars : gmap string Stmt;
  essential_vars : gset string
}.

Definition cleared : State := mkState ∅ ∅ ∅.

Definition use (x : string) (st : State) : State :=
  mkState ({[x]} ∪ used_vars st) (defined_vars st) (essential_vars st).

Definition define (x : string) (s : Stmt) (st : State) : State :=
  mkState (used_vars st) (<[x := s]> (defined_vars st)) (essential_vars st).

(** The body of the loop is an [if] with an empty block. *)
Definition mark_essential_variables (statements : list Stmt) (st : State)
  : State := st.

Fixpoint analyze_expr (expr : Expr) (st : State) : State :=
  let all (l : list Expr) (st0 : State) : State :=
    fold_left (fun acc e => analyze_expr e acc) l st0 in
  match expr with
  | Variable_ n => use (lexeme n) st
  | Assign n v => analyze_expr v (use (lexeme n) st)
  | Binary l _ r => analyze_expr r (analyze_expr l st)
  | Unary _ r => analyze_expr r st
  | Logical l _ r => analyze_expr r (analyze_expr l st)
  | Grouping e => analyze_expr e st
  | Call _ _ args => all args st
  | ArrayLiteral es _ => all es st
  | DictLiteral ps _ =>
      fold_left (fun acc (kv : Expr * Expr) =>
                   let '(k, v) := kv in analyze_expr v (analyze_expr k acc))
                ps st
  | IndexGet a i _ => analyze_expr i (analyze_expr a st)
  | IndexSet a i v _ => analyze_expr v (analyze_expr i (analyze_expr a st))
  | Literal _ _ => st
  end.

Definition analyze_opt_expr (o : option Expr) (st : State) : State :=
  match o with Some e => analyze_expr e st | None => st end.

Fixpoint analyze_stmt (stmt : Stmt) (st : State) : State :=
  let all (l : list Stmt) (st0 : State) : State :=
    fold_left (fun acc s => analyze_stmt s acc) l st0 in
  match stmt with
  | VarStmt n init => analyze_opt_expr init (define (lexeme n) stmt st)
  | ExprStmt e => analyze_expr e st
  | PrintStmt e _ => analyze_expr e st
  | Block ss _ => all ss st
  | IfStmt c t e _ =>
      let st1 := analyze_stmt t (analyze_expr c st) in
      match e with Some s => analyze_stmt s st1 | None => st1 end
  | WhileStmt c b _ => analyze_stmt b (analyze_expr c st)
  | SwitchStmt _ c cs d =>
      let st1 :=
        fold_left (fun acc (cl : CaseClauseT) =>
                     let '(CaseClause v ss) := cl in
                     all ss (analyze_expr v acc))
                  cs (analyze_expr c st) in
      match d with Some ss => all ss st1 | None => st1 end
  | FunctionStmt _ _ b => all b st
  | ReturnStmt _ v => analyze_opt_expr v st
  | _ => st
  end.

Fixpoint has_side_effects (expr : Expr) : bool :=
  match expr with
  | Call _ _ _ => true
  | Assign _ _ => true
  | IndexSet _ _ _ _ => true
  | Binary l _ r => has_side_effects l || has_side_effects r
  | Unary _ r => has_side_effects r
  | Logical l _ r => has_side_effects l || has_side_effects r
  | Grouping e => has_side_effects e
  | ArrayLiteral es _ => existsb has_side_effects es
  | DictLiteral ps _ =>
      existsb (fun kv : Expr * Expr =>
                 let '(k, v) := kv in has_side_effects k || has_side_effects v)
              ps
  | IndexGet a i _ => has_side_effects a || has_side_effects i
  | _ => false
  end.

Definition count (s : gset string) (x : string) : bool := bool_decide (x ∈ s).

Definition should_keep_stmt (st : State) (stmt : Stmt) : bool :=
  match stmt with
  | NullStmt => false
  | VarStmt n init =>
      match init with
      | Some e =>
          if has_side_effects e then true
          else count (used_vars st) (lexeme n) || count (essential_vars st) (lexeme n)
      | None =>
          count (used_vars st) (lexeme n) || count (essential_vars st) (lexeme n)
      end
  | _ => true
  end.

Fixpoint eliminate_stmt (st : State) (stmt : Stmt) : Stmt :=
  let kept :=
    fix go (l : list Stmt) : list Stmt :=
      match l with
      | [] => []
      | s :: l' =>
          if should_keep_stmt st s then eliminate_stmt st s :: go l' else go l'
      end in
  match stmt with
  | Block ss brace => Block (kept ss) brace
  | IfStmt c t e kw =>
      IfStmt c (eliminate_stmt st t) (option_map (eliminate_stmt st) e) kw
  | WhileStmt c b kw => WhileStmt c (eliminate_stmt st b) kw
  | SwitchStmt kw c cs d =>
      SwitchStmt kw c
        (List.map (fun cl : CaseClauseT =>
                     let '(CaseClause v ss) := cl in CaseClause v (kept ss))
                  cs)
        (option_map kept d)
  | FunctionStmt n ps b => FunctionStmt n ps (kept b)
  | _ => stmt
  end.

(** [modified] is cleared and never set by this pass. *)
Definition run (statements : list Stmt) : Pass (list Stmt) :=
  let st0 := mark_essential_variables statements cleared in
  let st := fold_left (fun acc s => analyze_stmt s acc) statements st0 in
  pret (List.map (eliminate_stmt st)
          (List.filter (should_keep_stmt st) statements)).

End DeadCodeEliminator.

(** ** CommonSubexpressionEliminator

    [expr_cache] is cleared, saved and restored but never written, and
    [expr_to_string] / [expr_hash] / [exprs_equal] are not called by [run]:
    the pass rebuilds the nodes it visits. *)
Module CommonSubexpressionEliminator.

Fixpoint process_expr (expr : Expr) : Expr :=
  match expr with
  | Literal _ _ | Variable_ _ => expr
  | Binary l op r => Binary (process_expr l) op (process_expr r)
  | Unary op r => Unary op (process_expr r)
  | Logical l op r => Logical (process_expr l) op (process_expr r)
  | Grouping e => Grouping (process_expr e)
  | _ => expr
  end.

Fixpoint process_stmt (stmt : Stmt) : Stmt :=
  match stmt with
  | NullStmt => NullStmt
  | Block ss brace => Block (List.map process_stmt ss) brace
  | IfStmt c t e kw =>
      IfStmt (process_expr c) (process_stmt t) (option_map process_stmt e) kw
  | WhileStmt c b kw => WhileStmt (process_expr c) (process_stmt b) kw
  | FunctionStmt n ps b => FunctionStmt n ps (List.map process_stmt b)
  | ExprStmt e => ExprStmt (process_expr e)
  | PrintStmt e kw => PrintStmt (process_expr e) kw
  | VarStmt n init => VarStmt n (option_map process_expr init)
  | ReturnStmt kw v => ReturnStmt kw (option_map process_expr v)
  | _ => stmt
  end.

Definition run (statements : list Stmt) : Pass (list Stmt) :=
  pret (List.map process_stmt statements).

End CommonSubexpressionEliminator.

(** ** LoopOptimizer *)
Module LoopOptimizer.

Definition can_unroll (stmt : Stmt) : bool := false.

Definition get_iteration_count (stmt : Stmt) : option Z := None.

Definition unroll_loop (stmt : Stmt) (iterations : Z) : Stmt :=
  match stmt with
  | WhileStmt _ body _ =>
      let dummy_brace := Token4 LBRACE "{" 0 0 in
      Block (repeat body (Z.to_nat iterations)) dummy_brace
  | _ => stmt
  end.

(** [try_unroll_loop]: the statement it returns, and whether it set
    [modified] on the way. *)
Definition try_unroll_loop_result (config : OptimizerConfig) (stmt : Stmt) : Stmt :=
  if negb (loop_unrolling config) then stmt
  else if negb (can_unroll stmt) then stmt
  else match get_iteration_count stmt with
       | Some n =>
           if (0 <? n) && (n <=? loop_unroll_threshold config)
           then unroll_loop stmt n else stmt
       | None => stmt
       end.

Definition try_unroll_loop_modified (config : OptimizerConfig) (stmt : Stmt) : bool :=
  if negb (loop_unrolling config) then false
  else if negb (can_unroll stmt) then false
  else match get_iteration_count stmt with
       | Some n => (0 <? n) && (n <=? loop_unroll_threshold config)
       | None => false
       end.

Definition try_unroll_loop (config : OptimizerConfig) (stmt : Stmt) : Pass Stmt :=
  (try_unroll_loop_result config stmt, try_unroll_loop_modified config stmt).

Definition extract_loop_invariant_code (stmt : Stmt) : Stmt := stmt.

Fixpoint optimize_stmt (config : OptimizerConfig) (stmt : Stmt) : Pass Stmt :=
  match stmt with
  | NullStmt => pret NullStmt
  | WhileStmt _ _ _ =>
      let flag := try_unroll_loop_modified config stmt in
      match try_unroll_loop_result config stmt with
      | WhileStmt c b kw =>
          ((tt, flag) ;;
           b' <- optimize_stmt config b ;; pret (WhileStmt c b' kw))%pass
      | optimized => (optimized, flag)
      end
  | Block ss brace =>
      (new_stmts <- pmap (optimize_stmt config) ss ;;
       pret (Block new_stmts brace))%pass
  | IfStmt c t e kw =>
      (then_br <- optimize_stmt config t ;;
       else_br <- pmap_option (optimize_stmt config) e ;;
       pret (IfStmt c then_br else_br kw))%pass
  | FunctionStmt n ps b =>
      (new_body <- pmap (optimize_stmt config) b ;;
       pret (FunctionStmt n ps new_body))%pass
  | _ => pret stmt
  end.

Fixpoint is_loop_invariant (expr : Expr) (loop_vars : gset string) : bool :=
  match expr with
  | Variable_ n => negb (bool_decide (lexeme n ∈ loop_vars))
  | Binary l _ r => is_loop_invariant l loop_vars && is_loop_invariant r loop_vars
  | Unary _ r => is_loop_invariant r loop_vars
  | _ => true
  end.

Fixpoint collect_modified_vars (stmt : Stmt) (vars : gset string) : gset string :=
  match stmt with
  | VarStmt n _ => {[lexeme n]} ∪ vars
  | Block ss _ => fold_left (fun acc s => collect_modified_vars s acc) ss vars
  | _ => vars
  end.

Definition find_modified_vars (stmt : Stmt) : gset string :=
  collect_modified_vars stmt ∅.

Definition run (config : OptimizerConfig) (statements : list Stmt)
  : Pass (list Stmt) :=
  pmap (optimize_stmt config) statements.

End LoopOptimizer.

(** ** StrengthReducer *)
Module StrengthReducer.

Definition is_power_of_two (n : float) : bool :=
  if Double.le n 0 || Double.ne n (Double.of_int (Double.static_cast_int n))
  then false
  else
    let val := Double.static_cast_int n in
    Z.land val (val - 1) =? 0.

(** [while (n > 1) { n >>= 1; result++; }] on a 32-bit [int]: at most 31
    rounds. *)
Fixpoint log2_int_loop (rounds : nat) (n result : Z) : Z :=
  match rounds with
  | O => result
  | S k => if 1 <? n then log2_int_loop k (Z.shiftr n 1) (result + 1) else result
  end.

Definition log2_int (n : Z) : Z := log2_int_loop 32 n 0.

(** [for (i < shift_amount) result = Binary(result, op, rhs(result))]. *)
Fixpoint iterate_expr (k : nat) (step : Expr -> Expr) (result : Expr) : Expr :=
  match k with
  | O => result
  | S k' => iterate_expr k' step (step result)
  end.

(** Each reducer returns the rewritten node, or [None] for [nullptr]. *)
Definition reduce_multiplication (left_e right_e : Expr) (op : Token)
  : Pass (option Expr) :=
  match right_e with
  | Literal (LDouble val) _ =>
      if is_power_of_two val then
        (set_modified ;;
         let shift_amount := log2_int (Double.static_cast_int val) in
         let plus_op := Token4 PLUS "+" 0 0 in
         pret (Some (iterate_expr (Z.to_nat shift_amount)
                       (fun result => Binary result plus_op result) left_e)))%pass
      else pret None
  | _ => pret None
  end.

Definition reduce_division (left_e right_e : Expr) (op : Token)
  : Pass (option Expr) :=
  match right_e with
  | Literal (LDouble val) _ =>
      if is_power_of_two val && Double.ge val 2 then
        (set_modified ;;
         let shift_amount := log2_int (Double.static_cast_int val) in
         let div_op := Token4 SLASH "/" (line op) (column op) in
         let two := Literal (LDouble 2) (Token4 NUMBER "2" (line op) (column op)) in
         pret (Some (iterate_expr (Z.to_nat shift_amount)
                       (fun result => Binary result div_op two) left_e)))%pass
      else pret None
  | _ => pret None
  end.

(** [mask_value] and [mask_expr] are built and dropped; the node returned
    is [left - (left / right) * right]. *)
Definition reduce_modulo (left_e right_e : Expr) (op : Token)
  : Pass (option Expr) :=
  match right_e with
  | Literal (LDouble val) _ =>
      if is_power_of_two val && Double.ge val 2 then
        (set_modified ;;
         let temp_div :=
           Binary left_e (Token4 SLASH "/" (line op) (column op)) right_e in
         let temp_mult :=
           Binary temp_div (Token4 STAR "*" (line op) (column op)) right_e in
         pret (Some (Binary left_e (Token4 MINUS "-" (line op) (column op))
                       temp_mult)))%pass
      else pret None
  | _ => pret None
  end.

Fixpoint reduce_expr (expr : Expr) : Pass Expr :=
  match expr with
  | Binary left_e op right_e =>
      (l <- reduce_expr left_e ;;
       r <- reduce_expr right_e ;;
       reduced <-
         match type op with
         | STAR => reduce_multiplication l r op
         | SLASH => reduce_division l r op
         | PERCENT => reduce_modulo l r op
         | _ => pret None
         end ;;
       match reduced with
       | Some e => pret e
       | None => pret (Binary l op r)
       end)%pass
  | Unary op r => (r' <- reduce_expr r ;; pret (Unary op r'))%pass
  | Assign n v => (v' <- reduce_expr v ;; pret (Assign n v'))%pass
  | _ => pret expr
  end.

Fixpoint reduce_stmt (stmt : Stmt) : Pass Stmt :=
  match stmt with
  | NullStmt => pret NullStmt
  | ExprStmt e => (e' <- reduce_expr e ;; pret (ExprStmt e'))%pass
  | PrintStmt e kw => (e' <- reduce_expr e ;; pret (PrintStmt e' kw))%pass
  | VarStmt n init =>
      (init' <- pmap_option reduce_expr init ;; pret (VarStmt n init'))%pass
  | Block ss brace =>
      (new_stmts <- pmap reduce_stmt ss ;; pret (Block new_stmts brace))%pass
  | IfStmt c t e kw =>
      (cond <- reduce_expr c ;;
       then_br <- reduce_stmt t ;;
       else_br <- pmap_option reduce_stmt e ;;
       pret (IfStmt cond then_br else_br kw))%pass
  | WhileStmt c b kw =>
      (c' <- reduce_expr c ;; b' <- reduce_stmt b ;;
       pret (WhileStmt c' b' kw))%pass
  | FunctionStmt n ps b =>
      (new_body <- pmap reduce_stmt b ;; pret (FunctionStmt n ps new_body))%pass
  | ReturnStmt kw v =>
      (val <- pmap_option reduce_expr v ;; pret (ReturnStmt kw val))%pass
  | _ => pret stmt
  end.

Definition run (statements : list Stmt) : Pass (list Stmt) :=
  pmap reduce_stmt statements.

End StrengthReducer.

(** ** FunctionInliner *)
Module FunctionInliner.

(** [function_definitions[name] = stmt] for every top-level function. *)
Definition collect_functions (statements : list Stmt) : gmap string Stmt :=
  fold_left (fun acc s =>
               match s with
               | FunctionStmt n _ _ => <[lexeme n := s]> acc
               | _ => acc
               end)
            statements ∅.

Definition inline_expr (expr : Expr) : Expr := expr.

Fixpoint inline_stmt (stmt : Stmt) : Stmt :=
  match stmt with
  | NullStmt => NullStmt
  | ExprStmt e => ExprStmt (inline_expr e)
  | Block ss brace => Block (List.map inline_stmt ss) brace
  | _ => stmt
  end.

Fixpoint calculate_complexity (stmt : Stmt) : Z :=
  match stmt with
  | NullStmt => 0
  | Block ss _ => fold_left (fun total s => total + calculate_complexity s) ss 0
  | _ => 1
  end.

Definition should_inline (config : OptimizerConfig)
           (function_definitions : gmap string Stmt) (func_name : string) : bool :=
  match function_definitions !! func_name with
  | None => false
  | Some def => calculate_complexity def <=? inline_threshold config
  end.

(** The first parameter (in order) with the variable's spelling that also
    has an argument. *)
Fixpoint lookup_param (x : string) (params : list Token) (args : list Expr)
  : option Expr :=
  match params, args with
  | p :: params', a :: args' =>
      if String.eqb x (lexeme p) then Some a else lookup_param x params' args'
  | _, _ => None
  end.

Fixpoint substitute_params (expr : Expr) (params : list Token) (args : list Expr)
  : Expr :=
  match expr with
  | Variable_ n =>
      match lookup_param (lexeme n) params args with
      | Some a => a
      | None => expr
      end
  | Binary l op r =>
      Binary (substitute_params l params args) op (substitute_params r params args)
  | Unary op r => Unary op (substitute_params r params args)
  | Logical l op r =>
      Logical (substitute_params l params args) op (substitute_params r params args)
  | Assign n v => Assign n (substitute_params v params args)
  | Call callee paren arguments =>
      Call (substitute_params callee params args) paren
           (List.map (fun a => substitute_params a params args) arguments)
  | Grouping e => Grouping (substitute_params e params args)
  | _ => expr
  end.

(** [modified] is cleared and never set by this pass. *)
Definition run (statements : list Stmt) : Pass (list Stmt) :=
  let function_definitions := collect_functions statements in
  pret (List.map inline_stmt statements).

End FunctionInliner.

(** ** PeepholeOptimizer *)
Module PeepholeOptimizer.

(** The rewritten node, or [None] when the function returns [expr]
    itself (the caller compares the two pointers). *)
Definition optimize_double_negation (expr : Expr) : option Expr :=
  match expr with
  | Unary op (Unary inner_op inner_right) =>
      match type op with
      | MINUS | BANG =>
          if TokenType_eqb (type inner_op) (type op) then Some inner_right else None
      | _ => None
      end
  | _ => None
  end.

Definition optimize_comparison_chain (expr : Expr) : option Expr := None.

Definition optimize_boolean_operations (expr : Expr) : option Expr := None.

Definition optimize_expr (expr : Expr) : Pass Expr :=
  match optimize_double_negation expr with
  | Some optimized => (set_modified ;; pret optimized)%pass
  | None =>
      match optimize_boolean_operations expr with
      | Some optimized => (set_modified ;; pret optimized)%pass
      | None => pret expr
      end
  end.

Fixpoint optimize_stmt (stmt : Stmt) : Pass Stmt :=
  match stmt with
  | NullStmt => pret NullStmt
  | ExprStmt e => (e' <- optimize_expr e ;; pret (ExprStmt e'))%pass
  | PrintStmt e kw => (e' <- optimize_expr e ;; pret (PrintStmt e' kw))%pass
  | VarStmt n init =>
      (init' <- pmap_option optimize_expr init ;; pret (VarStmt n init'))%pass
  | Block ss brace =>
      (new_stmts <- pmap optimize_stmt ss ;; pret (Block new_stmts brace))%pass
  | _ => pret stmt
  end.

Definition run (statements : list Stmt) : Pass (list Stmt) :=
  pmap optimize_stmt statements.

End PeepholeOptimizer.

(** ** Optimizer *)
Module Optimizer.

(** [initialize_passes]: the enabled passes, in pipeline order. *)
Definition initialize_passes (config : OptimizerConfig)
  : list (list Stmt -> Pass (list Stmt)) :=
  (if constant_folding config then [ConstantFolder.run] else []) ++
  (if algebraic_simplification config then [AlgebraicSimplifier.run] else []) ++
  (if dead_code_elimination config then [DeadCodeEliminator.run] else []) ++
  (if common_subexpression_elimination config
   then [CommonSubexpressionEliminator.run] else []) ++
  (if loop_unrolling config || loop_invariant_code_motion config
   then [LoopOptimizer.run config] else []) ++
  (if strength_reduction config then [StrengthReducer.run] else []) ++
  (if function_inlining config then [FunctionInliner.run] else []) ++
  (if peephole_optimization config then [PeepholeOptimizer.run] else []).

(** One sweep: [for (pass : passes) { current = pass->run(current);
    if (pass->was_modified()) any_modified = true; }]. *)
Fixpoint sweep (passes : list (list Stmt -> Pass (list Stmt)))
         (current : list Stmt) : Pass (list Stmt) :=
  match passes with
  | [] => pret current
  | pass :: rest => (next <- pass current ;; sweep rest next)%pass
  end.

(** The [while (iteration < max_iterations)] loop, by the number of
    iterations left. *)
Fixpoint iterate (remaining : nat) (passes : list (list Stmt -> Pass (list Stmt)))
         (current : list Stmt) : list Stmt :=
  match remaining with
  | O => current
  | S k =>
      let '(next, any_modified) := sweep passes current in
      if any_modified then iterate k passes next else next
  end.

Definition max_iterations : nat := 10.

Definition optimize (config : OptimizerConfig) (statements : list Stmt)
  : list Stmt :=
  iterate max_iterations (initialize_passes config) statements.

End Optimizer.

(* ===================================================================== *)
(** * The memory-safety analyzer (src/memory_analyzer)                   *)
(* ===================================================================== *)

Module MemoryState.
Inductive t := UNINITIALIZED | ALLOCATED | FREED | INVALID | UNKNOWN.

Definition eqb (a b : t) : bool :=
  match a, b with
  | UNINITIALIZED, UNINITIALIZED | ALLOCATED, ALLOCATED | FREED, FREED
  | INVALID, INVALID | UNKNOWN, UNKNOWN => true
  | _, _ => false
  end.
End MemoryState.

Module PointerState.
Inductive t := NULL_PTR | VALID | DANGLING | UNKNOWN.
End PointerState.

Definition memory_state_to_string (state : MemoryState.t) : string :=
  match state with
  | MemoryState.UNINITIALIZED => "uninitialized"
  | MemoryState.ALLOCATED => "allocated"
  | MemoryState.FREED => "freed"
  | MemoryState.INVALID => "invalid"
  | MemoryState.UNKNOWN => "unknown"
  end.

(** [size_expr] is a [std::optional<ExprPtr>]: the outer option is the
    optional, the inner one the pointer (which the allocation site leaves
    null when the call has no argument). *)
Record AllocationInfo := mkAllocationInfo {
  var_name : string;
  allocation_token : Token;
  state : MemoryState.t;
  freed_at : option Token;
  size_expr : option (option Expr);
  is_array : bool;
  ref_count : Z;
  aliases : gset string
}.

(** [AllocationInfo(name, token, s, array)]. *)
Definition new_AllocationInfo (name : string) (token : Token)
           (s : MemoryState.t) (array : bool) : AllocationInfo :=
  mkAllocationInfo name token s None None array 0 ∅.

(** [AllocationInfo::operator==]. *)
Definition AllocationInfo_eqb (a b : AllocationInfo) : bool :=
  String.eqb (var_name a) (var_name b)
  && MemoryState.eqb (state a) (state b)
  && Bool.eqb (is_array a) (is_array b)
  && (ref_count a =? ref_count b).

Definition set_state (s : MemoryState.t) (a : AllocationInfo) : AllocationInfo :=
  mkAllocationInfo (var_name a) (allocation_token a) s (freed_at a) (size_expr a)
                   (is_array a) (ref_count a) (aliases a).

Definition set_freed_at (t : Token) (a : AllocationInfo) : AllocationInfo :=
  mkAllocationInfo (var_name a) (allocation_token a) (state a) (Some t) (size_expr a)
                   (is_array a) (ref_count a) (aliases a).

Definition set_size_expr (e : option Expr) (a : AllocationInfo) : AllocationInfo :=
  mkAllocationInfo (var_name a) (allocation_token a) (state a) (freed_at a) (Some e)
                   (is_array a) (ref_count a) (aliases a).

(** [ref_count++; aliases.insert(alias)]. *)
Definition add_alias (alias : string) (a : AllocationInfo) : AllocationInfo :=
  mkAllocationInfo (var_name a) (allocation_token a) (state a) (freed_at a)
                   (size_expr a) (is_array a) (ref_count a + 1)
                   ({[alias]} ∪ aliases a).

Record PointerInfo := mkPointerInfo {
  p_var_name : string;
  declaration_token : Token;
  pointee_type : string;
  p_state : PointerState.t;
  points_to : option string;
  level : Z
}.

Definition set_p_state (s : PointerState.t) (p : PointerInfo) : PointerInfo :=
  mkPointerInfo (p_var_name p) (declaration_token p) (pointee_type p) s
                (points_to p) (level p).

Module NodeType.
Inductive t :=
| ENTRY | EXIT | STATEMENT | BRANCH | MERGE | LOOP_HEADER | LOOP_BODY
| LOOP_EXIT | FUNCTION_CALL | FUNCTION_RETURN.
End NodeType.

(** A [CFGNodePtr] is the index of the node in [cfg_nodes], the vector that
    owns every node ever created; [None] is the null pointer. *)
Definition CFGNodePtr := nat.

Record ControlFlowNode := mkControlFlowNode {
  node_type : NodeType.t;
  statement : Stmt;
  expression : option Expr;
  successors : list CFGNodePtr;
  predecessors : list CFGNodePtr;
  allocations_in : gmap string AllocationInfo;
  allocations_out : gmap string AllocationInfo;
  freed_vars : gset string;
  node_id : Z
}.

(** [ControlFlowNode(t, id)]. *)
Definition new_ControlFlowNode (t : NodeType.t) (id : Z) : ControlFlowNode :=
  mkControlFlowNode t NullStmt None [] [] ∅ ∅ ∅ id.

Definition set_statement (s : Stmt) (n : ControlFlowNode) : ControlFlowNode :=
  mkControlFlowNode (node_type n) s (expression n) (successors n) (predecessors n)
    (allocations_in n) (allocations_out n) (freed_vars n) (node_id n).
Definition set_expression (e : option Expr) (n : ControlFlowNode) : ControlFlowNode :=
  mkControlFlowNode (node_type n) (statement n) e (successors n) (predecessors n)
    (allocations_in n) (allocations_out n) (freed_vars n) (node_id n).
Definition push_successor (to : CFGNodePtr) (n : ControlFlowNode) : ControlFlowNode :=
  mkControlFlowNode (node_type n) (statement n) (expression n) (successors n ++ [to])
    (predecessors n) (allocations_in n) (allocations_out n) (freed_vars n) (node_id n).
Definition push_predecessor (from : CFGNodePtr) (n : ControlFlowNode)
  : ControlFlowNode :=
  mkControlFlowNode (node_type n) (statement n) (expression n) (successors n)
    (predecessors n ++ [from]) (allocations_in n) (allocations_out n) (freed_vars n)
    (node_id n).
Definition set_flow (ins outs : gmap string AllocationInfo) (freed : gset string)
           (n : ControlFlowNode) : ControlFlowNode :=
  mkControlFlowNode (node_type n) (statement n) (expression n) (successors n)
    (predecessors n) ins outs freed (node_id n).

Record ControlFlowPath := mkControlFlowPath {
  nodes : list CFGNodePtr;
  final_allocations : gmap string AllocationInfo;
  path_freed_vars : gset string;
  is_feasible : bool
}.

Record MemorySafetyError := mkMemorySafetyError {
  message : string;
  token : Token;
  hint : option string;
  error_type : string
}.

(** The constructor's default [err_type]. *)
Definition default_error_type : string := "MEMORY SAFETY ERROR".

(** The members of [class MemorySafetyAnalyzer].  The two scope vectors are
    kept with their [back()] first. *)
Record MemorySafetyAnalyzer := mkAnalyzer {
  allocations : gmap string AllocationInfo;
  pointers : gmap string PointerInfo;
  current_scope_vars : list (gset string);
  freed_in_scope : list (gset string);
  errors : list MemorySafetyError;
  warnings : list string;
  strict_mode : bool;
  next_cfg_node_id : Z;
  cfg_nodes : list ControlFlowNode;
  function_entry_nodes : gmap string CFGNodePtr;
  function_exit_nodes : gmap string CFGNodePtr
}.

(** [MemorySafetyAnalyzer::MemorySafetyAnalyzer()]. *)
Definition new_MemorySafetyAnalyzer : MemorySafetyAnalyzer :=
  mkAnalyzer ∅ ∅ [∅] [∅] [] [] true 0 [] ∅ ∅.

Section Setters.
Variable st : MemorySafetyAnalyzer.

Definition with_allocations (v : gmap string AllocationInfo) :=
  mkAnalyzer v (pointers st) (current_scope_vars st) (freed_in_scope st)
    (errors st) (warnings st) (strict_mode st) (next_cfg_node_id st)
    (cfg_nodes st) (function_entry_nodes st) (function_exit_nodes st).
Definition with_pointers (v : gmap string PointerInfo) :=
  mkAnalyzer (allocations st) v (current_scope_vars st) (freed_in_scope st)
    (errors st) (warnings st) (strict_mode st) (next_cfg_node_id st)
    (cfg_nodes st) (function_entry_nodes st) (function_exit_nodes st).
Definition with_scopes (sv fs : list (gset string)) :=
  mkAnalyzer (allocations st) (pointers st) sv fs
    (errors st) (warnings st) (strict_mode st) (next_cfg_node_id st)
    (cfg_nodes st) (function_entry_nodes st) (function_exit_nodes st).
Definition with_errors (v : list MemorySafetyError) :=
  mkAnalyzer (allocations st) (pointers st) (current_scope_vars st)
    (freed_in_scope st) v (warnings st) (strict_mode st) (next_cfg_node_id st)
    (cfg_nodes st) (function_entry_nodes st) (function_exit_nodes st).
Definition with_warnings (v : list string) :=
  mkAnalyzer (allocations st) (pointers st) (current_scope_vars st)
    (freed_in_scope st) (errors st) v (strict_mode st) (next_cfg_node_id st)
    (cfg_nodes st) (function_entry_nodes st) (function_exit_nodes st).
Definition with_strict_mode (v : bool) :=
  mkAnalyzer (allocations st) (pointers st) (current_scope_vars st)
    (freed_in_scope st) (errors st) (warnings st) v (next_cfg_node_id st)
    (cfg_nodes st) (function_entry_nodes st) (function_exit_nodes st).
Definition with_cfg (next : Z) (v : list ControlFlowNode) :=
  mkAnalyzer (allocations st) (pointers st) (current_scope_vars st)
    (freed_in_scope st) (errors st) (warnings st) (strict_mode st) next
    v (function_entry_nodes st) (function_exit_nodes st).
Definition with_function_nodes (en ex : gmap string CFGNodePtr) :=
  mkAnalyzer (allocations st) (pointers st) (current_scope_vars st)
    (freed_in_scope st) (errors st) (warnings st) (strict_mode st)
    (next_cfg_node_id st) (cfg_nodes st) en ex.
End Setters.

(** ** The state-and-exception monad of the analyzer's member functions *)

Inductive Outcome (A : Type) :=
| Done (a : A) (st : MemorySafetyAnalyzer)
| Throw (e : MemorySafetyError) (st : MemorySafetyAnalyzer)
| OutOfFuel.
Arguments Done {A} _ _.
Arguments Throw {A} _ _.
Arguments OutOfFuel {A}.

Definition M (A : Type) : Type := MemorySafetyAnalyzer -> Outcome A.

Definition aret {A} (a : A) : M A := fun st => Done a st.

Definition abind {A B} (m : M A) (f : A -> M B) : M B :=
  fun st =>
    match m st with
    | Done a st' => f a st'
    | Throw e st' => Throw e st'
    | OutOfFuel => OutOfFuel
    end.

Definition throw {A} (e : MemorySafetyError) : M A := fun st => Throw e st.
Definition get : M MemorySafetyAnalyzer := fun st => Done st st.
Definition modify (f : MemorySafetyAnalyzer -> MemorySafetyAnalyzer) : M unit :=
  fun st => Done tt (f st).
Definition out_of_fuel {A} : M A := fun _ => OutOfFuel.

Declare Scope analyzer_scope.
Delimit Scope analyzer_scope with analyzer.
Notation "x <- m ;; k" := (abind m (fun x => k))
  (at level 20, m at level 99, k at level 200, only parsing) : analyzer_scope.
Notation "m ;; k" := (abind m (fun _ => k))
  (at level 100, k at level 200, only parsing, right associativity) : analyzer_scope.

(** [for (const auto& x : xs) body(x);] *)
Definition for_each {A} (body : A -> M unit) : list A -> M unit :=
  fix go (l : list A) : M unit :=
    match l with
    | [] => aret tt
    | x :: l' => (body x ;; go l')%analyzer
    end.

Definition when (b : bool) (m : M unit) : M unit := if b then m else aret tt.

(** [warnings.push_back(w)]. *)
Definition push_warning (w : string) : M unit :=
  modify (fun st => with_warnings st (warnings st ++ [w])).

Definition back (v : list (gset string)) : gset string :=
  match v with s :: _ => s | [] => ∅ end.

Definition back_insert (x : string) (v : list (gset string)) : list (gset string) :=
  match v with s :: rest => ({[x]} ∪ s) :: rest | [] => [] end.

Definition is_allocator (func_name : string) : bool :=
  String.eqb func_name "malloc" || String.eqb func_name "calloc"
  || String.eqb func_name "realloc".

Module Analyzer.
Import MemoryState.

Definition enter_scope : M unit :=
  modify (fun st =>
            with_scopes st (∅ :: current_scope_vars st) (∅ :: freed_in_scope st)).

Definition exit_scope : M unit :=
  (st <- get ;;
   if (1 <? length (current_scope_vars st))%nat then
     let scope_vars := back (current_scope_vars st) in
     let freed := back (freed_in_scope st) in
     modify (fun st =>
               with_scopes st (tail (current_scope_vars st))
                           (tail (freed_in_scope st))) ;;
     for_each
       (fun var =>
          st <- get ;;
          match allocations st !! var with
          | Some alloc =>
              if MemoryState.eqb (state alloc) ALLOCATED
                 && negb (bool_decide (var ∈ freed))
              then
                if strict_mode st then
                  throw (mkMemorySafetyError
                           ("Memory leak: Variable '" +:+ var
                            +:+ "' goes out of scope without being freed")
                           (allocation_token alloc)
                           (Some ("Add 'free(" +:+ var
                                  +:+ ");' before the end of this scope"))
                           "MEMORY LEAK")
                else push_warning ("Potential memory leak: " +:+ var)
              else aret tt
          | None => aret tt
          end)
       (elements scope_vars)
   else aret tt)%analyzer.

Definition check_variable_access (name : Token) : M (option string) :=
  (let var_name := lexeme name in
   st <- get ;;
   match allocations st !! var_name with
   | Some alloc =>
       if MemoryState.eqb (state alloc) FREED then
         throw (mkMemorySafetyError
                  ("Use-after-free: Accessing freed memory '" +:+ var_name +:+ "'")
                  name
                  (Some match freed_at alloc with
                        | Some t => "Memory was freed at line " +:+ pretty (line t)
                        | None => "Memory was freed"
                        end)
                  "USE-AFTER-FREE")
       else aret tt
   | None => aret tt
   end ;;
   match pointers st !! var_name with
   | Some ptr_info =>
       match p_state ptr_info with
       | PointerState.DANGLING =>
           push_warning ("Warning: Accessing dangling pointer '" +:+ var_name
                         +:+ "' at line " +:+ pretty (line name))
       | _ => aret tt
       end
   | None => aret tt
   end ;;
   aret (Some var_name))%analyzer.

Definition update_pointer_states_on_free (var : string) : M unit :=
  modify (fun st =>
            match allocations st !! var with
            | Some alloc =>
                with_pointers st
                  (fold_left
                     (fun ptrs alias =>
                        alter (set_p_state PointerState.DANGLING) alias ptrs)
                     (elements (aliases alloc)) (pointers st))
            | None => st
            end).

(** The [free] branch of [analyze_call], once the callee is known to be
    the variable [free]. *)
Definition analyze_free (paren : Token) (arguments : list Expr)
  : M (option string) :=
  (when (negb (length arguments =? 1)%nat)
     (throw (mkMemorySafetyError
               ("free() expects exactly 1 argument, got "
                +:+ pretty (Z.of_nat (length arguments)))
               paren (Some "Usage: free(pointer);") default_error_type)) ;;
   match arguments with
   | Variable_ arg_var :: _ =>
       let var_name := lexeme arg_var in
       st <- get ;;
       match allocations st !! var_name with
       | None =>
           throw (mkMemorySafetyError
                    ("Attempting to free non-allocated memory: '" +:+ var_name
                     +:+ "'")
                    arg_var
                    (Some "Only pointers returned by malloc/calloc/realloc can be freed")
                    "INVALID FREE")
       | Some alloc =>
           when (MemoryState.eqb (state alloc) FREED)
             (throw (mkMemorySafetyError
                       ("Double-free detected: '" +:+ var_name
                        +:+ "' has already been freed")
                       arg_var
                       (Some match freed_at alloc with
                             | Some t =>
                                 "Previously freed at line " +:+ pretty (line t)
                             | None => "Previously freed"
                             end)
                       "DOUBLE-FREE")) ;;
           when (negb (MemoryState.eqb (state alloc) ALLOCATED))
             (throw (mkMemorySafetyError
                       ("Attempting to free memory in invalid state: '"
                        +:+ var_name +:+ "'")
                       arg_var
                       (Some ("Current state: "
                              +:+ memory_state_to_string (state alloc)))
                       default_error_type)) ;;
           modify (fun st =>
                     with_scopes
                       (with_allocations st
                          (<[var_name := set_freed_at arg_var (set_state FREED alloc)]>
                             (allocations st)))
                       (current_scope_vars st)
                       (back_insert var_name (freed_in_scope st))) ;;
           update_pointer_states_on_free var_name
       end
   | _ => aret tt
   end ;;
   aret None)%analyzer.

(** The [deref] branch of [analyze_call]. *)
Definition analyze_deref (paren : Token) (arguments : list Expr) : M unit :=
  (when (negb (length arguments =? 1)%nat)
     (throw (mkMemorySafetyError
               ("deref() expects exactly 1 argument, got "
                +:+ pretty (Z.of_nat (length arguments)))
               paren (Some "Usage: deref(pointer);") default_error_type)) ;;
   match arguments with
   | Variable_ arg_var :: _ =>
       let var_name := lexeme arg_var in
       st <- get ;;
       match allocations st !! var_name with
       | Some alloc =>
           when (MemoryState.eqb (state alloc) FREED)
             (throw (mkMemorySafetyError
                       ("Use-after-free: Dereferencing freed pointer '"
                        +:+ var_name +:+ "'")
                       arg_var
                       (Some match freed_at alloc with
                             | Some t =>
                                 "Pointer was freed at line " +:+ pretty (line t)
                             | None => "Pointer was freed"
                             end)
                       "USE-AFTER-FREE")) ;;
           when (MemoryState.eqb (state alloc) UNINITIALIZED)
             (throw (mkMemorySafetyError
                       ("Dereferencing uninitialized pointer '" +:+ var_name
                        +:+ "'")
                       arg_var
                       (Some "Initialize the pointer before dereferencing")
                       default_error_type))
       | None => aret tt
       end ;;
       match pointers st !! var_name with
       | Some ptr_info =>
           match p_state ptr_info with
           | PointerState.DANGLING =>
               throw (mkMemorySafetyError
                        ("Use-after-free: Dereferencing dangling pointer '"
                         +:+ var_name +:+ "'")
                        arg_var
                        (Some "The memory this pointer refers to has been freed")
                        "USE-AFTER-FREE")
           | PointerState.NULL_PTR =>
               throw (mkMemorySafetyError
                        ("Null pointer dereference: '" +:+ var_name +:+ "' is null")
                        arg_var
                        (Some "Check if pointer is null before dereferencing")
                        "NULL POINTER DEREFERENCE")
           | _ => aret tt
           end
       | None => aret tt
       end
   | _ => aret tt
   end)%analyzer.

Definition is_memory_primitive (func_name : string) : bool :=
  String.eqb func_name "free" || String.eqb func_name "deref"
  || String.eqb func_name "malloc" || String.eqb func_name "calloc"
  || String.eqb func_name "realloc" || String.eqb func_name "addr_of".

(** [analyze_call], over the function it calls on the arguments. *)
Definition analyze_call_with (analyze_expr : Expr -> M (option string))
           (callee : Expr) (paren : Token) (arguments : list Expr)
  : M (option string) :=
  match callee with
  | Variable_ callee_var =>
      let func_name := lexeme callee_var in
      if String.eqb func_name "free" then analyze_free paren arguments
      else
        (when (String.eqb func_name "deref") (analyze_deref paren arguments) ;;
         when (negb (is_memory_primitive func_name))
           (for_each (fun arg => analyze_expr arg ;; aret tt) arguments) ;;
         aret None)%analyzer
  | _ => aret None
  end.

(** The callee test of [analyze_assign] and [analyze_var_stmt]. *)
Definition is_allocator_call (value : Expr) : bool :=
  match value with
  | Call (Variable_ callee_var) _ _ => is_allocator (lexeme callee_var)
  | _ => false
  end.

Fixpoint analyze_expr (expr : Expr) : M (option string) :=
  match expr with
  | Call callee paren arguments =>
      analyze_call_with analyze_expr callee paren arguments
  | Variable_ name => check_variable_access name
  | Assign name value =>
      (* analyze_assign *)
      (let var_name := lexeme name in
       st <- get ;;
       match allocations st !! var_name with
       | Some alloc =>
           when (MemoryState.eqb (state alloc) ALLOCATED && is_allocator_call value)
             (throw (mkMemorySafetyError
                       ("Memory leak: Reassigning '" +:+ var_name
                        +:+ "' without freeing previous allocation")
                       name
                       (Some ("Free the previous allocation first: free("
                              +:+ var_name +:+ ");"))
                       "MEMORY LEAK"))
       | None => aret tt
       end ;;
       analyze_expr value ;;
       aret None)%analyzer
  | Binary l _ r => (analyze_expr l ;; analyze_expr r ;; aret None)%analyzer
  | Unary _ r => (* analyze_unary *) (analyze_expr r ;; aret None)%analyzer
  | Grouping e => analyze_expr e
  | Logical l _ r => (analyze_expr l ;; analyze_expr r ;; aret None)%analyzer
  | ArrayLiteral elements _ =>
      (for_each (fun elem => analyze_expr elem ;; aret tt) elements ;;
       aret None)%analyzer
  | IndexGet a i _ => (analyze_expr a ;; analyze_expr i ;; aret None)%analyzer
  | IndexSet a i v _ =>
      (analyze_expr a ;; analyze_expr i ;; analyze_expr v ;; aret None)%analyzer
  | _ => aret None
  end.

Definition analyze_call (callee : Expr) (paren : Token) (arguments : list Expr)
  : M (option string) :=
  analyze_call_with analyze_expr callee paren arguments.

Definition analyze_var_stmt (name : Token) (initializer : option Expr) : M unit :=
  (let var_name := lexeme name in
   modify (fun st =>
             with_scopes st (back_insert var_name (current_scope_vars st))
                         (freed_in_scope st)) ;;
   match initializer with
   | Some init =>
       analyze_expr init ;;
       match init with
       | Call (Variable_ callee_var) _ arguments =>
           let func_name := lexeme callee_var in
           if is_allocator func_name then
             st <- get ;;
             match allocations st !! var_name with
             | Some old_alloc =>
                 when (MemoryState.eqb (state old_alloc) ALLOCATED)
                   (throw (mkMemorySafetyError
                             ("Memory leak: '" +:+ var_name
                              +:+ "' is being reassigned without freeing previous allocation")
                             name
                             (Some ("Free the previous allocation first: free("
                                    +:+ var_name +:+ ");"))
                             "MEMORY LEAK"))
             | None => aret tt
             end ;;
             let size_expr := match arguments with a :: _ => Some a | [] => None end in
             let alloc_info :=
               set_size_expr size_expr
                 (new_AllocationInfo var_name name ALLOCATED
                                     (String.eqb func_name "calloc")) in
             modify (fun st =>
                       with_allocations st (<[var_name := alloc_info]> (allocations st)))
           else if String.eqb func_name "addr_of" then
             match arguments with
             | Variable_ arg_var :: _ =>
                 let target_var := lexeme arg_var in
                 let ptr_info :=
                   mkPointerInfo var_name name "number" PointerState.VALID
                                 (Some target_var) 1 in
                 modify (fun st =>
                           with_pointers st (<[var_name := ptr_info]> (pointers st))) ;;
                 modify (fun st =>
                           with_allocations st
                             (alter (add_alias var_name) target_var (allocations st)))
             | _ => aret tt
             end
           else aret tt
       | _ => aret tt
       end
   | None => aret tt
   end)%analyzer.

Definition check_function_memory_leaks (func_name : Token) : M unit :=
  (st <- get ;;
   for_each
     (fun '(var, alloc) =>
        st <- get ;;
        when (MemoryState.eqb (state alloc) ALLOCATED && strict_mode st)
          (throw (mkMemorySafetyError
                    ("Memory leak in function '" +:+ lexeme func_name
                     +:+ "': Variable '" +:+ var +:+ "' is not freed before return")
                    (allocation_token alloc)
                    (Some ("Add 'free(" +:+ var +:+ ");' before all return statements"))
                    "MEMORY LEAK")))
     (map_to_list (allocations st)))%analyzer.

Definition check_memory_leaks : M unit :=
  (st <- get ;;
   for_each
     (fun '(var, alloc) =>
        st <- get ;;
        when (MemoryState.eqb (state alloc) ALLOCATED)
          (if strict_mode st then
             throw (mkMemorySafetyError
                      ("Memory leak: Variable '" +:+ var +:+ "' is never freed")
                      (allocation_token alloc)
                      (Some ("Add 'free(" +:+ var +:+ ");' before program exit"))
                      "MEMORY LEAK")
           else
             push_warning ("Warning: Potential memory leak - '" +:+ var
                           +:+ "' may not be freed")))
     (map_to_list (allocations st)))%analyzer.

(** ** Control-flow graph *)

(** The node a pointer designates.  Nodes are never removed from
    [cfg_nodes], so a pointer handed out by [create_cfg_node] stays valid;
    the default is never reached. *)
Definition node_at (cfg : list ControlFlowNode) (p : CFGNodePtr) : ControlFlowNode :=
  default (new_ControlFlowNode NodeType.ENTRY (-1)) (cfg !! p).

Definition update_node (p : CFGNodePtr) (f : ControlFlowNode -> ControlFlowNode)
  : M unit :=
  modify (fun st => with_cfg st (next_cfg_node_id st) (alter f p (cfg_nodes st))).

Definition create_cfg_node (t : NodeType.t) : M CFGNodePtr :=
  fun st =>
    Done (length (cfg_nodes st))
         (with_cfg st (next_cfg_node_id st + 1)
                   (cfg_nodes st ++ [new_ControlFlowNode t (next_cfg_node_id st)])).

Definition connect_cfg_nodes (from to : CFGNodePtr) : M unit :=
  (update_node from (push_successor to) ;;
   update_node to (push_predecessor from))%analyzer.

(** [build_cfg_block], over the function it calls on each statement. *)
Definition build_cfg_block_with
           (build_cfg_stmt : Stmt -> CFGNodePtr -> M (option CFGNodePtr))
           (statements : list Stmt) (exit_node : CFGNodePtr)
  : M (option CFGNodePtr) :=
  match statements with
  | [] => aret None
  | _ =>
      (r <-
         (fix go (l : list Stmt) (first_node prev_node : option CFGNodePtr)
            : M (option CFGNodePtr * option CFGNodePtr) :=
            match l with
            | [] => aret (first_node, prev_node)
            | stmt :: l' =>
                stmt_node <- build_cfg_stmt stmt exit_node ;;
                let first_node' :=
                  match first_node with None => stmt_node | Some _ => first_node end in
                match prev_node, stmt_node with
                | Some p, Some n => connect_cfg_nodes p n
                | _, _ => aret tt
                end ;;
                go l' first_node' stmt_node
            end) statements None None ;;
       let '(first_node, prev_node) := r in
       match prev_node with
       | Some p => connect_cfg_nodes p exit_node
       | None => aret tt
       end ;;
       aret first_node)%analyzer
  end.

Fixpoint build_cfg_stmt (stmt : Stmt) (exit_node : CFGNodePtr)
  : M (option CFGNodePtr) :=
  match stmt with
  | IfStmt condition then_branch else_branch _ =>
      (branch_node <- create_cfg_node NodeType.BRANCH ;;
       update_node branch_node (set_statement stmt) ;;
       update_node branch_node (set_expression (Some condition)) ;;
       merge_node <- create_cfg_node NodeType.MERGE ;;
       then_body <- build_cfg_stmt then_branch merge_node ;;
       connect_cfg_nodes branch_node (default merge_node then_body) ;;
       match else_branch with
       | Some els =>
           else_body <- build_cfg_stmt els merge_node ;;
           connect_cfg_nodes branch_node (default merge_node else_body)
       | None => connect_cfg_nodes branch_node merge_node
       end ;;
       aret (Some branch_node))%analyzer
  | WhileStmt condition body _ =>
      (loop_header <- create_cfg_node NodeType.LOOP_HEADER ;;
       update_node loop_header (set_statement stmt) ;;
       update_node loop_header (set_expression (Some condition)) ;;
       loop_exit <- create_cfg_node NodeType.LOOP_EXIT ;;
       loop_body <- build_cfg_stmt body loop_header ;;
       match loop_body with
       | Some b => connect_cfg_nodes loop_header b
       | None => connect_cfg_nodes loop_header loop_header
       end ;;
       connect_cfg_nodes loop_header loop_exit ;;
       aret (Some loop_header))%analyzer
  | Block statements _ => build_cfg_block_with build_cfg_stmt statements exit_node
  | _ =>
      (stmt_node <- create_cfg_node NodeType.STATEMENT ;;
       update_node stmt_node (set_statement stmt) ;;
       aret (Some stmt_node))%analyzer
  end.

Definition build_cfg_block (statements : list Stmt) (exit_node : CFGNodePtr)
  : M (option CFGNodePtr) :=
  build_cfg_block_with build_cfg_stmt statements exit_node.

Definition build_cfg (statements : list Stmt) : M (option CFGNodePtr) :=
  match statements with
  | [] => aret None
  | _ =>
      (entry <- create_cfg_node NodeType.ENTRY ;;
       exit <- create_cfg_node NodeType.EXIT ;;
       body <- build_cfg_block statements exit ;;
       connect_cfg_nodes entry (default exit body) ;;
       aret (Some entry))%analyzer
  end.

(** ** Dataflow *)

(** The first loop of [propagate_allocations]: every record of every
    predecessor's out-map is assigned into [allocations_in], predecessors
    in list order, so a later predecessor overwrites an earlier one. *)
Definition incoming (cfg : list ControlFlowNode) (preds : list CFGNodePtr)
  : gmap string AllocationInfo :=
  fold_left (fun acc pred => allocations_out (node_at cfg pred) ∪ acc) preds ∅.

(** The second half of [propagate_allocations]: the effect of the node's
    statement on [allocations_out] and [freed_vars]. *)
Definition transfer (stmt : Stmt)
           (out : gmap string AllocationInfo) (freed : gset string)
  : gmap string AllocationInfo * gset string :=
  match stmt with
  | VarStmt name (Some (Call (Variable_ callee) _ _)) =>
      if is_allocator (lexeme callee)
      then (<[lexeme name := new_AllocationInfo (lexeme name) name ALLOCATED false]> out,
            freed)
      else (out, freed)
  | ExprStmt (Call (Variable_ callee) _ (Variable_ arg :: _)) =>
      if String.eqb (lexeme callee) "free" then
        match out !! lexeme arg with
        | Some a => (<[lexeme arg := set_state FREED a]> out, {[lexeme arg]} ∪ freed)
        | None => (out, freed)
        end
      else (out, freed)
  | _ => (out, freed)
  end.

Definition propagate_node (cfg : list ControlFlowNode) (n : ControlFlowNode)
  : ControlFlowNode :=
  let ins := incoming cfg (predecessors n) in
  let '(outs, freed) := transfer (statement n) ins (freed_vars n) in
  set_flow ins outs freed n.

Definition propagate_allocations (node : CFGNodePtr) : M unit :=
  modify (fun st =>
            with_cfg st (next_cfg_node_id st)
                     (alter (propagate_node (cfg_nodes st)) node (cfg_nodes st))).

Fixpoint analyze_memory_dependencies (expr : Expr) (deps : gset string)
  : gset string :=
  match expr with
  | Variable_ n => {[lexeme n]} ∪ deps
  | Binary l _ r => analyze_memory_dependencies r (analyze_memory_dependencies l deps)
  | Unary _ r => analyze_memory_dependencies r deps
  | Call _ _ args =>
      fold_left (fun acc a => analyze_memory_dependencies a acc) args deps
  | Grouping e => analyze_memory_dependencies e deps
  | IndexGet a i _ =>
      analyze_memory_dependencies i (analyze_memory_dependencies a deps)
  | IndexSet a i v _ =>
      analyze_memory_dependencies v
        (analyze_memory_dependencies i (analyze_memory_dependencies a deps))
  | _ => deps
  end.

Definition accessed_vars_of (stmt : Stmt) : gset string :=
  match stmt with
  | ExprStmt e => analyze_memory_dependencies e ∅
  | PrintStmt e _ => analyze_memory_dependencies e ∅
  | IfStmt c _ _ _ => analyze_memory_dependencies c ∅
  | WhileStmt c _ _ => analyze_memory_dependencies c ∅
  | ReturnStmt _ (Some v) => analyze_memory_dependencies v ∅
  | _ => ∅
  end.

Definition detect_memory_access_patterns (node : CFGNodePtr) : M unit :=
  (st <- get ;;
   let n := node_at (cfg_nodes st) node in
   match statement n with
   | NullStmt => aret tt
   | stmt =>
       for_each
         (fun var =>
            match allocations_in n !! var with
            | Some a =>
                when (MemoryState.eqb (state a) FREED)
                  (push_warning ("Potential use-after-free of '" +:+ var
                                 +:+ "' in CFG node " +:+ pretty (node_id n)))
            | None => aret tt
            end)
         (elements (accessed_vars_of stmt))
   end)%analyzer.

(** [operator!=] of two [unordered_map<string, AllocationInfo>], negated. *)
Definition allocation_maps_equal (a b : gmap string AllocationInfo) : bool :=
  (size a =? size b)%nat
  && forallb (fun '(k, x) =>
                match b !! k with
                | Some y => AllocationInfo_eqb x y
                | None => false
                end)
             (map_to_list a).

(** The body of [for (succ : node->successors)]: push the successors that
    are not in the worklist yet. *)
Fixpoint enqueue (cfg : list ControlFlowNode) (succs : list CFGNodePtr)
         (worklist : list CFGNodePtr) (in_worklist : gset Z)
  : list CFGNodePtr * gset Z :=
  match succs with
  | [] => (worklist, in_worklist)
  | succ :: rest =>
      let id := node_id (node_at cfg succ) in
      if bool_decide (id ∈ in_worklist)
      then enqueue cfg rest worklist in_worklist
      else enqueue cfg rest (worklist ++ [succ]) ({[id]} ∪ in_worklist)
  end.

(** The [while (!worklist.empty())] loop; [fuel] bounds the number of
    nodes taken off the queue. *)
Fixpoint dataflow_loop (fuel : nat) (worklist : list CFGNodePtr)
         (in_worklist : gset Z) : M unit :=
  match worklist with
  | [] => aret tt
  | node :: rest =>
      match fuel with
      | O => out_of_fuel
      | S fuel' =>
          (st <- get ;;
           let n := node_at (cfg_nodes st) node in
           let in_worklist := in_worklist ∖ {[node_id n]} in
           let old_out := allocations_out n in
           propagate_allocations node ;;
           detect_memory_access_patterns node ;;
           st' <- get ;;
           let n' := node_at (cfg_nodes st') node in
           if negb (allocation_maps_equal (allocations_out n') old_out) then
             let '(wl, inw) := enqueue (cfg_nodes st') (successors n') rest in_worklist in
             dataflow_loop fuel' wl inw
           else dataflow_loop fuel' rest in_worklist)%analyzer
      end
  end.

Definition perform_dataflow_analysis (fuel : nat) (entry : option CFGNodePtr)
  : M unit :=
  match entry with
  | None => aret tt
  | Some e =>
      (st <- get ;;
       dataflow_loop fuel [e] {[node_id (node_at (cfg_nodes st) e)]})%analyzer
  end.

(** ** Path enumeration *)

Definition MAX_PATHS : nat := 10000.
Definition MAX_PATH_DEPTH : nat := 1000.

(** [enumerate_paths_recursive]; [visited] and [current_path] are restored
    on return, [all_paths] is the accumulated output.  A call recurses
    only while [current_path] is shorter than [MAX_PATH_DEPTH], so
    [depth = MAX_PATH_DEPTH + 1] calls deep is never exceeded. *)
Fixpoint enumerate_paths_recursive (depth : nat) (cfg : list ControlFlowNode)
         (current exit : CFGNodePtr) (current_path : list CFGNodePtr)
         (visited : gset Z) (all_paths : list ControlFlowPath)
  : list ControlFlowPath :=
  match depth with
  | O => all_paths
  | S depth' =>
      let n := node_at cfg current in
      if (MAX_PATHS <=? length all_paths)%nat then all_paths
      else if bool_decide (node_id n ∈ visited) then all_paths
      else if (MAX_PATH_DEPTH <=? length current_path)%nat then all_paths
      else
        let current_path := current_path ++ [current] in
        let visited := {[node_id n]} ∪ visited in
        if (current =? exit)%nat then
          all_paths ++ [mkControlFlowPath current_path (allocations_out n)
                                          (freed_vars n) true]
        else
          fold_left
            (fun acc succ =>
               enumerate_paths_recursive depth' cfg succ exit current_path visited acc)
            (successors n) all_paths
  end.

Definition enumerate_all_paths (cfg : list ControlFlowNode)
           (entry exit : CFGNodePtr) : list ControlFlowPath :=
  enumerate_paths_recursive (S MAX_PATH_DEPTH) cfg entry exit [] ∅ [].

Definition analyze_path_memory_safety (path : ControlFlowPath) : M unit :=
  if negb (is_feasible path) then aret tt
  else
    for_each
      (fun '(var, alloc) =>
         when (MemoryState.eqb (state alloc) ALLOCATED)
           (push_warning ("Path-sensitive analysis: Potential leak of '" +:+ var
                          +:+ "' along execution path")))
      (map_to_list (final_allocations path)).

Definition perform_interprocedural_analysis (fuel : nat)
           (name : Token) (body : list Stmt) : M unit :=
  (func_entry <- create_cfg_node NodeType.FUNCTION_CALL ;;
   func_exit <- create_cfg_node NodeType.FUNCTION_RETURN ;;
   modify (fun st =>
             with_function_nodes st
               (<[lexeme name := func_entry]> (function_entry_nodes st))
               (<[lexeme name := func_exit]> (function_exit_nodes st))) ;;
   body_node <- build_cfg_block body func_exit ;;
   connect_cfg_nodes func_entry (default func_exit body_node) ;;
   perform_dataflow_analysis fuel (Some func_entry) ;;
   st <- get ;;
   for_each analyze_path_memory_safety
            (enumerate_all_paths (cfg_nodes st) func_entry func_exit))%analyzer.

(** ** The syntactic walk over statements *)

(** The revert loop of [analyze_if_stmt]. *)
Definition revert_then_only (then_freed else_freed : gset string) : M unit :=
  for_each
    (fun var =>
       if bool_decide (var ∈ else_freed) then aret tt
       else
         modify (fun st =>
                   match allocations st !! var with
                   | Some a =>
                       if MemoryState.eqb (state a) FREED
                       then with_allocations st
                              (<[var := set_state ALLOCATED a]> (allocations st))
                       else st
                   | None => st
                   end))
    (elements then_freed).

Fixpoint analyze_stmt (fuel : nat) (stmt : Stmt) : M unit :=
  match stmt with
  | VarStmt name initializer => analyze_var_stmt name initializer
  | ExprStmt e => (analyze_expr e ;; aret tt)%analyzer
  | Block statements _ =>
      (enter_scope ;;
       for_each (analyze_stmt fuel) statements ;;
       exit_scope)%analyzer
  | IfStmt condition then_branch else_branch _ =>
      (analyze_expr condition ;;
       st0 <- get ;;
       let then_allocations := allocations st0 in
       analyze_stmt fuel then_branch ;;
       st1 <- get ;;
       let then_freed := back (freed_in_scope st1) in
       match else_branch with
       | Some els =>
           modify (fun st => with_allocations st then_allocations) ;;
           analyze_stmt fuel els ;;
           st2 <- get ;;
           let else_freed := back (freed_in_scope st2) in
           revert_then_only then_freed else_freed
       | None => aret tt
       end)%analyzer
  | WhileStmt condition body _ =>
      (analyze_expr condition ;;
       enter_scope ;;
       analyze_stmt fuel body ;;
       exit_scope)%analyzer
  | FunctionStmt name _ body =>
      (st0 <- get ;;
       let old_allocations := allocations st0 in
       let old_pointers := pointers st0 in
       modify (fun st => with_pointers (with_allocations st ∅) ∅) ;;
       enter_scope ;;
       for_each (analyze_stmt fuel) body ;;
       check_function_memory_leaks name ;;
       perform_interprocedural_analysis fuel name body ;;
       exit_scope ;;
       modify (fun st => with_pointers (with_allocations st old_allocations)
                                       old_pointers))%analyzer
  | ReturnStmt _ value =>
      match value with
      | Some v => (analyze_expr v ;; aret tt)%analyzer
      | None => aret tt
      end
  | PrintStmt e _ => (analyze_expr e ;; aret tt)%analyzer
  | SwitchStmt _ condition cases default_case =>
      (analyze_expr condition ;;
       for_each
         (fun case_clause : CaseClauseT =>
            let '(CaseClause value statements) := case_clause in
            analyze_expr value ;;
            st <- get ;;
            let case_alloc := allocations st in
            for_each (analyze_stmt fuel) statements ;;
            modify (fun st => with_allocations st case_alloc))
         cases ;;
       match default_case with
       | Some statements => for_each (analyze_stmt fuel) statements
       | None => aret tt
       end)%analyzer
  | UnsafeBlock _ statements =>
      (st0 <- get ;;
       let old_strict := strict_mode st0 in
       modify (fun st => with_strict_mode st false) ;;
       for_each (analyze_stmt fuel) statements ;;
       modify (fun st => with_strict_mode st old_strict))%analyzer
  | _ => aret tt
  end.

(** [bool analyze(statements)]: the verdict and the analyzer afterwards;
    [None] when the worklist loop did not finish within [fuel]. *)
Definition analyze (fuel : nat) (statements : list Stmt)
           (this : MemorySafetyAnalyzer) : option (bool * MemorySafetyAnalyzer) :=
  let st := with_warnings (with_errors this []) [] in
  match (for_each (analyze_stmt fuel) statements ;;
         check_memory_leaks ;;
         cfg_entry <- build_cfg statements ;;
         perform_dataflow_analysis fuel cfg_entry)%analyzer st with
  | Done _ st' =>
      Some (match errors st' with [] => true | _ => false end, st')
  | Throw e st' => Some (false, with_errors st' (errors st' ++ [e]))
  | OutOfFuel => None
  end.

(** [add_error] and [add_warning]: private members with no call site. *)
Definition add_error (error : MemorySafetyError) : M unit :=
  modify (fun st => with_errors st (errors st ++ [error])).

Definition add_warning (warning : string) : M unit := push_warning warning.

End Analyzer.

(* ===================================================================== *)
(** * The parser (src/parser/parser.cpp)                                 *)
(* ===================================================================== *)

Module Parser.

(** [class ParserError]: the token and the message.  The hint text and the
    rendered [what()] string are presentation only and are not modelled. *)
Record ParserError := mkParserError {
  token : Token;
  message : string
}.

(** The members of [class Parser]. *)
Record State := mkState {
  tokens : list Token;
  source : string;
  current : nat;
  errors : list ParserError;
  loop_depth : Z;
  block_depth : Z;
  function_depth : Z;
  in_unsafe_block : bool
}.

(** [Parser(tokens, source)]. *)
Definition new_Parser (tokens : list Token) (source : string) : State :=
  mkState tokens source 0 [] 0 0 0 false.

Definition MAX_ARGUMENTS : nat := 255.
Definition MAX_PARAMETERS : nat := 255.
Definition MAX_LOOP_DEPTH : Z := 100.
Definition MAX_BLOCK_DEPTH : Z := 100.

Definition with_current (st : State) (c : nat) : State :=
  mkState (tokens st) (source st) c (errors st) (loop_depth st) (block_depth st)
          (function_depth st) (in_unsafe_block st).
Definition with_errors (st : State) (e : list ParserError) : State :=
  mkState (tokens st) (source st) (current st) e (loop_depth st) (block_depth st)
          (function_depth st) (in_unsafe_block st).
Definition with_loop_depth (st : State) (d : Z) : State :=
  mkState (tokens st) (source st) (current st) (errors st) d (block_depth st)
          (function_depth st) (in_unsafe_block st).
Definition with_block_depth (st : State) (d : Z) : State :=
  mkState (tokens st) (source st) (current st) (errors st) (loop_depth st) d
          (function_depth st) (in_unsafe_block st).
Definition with_function_depth (st : State) (d : Z) : State :=
  mkState (tokens st) (source st) (current st) (errors st) (loop_depth st)
          (block_depth st) d (in_unsafe_block st).
Definition with_in_unsafe_block (st : State) (b : bool) : State :=
  mkState (tokens st) (source st) (current st) (errors st) (loop_depth st)
          (block_depth st) (function_depth st) b.

(** A member function either returns, or throws a [ParserError]; [NoFuel]
    is the model's own outcome for a recursion cut short. *)
Inductive Result (A : Type) :=
| Ok (a : A) (st : State)
| Raise (e : ParserError) (st : State)
| NoFuel.
Arguments Ok {A} _ _.
Arguments Raise {A} _ _.
Arguments NoFuel {A}.

Definition P (A : Type) : Type := State -> Result A.

Definition ret {A} (a : A) : P A := fun st => Ok a st.
Definition bind {A B} (m : P A) (f : A -> P B) : P B :=
  fun st =>
    match m st with
    | Ok a st' => f a st'
    | Raise e st' => Raise e st'
    | NoFuel => NoFuel
    end.
Definition raise {A} (e : ParserError) : P A := fun st => Raise e st.
Definition no_fuel {A} : P A := fun _ => NoFuel.
Definition gets {A} (f : State -> A) : P A := fun st => Ok (f st) st.
Definition modify (f : State -> State) : P unit := fun st => Ok tt (f st).

(** [try { m } catch (const ParserError& e) { handler }]. *)
Definition try_catch {A} (m : P A) (handler : ParserError -> P A) : P A :=
  fun st =>
    match m st with
    | Raise e st' => handler e st'
    | r => r
    end.

Declare Scope parser_scope.
Delimit Scope parser_scope with parser.
Notation "x <- m ;; k" := (bind m (fun x => k))
  (at level 20, m at level 99, k at level 200, only parsing) : parser_scope.
Notation "m ;; k" := (bind m (fun _ => k))
  (at level 100, k at level 200, only parsing, right associativity) : parser_scope.
Local Open Scope parser_scope.

(** A loop body returns [inl a] to go round again and [inr a] to leave. *)
Fixpoint loop {A} (fuel : nat) (body : A -> P (A + A)) (a : A) : P A :=
  match fuel with
  | O => no_fuel
  | S fuel' =>
      r <- body a ;;
      match r with
      | inl a' => loop fuel' body a'
      | inr a' => ret a'
      end
  end.

(** What the model reads where [tokens[i]] is out of range (undefined in
    C++; [parse] is called on a token list that ends with END_OF_FILE, and
    [advance] never moves past it). *)
Definition no_token : Token := Token4 END_OF_FILE "" 0 0.

Definition peek_at (st : State) : Token := nth (current st) (tokens st) no_token.
Definition previous_at (st : State) : Token :=
  match current st with
  | O => no_token
  | S k => nth k (tokens st) no_token
  end.
Definition is_at_end_at (st : State) : bool :=
  TokenType_eqb (type (peek_at st)) END_OF_FILE.
Definition check_at (st : State) (t : TokenType) : bool :=
  if is_at_end_at st then false else TokenType_eqb (type (peek_at st)) t.

Definition peek : P Token := gets peek_at.
Definition previous : P Token := gets previous_at.
Definition is_at_end : P bool := gets is_at_end_at.
Definition check (t : TokenType) : P bool := gets (fun st => check_at st t).

Definition advance : P Token :=
  modify (fun st => if is_at_end_at st then st else with_current st (S (current st))) ;;
  previous.

(** [match(types...)]. *)
Fixpoint match_ (types : list TokenType) : P bool :=
  match types with
  | [] => ret false
  | t :: rest =>
      c <- check t ;;
      if c then (advance ;; ret true) else match_ rest
  end.

(** [error(token, message, hint)]. *)
Definition error (tok : Token) (msg : string) : ParserError := mkParserError tok msg.

Definition consume (t : TokenType) (msg : string) : P Token :=
  c <- check t ;;
  if c then advance else (tok <- peek ;; raise (error tok msg)).

(** [if (!check(t)) throw error(peek(), msg); consume(t, msg);] *)
Definition expect (t : TokenType) (msg : string) : P Token :=
  c <- check t ;;
  (if c then ret tt else (tok <- peek ;; raise (error tok msg))) ;;
  consume t msg.

(** [catch (const ParserError&) { throw error(tok, msg); }] with [tok] read
    when the handler runs. *)
Definition rethrow_as {A} (tok : P Token) (msg : string) (m : P A) : P A :=
  try_catch m (fun _ => t <- tok ;; raise (error t msg)).

(** [catch (...) { cleanup; throw; }] *)
Definition on_throw {A} (cleanup : State -> State) (m : P A) : P A :=
  try_catch m (fun e => modify cleanup ;; raise e).

Definition quote (s : string) : string := "'" +:+ s +:+ "'".

Section Grammar.
(** The entry points the productions call back into, and the bound on the
    rounds of each loop. *)
Variable expression : P Expr.
Variable assignment_rec : P Expr.
Variable unary_rec : P Expr.
Variable statement : P Stmt.
Variable declaration : P Stmt.
Variable fuel : nat.

(** [while (true)] loop of a comma-separated list, after the opening
    delimiter and the emptiness test. *)
Definition separated {A} (limit : nat) (too_many : string) (element : P A)
           (closing : TokenType) (trailing : string) : P (list A) :=
  loop fuel
    (fun items : list A =>
       (if (limit <=? length items)%nat
        then (tok <- peek ;; raise (error tok too_many)) else ret tt) ;;
       x <- element ;;
       let items := items ++ [x] in
       m <- match_ [COMMA] ;;
       if negb m then ret (inr items)
       else
         c <- check closing ;;
         if c then (tok <- peek ;; raise (error tok trailing))
         else ret (inl items))
    [].

Definition finish_call (callee : Expr) : P Expr :=
  c <- check RPAREN ;;
  arguments <-
    (if negb c then
       separated MAX_ARGUMENTS
         ("Cannot have more than " +:+ pretty (Z.of_nat MAX_ARGUMENTS) +:+ " arguments")
         (rethrow_as previous "Invalid argument expression" expression)
         RPAREN "Trailing comma in argument list"
     else ret []) ;;
  paren <- expect RPAREN "Expect ')' after arguments" ;;
  ret (Call callee paren arguments).

Definition finish_index (array : Expr) : P Expr :=
  bracket <- previous ;;
  index <- try_catch expression
             (fun _ => raise (error bracket "Invalid array index expression")) ;;
  closing_bracket <- expect RBRACKET "Expect ']' after array index" ;;
  ret (IndexGet array index closing_bracket).

Definition array_literal : P Expr :=
  bracket <- previous ;;
  c <- check RBRACKET ;;
  elements <-
    (if negb c then
       separated 1000 "Array literal too large"
         (try_catch expression
            (fun _ => raise (error bracket "Invalid array element expression")))
         RBRACKET "Trailing comma in array literal"
     else ret []) ;;
  closing_bracket <- expect RBRACKET "Expect ']' after array elements" ;;
  ret (ArrayLiteral elements closing_bracket).

Definition dict_literal : P Expr :=
  brace <- previous ;;
  c <- check RBRACE ;;
  pairs <-
    (if negb c then
       separated 1000 "Dictionary literal too large"
         (key <- try_catch expression
                   (fun _ => raise (error brace "Invalid dictionary key expression")) ;;
          expect COLON "Expect ':' after dictionary key" ;;
          value <- try_catch expression
                     (fun _ => raise (error brace "Invalid dictionary value expression")) ;;
          ret (key, value))
         RBRACE "Trailing comma in dictionary literal"
     else ret []) ;;
  closing_brace <- expect RBRACE "Expect '}' after dictionary elements" ;;
  ret (DictLiteral pairs closing_brace).

(** The token types [primary] turns into a [Variable] node, in the order
    of its [match] tests. *)
Definition callable_types : list TokenType :=
  [IDENTIFIER; LEN; HAS; KEYS; VALUES; INPUT; INPUT_NUM; READ_FILE; WRITE_FILE;
   APPEND_FILE; FILE_EXISTS; MALLOC; CALLOC; REALLOC; FREE; ADDR_OF; DEREF;
   LLVM_INLINE].

Definition primary : P Expr :=
  m <- match_ [FALSE] ;;
  if m then (t <- previous ;; ret (Literal (LBool false) t)) else
  m <- match_ [TRUE] ;;
  if m then (t <- previous ;; ret (Literal (LBool true) t)) else
  m <- match_ [NIL] ;;
  if m then (t <- previous ;; ret (Literal monostate t)) else
  m <- match_ [NUMBER] ;;
  if m then
    (t <- previous ;;
     match literal t with
     | LDouble _ => ret (Literal (literal t) t)
     | _ => raise (error t "Internal error: NUMBER token without numeric value")
     end) else
  m <- match_ [STRING] ;;
  if m then
    (t <- previous ;;
     match literal t with
     | LString _ => ret (Literal (literal t) t)
     | _ => raise (error t "Internal error: STRING token without string value")
     end) else
  m <- match_ callable_types ;;
  if m then (t <- previous ;; ret (Variable_ t)) else
  m <- match_ [LBRACKET] ;;
  if m then array_literal else
  m <- match_ [LBRACE] ;;
  if m then dict_literal else
  m <- match_ [LPAREN] ;;
  if m then
    (expr <- rethrow_as previous "Invalid expression in grouping" expression ;;
     expect RPAREN "Expect ')' after expression" ;;
     ret (Grouping expr)) else
  (tok <- peek ;; raise (error tok "Expect expression")).

Definition call : P Expr :=
  expr <- primary ;;
  loop fuel
    (fun expr =>
       m <- match_ [LPAREN] ;;
       if m then (e <- finish_call expr ;; ret (inl e)) else
       m <- match_ [LBRACKET] ;;
       if m then (e <- finish_index expr ;; ret (inl e)) else
       ret (inr expr))
    expr.

Definition unary : P Expr :=
  m <- match_ [BANG; MINUS] ;;
  if m then
    (op <- previous ;;
     right_e <- try_catch unary_rec
                  (fun _ => raise (error op ("Invalid operand for " +:+ quote (lexeme op)))) ;;
     ret (Unary op right_e))
  else call.

(** [expr = operand(); while (match(ops)) { op; right = operand(); expr = node }]. *)
Definition left_assoc (operand : P Expr) (ops : list TokenType)
           (node : Expr -> Token -> Expr -> Expr) (bad_right : Token -> string)
  : P Expr :=
  expr <- operand ;;
  loop fuel
    (fun expr =>
       m <- match_ ops ;;
       if m then
         (op <- previous ;;
          right_e <- try_catch operand (fun _ => raise (error op (bad_right op))) ;;
          ret (inl (node expr op right_e)))
       else ret (inr expr))
    expr.

Definition invalid_right_operand (op : Token) : string :=
  "Invalid right operand for " +:+ quote (lexeme op).

Definition factor : P Expr :=
  left_assoc unary [SLASH; STAR; PERCENT] Binary invalid_right_operand.
Definition term : P Expr :=
  left_assoc factor [MINUS; PLUS] Binary invalid_right_operand.
Definition comparison : P Expr :=
  left_assoc term [GREATER; GREATER_EQUAL; LESS; LESS_EQUAL] Binary
             invalid_right_operand.
Definition equality : P Expr :=
  left_assoc comparison [BANG_EQUAL; EQUAL_EQUAL] Binary invalid_right_operand.
Definition and_expr : P Expr :=
  left_assoc equality [AND] Logical (fun _ => "Invalid right operand for 'and'").
Definition or_expr : P Expr :=
  left_assoc and_expr [OR] Logical (fun _ => "Invalid right operand for 'or'").

Definition assignment : P Expr :=
  expr <- or_expr ;;
  m <- match_ [EQUAL] ;;
  if m then
    (equals <- previous ;;
     value <- assignment_rec ;;
     match expr with
     | Variable_ name => ret (Assign name value)
     | IndexGet array index bracket => ret (IndexSet array index value bracket)
     | _ => raise (error equals "Invalid assignment target")
     end)
  else ret expr.

Definition expression_statement : P Stmt :=
  expr <- rethrow_as peek "Invalid expression statement" expression ;;
  expect SEMICOLON "Expect ';' after expression" ;;
  ret (ExprStmt expr).

Definition var_declaration : P Stmt :=
  expect IDENTIFIER "Expect variable name after 'var'" ;;
  name <- previous ;;
  (if (255 <? String.length (lexeme name))%nat then
     raise (error name ("Variable name too long: '"
                        +:+ String.substring 0 50 (lexeme name) +:+ "...'"))
   else ret tt) ;;
  m <- match_ [EQUAL] ;;
  initializer <-
    (if m then
       (e <- rethrow_as previous "Invalid initializer expression" expression ;;
        ret (Some e))
     else ret None) ;;
  expect SEMICOLON "Expect ';' after variable declaration" ;;
  ret (VarStmt name initializer).

(** [while (!check(RBRACE) && !is_at_end()) { stmt = declaration();
    if (stmt) statements.push_back(stmt); }] with the given stop tokens. *)
Definition declarations_until (stops : list TokenType) : P (list Stmt) :=
  loop fuel
    (fun statements : list Stmt =>
       st <- gets (fun st => st) ;;
       if existsb (check_at st) stops || is_at_end_at st then ret (inr statements)
       else
         stmt <- declaration ;;
         ret (inl (if non_null stmt then statements ++ [stmt] else statements)))
    [].

Definition block : P (list Stmt) :=
  modify (fun st => with_block_depth st (block_depth st + 1)) ;;
  st <- gets (fun st => st) ;;
  (if MAX_BLOCK_DEPTH <? block_depth st then
     (modify (fun st => with_block_depth st (block_depth st - 1)) ;;
      tok <- peek ;;
      raise (error tok "Block nesting depth exceeds maximum"))
   else ret tt) ;;
  on_throw (fun st => with_block_depth st (block_depth st - 1))
    (statements <- declarations_until [RBRACE] ;;
     expect RBRACE "Expect '}' after block" ;;
     modify (fun st => with_block_depth st (block_depth st - 1)) ;;
     ret statements).

(** The parameter list of [function], after ['(']. *)
Definition parameters (name : Token) : P (list Token) :=
  c <- check RPAREN ;;
  if c then ret []
  else
    r <- loop fuel
           (fun acc : list Token * gset string =>
              let '(params, param_names) := acc in
              (if (MAX_PARAMETERS <=? length params)%nat
               then (tok <- peek ;;
                     raise (error tok ("Cannot have more than "
                                       +:+ pretty (Z.of_nat MAX_PARAMETERS)
                                       +:+ " parameters")))
               else ret tt) ;;
              param <- expect IDENTIFIER "Expect parameter name" ;;
              (if bool_decide (lexeme param ∈ param_names)
               then raise (error param ("Duplicate parameter name "
                                        +:+ quote (lexeme param)))
               else ret tt) ;;
              let acc' := (params ++ [param], {[lexeme param]} ∪ param_names) in
              m <- match_ [COMMA] ;;
              if negb m then ret (inr acc')
              else
                c <- check RPAREN ;;
                if c then (tok <- peek ;;
                           raise (error tok "Trailing comma in parameter list"))
                else ret (inl acc'))
           ([], ∅) ;;
    ret (fst r).

Definition function (kind : string) : P Stmt :=
  name <- expect IDENTIFIER ("Expect " +:+ kind +:+ " name") ;;
  (if (255 <? String.length (lexeme name))%nat then
     raise (error name ("Function name too long: '"
                        +:+ String.substring 0 50 (lexeme name) +:+ "...'"))
   else ret tt) ;;
  expect LPAREN ("Expect '(' after " +:+ kind +:+ " name") ;;
  params <- parameters name ;;
  consume RPAREN "Expect ')' after parameters" ;;
  expect LBRACE ("Expect '{' before " +:+ kind +:+ " body") ;;
  modify (fun st => with_function_depth st (function_depth st + 1)) ;;
  st <- gets (fun st => st) ;;
  (if 100 <? function_depth st then
     (modify (fun st => with_function_depth st (function_depth st - 1)) ;;
      raise (error name "Function nesting depth exceeds maximum"))
   else ret tt) ;;
  body <- on_throw (fun st => with_function_depth st (function_depth st - 1)) block ;;
  modify (fun st => with_function_depth st (function_depth st - 1)) ;;
  ret (FunctionStmt name params body).

Definition print_statement : P Stmt :=
  keyword <- previous ;;
  value <- try_catch expression
             (fun _ => raise (error keyword "Invalid expression in print statement")) ;;
  expect SEMICOLON "Expect ';' after value in print statement" ;;
  ret (PrintStmt value keyword).

Definition if_statement : P Stmt :=
  keyword <- previous ;;
  expect LPAREN "Expect '(' after 'if'" ;;
  condition <- try_catch expression
                 (fun _ => raise (error keyword "Invalid condition in if statement")) ;;
  expect RPAREN "Expect ')' after if condition" ;;
  then_branch <- statement ;;
  m <- match_ [ELSE] ;;
  else_branch <- (if m then (s <- statement ;; ret (Some s)) else ret None) ;;
  ret (IfStmt condition then_branch else_branch keyword).

(** [loop_depth++; if (loop_depth > MAX_LOOP_DEPTH) { loop_depth--; throw }]
    and the [try { ... } catch (...) { loop_depth--; throw; }] around the
    rest of a loop statement. *)
Definition in_loop {A} (keyword : Token) (rest : P A) : P A :=
  modify (fun st => with_loop_depth st (loop_depth st + 1)) ;;
  st <- gets (fun st => st) ;;
  (if MAX_LOOP_DEPTH <? loop_depth st then
     (modify (fun st => with_loop_depth st (loop_depth st - 1)) ;;
      raise (error keyword "Loop nesting depth exceeds maximum"))
   else ret tt) ;;
  on_throw (fun st => with_loop_depth st (loop_depth st - 1))
    (r <- rest ;;
     modify (fun st => with_loop_depth st (loop_depth st - 1)) ;;
     ret r).

Definition while_statement : P Stmt :=
  keyword <- previous ;;
  in_loop keyword
    (expect LPAREN "Expect '(' after 'while'" ;;
     condition <- try_catch expression
                    (fun _ => raise (error keyword "Invalid condition in while loop")) ;;
     expect RPAREN "Expect ')' after while condition" ;;
     body <- statement ;;
     ret (WhileStmt condition body keyword)).

(** The first clause of [for]: [StmtPtr initializer], null after a bare [;]. *)
Definition for_initializer : P Stmt :=
  m <- match_ [SEMICOLON] ;;
  if m then ret NullStmt else
  m <- match_ [VAR] ;;
  if m then var_declaration else expression_statement.

(** [ExprPtr e; if (!check(stop)) e = expression();], the pointer staying
    null ([None]) when the clause is empty. *)
Definition optional_clause (stop : TokenType) (for_keyword : Token) (bad : string)
  : P (option Expr) :=
  c <- check stop ;;
  if negb c then
    (e <- try_catch expression (fun _ => raise (error for_keyword bad)) ;;
     ret (Some e))
  else ret None.

(** The tail of [for_statement] that builds the returned statement from the
    four parsed parts. *)
Definition for_desugar (for_keyword : Token) (initializer : Stmt)
           (condition increment : option Expr) (body : Stmt) : Stmt :=
  let body :=
    match increment with
    | Some incr => Block [body; ExprStmt incr] for_keyword
    | None => body
    end in
  let condition :=
    match condition with
    | Some c => c
    | None => Literal (LBool true) for_keyword
    end in
  let body := WhileStmt condition body for_keyword in
  if non_null initializer then Block [initializer; body] for_keyword else body.

Definition for_statement : P Stmt :=
  for_keyword <- previous ;;
  in_loop for_keyword
    (expect LPAREN "Expect '(' after 'for'" ;;
     initializer <- for_initializer ;;
     condition <- optional_clause SEMICOLON for_keyword "Invalid condition in for loop" ;;
     expect SEMICOLON "Expect ';' after loop condition" ;;
     increment <- optional_clause RPAREN for_keyword "Invalid increment in for loop" ;;
     expect RPAREN "Expect ')' after for clauses" ;;
     body <- statement ;;
     ret (for_desugar for_keyword initializer condition increment body)).

Definition return_statement : P Stmt :=
  keyword <- previous ;;
  st <- gets (fun st => st) ;;
  (if function_depth st =? 0
   then raise (error keyword "Cannot use 'return' outside of a function")
   else ret tt) ;;
  c <- check SEMICOLON ;;
  value <-
    (if negb c then
       (e <- try_catch expression
               (fun _ => raise (error keyword "Invalid return value expression")) ;;
        ret (Some e))
     else ret None) ;;
  expect SEMICOLON "Expect ';' after return value" ;;
  ret (ReturnStmt keyword value).

Definition break_statement : P Stmt :=
  keyword <- previous ;;
  st <- gets (fun st => st) ;;
  (if loop_depth st =? 0
   then raise (error keyword "Cannot use 'break' outside of a loop or switch")
   else ret tt) ;;
  expect SEMICOLON "Expect ';' after 'break'" ;;
  ret (BreakStmt keyword).

Definition switch_statement : P Stmt :=
  keyword <- previous ;;
  expect LPAREN "Expect '(' after 'switch'" ;;
  condition <- try_catch expression
                 (fun _ => raise (error keyword "Invalid condition in switch")) ;;
  expect RPAREN "Expect ')' after switch condition" ;;
  expect LBRACE "Expect '{' before switch body" ;;
  modify (fun st => with_loop_depth st (loop_depth st + 1)) ;;
  on_throw (fun st => with_loop_depth st (loop_depth st - 1))
    (r <-
       loop fuel
         (fun acc : list CaseClauseT * option (list Stmt) * bool =>
            let '(cases, default_case, seen_default) := acc in
            st <- gets (fun st => st) ;;
            if check_at st RBRACE || is_at_end_at st then ret (inr acc)
            else
              m <- match_ [CASE] ;;
              if m then
                ((if seen_default : bool
                  then (t <- previous ;; raise (error t "Case after default"))
                  else ret tt) ;;
                 case_value <- rethrow_as previous "Invalid case value" expression ;;
                 expect COLON "Expect ':' after case value" ;;
                 statements <- declarations_until [CASE; DEFAULT; RBRACE] ;;
                 ret (inl (cases ++ [CaseClause case_value statements],
                           default_case, seen_default)))
              else
                m <- match_ [DEFAULT] ;;
                if m then
                  ((if seen_default : bool
                    then (t <- previous ;; raise (error t "Duplicate default clause"))
                    else ret tt) ;;
                   expect COLON "Expect ':' after 'default'" ;;
                   statements <- declarations_until [CASE; DEFAULT; RBRACE] ;;
                   ret (inl (cases, Some statements, true)))
                else
                  (tok <- peek ;;
                   raise (error tok "Expect 'case' or 'default' in switch body")))
         ([], None, false) ;;
     let '(cases, default_case, _) := r in
     expect RBRACE "Expect '}' after switch body" ;;
     modify (fun st => with_loop_depth st (loop_depth st - 1)) ;;
     ret (SwitchStmt keyword condition cases default_case)).

Definition unsafe_statement : P Stmt :=
  keyword <- previous ;;
  expect LBRACE "Expect '{' after 'unsafe'" ;;
  st <- gets (fun st => st) ;;
  let prev_unsafe_state := in_unsafe_block st in
  modify (fun st => with_in_unsafe_block st true) ;;
  statements <- declarations_until [RBRACE] ;;
  expect RBRACE "Expect '}' after unsafe block" ;;
  modify (fun st => with_in_unsafe_block st prev_unsafe_state) ;;
  ret (UnsafeBlock keyword statements).

Definition llvm_inline_statement : P Stmt :=
  keyword <- previous ;;
  st <- gets (fun st => st) ;;
  (if negb (in_unsafe_block st)
   then raise (error keyword "llvm_inline() requires unsafe context")
   else ret tt) ;;
  expect LPAREN "Expect '(' after 'llvm_inline'" ;;
  c <- check STRING ;;
  (if negb c
   then (tok <- peek ;; raise (error tok "Expect string literal with LLVM IR code"))
   else ret tt) ;;
  llvm_code_token <- advance ;;
  let llvm_code :=
    match literal llvm_code_token with LString s => s | _ => "" end in
  expect RPAREN "Expect ')' after LLVM IR code" ;;
  c <- check SEMICOLON ;;
  (if negb c
   then (tok <- peek ;; raise (error tok "Expect ';' after llvm_inline() call"))
   else ret tt) ;;
  consume SEMICOLON "Expect ';' after statement" ;;
  ret (LLVMInlineStmt keyword llvm_code ∅).

Definition import_statement : P Stmt :=
  keyword <- previous ;;
  c <- check STRING ;;
  (if negb c
   then (tok <- peek ;;
         raise (error tok "Expect string literal with file path after 'import'"))
   else ret tt) ;;
  path_token <- advance ;;
  file_path <-
    match literal path_token with
    | LString s => ret s
    | _ => raise (error path_token "Invalid import path")
    end ;;
  (if String.eqb file_path ""
   then raise (error path_token "Empty import path") else ret tt) ;;
  expect SEMICOLON "Expect ';' after import path" ;;
  ret (ImportStmt keyword file_path path_token).

(** [Parser::statement]. *)
Definition statement_body : P Stmt :=
  m <- match_ [PRINT] ;; if m then print_statement else
  m <- match_ [IF] ;; if m then if_statement else
  m <- match_ [WHILE] ;; if m then while_statement else
  m <- match_ [FOR] ;; if m then for_statement else
  m <- match_ [SWITCH] ;; if m then switch_statement else
  m <- match_ [RETURN] ;; if m then return_statement else
  m <- match_ [BREAK] ;; if m then break_statement else
  m <- match_ [UNSAFE] ;; if m then unsafe_statement else
  m <- match_ [LLVM_INLINE] ;; if m then llvm_inline_statement else
  m <- match_ [LBRACE] ;;
  if m then
    (opening_brace <- previous ;;
     statements <- block ;;
     ret (Block statements opening_brace))
  else expression_statement.

(** [Parser::declaration]; its [catch] only rethrows. *)
Definition declaration_body : P Stmt :=
  m <- match_ [IMPORT] ;; if m then import_statement else
  m <- match_ [VAR] ;; if m then var_declaration else
  m <- match_ [FUN] ;; if m then function "function" else
  statement.

End Grammar.

(** The five recursive entry points at a given depth of recursion. *)
Record Entry := mkEntry {
  e_expression : P Expr;
  e_assignment : P Expr;
  e_unary : P Expr;
  e_statement : P Stmt;
  e_declaration : P Stmt
}.

Fixpoint entry (fuel : nat) : Entry :=
  match fuel with
  | O => mkEntry no_fuel no_fuel no_fuel no_fuel no_fuel
  | S k =>
      let r := entry k in
      mkEntry
        (* expression() is assignment() *)
        (assignment (e_expression r) (e_assignment r) (e_unary r) k)
        (assignment (e_expression r) (e_assignment r) (e_unary r) k)
        (unary (e_expression r) (e_unary r) k)
        (statement_body (e_expression r) (e_statement r) (e_declaration r) k)
        (declaration_body (e_expression r) (e_statement r) (e_declaration r) k)
  end.

Definition expression (fuel : nat) : P Expr := e_expression (entry fuel).
Definition statement (fuel : nat) : P Stmt := e_statement (entry fuel).
Definition declaration (fuel : nat) : P Stmt := e_declaration (entry fuel).

Definition is_sync_point (t : TokenType) : bool :=
  match t with
  | VAR | FUN | IF | WHILE | FOR | PRINT | RETURN | SWITCH | BREAK => true
  | _ => false
  end.

Definition synchronize (fuel : nat) : P unit :=
  advance ;;
  loop fuel
    (fun _ : unit =>
       st <- gets (fun st => st) ;;
       if is_at_end_at st then ret (inr tt)
       else if TokenType_eqb (type (previous_at st)) SEMICOLON then ret (inr tt)
       else if is_sync_point (type (peek_at st)) then ret (inr tt)
       else (advance ;; ret (inl tt)))
    tt.

(** [Parser::parse]: the statements, or the errors bundled in the
    [std::runtime_error] it throws; [None] when [fuel] ran out. *)
Definition parse (fuel : nat) (st : State)
  : option (list Stmt + list ParserError) :=
  match
    loop fuel
      (fun statements : list Stmt =>
         st <- gets (fun st => st) ;;
         if is_at_end_at st then ret (inr statements)
         else
           try_catch
             (stmt <- declaration fuel ;;
              ret (inl (if non_null stmt then statements ++ [stmt] else statements)))
             (fun e =>
                modify (fun st => with_errors st (errors st ++ [e])) ;;
                synchronize fuel ;;
                ret (inl statements)))
      [] st
  with
  | Ok statements st' =>
      match errors st' with
      | [] => Some (inl statements)
      | errs => Some (inr errs)
      end
  | Raise e st' => Some (inr (errors st' ++ [e]))
  | NoFuel => None
  end.

End Parser.

(* ===================================================================== *)
(** * Sample programs                                                    *)
(* ===================================================================== *)

Module Samples.

(** Tokens of one source line, the lexemes separated by single blanks and
    followed by END_OF_FILE; columns are 1-based start columns, as the lexer
    records them. *)
Fixpoint layout (items : list (TokenType * string * LiteralValue)) (col : Z)
  : list Token :=
  match items with
  | [] => [Token4 END_OF_FILE "" 1 col]
  | (t, lx, v) :: rest =>
      mkToken t lx v 1 col :: layout rest (col + Z.of_nat (String.length lx) + 1)
  end.

Definition kw (t : TokenType) (lx : string) : TokenType * string * LiteralValue :=
  (t, lx, monostate).
Definition id (lx : string) := kw IDENTIFIER lx.
Definition num (d : float) (lx : string) : TokenType * string * LiteralValue :=
  (NUMBER, lx, LDouble d).

Definition parsed (items : list (TokenType * string * LiteralValue)) : list Stmt :=
  match Parser.parse 64 (Parser.new_Parser (layout items 1) "") with
  | Some (inl statements) => statements
  | _ => []
  end.

Definition malloc_100 := [kw VAR "var"; id "x"; kw EQUAL "="; kw MALLOC "malloc";
                          kw LPAREN "("; num 100 "100"; kw RPAREN ")"; kw SEMICOLON ";"].
Definition free_x := [kw FREE "free"; kw LPAREN "("; id "x"; kw RPAREN ")";
                      kw SEMICOLON ";"].
Definition if_true := [kw IF "if"; kw LPAREN "("; kw TRUE "true"; kw RPAREN ")"].

(** [var x = malloc(100); if (true) { free(x); }] *)
Definition source_if_free :=
  malloc_100 ++ if_true ++ [kw LBRACE "{"] ++ free_x ++ [kw RBRACE "}"].
Definition program_if_free : list Stmt := Eval vm_compute in parsed source_if_free.

(** [var x = malloc(100); if (true) { free(x); } else { }] *)
Definition source_if_free_else :=
  source_if_free ++ [kw ELSE "else"; kw LBRACE "{"; kw RBRACE "}"].
Definition program_if_free_else : list Stmt :=
  Eval vm_compute in parsed source_if_free_else.

(** [var x = malloc(100); if (true) { print 1; } else { free(x); }] *)
Definition source_free_in_else :=
  malloc_100 ++ if_true
  ++ [kw LBRACE "{"; kw PRINT "print"; num 1 "1"; kw SEMICOLON ";"; kw RBRACE "}";
      kw ELSE "else"; kw LBRACE "{"] ++ free_x ++ [kw RBRACE "}"].
Definition program_free_in_else : list Stmt :=
  Eval vm_compute in parsed source_free_in_else.

(** [var x = malloc(100); free(x); free(x);] *)
Definition source_double_free := malloc_100 ++ free_x ++ free_x.
Definition program_double_free : list Stmt :=
  Eval vm_compute in parsed source_double_free.

(** [switch (1) { case 1: var x = malloc(100); }] *)
Definition source_switch_leak :=
  [kw SWITCH "switch"; kw LPAREN "("; num 1 "1"; kw RPAREN ")"; kw LBRACE "{";
   kw CASE "case"; num 1 "1"; kw COLON ":"] ++ malloc_100 ++ [kw RBRACE "}"].
Definition program_switch_leak : list Stmt :=
  Eval vm_compute in parsed source_switch_leak.

(** [print 7; var x = malloc(100); { var y = x; }] *)
Definition source_plain_leak :=
  [kw PRINT "print"; num 7 "7"; kw SEMICOLON ";"] ++ malloc_100
  ++ [kw LBRACE "{"; kw VAR "var"; id "y"; kw EQUAL "="; id "x"; kw SEMICOLON ";";
      kw RBRACE "}"].
Definition program_plain_leak : list Stmt :=
  Eval vm_compute in parsed source_plain_leak.

(** [fun add(a, b) { return a + b; } var r = add(2, 3); print r;] *)
Definition source_add :=
  [kw FUN "fun"; id "add"; kw LPAREN "("; id "a"; kw COMMA ","; id "b";
   kw RPAREN ")"; kw LBRACE "{"; kw RETURN "return"; id "a"; kw PLUS "+"; id "b";
   kw SEMICOLON ";"; kw RBRACE "}";
   kw VAR "var"; id "r"; kw EQUAL "="; id "add"; kw LPAREN "("; num 2 "2";
   kw COMMA ","; num 3 "3"; kw RPAREN ")"; kw SEMICOLON ";";
   kw PRINT "print"; id "r"; kw SEMICOLON ";"].
Definition program_add : list Stmt := Eval vm_compute in parsed source_add.

(** [var a = 1; var b = a;] *)
Definition source_dead_chain :=
  [kw VAR "var"; id "a"; kw EQUAL "="; num 1 "1"; kw SEMICOLON ";";
   kw VAR "var"; id "b"; kw EQUAL "="; id "a"; kw SEMICOLON ";"].
Definition program_dead_chain : list Stmt :=
  Eval vm_compute in parsed source_dead_chain.

(** [print f() * 0;] *)
Definition source_call_times_zero :=
  [kw PRINT "print"; id "f"; kw LPAREN "("; kw RPAREN ")"; kw STAR "*"; num 0 "0";
   kw SEMICOLON ";"].
Definition program_call_times_zero : list Stmt :=
  Eval vm_compute in parsed source_call_times_zero.

(** [print 1 / 0;] *)
Definition source_div_zero :=
  [kw PRINT "print"; num 1 "1"; kw SLASH "/"; num 0 "0"; kw SEMICOLON ";"].
Definition program_div_zero : list Stmt := Eval vm_compute in parsed source_div_zero.

(** [print (1 / 0) * 0;] *)
Definition source_div_zero_times_zero :=
  [kw PRINT "print"; kw LPAREN "("; num 1 "1"; kw SLASH "/"; num 0 "0";
   kw RPAREN ")"; kw STAR "*"; num 0 "0"; kw SEMICOLON ";"].
Definition program_div_zero_times_zero : list Stmt :=
  Eval vm_compute in parsed source_div_zero_times_zero.

(** [var x = 1 / 0;] *)
Definition source_unused_div_zero :=
  [kw VAR "var"; id "x"; kw EQUAL "="; num 1 "1"; kw SLASH "/"; num 0 "0";
   kw SEMICOLON ";"].
Definition program_unused_div_zero : list Stmt :=
  Eval vm_compute in parsed source_unused_div_zero.

(** The source text [b * (E - 3 + 3)] around the tokens of [E]. *)
Definition wrap (inner : list (TokenType * string * LiteralValue)) :=
  [id "b"; kw STAR "*"; kw LPAREN "("] ++ inner
  ++ [kw MINUS "-"; num 3 "3"; kw PLUS "+"; num 3 "3"; kw RPAREN ")"].

Fixpoint nest (depth : nat) : list (TokenType * string * LiteralValue) :=
  match depth with
  | O => [id "a"; kw MINUS "-"; id "a"]
  | S d => wrap (nest d)
  end.

(** [print b * (b * ( ... b * (a - a - 3 + 3) ... - 3 + 3) - 3 + 3);]
    with ten nested multiplications. *)
Definition source_nest10 := [kw PRINT "print"] ++ nest 10 ++ [kw SEMICOLON ";"].
Definition program_nest10 : list Stmt := Eval vm_compute in parsed source_nest10.

(** [for (var i = 0; i < 3; i = i + 1) print i;] *)
Definition source_for :=
  [kw FOR "for"; kw LPAREN "("; kw VAR "var"; id "i"; kw EQUAL "="; num 0 "0";
   kw SEMICOLON ";"; id "i"; kw LESS "<"; num 3 "3"; kw SEMICOLON ";";
   id "i"; kw EQUAL "="; id "i"; kw PLUS "+"; num 1 "1"; kw RPAREN ")";
   kw PRINT "print"; id "i"; kw SEMICOLON ";"].

(** [free(p[0]);] *)
Definition source_free_index :=
  [kw FREE "free"; kw LPAREN "("; id "p"; kw LBRACKET "["; num 0 "0";
   kw RBRACKET "]"; kw RPAREN ")"; kw SEMICOLON ";"].
Definition program_free_index : list Stmt :=
  Eval vm_compute in parsed source_free_index.

(** [unsafe { fun f() { var x = malloc(100); } }] *)
Definition source_unsafe_function :=
  [kw UNSAFE "unsafe"; kw LBRACE "{"; kw FUN "fun"; id "f"; kw LPAREN "(";
   kw RPAREN ")"; kw LBRACE "{"] ++ malloc_100 ++ [kw RBRACE "}"; kw RBRACE "}"].
Definition program_unsafe_function : list Stmt :=
  Eval vm_compute in parsed source_unsafe_function.

(** [{ var x = malloc(100); }] *)
Definition source_block_leak := [kw LBRACE "{"] ++ malloc_100 ++ [kw RBRACE "}"].
Definition program_block_leak : list Stmt :=
  Eval vm_compute in parsed source_block_leak.

(** [fun f() { var x = malloc(100); }] *)
Definition source_function_leak :=
  [kw FUN "fun"; id "f"; kw LPAREN "("; kw RPAREN ")"; kw LBRACE "{"]
  ++ malloc_100 ++ [kw RBRACE "}"].
Definition program_function_leak : list Stmt :=
  Eval vm_compute in parsed source_function_leak.

(** [switch (1) { default: var x = malloc(100); }] *)
Definition source_default_leak :=
  [kw SWITCH "switch"; kw LPAREN "("; num 1 "1"; kw RPAREN ")"; kw LBRACE "{";
   kw DEFAULT "default"; kw COLON ":"] ++ malloc_100 ++ [kw RBRACE "}"].
Definition program_default_leak : list Stmt :=
  Eval vm_compute in parsed source_default_leak.

(** [var x = malloc(100); print deref(x);] *)
Definition source_deref_leak :=
  malloc_100 ++ [kw PRINT "print"; kw DEREF "deref"; kw LPAREN "("; id "x";
                 kw RPAREN ")"; kw SEMICOLON ";"].
Definition program_deref_leak : list Stmt :=
  Eval vm_compute in parsed source_deref_leak.

(** [while (true) { if (true) { unsafe { var x = malloc(100); } print deref(x); } else print 1; }] *)
Definition source_nested_leak :=
  [kw WHILE "while"; kw LPAREN "("; kw TRUE "true"; kw RPAREN ")"; kw LBRACE "{"]
  ++ if_true
  ++ [kw LBRACE "{"; kw UNSAFE "unsafe"; kw LBRACE "{"] ++ malloc_100
  ++ [kw RBRACE "}"; kw PRINT "print"; kw DEREF "deref"; kw LPAREN "("; id "x";
      kw RPAREN ")"; kw SEMICOLON ";"; kw RBRACE "}"; kw ELSE "else";
      kw PRINT "print"; num 1 "1"; kw SEMICOLON ";"; kw RBRACE "}"].
Definition program_nested_leak : list Stmt :=
  Eval vm_compute in parsed source_nested_leak.

(** [var x = malloc(100); free(y);] *)
Definition source_free_other :=
  malloc_100 ++ [kw FREE "free"; kw LPAREN "("; id "y"; kw RPAREN ")";
                 kw SEMICOLON ";"].
Definition program_free_other : list Stmt :=
  Eval vm_compute in parsed source_free_other.

End Samples.

(* ===================================================================== *)
(** * Notions the statements are written in                             *)
(* ===================================================================== *)

(** ** Expressions and statements *)

(** The expression is a literal node. *)
Definition is_literal (e : Expr) : bool :=
  match e with Literal _ _ => true | _ => false end.

(** The initializer of the [index]-th statement, when it is a declaration
    with one. *)
Definition initializer_of (statements : list Stmt) (index : nat) : option Expr :=
  match nth index statements NullStmt with
  | VarStmt _ init => init
  | _ => None
  end.

(** A call of [free], [deref], [malloc], [calloc], [realloc] or [addr_of]
    occurs somewhere in the expression. *)
Fixpoint uses_memory_primitive (e : Expr) : bool :=
  match e with
  | Literal _ _ | Variable_ _ => false
  | Assign _ v => uses_memory_primitive v
  | Binary l _ r | Logical l _ r => uses_memory_primitive l || uses_memory_primitive r
  | Unary _ r => uses_memory_primitive r
  | Call callee _ args =>
      match callee with
      | Variable_ n => Analyzer.is_memory_primitive (lexeme n)
      | _ => uses_memory_primitive callee
      end
      || existsb uses_memory_primitive args
  | Grouping e' => uses_memory_primitive e'
  | ArrayLiteral es _ => existsb uses_memory_primitive es
  | IndexGet a i _ => uses_memory_primitive a || uses_memory_primitive i
  | IndexSet a i v _ =>
      uses_memory_primitive a || uses_memory_primitive i || uses_memory_primitive v
  | DictLiteral ps _ =>
      existsb (fun '(k, v) => uses_memory_primitive k || uses_memory_primitive v) ps
  end.

(** No memory primitive is called in the expression. *)
Definition plain (e : Expr) : bool := negb (uses_memory_primitive e).

(** The same of an optional expression, a null pointer being plain. *)
Definition plain_option (e : option Expr) : bool :=
  match e with Some e' => plain e' | None => true end.

(** A statement without any call of a memory primitive. *)
Fixpoint inert (s : Stmt) : bool :=
  match s with
  | NullStmt | BreakStmt _ | LLVMInlineStmt _ _ _ | ImportStmt _ _ _ => true
  | ExprStmt e | PrintStmt e _ => plain e
  | VarStmt _ i => plain_option i
  | ReturnStmt _ v => plain_option v
  | Block ss _ | FunctionStmt _ _ ss | UnsafeBlock _ ss => forallb inert ss
  | IfStmt c t e _ =>
      plain c && inert t && match e with Some s' => inert s' | None => true end
  | WhileStmt c b _ => plain c && inert b
  | SwitchStmt _ c cases d =>
      plain c
      && forallb (fun cl : CaseClauseT =>
                    let '(CaseClause v ss) := cl in plain v && forallb inert ss)
                 cases
      && match d with Some ss => forallb inert ss | None => true end
  end.

(** The lowered form in the words of the language reference: the loop
    [While(cond_or_true, Block(body, ExprStmt(incr)))] inside
    [Block(init, ...)], the inner block only with an increment, the outer
    one only with an initializer. *)
Definition lowered_for (keyword : Token) (init : option Stmt)
           (cond incr : option Expr) (body : Stmt) : Stmt :=
  let cond_or_true := default (Literal (LBool true) keyword) cond in
  let loop_body :=
    match incr with
    | Some i => Block [body; ExprStmt i] keyword
    | None => body
    end in
  match init with
  | Some i => Block [i; WhileStmt cond_or_true loop_body keyword] keyword
  | None => WhileStmt cond_or_true loop_body keyword
  end.

(** The initializer clause as an option: [None] for the null pointer. *)
Definition present (initializer : Stmt) : option Stmt :=
  if non_null initializer then Some initializer else None.

(** The parses of the seven parts of [for ( init cond ; incr ) body],
    from the state after the keyword to the state before the loop depth
    is restored. *)
Definition for_parts (expression : Parser.P Expr) (statement : Parser.P Stmt)
           (st : Parser.State) (initializer : Stmt)
           (condition increment : option Expr) (body : Stmt)
           (last : Parser.State) : Prop :=
  let keyword := Parser.previous_at st in
  exists t1 s1 s2 s3 t2 s4 s5 t3 s6,
    Parser.expect LPAREN "Expect '(' after 'for'"
      (Parser.with_loop_depth st (Parser.loop_depth st + 1)) = Parser.Ok t1 s1 /\
    Parser.for_initializer expression s1 = Parser.Ok initializer s2 /\
    Parser.optional_clause expression SEMICOLON keyword
      "Invalid condition in for loop" s2 = Parser.Ok condition s3 /\
    Parser.expect SEMICOLON "Expect ';' after loop condition" s3 = Parser.Ok t2 s4 /\
    Parser.optional_clause expression RPAREN keyword
      "Invalid increment in for loop" s4 = Parser.Ok increment s5 /\
    Parser.expect RPAREN "Expect ')' after for clauses" s5 = Parser.Ok t3 s6 /\
    statement s6 = Parser.Ok body last.

(** ** Passes of the optimizer *)

(** The pass keeps the statement [s] wherever it stands in the list. *)
Definition keeps_statement (s : Stmt) (p : list Stmt -> Pass (list Stmt)) : Prop :=
  forall A, In s A -> In s (fst (p A)).

(** [f] returns its argument whenever it leaves the flag down. *)
Definition flag_sound {A} (f : A -> Pass A) (x : A) : Prop :=
  snd (f x) = false -> fst (f x) = x.

(** [f] returns [t x] whenever it leaves the flag down. *)
Definition flag_sound_upto {A} (t : A -> A) (f : A -> Pass A) (x : A) : Prop :=
  snd (f x) = false -> fst (f x) = t x.

(** The expression without the parentheses that the folder and the
    simplifier step through: both return the inner expression of a
    [Grouping] and raise no flag for it.  The callee of a call is not
    visited. *)
Fixpoint tidy_expr (expr : Expr) : Expr :=
  match expr with
  | Grouping e => tidy_expr e
  | Unary op r => Unary op (tidy_expr r)
  | Binary l op r => Binary (tidy_expr l) op (tidy_expr r)
  | Logical l op r => Logical (tidy_expr l) op (tidy_expr r)
  | ArrayLiteral es bracket => ArrayLiteral (List.map tidy_expr es) bracket
  | DictLiteral pairs brace =>
      DictLiteral
        (List.map (fun kv : Expr * Expr =>
                     let '(k, v) := kv in (tidy_expr k, tidy_expr v)) pairs)
        brace
  | IndexGet a i bracket => IndexGet (tidy_expr a) (tidy_expr i) bracket
  | IndexSet a i v bracket =>
      IndexSet (tidy_expr a) (tidy_expr i) (tidy_expr v) bracket
  | Assign n v => Assign n (tidy_expr v)
  | Call c paren args => Call c paren (List.map tidy_expr args)
  | _ => expr
  end.

(** The statement with its expressions tidied and the null statements
    dropped from its statement lists, which the two passes do without
    raising the flag either.  [unsafe] blocks are not visited. *)
Fixpoint tidy_stmt (stmt : Stmt) : Stmt :=
  let tidy_list (l : list Stmt) : list Stmt :=
    keep_non_null (List.map tidy_stmt l) in
  match stmt with
  | ExprStmt e => ExprStmt (tidy_expr e)
  | PrintStmt e kw => PrintStmt (tidy_expr e) kw
  | VarStmt n init => VarStmt n (option_map tidy_expr init)
  | Block ss brace => Block (tidy_list ss) brace
  | IfStmt c t e kw =>
      IfStmt (tidy_expr c) (tidy_stmt t) (option_map tidy_stmt e) kw
  | WhileStmt c b kw => WhileStmt (tidy_expr c) (tidy_stmt b) kw
  | SwitchStmt kw c cs d =>
      SwitchStmt kw (tidy_expr c)
        (List.map (fun cl : CaseClauseT =>
                     let '(CaseClause v ss) := cl in
                     CaseClause (tidy_expr v) (tidy_list ss))
                  cs)
        (option_map tidy_list d)
  | FunctionStmt n ps b => FunctionStmt n ps (tidy_list b)
  | ReturnStmt kw v => ReturnStmt kw (option_map tidy_expr v)
  | _ => stmt
  end.

Definition tidy (statements : list Stmt) : list Stmt :=
  keep_non_null (List.map tidy_stmt statements).

(** The loop of [Optimizer::optimize] is left through [break]: within
    [remaining] sweeps, one reports no modification. *)
Fixpoint settles (remaining : nat) (passes : list (list Stmt -> Pass (list Stmt)))
         (current : list Stmt) : bool :=
  match remaining with
  | O => false
  | S k =>
      let '(next, any_modified) := Optimizer.sweep passes current in
      if any_modified then settles k passes next else true
  end.

(** The tree a folding pass returns, the flag put aside. *)
Definition folded_expr (e : Expr) : Expr := fst (ConstantFolder.fold_expr e).
Definition folded_stmt (s : Stmt) : Stmt := fst (ConstantFolder.fold_stmt s).

(** Two literals of the kind the folder combines: two numbers or two
    booleans. *)
Definition foldable (x y : Expr) : bool :=
  match x, y with
  | Literal (LDouble _) _, Literal (LDouble _) _ => true
  | Literal (LBool _) _, Literal (LBool _) _ => true
  | _, _ => false
  end.

(** ** Variables the dead-code eliminator counts as used *)

(** The variable [x] is read or assigned in the expression, at a place
    the dead-code eliminator looks at (it does not look at the callee of a
    call). *)
Fixpoint mentions_expr (x : string) (e : Expr) : bool :=
  match e with
  | Literal _ _ => false
  | Variable_ n => String.eqb (lexeme n) x
  | Assign n v => String.eqb (lexeme n) x || mentions_expr x v
  | Binary l _ r | Logical l _ r => mentions_expr x l || mentions_expr x r
  | Unary _ r | Grouping r => mentions_expr x r
  | Call _ _ args => existsb (mentions_expr x) args
  | ArrayLiteral es _ => existsb (mentions_expr x) es
  | DictLiteral ps _ =>
      existsb (fun kv : Expr * Expr =>
                 let '(k, v) := kv in mentions_expr x k || mentions_expr x v) ps
  | IndexGet a i _ => mentions_expr x a || mentions_expr x i
  | IndexSet a i v _ => mentions_expr x a || mentions_expr x i || mentions_expr x v
  end.

(** The same of a statement; the eliminator does not look into [unsafe]
    blocks. *)
Fixpoint mentions (x : string) (s : Stmt) : bool :=
  let opt (o : option Expr) :=
    match o with Some e => mentions_expr x e | None => false end in
  match s with
  | VarStmt _ init => opt init
  | ExprStmt e | PrintStmt e _ => mentions_expr x e
  | Block ss _ | FunctionStmt _ _ ss => existsb (mentions x) ss
  | IfStmt c t e _ =>
      mentions_expr x c || mentions x t
      || match e with Some s' => mentions x s' | None => false end
  | WhileStmt c b _ => mentions_expr x c || mentions x b
  | SwitchStmt _ c cases d =>
      mentions_expr x c
      || existsb (fun cl : CaseClauseT =>
                    let '(CaseClause v ss) := cl in
                    mentions_expr x v || existsb (mentions x) ss)
                 cases
      || match d with Some ss => existsb (mentions x) ss | None => false end
  | ReturnStmt _ v => opt v
  | _ => false
  end.

(** [f] only adds to the used variables, and adds [x] when [hit]. *)
Definition marks (x : string) (hit : bool)
           (f : DeadCodeEliminator.State -> DeadCodeEliminator.State) : Prop :=
  forall st,
    DeadCodeEliminator.used_vars st ⊆ DeadCodeEliminator.used_vars (f st) /\
    (hit = true -> x ∈ DeadCodeEliminator.used_vars (f st)).

(** ** Runs of the analyzer *)

(** [m] ends, or throws, in a state with the same [proj] field. *)
Definition preserves {X} (proj : MemorySafetyAnalyzer -> X) {A} (m : M A)
  : Prop :=
  forall st,
    match m st with
    | Done _ st' => proj st' = proj st
    | Throw _ st' => proj st' = proj st
    | OutOfFuel => True
    end.

(** From a state satisfying [pre], [m] returns [a] in a state satisfying
    [post a], or throws [e] in a state satisfying [exc e]; it runs out of
    fuel only if [oof] holds. *)
Definition triple {A} (pre : MemorySafetyAnalyzer -> Prop) (m : M A)
           (post : A -> MemorySafetyAnalyzer -> Prop)
           (exc : MemorySafetyError -> MemorySafetyAnalyzer -> Prop)
           (oof : Prop) : Prop :=
  forall st, pre st ->
    match m st with
    | Done a st' => post a st'
    | Throw e st' => exc e st'
    | OutOfFuel => oof
    end.

(** No exception is allowed. *)
Definition never : MemorySafetyError -> MemorySafetyAnalyzer -> Prop :=
  fun _ _ => False.

(** The walk, the leak check, the graph construction and the dataflow
    pass, as [analyze] runs them inside its [try] block. *)
Definition analysis_body (fuel : nat) (statements : list Stmt) : M unit :=
  (for_each (Analyzer.analyze_stmt fuel) statements ;;
   Analyzer.check_memory_leaks ;;
   cfg_entry <- Analyzer.build_cfg statements ;;
   Analyzer.perform_dataflow_analysis fuel cfg_entry)%analyzer.

(** The part of [perform_interprocedural_analysis] after the function's
    entry node has been created. *)
Definition interprocedural_rest (fuel : nat) (name : Token) (body : list Stmt)
           (func_entry : CFGNodePtr) : M unit :=
  (func_exit <- Analyzer.create_cfg_node NodeType.FUNCTION_RETURN ;;
   modify (fun st =>
             with_function_nodes st
               (<[lexeme name := func_entry]> (function_entry_nodes st))
               (<[lexeme name := func_exit]> (function_exit_nodes st))) ;;
   body_node <- Analyzer.build_cfg_block body func_exit ;;
   Analyzer.connect_cfg_nodes func_entry (default func_exit body_node) ;;
   Analyzer.perform_dataflow_analysis fuel (Some func_entry) ;;
   st <- get ;;
   for_each Analyzer.analyze_path_memory_safety
            (Analyzer.enumerate_all_paths (cfg_nodes st) func_entry func_exit))%analyzer.

(** [if] with an [else], without the revert loop: the condition, the
    then-branch, the allocation records put back as they were before the
    then-branch, the else-branch. *)
Definition if_else_walk (fuel : nat) (condition : Expr) (then_branch els : Stmt)
  : M unit :=
  (Analyzer.analyze_expr condition ;;
   st0 <- get ;;
   Analyzer.analyze_stmt fuel then_branch ;;
   modify (fun st => with_allocations st (allocations st0)) ;;
   Analyzer.analyze_stmt fuel els)%analyzer.

(** What [core] returns. *)
Definition Core : Type :=
  gmap string AllocationInfo * gmap string PointerInfo
  * list (gset string) * list (gset string) * list MemorySafetyError * bool.

(** Everything the syntactic walk reads or writes, apart from the
    warnings: the graph functions leave it alone. *)
Definition core (st : MemorySafetyAnalyzer) : Core :=
  (allocations st, pointers st, current_scope_vars st, freed_in_scope st,
   errors st, strict_mode st).

(** A node as [create_cfg_node] makes it and as an entry node stays: no
    predecessor, no statement, nothing flowing out. *)
Definition source (e : CFGNodePtr) (st : MemorySafetyAnalyzer) : Prop :=
  (e < length (cfg_nodes st))%nat /\
  predecessors (Analyzer.node_at (cfg_nodes st) e) = [] /\
  statement (Analyzer.node_at (cfg_nodes st) e) = NullStmt /\
  allocations_out (Analyzer.node_at (cfg_nodes st) e) = ∅.

(** The graph functions' invariant: [core] is [c] and [e] is a source. *)
Definition cfg_ok (c : Core) (e : CFGNodePtr) (st : MemorySafetyAnalyzer) : Prop :=
  core st = c /\ source e st.

(** The pointer, if any, is not [e]. *)
Definition fresh (e : CFGNodePtr) (r : option CFGNodePtr) : Prop :=
  forall p, r = Some p -> p <> e.

(** [f] changes none of the three fields [source] reads. *)
Definition keeps_source (f : ControlFlowNode -> ControlFlowNode) : Prop :=
  forall n, predecessors (f n) = predecessors n /\
            statement (f n) = statement n /\
            allocations_out (f n) = allocations_out n.

(** Every record is an unfreed allocation declared at [tok]. *)
Definition leak_records (tok : Token) (al : gmap string AllocationInfo) : Prop :=
  forall k a, al !! k = Some a ->
              state a = MemoryState.ALLOCATED /\ allocation_token a = tok.

(** The allocation records and the mode are [al] and [b]. *)
Definition walk_inv (al : gmap string AllocationInfo) (b : bool)
           (st : MemorySafetyAnalyzer) : Prop :=
  allocations st = al /\ strict_mode st = b.

(** The exception is a leak report for the declaration at [tok]. *)
Definition leak_at (tok : Token) : MemorySafetyError -> MemorySafetyAnalyzer -> Prop :=
  fun e _ => error_type e = "MEMORY LEAK" /\ token e = tok.

(** The record [analyze_var_stmt] makes for [var name = malloc(...)]. *)
Definition declared (name callee : Token) (args : list Expr) : AllocationInfo :=
  set_size_expr match args with a :: _ => Some a | [] => None end
                (new_AllocationInfo (lexeme name) name MemoryState.ALLOCATED
                                    (String.eqb (lexeme callee) "calloc")).

(** [m] does not run out of fuel. *)
Definition halts {A} (m : M A) : Prop := forall st, m st <> OutOfFuel.

(** From [st] to [st']: as many scopes, the enclosing scopes' freed sets
    untouched, the innermost one no smaller. *)
Definition stack_rel (st st' : MemorySafetyAnalyzer) : Prop :=
  length (current_scope_vars st') = length (current_scope_vars st) /\
  tail (freed_in_scope st') = tail (freed_in_scope st) /\
  back (freed_in_scope st) ⊆ back (freed_in_scope st').

(** Started with the global scope in place, [m] returns in such a
    state. *)
Definition grows {A} (m : M A) : Prop :=
  forall st, (1 <= length (current_scope_vars st))%nat ->
    match m st with
    | Done _ st' => stack_rel st st'
    | _ => True
    end.

(** ** Where an allocation is reported *)

(** Every call in the expression is one the analyzer passes without an
    error of its own and without a change of the records: no call of
    [free], [malloc], [calloc], [realloc] or [addr_of], and every call of
    [deref] with exactly one argument. *)
Fixpoint calm_expr (e : Expr) : bool :=
  match e with
  | Literal _ _ | Variable_ _ => true
  | Assign _ v => calm_expr v
  | Binary l _ r | Logical l _ r => calm_expr l && calm_expr r
  | Unary _ r | Grouping r => calm_expr r
  | Call callee _ args =>
      match callee with
      | Variable_ n =>
          if String.eqb (lexeme n) "deref" then (length args =? 1)%nat
          else negb (Analyzer.is_memory_primitive (lexeme n))
      | _ => calm_expr callee
      end
      && forallb calm_expr args
  | ArrayLiteral es _ => forallb calm_expr es
  | IndexGet a i _ => calm_expr a && calm_expr i
  | IndexSet a i v _ => calm_expr a && calm_expr i && calm_expr v
  | DictLiteral ps _ =>
      forallb (fun '(k, v) => calm_expr k && calm_expr v) ps
  end.

Definition calm_option (e : option Expr) : bool :=
  match e with Some e' => calm_expr e' | None => true end.

(** A statement all of whose expressions are calm. *)
Fixpoint calm (s : Stmt) : bool :=
  match s with
  | NullStmt | BreakStmt _ | LLVMInlineStmt _ _ _ | ImportStmt _ _ _ => true
  | ExprStmt e | PrintStmt e _ => calm_expr e
  | VarStmt _ i => calm_option i
  | ReturnStmt _ v => calm_option v
  | Block ss _ | FunctionStmt _ _ ss | UnsafeBlock _ ss => forallb calm ss
  | IfStmt c t e _ =>
      calm_expr c && calm t && match e with Some s' => calm s' | None => true end
  | WhileStmt c b _ => calm_expr c && calm b
  | SwitchStmt _ c cases d =>
      calm_expr c
      && forallb (fun cl : CaseClauseT =>
                    let '(CaseClause v ss) := cl in calm_expr v && forallb calm ss)
                 cases
      && match d with Some ss => forallb calm ss | None => true end
  end.

(** The name declared by [var name = malloc(...)] (or [calloc],
    [realloc]). *)
Definition allocating (s : Stmt) : option Token :=
  match s with
  | VarStmt name (Some (Call (Variable_ callee) _ _)) =>
      if is_allocator (lexeme callee) then Some name else None
  | _ => None
  end.

(** What a part of a program does with its one allocating declaration:
    it has none and is calm ([nowhere]); it ends with the record of the
    declared [name] at hand, in the scope the part stands in ([carried]);
    it cannot end, the leak of [name] being reported when a scope or a
    function inside it is left ([reported]); or none of these is known
    ([unclear]). *)
Inductive Leak :=
| nowhere
| carried (name : Token)
| reported (name : Token)
| unclear.

(** One part after another. *)
Definition then_leak (first rest : Leak) : Leak :=
  match first, rest with
  | nowhere, l => l
  | carried n, nowhere => carried n
  | reported n, nowhere => reported n
  | _, _ => unclear
  end.

(** A part inside a scope that is left in strict mode, or inside a
    function. *)
Definition closed (l : Leak) : Leak :=
  match l with
  | carried n | reported n => reported n
  | _ => l
  end.

(** The two branches of an [if] with an [else]: the records of the
    then-branch are dropped before the else-branch. *)
Definition branches (then_branch else_branch : Leak) : Leak :=
  match then_branch, else_branch with
  | nowhere, l => l
  | reported n, nowhere => reported n
  | _, _ => unclear
  end.

(** A part inside an [unsafe] block, where no leak is an error. *)
Definition unchecked (l : Leak) : Leak :=
  match l with
  | nowhere => nowhere
  | carried n => carried n
  | _ => unclear
  end.

Fixpoint leak_of (s : Stmt) : Leak :=
  let all :=
    fix go (l : list Stmt) : Leak :=
      match l with
      | [] => nowhere
      | s' :: l' => then_leak (leak_of s') (go l')
      end in
  match s with
  | VarStmt name init =>
      match allocating s with
      | Some n => carried n
      | None => if calm_option init then nowhere else unclear
      end
  | Block ss _ | FunctionStmt _ _ ss => closed (all ss)
  | WhileStmt c b _ => if calm_expr c then closed (leak_of b) else unclear
  | IfStmt c t e _ =>
      if calm_expr c then
        match e with
        | None => leak_of t
        | Some e' => branches (leak_of t) (leak_of e')
        end
      else unclear
  | SwitchStmt _ c cases d =>
      if calm_expr c
         && forallb (fun cl : CaseClauseT =>
                       let '(CaseClause v ss) := cl in
                       calm_expr v && forallb calm ss)
                    cases
      then match d with Some ss => all ss | None => nowhere end
      else unclear
  | UnsafeBlock _ ss => unchecked (all ss)
  | _ => if calm s then nowhere else unclear
  end.

(** The same of a statement list. *)
Definition leaks (l : list Stmt) : Leak :=
  fold_right (fun s rest => then_leak (leak_of s) rest) nowhere l.

(** The walk's state around a statement: the innermost scope declares at
    least [V], the enclosing scopes are [tl], the freed sets are [fr], the
    records are [al], no pointer is recorded and the mode is [b]. *)
Definition around (tl fr : list (gset string)) (al : gmap string AllocationInfo)
           (b : bool) (V : gset string) (st : MemorySafetyAnalyzer) : Prop :=
  (exists V', V ⊆ V' /\ current_scope_vars st = V' :: tl) /\
  freed_in_scope st = fr /\ allocations st = al /\ pointers st = ∅ /\
  strict_mode st = b.

(** The one record of the declaration of [name]. *)
Definition record_of (name : Token) (al : gmap string AllocationInfo) : Prop :=
  exists r, al = {[ lexeme name := r ]} /\
            state r = MemoryState.ALLOCATED /\ allocation_token r = name.

(** What the walk over a program part [m] classified as [l] does, from a
    state without records (with records of one declaration, when the part
    is calm). *)
Definition behaves (l : Leak) (m : M unit) : Prop :=
  forall tl fr V,
    match l with
    | nowhere =>
        forall tok al b,
          leak_records tok al ->
          triple (around tl fr al b V) m (fun _ => around tl fr al b V)
                 (leak_at tok) False
    | carried n =>
        forall b,
          triple (around tl fr ∅ b V) m
                 (fun _ st => exists al, record_of n al /\
                                         around tl fr al b ({[lexeme n]} ∪ V) st)
                 (leak_at n) False
    | reported n =>
        triple (around tl fr ∅ true V) m (fun _ _ => False) (leak_at n) False
    | unclear => True
    end.

(** ** Freed variables and enumerated paths *)

(** The record of [x] says [FREED]. *)
Definition freed (x : string) (st : MemorySafetyAnalyzer) : Prop :=
  exists a, allocations st !! x = Some a /\ state a = MemoryState.FREED.

(** The variable [x] is read at a place the analyzer looks at: as an
    operand, as an element, as the argument of [deref], or as an argument
    of a call of a function that is no memory primitive. *)
Fixpoint reads (x : string) (e : Expr) : bool :=
  match e with
  | Variable_ n => String.eqb (lexeme n) x
  | Assign _ v => reads x v
  | Binary l _ r | Logical l _ r => reads x l || reads x r
  | Unary _ r | Grouping r => reads x r
  | ArrayLiteral es _ => existsb (reads x) es
  | IndexGet a i _ => reads x a || reads x i
  | IndexSet a i v _ => reads x a || reads x i || reads x v
  | Call (Variable_ callee) _ args =>
      if String.eqb (lexeme callee) "deref" then
        match args with
        | [Variable_ n] => String.eqb (lexeme n) x
        | _ => false
        end
      else if Analyzer.is_memory_primitive (lexeme callee) then false
      else existsb (reads x) args
  | _ => false
  end.

(** Each node of the list is a successor of the one before it. *)
Fixpoint linked (cfg : list ControlFlowNode) (l : list CFGNodePtr) : bool :=
  match l with
  | a :: (b :: _) as t =>
      existsb (Nat.eqb b) (successors (Analyzer.node_at cfg a)) && linked cfg t
  | _ => true
  end.

(** The identifiers of the nodes of a path. *)
Definition path_ids (cfg : list ControlFlowNode) (l : list CFGNodePtr) : list Z :=
  List.map (fun n => node_id (Analyzer.node_at cfg n)) l.

(** A path to [exit] found below [current], reached by [current_path],
    with the identifiers in [visited] on the way. *)
Definition found (cfg : list ControlFlowNode) (exit : CFGNodePtr)
           (current_path : list CFGNodePtr) (current : CFGNodePtr)
           (visited : gset Z) (p : ControlFlowPath) : Prop :=
  exists rest,
    nodes p = current_path ++ current :: rest /\
    last (current :: rest) = Some exit /\
    linked cfg (current :: rest) = true /\
    (length (nodes p) <= Analyzer.MAX_PATH_DEPTH)%nat /\
    NoDup (path_ids cfg (current :: rest)) /\
    (forall n, In n (current :: rest) ->
               node_id (Analyzer.node_at cfg n) ∉ visited) /\
    final_allocations p = allocations_out (Analyzer.node_at cfg exit) /\
    path_freed_vars p = freed_vars (Analyzer.node_at cfg exit) /\
    is_feasible p = true.

(** ** What the graph analyses report *)

(** Nothing flows out of any node of the graph. *)
Definition clean (st : MemorySafetyAnalyzer) : Prop :=
  Forall (fun n => allocations_out n = ∅) (cfg_nodes st).

(** The graph is clean and the warnings are [w]. *)
Definition quiet (w : list string) (st : MemorySafetyAnalyzer) : Prop :=
  clean st /\ warnings st = w.

(** The warning of the worklist pass and the warning of the path
    analysis. *)
Definition graph_warning (w : string) : bool :=
  String.prefix "Potential use-after-free of '" w
  || String.prefix "Path-sensitive analysis: Potential leak of '" w.

(** The graph is clean and neither warning has been given. *)
Definition unreported (st : MemorySafetyAnalyzer) : Prop :=
  clean st /\ Forall (fun w => graph_warning w = false) (warnings st).

(** Neither map of any node of the graph holds a record. *)
Definition blank (st : MemorySafetyAnalyzer) : Prop :=
  Forall (fun n => allocations_in n = ∅ /\ allocations_out n = ∅) (cfg_nodes st).

(** The join of the language reference at the node [n] of the graph
    [cfg]: the keys of the in-map are the keys of the predecessors'
    out-maps, and the state of a key is Freed when every predecessor that
    has the key has it Freed, Allocated otherwise. *)
Definition joined (cfg : list ControlFlowNode) (n : ControlFlowNode) : Prop :=
  let out p := allocations_out (Analyzer.node_at cfg p) in
  (forall k, is_Some (allocations_in n !! k) <->
             exists p, In p (predecessors n) /\ is_Some (out p !! k)) /\
  (forall k a,
      allocations_in n !! k = Some a ->
      ((forall p b, In p (predecessors n) -> out p !! k = Some b ->
                    state b = MemoryState.FREED) ->
       state a = MemoryState.FREED) /\
      ((exists p b, In p (predecessors n) /\ out p !! k = Some b /\
                    state b <> MemoryState.FREED) ->
       state a = MemoryState.ALLOCATED)).

(** ** Runs of the parser *)

(** From a state satisfying [pre], the production returns [a] in a state
    satisfying [post a], or throws [e] in a state satisfying [exc e]. *)
Definition ptriple {A} (pre : Parser.State -> Prop) (m : Parser.P A)
           (post : A -> Parser.State -> Prop)
           (exc : Parser.ParserError -> Parser.State -> Prop) : Prop :=
  forall st, pre st ->
    match m st with
    | Parser.Ok a st' => post a st'
    | Parser.Raise e st' => exc e st'
    | Parser.NoFuel => True
    end.

(** The nesting counters are [l], [b] and [f]; the token list, the source
    and the error list are those of [base]; the cursor is not before that
    of [base]. *)
Definition settled (l b f : Z) (base st : Parser.State) : Prop :=
  Parser.loop_depth st = l /\ Parser.block_depth st = b /\
  Parser.function_depth st = f /\
  Parser.tokens st = Parser.tokens base /\
  Parser.source st = Parser.source base /\
  Parser.errors st = Parser.errors base /\
  (Parser.current base <= Parser.current st)%nat.

(** The production keeps a settled state settled, whether it returns or
    throws, and returns with the unsafe flag as it found it. *)
Definition balanced {A} (m : Parser.P A) : Prop :=
  forall l b f u base,
    ptriple (fun st => settled l b f base st /\ Parser.in_unsafe_block st = u) m
            (fun _ st => settled l b f base st /\ Parser.in_unsafe_block st = u)
            (fun _ st => settled l b f base st).

(** The handler throws, from a settled state into a settled state. *)
Definition raising {A} (h : Parser.P A) : Prop :=
  forall l b f base,
    ptriple (settled l b f base) h (fun _ _ => False)
            (fun _ st => settled l b f base st).

(** Every [break] of the statement is inside a loop or a [switch], every
    [return] inside a function and every [llvm_inline] inside an [unsafe]
    block, the statement itself standing in a loop ([lp]), in a function
    ([fn]) or in an unsafe block ([us]).  A function body stands in the
    loops its definition stands in. *)
Fixpoint placed (lp fn us : bool) (s : Stmt) : bool :=
  match s with
  | BreakStmt _ => lp
  | ReturnStmt _ _ => fn
  | LLVMInlineStmt _ _ _ => us
  | Block ss _ => forallb (placed lp fn us) ss
  | IfStmt _ t e _ =>
      placed lp fn us t && match e with Some s' => placed lp fn us s' | None => true end
  | WhileStmt _ b _ => placed true fn us b
  | FunctionStmt _ _ body => forallb (placed lp true us) body
  | SwitchStmt _ _ cases d =>
      forallb (fun cl : CaseClauseT =>
                 let '(CaseClause _ ss) := cl in forallb (placed true fn us) ss)
              cases
      && match d with Some ss => forallb (placed true fn us) ss | None => true end
  | UnsafeBlock _ ss => forallb (placed lp fn true) ss
  | _ => true
  end.

(** The parser is settled at the counters [l], [b], [f] with the unsafe
    flag [u]. *)
Definition held (l b f : Z) (u : bool) (base st : Parser.State) : Prop :=
  settled l b f base st /\ Parser.in_unsafe_block st = u.

(** The production returns, in the state it started in, a value with the
    property [good] of the nesting it was called in. *)
Definition returns {A} (good : bool -> bool -> bool -> A -> Prop) (m : Parser.P A)
  : Prop :=
  forall l b f u base, 0 <= l -> 0 <= f ->
    ptriple (held l b f u base) m
            (fun a st => held l b f u base st /\ good (0 <? l) (0 <? f) u a)
            (fun _ st => settled l b f base st).

(** The statement returned is well placed / is well placed anywhere / the
    statements returned are well placed. *)
Definition well_placed : Parser.P Stmt -> Prop :=
  returns (fun lp fn us s => placed lp fn us s = true).
Definition leaf : Parser.P Stmt -> Prop :=
  returns (fun _ _ _ s => forall lp fn us, placed lp fn us s = true).
Definition all_well_placed : Parser.P (list Stmt) -> Prop :=
  returns (fun lp fn us ss => forallb (placed lp fn us) ss = true).

(** What [parse] keeps between two top-level declarations: the loop and
    function counters are 0 and, as long as no error has been recorded,
    the unsafe flag is down and the statements collected are well placed
    at top level. *)
Definition between_declarations (statements : list Stmt) (st : Parser.State)
  : Prop :=
  Parser.loop_depth st = 0 /\ Parser.function_depth st = 0 /\
  (Parser.errors st = [] ->
   Parser.in_unsafe_block st = false /\
   forallb (placed false false false) statements = true).

(** The state [st'] a production leaves, against the state [st] it
    started in: counters, tokens, source and errors as they were, the
    cursor where it was or further on. *)
Definition undisturbed (st st' : Parser.State) : Prop :=
  Parser.loop_depth st' = Parser.loop_depth st /\
  Parser.block_depth st' = Parser.block_depth st /\
  Parser.function_depth st' = Parser.function_depth st /\
  Parser.tokens st' = Parser.tokens st /\
  Parser.source st' = Parser.source st /\
  Parser.errors st' = Parser.errors st /\
  (Parser.current st <= Parser.current st')%nat.

(** ** Sample states *)

(** The state after [var p = malloc(100);]. *)
Definition allocated_p : MemorySafetyAnalyzer :=
  let p := Token4 IDENTIFIER "p" 1 5 in
  with_allocations new_MemorySafetyAnalyzer
    {[ "p" := new_AllocationInfo "p" p MemoryState.ALLOCATED false ]}.

(** The state after [var x = malloc(100);]. *)
Definition allocated_x : MemorySafetyAnalyzer :=
  match Samples.program_if_free with
  | declaration :: _ =>
      match Analyzer.analyze_stmt 1 declaration new_MemorySafetyAnalyzer with
      | Done _ st => st
      | _ => new_MemorySafetyAnalyzer
      end
  | [] => new_MemorySafetyAnalyzer
  end.

(** The graph of [var x = malloc(100); if (true) { print 1; } else
    { free(x); }] as [build_cfg] makes it, after [propagate_allocations]
    has run on its nodes from the entry down to the merge node: entry 0,
    declaration 2, branch 3, then-branch 5, else-branch 6, merge 4. *)
Definition cfg_free_in_else : list ControlFlowNode :=
  match
    (Analyzer.build_cfg Samples.program_free_in_else ;;
     for_each Analyzer.propagate_allocations [0; 2; 3; 5; 6; 4]%nat)%analyzer
      new_MemorySafetyAnalyzer
  with
  | Done _ st => cfg_nodes st
  | _ => []
  end.

(** The analyzer holding that graph. *)
Definition analyzer_free_in_else : MemorySafetyAnalyzer :=
  with_cfg new_MemorySafetyAnalyzer 7 cfg_free_in_else.

(** [callee(x)] written on line [line]. *)
Definition call_on (callee : string) (line : Z) (x : string) : Expr :=
  Call (Variable_ (Token4 IDENTIFIER callee line 1)) (Token4 RPAREN ")" line 8)
       [Variable_ (Token4 IDENTIFIER x line 6)].

(** The state after [var p = malloc(100); free(p);]. *)
Definition freed_p : MemorySafetyAnalyzer :=
  let p := Token4 IDENTIFIER "p" 1 5 in
  with_allocations new_MemorySafetyAnalyzer
    {[ "p" := set_freed_at (Token4 IDENTIFIER "p" 2 6)
                (new_AllocationInfo "p" p MemoryState.FREED false) ]}.

(** The analyzer after the [unsafe] block of the sample program. *)
Definition after_unsafe_function : MemorySafetyAnalyzer :=
  match Analyzer.analyze_stmt 100 (nth 0 Samples.program_unsafe_function NullStmt)
                              new_MemorySafetyAnalyzer with
  | Done _ st => st
  | _ => new_MemorySafetyAnalyzer
  end.

(** The first path enumerated in the sample graph, from its entry node 0
    to its exit node 1. *)
Definition first_path_free_in_else : ControlFlowPath :=
  nth 0 (Analyzer.enumerate_all_paths cfg_free_in_else 0%nat 1%nat)
      (mkControlFlowPath [] ∅ ∅ false).

(** [while (true) { break; }] *)
Definition source_while_break :=
  [Samples.kw WHILE "while"; Samples.kw LPAREN "("; Samples.kw TRUE "true";
   Samples.kw RPAREN ")"; Samples.kw LBRACE "{"; Samples.kw BREAK "break";
   Samples.kw SEMICOLON ";"; Samples.kw RBRACE "}"].
Definition program_while_break : list Stmt :=
  Eval vm_compute in Samples.parsed source_while_break.

(** [break;] *)
Definition source_stray_break :=
  [Samples.kw BREAK "break"; Samples.kw SEMICOLON ";"].

(* ===================================================================== *)
(** * Properties of the optimizer                                         *)
(* ===================================================================== *)

Section PassMonad.
Context {A B : Type}.

Lemma pbind_fst (m : Pass A) (f : A -> Pass B) :
  fst (pbind m f) = fst (f (fst m)).
Proof. destruct m as [a m1]; simpl. destruct (f a); reflexivity. Qed.

Lemma pbind_pret (a : A) (f : A -> Pass B) : pbind (pret a) f = f a.
Proof. unfold pbind, pret. destruct (f a); reflexivity. Qed.

End PassMonad.

Section PassLists.
Context {A B : Type}.

Lemma pmap_fst (f : A -> Pass B) (l : list A) :
  fst (pmap f l) = List.map (fun x => fst (f x)) l.
Proof.
  induction l as [|x l IH]; simpl; [reflexivity|].
  rewrite !pbind_fst. simpl. rewrite IH. reflexivity.
Qed.

End PassLists.

(** Side-effect freedom plays no part in the zero rules of the simplifier. *)
Lemma simplify_literal v t :
  AlgebraicSimplifier.simplify_expr (Literal v t) = pret (Literal v t).
Proof. reflexivity. Qed.

Lemma simplify_star_cases l op r :
  type op = STAR ->
  AlgebraicSimplifier.is_zero (fst (AlgebraicSimplifier.simplify_expr l))
  || AlgebraicSimplifier.is_zero (fst (AlgebraicSimplifier.simplify_expr r)) = true ->
  fst (AlgebraicSimplifier.simplify_expr (Binary l op r))
  = AlgebraicSimplifier.create_literal 0.
Proof.
  intros Hop Hz. simpl.
  destruct (AlgebraicSimplifier.simplify_expr l) as [l' ml].
  destruct (AlgebraicSimplifier.simplify_expr r) as [r' mr].
  simpl in *. rewrite Hop.
  destruct (AlgebraicSimplifier.is_zero l') eqn:Hl; simpl; [reflexivity|].
  simpl in Hz. rewrite Hz. reflexivity.
Qed.

(** C3, as the code has it: [x * 0] and [0 * x] are rewritten to the literal
    [0] whenever one operand is a number literal equal to zero, whatever the
    other operand is -- a call, an assignment or an index-set included --
    and the pass reports a modification. *)
Theorem C3_zero_product_always_rewritten :
  forall (x : Expr) (op zero_tok : Token) (z : float),
    type op = STAR ->
    Double.eq z 0 = true ->
    AlgebraicSimplifier.simplify_expr (Binary x op (Literal (LDouble z) zero_tok))
    = (AlgebraicSimplifier.create_literal 0, true)
    /\ AlgebraicSimplifier.simplify_expr (Binary (Literal (LDouble z) zero_tok) op x)
       = (AlgebraicSimplifier.create_literal 0, true).
Proof.
  intros x op zt z Hop Hz. split.
  - simpl. destruct (AlgebraicSimplifier.simplify_expr x) as [x' mx].
    simpl. rewrite Hop. destruct (AlgebraicSimplifier.is_zero x'); simpl;
      rewrite ?Hz; simpl; rewrite ?orb_true_r; reflexivity.
  - simpl. destruct (AlgebraicSimplifier.simplify_expr x) as [x' mx].
    simpl. rewrite Hop. rewrite Hz. simpl. rewrite ?orb_true_r. reflexivity.
Qed.

Lemma C3_zero_product_witness :
  AlgebraicSimplifier.simplify_expr
    (Binary (Call (Variable_ (Token4 IDENTIFIER "f" 1 7)) (Token4 RPAREN ")" 1 10) [])
            (Token4 STAR "*" 1 12)
            (Literal (LDouble 0) (mkToken NUMBER "0" (LDouble 0) 1 14)))
  = (AlgebraicSimplifier.create_literal 0, true).
Proof.
  exact (proj1 (C3_zero_product_always_rewritten
                  (Call (Variable_ (Token4 IDENTIFIER "f" 1 7))
                        (Token4 RPAREN ")" 1 10) [])
                  (Token4 STAR "*" 1 12) (mkToken NUMBER "0" (LDouble 0) 1 14)
                  0%float eq_refl eq_refl)).
Defined.

(** C3 as stated fails: in [print f() * 0;] the dropped operand is a call
    ([has_side_effects] holds of it), and the pass still replaces the
    product by the literal 0. *)
Lemma C3_counterexample :
  exists callee paren op zero kw,
    Samples.program_call_times_zero
    = [PrintStmt (Binary (Call callee paren []) op (Literal (LDouble 0) zero)) kw]
    /\ type op = STAR
    /\ DeadCodeEliminator.has_side_effects (Call callee paren []) = true
    /\ AlgebraicSimplifier.run Samples.program_call_times_zero
       = ([PrintStmt (AlgebraicSimplifier.create_literal 0) kw], true).
Proof. vm_compute. do 5 eexists. repeat split; reflexivity. Qed.

Lemma sweep_fixed ps (A : list Stmt) :
  Forall (fun p : list Stmt -> Pass (list Stmt) => fst (p A) = A) ps ->
  fst (Optimizer.sweep ps A) = A.
Proof.
  induction 1 as [|p ps Hp _ IH]; simpl; [reflexivity|].
  rewrite pbind_fst, Hp. exact IH.
Qed.

Lemma iterate_fixed n ps (A : list Stmt) :
  fst (Optimizer.sweep ps A) = A -> Optimizer.iterate n ps A = A.
Proof.
  intros H. induction n as [|n IH]; simpl; [reflexivity|].
  destruct (Optimizer.sweep ps A) as [next m] eqn:E. simpl in H. subst next.
  destruct m; [exact IH|reflexivity].
Qed.

(** Splits a goal about every enabled pass into one goal per pass. *)
Ltac each_pass :=
  unfold Optimizer.initialize_passes;
  repeat apply Forall_app_2;
  repeat match goal with |- context [if ?b then _ else _] => destruct b end;
  repeat constructor.

Lemma sweep_keeps s ps :
  Forall (keeps_statement s) ps -> keeps_statement s (Optimizer.sweep ps).
Proof.
  induction 1 as [|p ps Hp _ IH]; intros A HA; simpl; [exact HA|].
  rewrite pbind_fst. apply IH, Hp, HA.
Qed.

Lemma iterate_keeps s n ps :
  keeps_statement s (Optimizer.sweep ps) ->
  forall A, In s A -> In s (Optimizer.iterate n ps A).
Proof.
  intros H. induction n as [|n IH]; intros A HA; simpl; [exact HA|].
  specialize (H A HA).
  destruct (Optimizer.sweep ps A) as [next m]. simpl in H.
  destruct m; [apply IH, H|exact H].
Qed.

Lemma pmap_keeps (f : Stmt -> Pass Stmt) s :
  fst (f s) = s -> keeps_statement s (pmap f).
Proof.
  intros H A HA. rewrite pmap_fst. apply in_map_iff. exists s. auto.
Qed.

Lemma filtered_pmap_keeps (f : Stmt -> Pass Stmt) s :
  fst (f s) = s -> non_null s = true ->
  keeps_statement s (fun A => (r <- pmap f A ;; pret (keep_non_null r))%pass).
Proof.
  intros H Hs A HA. rewrite pbind_fst. simpl. unfold keep_non_null.
  apply filter_In. split; [|exact Hs]. rewrite pmap_fst.
  apply in_map_iff. exists s. auto.
Qed.

Lemma map_keeps (f : Stmt -> Stmt) s :
  f s = s -> keeps_statement s (fun A => pret (List.map f A)).
Proof. intros H A HA. simpl. apply in_map_iff. exists s. auto. Qed.

Lemma dead_code_eliminator_keeps s :
  (forall st, DeadCodeEliminator.should_keep_stmt st s = true) ->
  (forall st, DeadCodeEliminator.eliminate_stmt st s = s) ->
  keeps_statement s DeadCodeEliminator.run.
Proof.
  intros Hk He A HA. unfold DeadCodeEliminator.run. simpl.
  apply in_map_iff. exists s. split; [apply He|].
  apply filter_In. split; [exact HA|apply Hk].
Qed.

Section DivisionByZero.
Variable a : float.
Variables ta tb op : Token.
Hypothesis Hop : type op = SLASH \/ type op = PERCENT.

Local Abbreviation quotient :=
  (Binary (Literal (LDouble a) ta) op (Literal (LDouble 0) tb)).

(** No pass rewrites the node. *)
Lemma division_by_zero_is_no_redex :
  fst (ConstantFolder.fold_expr quotient) = quotient /\
  fst (AlgebraicSimplifier.simplify_expr quotient) = quotient /\
  CommonSubexpressionEliminator.process_expr quotient = quotient /\
  fst (StrengthReducer.reduce_expr quotient) = quotient /\
  FunctionInliner.inline_expr quotient = quotient /\
  fst (PeepholeOptimizer.optimize_expr quotient) = quotient.
Proof.
  destruct Hop as [H|H]; cbn; rewrite ?H; repeat split; vm_compute; reflexivity.
Qed.

(** Nor does a pass drop or change a statement that prints or evaluates
    it. *)
Lemma every_pass_keeps_statement cfg (wrap : Expr -> Stmt) :
  (wrap = ExprStmt \/ exists kw, wrap = fun e => PrintStmt e kw) ->
  Forall (keeps_statement (wrap quotient)) (Optimizer.initialize_passes cfg).
Proof.
  destruct division_by_zero_is_no_redex as (Hcf & Has & Hcse & Hsr & Hfi & Hph).
  intros Hw.
  assert (Hnn : non_null (wrap quotient) = true)
    by (destruct Hw as [->|[kw ->]]; reflexivity).
  each_pass.
  - apply filtered_pmap_keeps; [|exact Hnn].
    destruct Hw as [->|[kw ->]]; cbn [ConstantFolder.fold_stmt];
      rewrite pbind_fst, Hcf; reflexivity.
  - apply filtered_pmap_keeps; [|exact Hnn].
    destruct Hw as [->|[kw ->]]; cbn [AlgebraicSimplifier.simplify_stmt];
      rewrite pbind_fst, Has; reflexivity.
  - apply dead_code_eliminator_keeps; intros st;
      destruct Hw as [->|[kw ->]]; reflexivity.
  - apply map_keeps. destruct Hw as [->|[kw ->]]; reflexivity.
  - apply pmap_keeps. destruct Hw as [->|[kw ->]]; reflexivity.
  - apply pmap_keeps.
    destruct Hw as [->|[kw ->]]; cbn [StrengthReducer.reduce_stmt];
      rewrite pbind_fst, Hsr; reflexivity.
  - apply map_keeps. destruct Hw as [->|[kw ->]]; reflexivity.
  - apply pmap_keeps.
    destruct Hw as [->|[kw ->]]; cbn [PeepholeOptimizer.optimize_stmt];
      rewrite pbind_fst, Hph; reflexivity.
Qed.

Lemma optimize_keeps_division_statement cfg (wrap : Expr -> Stmt) pre post :
  (wrap = ExprStmt \/ exists kw, wrap = fun e => PrintStmt e kw) ->
  In (wrap quotient) (Optimizer.optimize cfg (pre ++ wrap quotient :: post)).
Proof.
  intros Hw. apply iterate_keeps.
  - apply sweep_keeps, every_pass_keeps_statement, Hw.
  - apply in_elt.
Qed.

End DivisionByZero.




(** The whole pipeline leaves [print 1 / 0;] as it is. *)
Example optimize_keeps_division_by_zero :
  Optimizer.optimize default_config Samples.program_div_zero
  = Samples.program_div_zero.
Proof. vm_compute. reflexivity. Qed.

(** ** Function inlining *)

(** No pass changes [fun add(a, b) { return a + b; } var r = add(2, 3);
    print r;]. *)
Lemma optimize_program_add cfg :
  Optimizer.optimize cfg Samples.program_add = Samples.program_add.
Proof.
  apply iterate_fixed, sweep_fixed. each_pass; vm_compute; reflexivity.
Qed.

(** C5, as the code has it: with inlining enabled and any threshold, the
    optimizer returns the program unchanged; the initializer of [r] is still
    the call [add(2, 3)]. *)
Theorem C5_call_is_not_inlined :
  forall cfg : OptimizerConfig,
    function_inlining cfg = true ->
    2 <= inline_threshold cfg ->
    Optimizer.optimize cfg Samples.program_add = Samples.program_add
    /\ exists callee paren two three,
        lexeme callee = "add"
        /\ initializer_of (Optimizer.optimize cfg Samples.program_add) 1
           = Some (Call (Variable_ callee) paren
                        [Literal (LDouble 2) two; Literal (LDouble 3) three]).
Proof.
  intros cfg _ _. rewrite optimize_program_add. split; [reflexivity|].
  do 4 eexists. split; cycle 1.
  - vm_compute. reflexivity.
  - reflexivity.
Qed.

Lemma C5_call_is_not_inlined_witness :
  Optimizer.optimize default_config Samples.program_add = Samples.program_add.
Proof.
  exact (proj1 (C5_call_is_not_inlined default_config eq_refl
                  ltac:(vm_compute; discriminate))).
Defined.

(** C5 as stated fails: under the default configuration (inlining on,
    threshold 10) the initializer of [r] is the call, not a literal. *)
Lemma C5_counterexample :
  function_inlining default_config = true
  /\ inline_threshold default_config = 10
  /\ exists callee paren two three,
      initializer_of (Optimizer.optimize default_config Samples.program_add) 1
      = Some (Call (Variable_ callee) paren
                   [Literal (LDouble 2) two; Literal (LDouble 3) three])
      /\ is_literal (Call (Variable_ callee) paren
                          [Literal (LDouble 2) two; Literal (LDouble 3) three])
         = false.
Proof. vm_compute. repeat split. do 4 eexists. split; reflexivity. Qed.

(* ===================================================================== *)
(** * Properties of the memory-safety analyzer                            *)
(* ===================================================================== *)

(** ** Frame reasoning: a member function leaves a field alone *)

Section Frame.
Context {X : Type} (proj : MemorySafetyAnalyzer -> X).

Lemma preserves_aret {A} (a : A) : preserves proj (aret a).
Proof. intros st. reflexivity. Qed.

Lemma preserves_throw {A} e : preserves proj (@throw A e).
Proof. intros st. reflexivity. Qed.

Lemma preserves_get : preserves proj get.
Proof. intros st. reflexivity. Qed.

Lemma preserves_out_of_fuel {A} : preserves proj (@out_of_fuel A).
Proof. intros st. exact I. Qed.

Lemma preserves_modify f :
  (forall st, proj (f st) = proj st) -> preserves proj (modify f).
Proof. intros H st. apply H. Qed.

Lemma preserves_abind {A B} (m : M A) (f : A -> M B) :
  preserves proj m -> (forall a, preserves proj (f a)) -> preserves proj (abind m f).
Proof.
  intros Hm Hf st. unfold abind. specialize (Hm st).
  destruct (m st) as [a st'| |]; auto.
  specialize (Hf a st'). destruct (f a st'); congruence.
Qed.

Lemma preserves_when b (m : M unit) : preserves proj m -> preserves proj (when b m).
Proof. destruct b; simpl; auto using preserves_aret. Qed.

Lemma preserves_for_each {A} (body : A -> M unit) (l : list A) :
  (forall x, In x l -> preserves proj (body x)) -> preserves proj (for_each body l).
Proof.
  induction l as [|x l IH]; intros H; simpl.
  - apply preserves_aret.
  - apply preserves_abind; [apply H; left; reflexivity|].
    intros _. apply IH. intros y Hy. apply H. right. exact Hy.
Qed.

End Frame.

(** Breaks a frame goal down along the structure of the computation. *)
Ltac frame_step :=
  match goal with
  | |- preserves _ (abind _ _) => apply preserves_abind
  | |- preserves _ (aret _) => apply preserves_aret
  | |- preserves _ (throw _) => apply preserves_throw
  | |- preserves _ get => apply preserves_get
  | |- preserves _ out_of_fuel => apply preserves_out_of_fuel
  | |- preserves _ (when _ _) => apply preserves_when
  | |- preserves _ (push_warning _) => apply preserves_modify; intros; reflexivity
  | |- preserves _ (modify _) => apply preserves_modify; intros
  | |- preserves _ (for_each _ _) => apply preserves_for_each; intros
  | |- preserves _ (match ?x with _ => _ end) => destruct x
  | |- preserves _ (let '(_, _) := ?x in _) => destruct x
  | |- forall _, _ => intros
  end.

Ltac frame := repeat frame_step; try reflexivity; auto.

(** ** No member function writes [errors] *)

Section ErrorsFrame.

Local Abbreviation keeps := (preserves errors).

Lemma errors_enter_scope : keeps Analyzer.enter_scope.
Proof. unfold Analyzer.enter_scope. frame. Qed.

Lemma errors_exit_scope : keeps Analyzer.exit_scope.
Proof. unfold Analyzer.exit_scope. frame. Qed.

Lemma errors_check_variable_access n : keeps (Analyzer.check_variable_access n).
Proof. unfold Analyzer.check_variable_access. frame. Qed.

Lemma errors_update_pointer_states_on_free v :
  keeps (Analyzer.update_pointer_states_on_free v).
Proof.
  unfold Analyzer.update_pointer_states_on_free. apply preserves_modify.
  intros st. destruct (allocations st !! v); reflexivity.
Qed.

Lemma errors_analyze_free p args : keeps (Analyzer.analyze_free p args).
Proof.
  unfold Analyzer.analyze_free. frame; apply errors_update_pointer_states_on_free.
Qed.

Lemma errors_analyze_deref p args : keeps (Analyzer.analyze_deref p args).
Proof. unfold Analyzer.analyze_deref. frame. Qed.

Lemma errors_analyze_call_with rec callee p args :
  (forall a, In a args -> keeps (rec a)) ->
  keeps (Analyzer.analyze_call_with rec callee p args).
Proof.
  intros H. unfold Analyzer.analyze_call_with.
  destruct callee; try apply preserves_aret.
  destruct (String.eqb (lexeme name) "free"); [apply errors_analyze_free|].
  frame. apply errors_analyze_deref.
Qed.

Lemma errors_analyze_expr e : keeps (Analyzer.analyze_expr e).
Proof.
  induction e using Expr_nested_ind; simpl; try solve [frame].
  - apply errors_check_variable_access.
  - apply errors_analyze_call_with. intros a Ha.
    rewrite Forall_forall in H. apply H. apply list_elem_of_In. exact Ha.
  - frame. rewrite Forall_forall in H. apply H. apply list_elem_of_In. assumption.
Qed.

Lemma errors_analyze_var_stmt n i : keeps (Analyzer.analyze_var_stmt n i).
Proof.
  unfold Analyzer.analyze_var_stmt. frame; try apply errors_analyze_expr.
Qed.

Lemma errors_check_function_memory_leaks n :
  keeps (Analyzer.check_function_memory_leaks n).
Proof. unfold Analyzer.check_function_memory_leaks. frame. Qed.

Lemma errors_check_memory_leaks : keeps Analyzer.check_memory_leaks.
Proof. unfold Analyzer.check_memory_leaks. frame. Qed.

Lemma errors_create_cfg_node t : keeps (Analyzer.create_cfg_node t).
Proof. intros st. reflexivity. Qed.

Lemma errors_update_node p f : keeps (Analyzer.update_node p f).
Proof. unfold Analyzer.update_node. frame. Qed.

Lemma errors_connect_cfg_nodes a b : keeps (Analyzer.connect_cfg_nodes a b).
Proof. unfold Analyzer.connect_cfg_nodes. frame; apply errors_update_node. Qed.

Lemma errors_build_cfg_block_with rec ss exit :
  (forall s, In s ss -> forall x, keeps (rec s x)) ->
  keeps (Analyzer.build_cfg_block_with rec ss exit).
Proof.
  intros H. unfold Analyzer.build_cfg_block_with.
  match goal with
  | |- context [abind (?go ss None None) ?k] =>
      assert (G : forall l first prev,
                 (forall s, In s l -> forall x, keeps (rec s x)) ->
                 keeps (go l first prev));
        [|destruct ss as [|s0 ss0]; [apply preserves_aret|];
          apply (preserves_abind errors (go (s0 :: ss0) None None) k);
          [exact (G _ None None H)|]]
  end.
  - induction l as [|s l IH]; intros first prev Hl.
    + apply preserves_aret.
    + apply preserves_abind; [apply Hl; left; reflexivity|].
      intros n. apply preserves_abind.
      * destruct prev, n; try apply preserves_aret. apply errors_connect_cfg_nodes.
      * intros _. apply IH. intros s' Hs'. apply Hl. right. exact Hs'.
  - intros [first prev]. apply preserves_abind.
    + destruct prev; [apply errors_connect_cfg_nodes|apply preserves_aret].
    + intros _. apply preserves_aret.
Qed.

Lemma errors_build_cfg_stmt s : forall x, keeps (Analyzer.build_cfg_stmt s x).
Proof.
  induction s using Stmt_nested_ind; intros x; simpl;
    try solve [frame; auto using errors_create_cfg_node, errors_update_node,
                      errors_connect_cfg_nodes].
  apply errors_build_cfg_block_with. intros s Hs.
  rewrite Forall_forall in H. apply H. apply list_elem_of_In. exact Hs.
Qed.

Lemma errors_build_cfg_block ss x : keeps (Analyzer.build_cfg_block ss x).
Proof.
  apply errors_build_cfg_block_with. intros. apply errors_build_cfg_stmt.
Qed.

Lemma errors_build_cfg ss : keeps (Analyzer.build_cfg ss).
Proof.
  unfold Analyzer.build_cfg. destruct ss; [apply preserves_aret|].
  frame; auto using errors_create_cfg_node, errors_build_cfg_block,
                    errors_connect_cfg_nodes.
Qed.

Lemma errors_propagate_allocations n : keeps (Analyzer.propagate_allocations n).
Proof. unfold Analyzer.propagate_allocations. frame. Qed.

Lemma errors_detect_memory_access_patterns n :
  keeps (Analyzer.detect_memory_access_patterns n).
Proof. unfold Analyzer.detect_memory_access_patterns. frame. Qed.

Lemma errors_dataflow_loop fuel : forall wl inw,
  keeps (Analyzer.dataflow_loop fuel wl inw).
Proof.
  induction fuel as [|fuel IH]; intros wl inw; destruct wl as [|n rest]; simpl;
    try apply preserves_aret; try apply preserves_out_of_fuel.
  apply preserves_abind; [apply preserves_get|]. intros st.
  apply preserves_abind; [apply errors_propagate_allocations|]. intros _.
  apply preserves_abind; [apply errors_detect_memory_access_patterns|]. intros _.
  apply preserves_abind; [apply preserves_get|]. intros st'.
  destruct (negb _); [destruct (Analyzer.enqueue _ _ _ _)|]; apply IH.
Qed.

Lemma errors_perform_dataflow_analysis fuel e :
  keeps (Analyzer.perform_dataflow_analysis fuel e).
Proof.
  unfold Analyzer.perform_dataflow_analysis. destruct e; [|apply preserves_aret].
  apply preserves_abind; [apply preserves_get|]. intros. apply errors_dataflow_loop.
Qed.

Lemma errors_analyze_path_memory_safety p :
  keeps (Analyzer.analyze_path_memory_safety p).
Proof. unfold Analyzer.analyze_path_memory_safety. frame. Qed.

Lemma errors_perform_interprocedural_analysis fuel n b :
  keeps (Analyzer.perform_interprocedural_analysis fuel n b).
Proof.
  unfold Analyzer.perform_interprocedural_analysis.
  frame; auto using errors_create_cfg_node, errors_build_cfg_block,
                    errors_connect_cfg_nodes, errors_perform_dataflow_analysis,
                    errors_analyze_path_memory_safety.
Qed.

Lemma errors_revert_then_only a b : keeps (Analyzer.revert_then_only a b).
Proof.
  unfold Analyzer.revert_then_only. apply preserves_for_each. intros x _.
  destruct (bool_decide _); [apply preserves_aret|].
  apply preserves_modify. intros st.
  destruct (allocations st !! x) as [al|]; [|reflexivity].
  destruct (MemoryState.eqb _ _); reflexivity.
Qed.

Lemma errors_analyze_stmt fuel s : keeps (Analyzer.analyze_stmt fuel s).
Proof.
  induction s using Stmt_nested_ind; simpl;
    try solve [frame; auto using errors_analyze_expr].
  - apply errors_analyze_var_stmt.
  - (* Block *)
    frame; auto using errors_enter_scope, errors_exit_scope.
    rewrite Forall_forall in H. apply H. apply list_elem_of_In. assumption.
  - (* IfStmt *)
    apply preserves_abind; [apply errors_analyze_expr|]. intros _.
    apply preserves_abind; [apply preserves_get|]. intros st0.
    apply preserves_abind; [exact IHs|]. intros _.
    apply preserves_abind; [apply preserves_get|]. intros st1.
    destruct e as [els|]; [|apply preserves_aret].
    apply preserves_abind; [apply preserves_modify; reflexivity|]. intros _.
    apply preserves_abind; [eauto|]. intros _.
    apply preserves_abind; [apply preserves_get|]. intros st2.
    apply errors_revert_then_only.
  - (* WhileStmt *)
    frame; auto using errors_analyze_expr, errors_enter_scope, errors_exit_scope.
  - (* FunctionStmt *)
    frame; auto using errors_enter_scope, errors_exit_scope,
                      errors_check_function_memory_leaks,
                      errors_perform_interprocedural_analysis.
    rewrite Forall_forall in H. apply H. apply list_elem_of_In. assumption.
  - (* SwitchStmt *)
    apply preserves_abind; [apply errors_analyze_expr|]. intros _.
    apply preserves_abind.
    + apply preserves_for_each. intros [v ss] Hin.
      rewrite Forall_forall in H. specialize (H _ (proj2 (list_elem_of_In _ _) Hin)).
      simpl in H. frame; auto using errors_analyze_expr.
      rewrite Forall_forall in H. apply H. apply list_elem_of_In. assumption.
    + intros _. destruct d as [ss|]; [|apply preserves_aret].
      apply preserves_for_each. intros s Hs.
      specialize (H0 ss eq_refl). rewrite Forall_forall in H0.
      apply H0. apply list_elem_of_In. assumption.
  - (* UnsafeBlock *)
    frame. rewrite Forall_forall in H. apply H. apply list_elem_of_In. assumption.
Qed.

End ErrorsFrame.

(** ** The error list after [analyze] *)

Lemma errors_analysis_body fuel statements :
  preserves errors (analysis_body fuel statements).
Proof.
  unfold analysis_body.
  apply preserves_abind; [apply preserves_for_each; intros; apply errors_analyze_stmt|].
  intros _. apply preserves_abind; [apply errors_check_memory_leaks|].
  intros _. apply preserves_abind; [apply errors_build_cfg|].
  intros e. apply errors_perform_dataflow_analysis.
Qed.

Lemma analyze_unfold fuel statements this :
  Analyzer.analyze fuel statements this =
  match analysis_body fuel statements (with_warnings (with_errors this []) []) with
  | Done _ st' => Some (match errors st' with [] => true | _ => false end, st')
  | Throw e st' => Some (false, with_errors st' (errors st' ++ [e]))
  | OutOfFuel => None
  end.
Proof. reflexivity. Qed.

(** ** [free] of something that is not a variable *)

(** C10: [free(e)] with one argument that is not a plain variable
    reference throws nothing and leaves the whole analyzer, so its
    allocation and pointer records too, as it was; the argument is not
    even analysed. *)
Theorem C10_free_of_non_variable_is_ignored
        (free_tok paren : Token) (arg : Expr) (fuel : nat)
        (st : MemorySafetyAnalyzer) :
  lexeme free_tok = "free" ->
  (forall name, arg <> Variable_ name) ->
  Analyzer.analyze_call (Variable_ free_tok) paren [arg] st = Done None st /\
  Analyzer.analyze_expr (Call (Variable_ free_tok) paren [arg]) st = Done None st /\
  Analyzer.analyze_stmt fuel (ExprStmt (Call (Variable_ free_tok) paren [arg])) st
  = Done tt st.
Proof.
  intros Hfree Harg.
  assert (E : Analyzer.analyze_call (Variable_ free_tok) paren [arg] st
              = Done None st).
  { unfold Analyzer.analyze_call, Analyzer.analyze_call_with.
    rewrite Hfree. simpl.
    destruct arg; try reflexivity. exfalso. exact (Harg _ eq_refl). }
  split; [exact E|]. split; [exact E|].
  change (abind (Analyzer.analyze_call (Variable_ free_tok) paren [arg])
                (fun _ => aret tt) st = Done tt st).
  unfold abind. rewrite E. reflexivity.
Qed.

Lemma C10_free_of_non_variable_witness :
  exists s, Samples.program_free_index = [s] /\
            Analyzer.analyze_stmt 0 s allocated_p = Done tt allocated_p.
Proof.
  unfold Samples.program_free_index. eexists. split; [reflexivity|].
  apply C10_free_of_non_variable_is_ignored; [reflexivity|].
  intros name H. discriminate H.
Defined.

(* ===================================================================== *)
(** * Properties of the parser                                            *)
(* ===================================================================== *)

Section ParserMonad.
Import Parser.
Context {A B : Type}.

Lemma bind_Ok (m : P A) (f : A -> P B) st r st' :
  bind m f st = Ok r st' <->
  exists a st1, m st = Ok a st1 /\ f a st1 = Ok r st'.
Proof.
  unfold bind. split.
  - destruct (m st) as [a st1| |]; try discriminate. intros H. exists a, st1. auto.
  - intros (a & st1 & -> & H). exact H.
Qed.

(** A handler that always rethrows lets through exactly the normal
    returns of the guarded code. *)
Lemma try_catch_Ok (m : P A) (handler : ParserError -> P A) st r st' :
  (forall e s, exists e', exists s', handler e s = Raise e' s') ->
  try_catch m handler st = Ok r st' <-> m st = Ok r st'.
Proof.
  intros Hh. unfold try_catch. destruct (m st) as [a st1|e st1|]; try tauto.
  destruct (Hh e st1) as (e' & s' & ->). split; discriminate.
Qed.

End ParserMonad.

Lemma on_throw_Ok {A} cleanup (m : Parser.P A) st r st' :
  Parser.on_throw cleanup m st = Parser.Ok r st' <-> m st = Parser.Ok r st'.
Proof.
  apply try_catch_Ok. intros e s. eexists. eexists. reflexivity.
Qed.

Lemma in_loop_Ok {A} keyword (rest : Parser.P A) st r st' :
  Parser.in_loop keyword rest st = Parser.Ok r st' <->
  (Parser.loop_depth st + 1 <= Parser.MAX_LOOP_DEPTH /\
   exists st1,
     rest (Parser.with_loop_depth st (Parser.loop_depth st + 1)) = Parser.Ok r st1 /\
     st' = Parser.with_loop_depth st1 (Parser.loop_depth st1 - 1)).
Proof.
  unfold Parser.in_loop.
  unfold Parser.bind at 1, Parser.modify at 1.
  unfold Parser.bind at 1, Parser.gets at 1.
  cbn [Parser.loop_depth Parser.with_loop_depth].
  destruct (Z.ltb_spec Parser.MAX_LOOP_DEPTH (Parser.loop_depth st + 1)) as [Hd|Hd].
  - split; [discriminate|]. intros [Hle _]. lia.
  - unfold Parser.bind at 1, Parser.ret at 1. rewrite on_throw_Ok, bind_Ok. split.
    + intros (a & st1 & Hrest & Hk). split; [lia|]. exists st1.
      unfold Parser.bind, Parser.modify, Parser.ret in Hk.
      inversion Hk; subst. split; [exact Hrest|reflexivity].
    + intros (_ & st1 & Hrest & ->). exists r, st1. split; [exact Hrest|reflexivity].
Qed.

(** The three ways the first clause of a [for] can return. *)
Lemma for_initializer_Ok expression st init st' :
  Parser.for_initializer expression st = Parser.Ok init st' ->
  (Parser.check_at st SEMICOLON = true /\ init = NullStmt) \/
  (Parser.check_at st SEMICOLON = false /\
   ((exists name initializer, init = VarStmt name initializer) \/
    (exists e, init = ExprStmt e))).
Proof.
  unfold Parser.for_initializer. rewrite bind_Ok. intros (m & st1 & Hm & Hk).
  unfold Parser.match_ in Hm. rewrite bind_Ok in Hm.
  destruct Hm as (c & st0 & Hc & Hm). unfold Parser.check, Parser.gets in Hc.
  inversion Hc; subst; clear Hc.
  destruct (Parser.check_at st0 SEMICOLON) eqn:Hsemi.
  - left. split; [reflexivity|].
    rewrite bind_Ok in Hm. destruct Hm as (t & st2 & _ & Hm).
    inversion Hm; subst. inversion Hk. reflexivity.
  - right. split; [reflexivity|]. inversion Hm; subst; clear Hm.
    rewrite bind_Ok in Hk. destruct Hk as (m & st2 & _ & Hk). destruct m.
    + left. unfold Parser.var_declaration in Hk.
      repeat (rewrite bind_Ok in Hk; destruct Hk as (? & ? & _ & Hk)).
      inversion Hk. eauto.
    + right. unfold Parser.expression_statement in Hk.
      repeat (rewrite bind_Ok in Hk; destruct Hk as (? & ? & _ & Hk)).
      inversion Hk. eauto.
Qed.

(** A condition or increment clause is absent exactly when the token that
    ends it comes at once. *)
Lemma optional_clause_Ok expression stop keyword bad st c st' :
  Parser.optional_clause expression stop keyword bad st = Parser.Ok c st' <->
  (Parser.check_at st stop = true /\ c = None /\ st' = st) \/
  (Parser.check_at st stop = false /\
   exists e, c = Some e /\ expression st = Parser.Ok e st').
Proof.
  unfold Parser.optional_clause.
  unfold Parser.bind at 1, Parser.check, Parser.gets.
  destruct (Parser.check_at st stop); simpl.
  - unfold Parser.ret. split.
    + intros H. inversion H. left. auto.
    + intros [(_ & -> & ->)|(H & _)]; [reflexivity|discriminate].
  - rewrite bind_Ok. split.
    + intros (e & st1 & He & Hk). right. split; [reflexivity|].
      apply try_catch_Ok in He; [|intros; eexists; eexists; reflexivity].
      inversion Hk; subst. eauto.
    + intros [(H & _)|(_ & e & -> & He)]; [discriminate|].
      exists e, st'. split; [|reflexivity].
      apply try_catch_Ok; [intros; eexists; eexists; reflexivity|exact He].
Qed.

Lemma for_desugar_lowered keyword initializer condition increment body :
  Parser.for_desugar keyword initializer condition increment body
  = lowered_for keyword (present initializer) condition increment body.
Proof.
  unfold Parser.for_desugar, lowered_for, present.
  destruct (non_null initializer), condition, increment; reflexivity.
Qed.


(** [for (var i = 0; i < 3; i = i + 1) print i;] through the whole
    parser. *)
Example parse_for_loop :
  exists keyword i zero cond incr body,
    Samples.parsed Samples.source_for
    = [lowered_for keyword (Some (VarStmt i (Some zero))) (Some cond)
                   (Some incr) body] /\
    type keyword = FOR /\ lexeme i = "i" /\
    (exists l op r, cond = Binary l op r /\ type op = LESS) /\
    (exists n v, incr = Assign n v /\ lexeme n = "i") /\
    (exists e p, body = PrintStmt e p).
Proof.
  vm_compute. do 6 eexists. split; [reflexivity|].
  repeat split; repeat eexists.
Qed.

(** [for (;;) print 1;]: neither block is built and the condition is the
    literal [true]. *)
Example parse_for_loop_bare :
  exists keyword body,
    Samples.parsed
      [Samples.kw FOR "for"; Samples.kw LPAREN "("; Samples.kw SEMICOLON ";";
       Samples.kw SEMICOLON ";"; Samples.kw RPAREN ")"; Samples.kw PRINT "print";
       Samples.num 1 "1"; Samples.kw SEMICOLON ";"]
    = [WhileStmt (Literal (LBool true) keyword) body keyword] /\
    type keyword = FOR /\ exists e p, body = PrintStmt e p.
Proof.
  vm_compute. do 2 eexists. split; [reflexivity|].
  split; [reflexivity|]. repeat eexists.
Qed.

(* ===================================================================== *)
(** * Properties of the dataflow pass                                     *)
(* ===================================================================== *)

Section Incoming.
Variable cfg : list ControlFlowNode.

Local Abbreviation out := (fun p => allocations_out (Analyzer.node_at cfg p)).

Lemma incoming_snoc preds p :
  Analyzer.incoming cfg (preds ++ [p]) = out p ∪ Analyzer.incoming cfg preds.
Proof. unfold Analyzer.incoming. rewrite fold_left_app. reflexivity. Qed.

(** One more predecessor overwrites the records it has and keeps the
    others. *)
Lemma incoming_lookup_snoc preds p k :
  Analyzer.incoming cfg (preds ++ [p]) !! k =
  match out p !! k with
  | Some a => Some a
  | None => Analyzer.incoming cfg preds !! k
  end.
Proof.
  rewrite incoming_snoc, lookup_union.
  destruct (out p !! k), (Analyzer.incoming cfg preds !! k); reflexivity.
Qed.

Lemma incoming_from preds k a :
  Analyzer.incoming cfg preds !! k = Some a ->
  exists p, In p preds /\ out p !! k = Some a.
Proof.
  induction preds as [|p preds IH] using rev_ind.
  - unfold Analyzer.incoming. simpl. rewrite lookup_empty. discriminate.
  - rewrite incoming_lookup_snoc. destruct (out p !! k) as [b|] eqn:E.
    + intros H. inversion H; subst. exists p. split; [|exact E].
      apply in_or_app. right. left. reflexivity.
    + intros H. destruct (IH H) as (q & Hq & Hk). exists q. split; [|exact Hk].
      apply in_or_app. left. exact Hq.
Qed.

Lemma incoming_keys preds k :
  is_Some (Analyzer.incoming cfg preds !! k) <->
  exists p, In p preds /\ is_Some (out p !! k).
Proof.
  split.
  - intros [a Ha]. destruct (incoming_from _ _ _ Ha) as (p & Hp & Hk).
    exists p. split; [exact Hp|]. exists a. exact Hk.
  - induction preds as [|p preds IH] using rev_ind.
    + intros (p & [] & _).
    + intros (q & Hq & Hk). rewrite incoming_lookup_snoc.
      destruct (out p !! k) as [b|] eqn:E; [exists b; reflexivity|].
      apply IH. apply in_app_or in Hq. destruct Hq as [Hq|[<-|[]]].
      * exists q. split; assumption.
      * rewrite E in Hk. destruct Hk as [? Hk]. discriminate Hk.
Qed.

Lemma incoming_last front p back k a :
  out p !! k = Some a ->
  (forall q, In q back -> out q !! k = None) ->
  Analyzer.incoming cfg (front ++ p :: back) !! k = Some a.
Proof.
  intros Hp. induction back as [|q back IH] using rev_ind; intros Hback.
  - rewrite incoming_lookup_snoc, Hp. reflexivity.
  - replace (front ++ p :: back ++ [q]) with ((front ++ p :: back) ++ [q])
      by (rewrite <- app_assoc; reflexivity).
    rewrite incoming_lookup_snoc, Hback by (apply in_or_app; right; left; reflexivity).
    apply IH. intros r Hr. apply Hback. apply in_or_app. left. exact Hr.
Qed.

End Incoming.

Lemma node_at_alter cfg f p :
  (p < length cfg)%nat -> Analyzer.node_at (alter f p cfg) p = f (Analyzer.node_at cfg p).
Proof.
  intros Hp. unfold Analyzer.node_at.
  destruct (lookup_lt_is_Some_2 cfg p Hp) as [n Hn].
  rewrite list_lookup_alter. destruct (decide (p = p)); [|congruence].
  unfold CFGNodePtr in *. rewrite Hn. reflexivity.
Qed.

Lemma node_at_alter_ne cfg f p q :
  p <> q -> Analyzer.node_at (alter f p cfg) q = Analyzer.node_at cfg q.
Proof.
  intros Hne. unfold Analyzer.node_at, CFGNodePtr in *. rewrite list_lookup_alter.
  case_decide; [congruence|reflexivity].
Qed.

Lemma allocations_in_propagate_node cfg n :
  allocations_in (Analyzer.propagate_node cfg n)
  = Analyzer.incoming cfg (predecessors n).
Proof.
  unfold Analyzer.propagate_node. destruct (Analyzer.transfer _ _ _). reflexivity.
Qed.



(** In the sample graph, whose nodes were propagated one by one, the merge
    node has the then-branch, where [x] is Allocated, before the
    else-branch, where it is Freed, and comes out with [x] Freed. *)
Example merge_node_keeps_last_predecessor :
  exists a_then a_else a,
    predecessors (Analyzer.node_at cfg_free_in_else 4%nat) = [5; 6]%nat /\
    allocations_out (Analyzer.node_at cfg_free_in_else 5%nat) !! "x" = Some a_then /\
    state a_then = MemoryState.ALLOCATED /\
    allocations_out (Analyzer.node_at cfg_free_in_else 6%nat) !! "x" = Some a_else /\
    state a_else = MemoryState.FREED /\
    allocations_in (Analyzer.node_at cfg_free_in_else 4%nat) !! "x" = Some a /\
    state a = MemoryState.FREED.
Proof.
  vm_compute. do 3 eexists. repeat split; reflexivity.
Qed.

(* ===================================================================== *)
(** * Hoare triples for the analyzer's member functions                  *)
(* ===================================================================== *)

Section HoareRules.
Context {A B : Type}.
Variable exc : MemorySafetyError -> MemorySafetyAnalyzer -> Prop.
Variable oof : Prop.

Lemma triple_aret pre (a : A) (post : A -> MemorySafetyAnalyzer -> Prop) :
  (forall st, pre st -> post a st) -> triple pre (aret a) post exc oof.
Proof. intros H st Hpre. apply H. exact Hpre. Qed.

Lemma triple_throw pre e (post : A -> MemorySafetyAnalyzer -> Prop) :
  (forall st, pre st -> exc e st) -> triple pre (throw e) post exc oof.
Proof. intros H st Hpre. apply H. exact Hpre. Qed.

Lemma triple_out_of_fuel pre (post : A -> MemorySafetyAnalyzer -> Prop) :
  oof -> triple pre out_of_fuel post exc oof.
Proof. intros H st _. exact H. Qed.

Lemma triple_abind pre (m : M A) (f : A -> M B) mid post :
  triple pre m mid exc oof ->
  (forall a, triple (mid a) (f a) post exc oof) ->
  triple pre (abind m f) post exc oof.
Proof.
  intros Hm Hf st Hpre. unfold abind. specialize (Hm st Hpre).
  destruct (m st) as [a st'| |]; auto. exact (Hf a st' Hm).
Qed.

(** Reading the state fixes it for what follows. *)
Lemma triple_get_bind pre (k : MemorySafetyAnalyzer -> M B) post :
  (forall s, pre s -> triple (fun st => st = s) (k s) post exc oof) ->
  triple pre (abind get k) post exc oof.
Proof. intros H st Hpre. exact (H st Hpre st eq_refl). Qed.

Lemma triple_pure (phi : Prop) pre (m : M A) post :
  (phi -> triple pre m post exc oof) ->
  triple (fun st => pre st /\ phi) m post exc oof.
Proof. intros H st [Hpre Hphi]. exact (H Hphi st Hpre). Qed.

End HoareRules.

Lemma triple_conseq {A} (pre pre' : MemorySafetyAnalyzer -> Prop) (m : M A)
      (post post' : A -> MemorySafetyAnalyzer -> Prop)
      (exc exc' : MemorySafetyError -> MemorySafetyAnalyzer -> Prop)
      (oof oof' : Prop) :
  triple pre m post exc oof ->
  (forall st, pre' st -> pre st) ->
  (forall a st, post a st -> post' a st) ->
  (forall e st, exc e st -> exc' e st) ->
  (oof -> oof') ->
  triple pre' m post' exc' oof'.
Proof.
  intros H Hpre Hpost Hexc Hoof st Hst. specialize (H st (Hpre st Hst)).
  destruct (m st); auto.
Qed.

(** What is read from the state satisfies the precondition. *)
Lemma triple_read {B} pre (k : MemorySafetyAnalyzer -> M B) post exc oof :
  (forall s, pre s -> triple pre (k s) post exc oof) ->
  triple pre (abind get k) post exc oof.
Proof. intros H st Hst. exact (H st Hst st Hst). Qed.

Lemma triple_ext {A} pre (m m' : M A) post exc oof :
  (forall st, m st = m' st) ->
  triple pre m post exc oof -> triple pre m' post exc oof.
Proof. intros E H st Hst. rewrite <- E. exact (H st Hst). Qed.

Lemma for_each_app {A} (body : A -> M unit) (l1 l2 : list A) st :
  (for_each body l1 ;; for_each body l2)%analyzer st = for_each body (l1 ++ l2) st.
Proof.
  revert st. induction l1 as [|x l1 IH]; intros st; simpl.
  - reflexivity.
  - specialize (IH). unfold abind in *.
    destruct (body x st) as [u st'| |]; try reflexivity. apply IH.
Qed.

(** A step that keeps the invariant, before the rest. *)
Lemma triple_step {A B} inv (m : M A) (f : A -> M B) post exc oof :
  triple inv m (fun _ => inv) exc oof ->
  (forall a, triple inv (f a) post exc oof) ->
  triple inv (abind m f) post exc oof.
Proof. intros Hm Hf. eapply triple_abind; [exact Hm|exact Hf]. Qed.

Lemma triple_modify pre f (post : unit -> MemorySafetyAnalyzer -> Prop) exc oof :
  (forall st, pre st -> post tt (f st)) -> triple pre (modify f) post exc oof.
Proof. intros H st Hpre. apply H. exact Hpre. Qed.

Lemma triple_when inv b (m : M unit) exc oof :
  triple inv m (fun _ => inv) exc oof ->
  triple inv (when b m) (fun _ => inv) exc oof.
Proof.
  intros H. destruct b; [exact H|]. apply triple_aret. auto.
Qed.

Lemma triple_for_each {A} inv (body : A -> M unit) (l : list A) exc oof :
  (forall x, In x l -> triple inv (body x) (fun _ => inv) exc oof) ->
  triple inv (for_each body l) (fun _ => inv) exc oof.
Proof.
  induction l as [|x l IH]; intros H; simpl.
  - apply triple_aret. auto.
  - eapply triple_abind; [apply H; left; reflexivity|].
    intros ?. apply IH. intros y Hy. apply H. right. exact Hy.
Qed.

(** ** The graph builders and the worklist *)

Lemma node_at_app_l cfg extra p :
  (p < length cfg)%nat ->
  Analyzer.node_at (cfg ++ extra) p = Analyzer.node_at cfg p.
Proof.
  intros Hp. unfold Analyzer.node_at, CFGNodePtr in *.
  rewrite lookup_app_l by exact Hp. reflexivity.
Qed.

Lemma node_at_new cfg n :
  Analyzer.node_at (cfg ++ [n]) (length cfg) = n.
Proof.
  unfold Analyzer.node_at, CFGNodePtr in *.
  rewrite list_lookup_middle by reflexivity. reflexivity.
Qed.

Section Graph.
Variable c : Core.
Variable e : CFGNodePtr.

Lemma cfg_create_cfg_node t :
  triple (cfg_ok c e) (Analyzer.create_cfg_node t)
         (fun p st => cfg_ok c e st /\ p <> e) never False.
Proof.
  intros st [Hc (Hlt & Hp & Hs & Ho)]. unfold Analyzer.create_cfg_node.
  split; [split; [exact Hc|]|lia].
  unfold source. cbn [cfg_nodes with_cfg].
  rewrite length_app, node_at_app_l by exact Hlt. repeat split; auto. lia.
Qed.

Lemma cfg_update_node p f :
  p <> e \/ keeps_source f ->
  triple (cfg_ok c e) (Analyzer.update_node p f) (fun _ => cfg_ok c e) never False.
Proof.
  intros H st [Hc (Hlt & Hp & Hs & Ho)]. unfold Analyzer.update_node, modify.
  split; [exact Hc|]. unfold source. cbn [cfg_nodes with_cfg].
  rewrite length_alter. split; [exact Hlt|].
  destruct (Nat.eq_dec p e) as [->|Hne].
  - destruct H as [H|H]; [congruence|]. rewrite node_at_alter by exact Hlt.
    destruct (H (Analyzer.node_at (cfg_nodes st) e)) as (-> & -> & ->). auto.
  - rewrite node_at_alter_ne by exact Hne. auto.
Qed.

Lemma cfg_connect_cfg_nodes from to :
  to <> e ->
  triple (cfg_ok c e) (Analyzer.connect_cfg_nodes from to)
         (fun _ => cfg_ok c e) never False.
Proof.
  intros Hto. unfold Analyzer.connect_cfg_nodes.
  eapply triple_abind.
  - apply cfg_update_node. right. intros n. repeat split.
  - intros ?. apply cfg_update_node. left. exact Hto.
Qed.

Lemma fresh_default r x : fresh e r -> x <> e -> default x r <> e.
Proof. intros Hr Hx. destruct r as [p|]; simpl; [apply Hr; reflexivity|exact Hx]. Qed.

Lemma fresh_None : fresh e None.
Proof. intros p H. discriminate H. Qed.

Lemma fresh_Some p : p <> e -> fresh e (Some p).
Proof. intros Hp q [= <-]. exact Hp. Qed.

Lemma cfg_build_cfg_block_with rec ss exit :
  (forall s, In s ss -> forall x, x <> e ->
     triple (cfg_ok c e) (rec s x)
            (fun r st => cfg_ok c e st /\ fresh e r) never False) ->
  exit <> e ->
  triple (cfg_ok c e) (Analyzer.build_cfg_block_with rec ss exit)
         (fun r st => cfg_ok c e st /\ fresh e r) never False.
Proof.
  intros H Hexit. unfold Analyzer.build_cfg_block_with.
  match goal with
  | |- context [abind (?go ss None None) ?k] =>
      assert (G : forall l first prev,
                 (forall s, In s l -> forall x, x <> e ->
                    triple (cfg_ok c e) (rec s x)
                           (fun r st => cfg_ok c e st /\ fresh e r) never False) ->
                 fresh e first -> fresh e prev ->
                 triple (cfg_ok c e) (go l first prev)
                        (fun r st => cfg_ok c e st /\ fresh e (fst r)
                                     /\ fresh e (snd r)) never False);
        [|destruct ss as [|s0 ss0];
          [apply triple_aret; intros st Hst; split; [exact Hst|apply fresh_None]|];
          apply (triple_abind never False (cfg_ok c e)
                   (go (s0 :: ss0) None None) k
                   (fun r st => cfg_ok c e st /\ fresh e (fst r) /\ fresh e (snd r)));
          [exact (G _ None None H fresh_None fresh_None)|]]
  end.
  - induction l as [|s l IH]; intros first prev Hl Hfirst Hprev.
    + apply triple_aret. intros st Hst. auto.
    + eapply triple_abind; [apply (Hl s); [left; reflexivity|exact Hexit]|].
      intros n. apply triple_pure. intros Hn.
      eapply triple_abind.
      * instantiate (1 := fun _ => cfg_ok c e).
        destruct prev as [p|], n as [q|];
          try (apply triple_aret; intros st Hst; exact Hst).
        apply cfg_connect_cfg_nodes. apply Hn. reflexivity.
      * intros ?. apply IH; [intros s' Hs'; apply Hl; right; exact Hs'| |exact Hn].
        destruct first; [exact Hfirst|exact Hn].
  - intros [first prev]. simpl.
    intros st (Hst & Hfirst & Hprev). revert st Hst.
    change (triple (cfg_ok c e)
              (abind match prev with
                     | Some p => Analyzer.connect_cfg_nodes p exit
                     | None => aret tt
                     end (fun _ => aret first))
              (fun r st => cfg_ok c e st /\ fresh e r) never False).
    eapply triple_abind.
    + instantiate (1 := fun _ => cfg_ok c e).
      destruct prev; [apply cfg_connect_cfg_nodes; exact Hexit|].
      apply triple_aret. auto.
    + intros ?. apply triple_aret. intros st Hst. split; [exact Hst|exact Hfirst].
Qed.

(** A statement node: created, given its statement, returned. *)
Lemma cfg_statement_node s :
  triple (cfg_ok c e)
         (stmt_node <- Analyzer.create_cfg_node NodeType.STATEMENT ;;
          Analyzer.update_node stmt_node (set_statement s) ;;
          aret (Some stmt_node))%analyzer
         (fun r st => cfg_ok c e st /\ fresh e r) never False.
Proof.
  eapply triple_abind; [apply cfg_create_cfg_node|].
  intros p. apply triple_pure. intros Hp.
  eapply triple_abind; [apply cfg_update_node; left; exact Hp|].
  intros ?. apply triple_aret. intros st Hst. split; [exact Hst|].
  apply fresh_Some. exact Hp.
Qed.

Lemma cfg_build_cfg_stmt s : forall x,
  x <> e ->
  triple (cfg_ok c e) (Analyzer.build_cfg_stmt s x)
         (fun r st => cfg_ok c e st /\ fresh e r) never False.
Proof.
  induction s using Stmt_nested_ind; intros x Hx;
    try exact (cfg_statement_node _).
  - (* Block *)
    simpl. apply cfg_build_cfg_block_with; [|exact Hx].
    intros s Hs. rewrite Forall_forall in H. apply H. apply list_elem_of_In. exact Hs.
  - (* IfStmt *)
    simpl.
    eapply triple_abind; [apply cfg_create_cfg_node|].
    intros branch. apply triple_pure. intros Hbranch.
    eapply triple_abind; [apply cfg_update_node; left; exact Hbranch|]. intros ?.
    eapply triple_abind; [apply cfg_update_node; left; exact Hbranch|]. intros ?.
    eapply triple_abind; [apply cfg_create_cfg_node|].
    intros merge. apply triple_pure. intros Hmerge.
    eapply triple_abind; [apply IHs; exact Hmerge|].
    intros then_body. apply triple_pure. intros Hthen.
    eapply triple_abind;
      [apply cfg_connect_cfg_nodes; apply fresh_default; assumption|]. intros ?.
    eapply triple_abind.
    + instantiate (1 := fun _ => cfg_ok c e). destruct e0 as [els|].
      * eapply triple_abind; [apply (H els eq_refl); exact Hmerge|].
        intros else_body. apply triple_pure. intros Helse.
        apply cfg_connect_cfg_nodes. apply fresh_default; assumption.
      * apply cfg_connect_cfg_nodes. exact Hmerge.
    + intros ?. apply triple_aret. intros st Hst. split; [exact Hst|].
      apply fresh_Some. exact Hbranch.
  - (* WhileStmt *)
    simpl.
    eapply triple_abind; [apply cfg_create_cfg_node|].
    intros header. apply triple_pure. intros Hheader.
    eapply triple_abind; [apply cfg_update_node; left; exact Hheader|]. intros ?.
    eapply triple_abind; [apply cfg_update_node; left; exact Hheader|]. intros ?.
    eapply triple_abind; [apply cfg_create_cfg_node|].
    intros loop_exit. apply triple_pure. intros Hloop_exit.
    eapply triple_abind; [apply IHs; exact Hheader|].
    intros loop_body. apply triple_pure. intros Hbody.
    eapply triple_abind.
    + instantiate (1 := fun _ => cfg_ok c e). destruct loop_body as [b0|].
      * apply cfg_connect_cfg_nodes. apply Hbody. reflexivity.
      * apply cfg_connect_cfg_nodes. exact Hheader.
    + intros ?.
      eapply triple_abind; [apply cfg_connect_cfg_nodes; exact Hloop_exit|].
      intros ?. apply triple_aret. intros st Hst. split; [exact Hst|].
      apply fresh_Some. exact Hheader.
Qed.

Lemma cfg_build_cfg_block ss x :
  x <> e ->
  triple (cfg_ok c e) (Analyzer.build_cfg_block ss x)
         (fun r st => cfg_ok c e st /\ fresh e r) never False.
Proof.
  intros Hx. apply cfg_build_cfg_block_with; [|exact Hx].
  intros s _. apply cfg_build_cfg_stmt.
Qed.

End Graph.

(** At a node without predecessors and without statement,
    [propagate_allocations] empties both maps. *)
Lemma propagate_node_source cfg n :
  predecessors n = [] -> statement n = NullStmt ->
  Analyzer.propagate_node cfg n = set_flow ∅ ∅ (freed_vars n) n.
Proof.
  intros Hp Hs. unfold Analyzer.propagate_node. rewrite Hp, Hs. reflexivity.
Qed.

Lemma allocation_maps_equal_empty : Analyzer.allocation_maps_equal ∅ ∅ = true.
Proof. vm_compute. reflexivity. Qed.

(** The worklist loop started at such a node takes it off the queue, finds
    its out-map unchanged and stops: no successor is ever enqueued. *)
Lemma dataflow_at_source fuel e st :
  source e st ->
  Analyzer.perform_dataflow_analysis (S fuel) (Some e) st
  = Done tt (with_cfg st (next_cfg_node_id st)
                      (alter (Analyzer.propagate_node (cfg_nodes st)) e
                             (cfg_nodes st))).
Proof.
  intros (Hlt & Hp & Hs & Ho).
  unfold Analyzer.perform_dataflow_analysis, abind, get. simpl Analyzer.dataflow_loop.
  unfold abind, get, Analyzer.propagate_allocations, modify,
    Analyzer.detect_memory_access_patterns, abind, get.
  cbn [cfg_nodes with_cfg].
  rewrite node_at_alter by exact Hlt.
  rewrite propagate_node_source by assumption.
  cbn [statement set_flow allocations_out]. rewrite Hs.
  unfold aret. cbn [cfg_nodes with_cfg].
  rewrite node_at_alter by exact Hlt.
  rewrite propagate_node_source by assumption.
  cbn [allocations_out set_flow]. rewrite Ho, allocation_maps_equal_empty.
  destruct fuel; reflexivity.
Qed.

Lemma cfg_perform_dataflow_analysis c e fuel (oof : Prop) :
  (fuel = 0%nat -> oof) ->
  triple (cfg_ok c e) (Analyzer.perform_dataflow_analysis fuel (Some e))
         (fun _ st => core st = c) never oof.
Proof.
  intros Hoof st [Hc Hsrc]. destruct fuel as [|fuel].
  - simpl. unfold abind, get. simpl. apply Hoof. reflexivity.
  - rewrite dataflow_at_source by exact Hsrc. exact Hc.
Qed.

Lemma core_analyze_path_memory_safety c path :
  triple (fun st => core st = c) (Analyzer.analyze_path_memory_safety path)
         (fun _ st => core st = c) never False.
Proof.
  unfold Analyzer.analyze_path_memory_safety. destruct (negb _).
  - apply triple_aret. auto.
  - apply triple_for_each. intros [var alloc] _. apply triple_when.
    apply triple_modify. intros st Hst. exact Hst.
Qed.

Lemma weaken_never {A} pre (m : M A) post (oof : Prop) :
  triple pre m post never False -> triple pre m post never oof.
Proof.
  intros H. eapply triple_conseq; [exact H|auto|auto|auto|intros []].
Qed.

Lemma cfg_interprocedural_rest c e fuel name body (oof : Prop) :
  (fuel = 0%nat -> oof) ->
  triple (cfg_ok c e) (interprocedural_rest fuel name body e)
         (fun _ st => core st = c) never oof.
Proof.
  intros Hoof. unfold interprocedural_rest.
  eapply triple_abind; [apply weaken_never, cfg_create_cfg_node|].
  intros func_exit. apply triple_pure. intros Hexit.
  eapply triple_abind.
  { apply triple_modify. instantiate (1 := fun _ => cfg_ok c e).
    intros st Hst. exact Hst. }
  intros ?. eapply triple_abind;
    [apply weaken_never, cfg_build_cfg_block; exact Hexit|].
  intros body_node. apply triple_pure. intros Hbody.
  eapply triple_abind;
    [apply weaken_never, cfg_connect_cfg_nodes, fresh_default; assumption|].
  intros ?. eapply triple_abind; [apply cfg_perform_dataflow_analysis; exact Hoof|].
  intros ?. apply triple_get_bind. intros s Hs.
  eapply triple_conseq;
    [apply (triple_for_each (fun st => core st = c)); intros path _;
     apply core_analyze_path_memory_safety| | | |].
  - intros st ->. exact Hs.
  - auto.
  - auto.
  - intros [].
Qed.

(** A node just created is a source. *)
Lemma source_created t st :
  source (length (cfg_nodes st))
         (with_cfg st (next_cfg_node_id st + 1)
                   (cfg_nodes st ++ [new_ControlFlowNode t (next_cfg_node_id st)])).
Proof.
  unfold source. cbn [cfg_nodes with_cfg]. rewrite node_at_new, length_app.
  simpl. repeat split. lia.
Qed.

(** [perform_interprocedural_analysis] throws nothing and touches nothing
    but the graph and the warnings; with one unit of fuel it returns. *)
Lemma core_perform_interprocedural_analysis c fuel name body (oof : Prop) :
  (fuel = 0%nat -> oof) ->
  triple (fun st => core st = c)
         (Analyzer.perform_interprocedural_analysis fuel name body)
         (fun _ st => core st = c) never oof.
Proof.
  intros Hoof st Hc.
  change (Analyzer.perform_interprocedural_analysis fuel name body st)
    with (interprocedural_rest fuel name body (length (cfg_nodes st))
            (with_cfg st (next_cfg_node_id st + 1)
               (cfg_nodes st
                ++ [new_ControlFlowNode NodeType.FUNCTION_CALL (next_cfg_node_id st)]))).
  apply (cfg_interprocedural_rest c _ fuel name body oof Hoof).
  split; [exact Hc|apply source_created].
Qed.

(** [build_cfg] always returns; the entry node it returns is a source. *)
Lemma core_build_cfg c statements :
  triple (fun st => core st = c) (Analyzer.build_cfg statements)
         (fun r st => core st = c /\ forall e, r = Some e -> source e st)
         never False.
Proof.
  unfold Analyzer.build_cfg. destruct statements as [|s0 ss0].
  - apply triple_aret. intros st Hst. split; [exact Hst|]. intros e H. discriminate H.
  - remember (s0 :: ss0) as statements eqn:E. clear E. intros st Hc.
    pose (e := length (cfg_nodes st)).
    pose (st1 := with_cfg st (next_cfg_node_id st + 1)
                   (cfg_nodes st
                    ++ [new_ControlFlowNode NodeType.ENTRY (next_cfg_node_id st)])).
    assert (Hrest :
              triple (cfg_ok c e)
                (exit <- Analyzer.create_cfg_node NodeType.EXIT ;;
                 body <- Analyzer.build_cfg_block statements exit ;;
                 Analyzer.connect_cfg_nodes e (default exit body) ;;
                 aret (Some e))%analyzer
                (fun r st => core st = c /\ forall e, r = Some e -> source e st)
                never False).
    { eapply triple_abind; [apply cfg_create_cfg_node|].
      intros exit. apply triple_pure. intros Hexit.
      eapply triple_abind; [apply cfg_build_cfg_block; exact Hexit|].
      intros body. apply triple_pure. intros Hbody.
      eapply triple_abind;
        [apply cfg_connect_cfg_nodes, fresh_default; assumption|].
      intros ?. apply triple_aret. intros st' [Hc' Hsrc]. split; [exact Hc'|].
      intros e' [= <-]. exact Hsrc. }
    apply (Hrest st1). split; [exact Hc|apply source_created].
Qed.

(** The dataflow pass of [analyze]: whatever the program, the graph is
    built, the worklist loop visits the entry node alone, and nothing the
    verdict depends on has changed. *)
Theorem dataflow_stops_at_entry fuel statements st :
  exists r st1,
    Analyzer.build_cfg statements st = Done r st1 /\
    core st1 = core st /\
    match r with
    | None => statements = []
    | Some e =>
        source e st1 /\
        Analyzer.perform_dataflow_analysis (S fuel) r st1
        = Done tt (with_cfg st1 (next_cfg_node_id st1)
                            (alter (Analyzer.propagate_node (cfg_nodes st1)) e
                                   (cfg_nodes st1)))
    end.
Proof.
  pose proof (core_build_cfg (core st) statements st eq_refl) as H.
  destruct (Analyzer.build_cfg statements st) as [r st1| |] eqn:E; try contradiction.
  exists r, st1. destruct H as [Hc Hsrc]. split; [reflexivity|]. split; [exact Hc|].
  destruct r as [e|].
  - split; [apply Hsrc; reflexivity|]. apply dataflow_at_source. apply Hsrc. reflexivity.
  - destruct statements; [reflexivity|]. simpl in E. unfold abind in E.
    simpl in E.
    repeat match type of E with
           | match ?m with _ => _ end = _ => destruct m; try discriminate
           end.
Qed.

(* ===================================================================== *)
(** * Leak reports                                                       *)
(* ===================================================================== *)

Lemma is_memory_primitive_false n :
  Analyzer.is_memory_primitive n = false ->
  String.eqb n "free" = false /\ String.eqb n "deref" = false /\
  is_allocator n = false /\ String.eqb n "addr_of" = false.
Proof.
  unfold Analyzer.is_memory_primitive, is_allocator. intros H.
  repeat match type of H with
         | (_ || _) = false => apply orb_false_elim in H; destruct H as [H ?]
         end.
  repeat split; try assumption.
  repeat (apply orb_false_intro; try assumption).
Qed.

Lemma plain_is_not_allocator_call e :
  uses_memory_primitive e = false -> Analyzer.is_allocator_call e = false.
Proof.
  destruct e; try reflexivity. destruct e; try reflexivity. simpl.
  intros H. apply orb_false_elim in H. destruct H as [H _].
  apply is_memory_primitive_false in H. tauto.
Qed.

Lemma existsb_false {A} (f : A -> bool) (l : list A) (x : A) :
  existsb f l = false -> In x l -> f x = false.
Proof.
  induction l as [|y l IH]; simpl; [intros _ []|].
  intros H [->|Hx]; apply orb_false_elim in H; destruct H; auto.
Qed.

Lemma leak_records_empty tok : leak_records tok ∅.
Proof. intros k a H. rewrite lookup_empty in H. discriminate H. Qed.

Section InertSteps.
Variable tok : Token.
Variable al : gmap string AllocationInfo.
Hypothesis Hal : leak_records tok al.
Variable b : bool.

Local Abbreviation steady m :=
  (triple (walk_inv al b) m (fun _ => walk_inv al b) (leak_at tok) False).

Lemma steady_aret {A} (a : A) : steady (aret a).
Proof. apply triple_aret. auto. Qed.

Lemma steady_push_warning w : steady (push_warning w).
Proof. apply triple_modify. intros st H. exact H. Qed.

Lemma steady_abind {A B} (m : M A) (f : A -> M B) :
  steady m -> (forall a, steady (f a)) -> steady (abind m f).
Proof. intros Hm Hf. eapply triple_abind; [exact Hm|exact Hf]. Qed.

(** What is read from the state satisfies the invariant. *)
Lemma steady_get_bind {B} (k : MemorySafetyAnalyzer -> M B) :
  (forall s, walk_inv al b s -> steady (k s)) -> steady (abind get k).
Proof. intros H st Hst. exact (H st Hst st Hst). Qed.

Lemma steady_modify f :
  (forall st, walk_inv al b st -> walk_inv al b (f st)) -> steady (modify f).
Proof. intros H. apply triple_modify. exact H. Qed.

Lemma steady_when c (m : M unit) : steady m -> steady (when c m).
Proof. intros H. apply triple_when. exact H. Qed.

Lemma steady_for_each {A} (body : A -> M unit) l :
  (forall x, In x l -> steady (body x)) -> steady (for_each body l).
Proof. intros H. apply triple_for_each. exact H. Qed.

Lemma steady_check_variable_access name :
  steady (Analyzer.check_variable_access name).
Proof.
  intros st [Ha Hb]. unfold Analyzer.check_variable_access, abind, get.
  destruct (allocations st !! lexeme name) as [a|] eqn:E.
  - rewrite Ha in E. destruct (Hal _ _ E) as [Hs _]. rewrite Hs. simpl.
    destruct (pointers st !! lexeme name) as [p|]; [destruct (p_state p)|];
      simpl; split; assumption.
  - simpl. destruct (pointers st !! lexeme name) as [p|]; [destruct (p_state p)|];
      simpl; split; assumption.
Qed.

Lemma steady_analyze_expr e :
  uses_memory_primitive e = false -> steady (Analyzer.analyze_expr e).
Proof.
  induction e using Expr_nested_ind; simpl; intros Hplain;
    repeat match type of Hplain with
           | (_ || _) = false =>
               apply orb_false_elim in Hplain; destruct Hplain as [Hplain ?]
           end;
    try solve [apply steady_aret
              |auto
              |repeat (apply steady_abind; [auto|]; intros ?); apply steady_aret].
  - apply steady_check_variable_access.
  - (* Assign *)
    apply steady_get_bind. intros s [Ha Hb].
    apply steady_abind.
    + destruct (allocations s !! lexeme n); [|apply steady_aret].
      rewrite (plain_is_not_allocator_call _ Hplain), andb_false_r.
      apply steady_aret.
    + intros ?. apply steady_abind; [auto|]. intros ?. apply steady_aret.
  - (* Call *)
    unfold Analyzer.analyze_call_with. destruct e; try apply steady_aret.
    apply is_memory_primitive_false in Hplain.
    destruct Hplain as (-> & -> & _ & _). simpl.
    apply steady_abind; [apply steady_aret|]. intros ?.
    apply steady_abind; [|intros ?; apply steady_aret].
    apply steady_when. apply steady_for_each. intros arg Harg.
    apply steady_abind; [|intros ?; apply steady_aret].
    rewrite Forall_forall in H. apply H; [apply list_elem_of_In; exact Harg|].
    eapply existsb_false; eassumption.
  - (* ArrayLiteral *)
    apply steady_abind; [|intros ?; apply steady_aret].
    apply steady_for_each. intros arg Harg.
    apply steady_abind; [|intros ?; apply steady_aret].
    rewrite Forall_forall in H. apply H; [apply list_elem_of_In; exact Harg|].
    eapply existsb_false; eassumption.
Qed.

Lemma steady_analyze_var_stmt name initializer :
  plain_option initializer = true ->
  steady (Analyzer.analyze_var_stmt name initializer).
Proof.
  intros Hplain. unfold Analyzer.analyze_var_stmt.
  apply steady_abind; [apply steady_modify; intros st H; exact H|]. intros ?.
  destruct initializer as [init|]; [|apply steady_aret].
  simpl in Hplain. apply negb_true_iff in Hplain.
  apply steady_abind; [apply steady_analyze_expr; exact Hplain|]. intros ?.
  destruct init; try apply steady_aret.
  destruct init; try apply steady_aret.
  simpl in Hplain. apply orb_false_elim in Hplain. destruct Hplain as [Hplain _].
  apply is_memory_primitive_false in Hplain. destruct Hplain as (_ & _ & -> & ->).
  apply steady_aret.
Qed.

Lemma steady_enter_scope : steady Analyzer.enter_scope.
Proof. apply steady_modify. intros st H. exact H. Qed.

(** Leaving a scope reports at most a leak of a record at hand. *)
Lemma steady_exit_scope : steady Analyzer.exit_scope.
Proof.
  unfold Analyzer.exit_scope. apply steady_get_bind. intros s _.
  destruct (1 <? length (current_scope_vars s))%nat; [|apply steady_aret].
  apply steady_abind; [apply steady_modify; intros st H; exact H|]. intros ?.
  apply steady_for_each. intros var _.
  apply steady_get_bind. intros s' [Ha Hb].
  destruct (allocations s' !! var) as [alloc|] eqn:E; [|apply steady_aret].
  destruct (_ && _); [|apply steady_aret].
  destruct (strict_mode s'); [|apply steady_push_warning].
  apply triple_throw. intros st _. split; [reflexivity|]. simpl.
  rewrite Ha in E. exact (proj2 (Hal _ _ E)).
Qed.

Lemma steady_check_function_memory_leaks name :
  steady (Analyzer.check_function_memory_leaks name).
Proof.
  unfold Analyzer.check_function_memory_leaks.
  apply steady_get_bind. intros s [Ha Hb].
  apply steady_for_each. intros [var alloc] Hin.
  apply steady_get_bind. intros s' _. apply steady_when.
  apply triple_throw. intros st _. split; [reflexivity|]. simpl.
  apply list_elem_of_In, elem_of_map_to_list in Hin.
  rewrite Ha in Hin. exact (proj2 (Hal _ _ Hin)).
Qed.

(** With no record Freed the revert loop of [analyze_if_stmt] does
    nothing. *)
Lemma steady_revert_then_only then_freed else_freed :
  steady (Analyzer.revert_then_only then_freed else_freed).
Proof.
  unfold Analyzer.revert_then_only. apply steady_for_each. intros var _.
  destruct (bool_decide _); [apply steady_aret|].
  apply steady_modify. intros st [Ha Hb].
  destruct (allocations st !! var) as [a|] eqn:E; [|split; assumption].
  rewrite Ha in E. rewrite (proj1 (Hal _ _ E)). simpl. split; assumption.
Qed.

Lemma steady_perform_interprocedural_analysis fuel name body :
  steady (Analyzer.perform_interprocedural_analysis (S fuel) name body).
Proof.
  intros st [Ha Hb].
  assert (Hfuel : S fuel = 0%nat -> False) by discriminate.
  pose proof (core_perform_interprocedural_analysis
                (core st) (S fuel) name body False Hfuel st eq_refl) as H.
  destruct (Analyzer.perform_interprocedural_analysis (S fuel) name body st)
    as [u st'|e st'|]; try contradiction.
  unfold core in H. inversion H as [[Hal' Hp Hc Hf He Hs]].
  split; congruence.
Qed.

End InertSteps.

Lemma forallb_In {A} (f : A -> bool) (l : list A) (x : A) :
  forallb f l = true -> In x l -> f x = true.
Proof. intros H. apply (proj1 (forallb_forall f l) H). Qed.

(** A statement without memory primitives leaves the allocation records
    and the mode as they are; the one thing it can throw is the leak
    report of a record at hand, on leaving a scope that declares the
    variable again. *)
Lemma inert_analyze_stmt tok fuel s :
  inert s = true ->
  forall al b,
    leak_records tok al ->
    triple (walk_inv al b) (Analyzer.analyze_stmt (S fuel) s)
           (fun _ => walk_inv al b) (leak_at tok) False.
Proof.
  induction s using Stmt_nested_ind; simpl; intros Hinert al mode Hal;
    try apply steady_aret.
  - (* ExprStmt *)
    apply negb_true_iff in Hinert.
    apply steady_abind; [apply steady_analyze_expr; assumption|].
    intros ?. apply steady_aret.
  - (* PrintStmt *)
    apply negb_true_iff in Hinert.
    apply steady_abind; [apply steady_analyze_expr; assumption|].
    intros ?. apply steady_aret.
  - (* VarStmt *)
    apply steady_analyze_var_stmt; assumption.
  - (* Block *)
    apply steady_abind; [apply steady_enter_scope|]. intros ?.
    apply steady_abind; [|intros ?; apply steady_exit_scope; assumption].
    apply steady_for_each. intros s Hs. rewrite Forall_forall in H.
    apply H; [apply list_elem_of_In; exact Hs| |exact Hal].
    eapply forallb_In; eassumption.
  - (* IfStmt *)
    apply andb_prop in Hinert. destruct Hinert as [Hinert Helse].
    apply andb_prop in Hinert. destruct Hinert as [Hcond Hthen].
    apply negb_true_iff in Hcond.
    apply steady_abind; [apply steady_analyze_expr; assumption|]. intros ?.
    apply steady_get_bind. intros st0 [Ha0 Hb0].
    apply steady_abind; [apply IHs; assumption|]. intros ?.
    apply steady_get_bind. intros st1 _.
    destruct e as [els|]; [|apply steady_aret].
    apply steady_abind.
    { apply steady_modify. intros st [Ha Hb]. split; [exact Ha0|exact Hb]. }
    intros ?. apply steady_abind; [apply (H els eq_refl); assumption|]. intros ?.
    apply steady_get_bind. intros st2 _.
    apply steady_revert_then_only. exact Hal.
  - (* WhileStmt *)
    apply andb_prop in Hinert. destruct Hinert as [Hcond Hbody].
    apply negb_true_iff in Hcond.
    apply steady_abind; [apply steady_analyze_expr; assumption|]. intros ?.
    apply steady_abind; [apply steady_enter_scope|]. intros ?.
    apply steady_abind; [apply IHs; assumption|]. intros ?.
    apply steady_exit_scope. exact Hal.
  - (* FunctionStmt *)
    apply steady_get_bind. intros st0 [Ha0 Hb0].
    apply (triple_abind (leak_at tok) False _ _ _ (fun _ => walk_inv ∅ mode)).
    { apply triple_modify. intros st [Ha Hb]. split; [reflexivity|exact Hb]. }
    intros ?. pose proof (leak_records_empty tok) as Hempty.
    apply triple_step; [apply steady_enter_scope|]. intros ?.
    apply triple_step.
    { apply steady_for_each. intros s Hs. rewrite Forall_forall in H.
      apply H; [apply list_elem_of_In; exact Hs| |exact Hempty].
      eapply forallb_In; eassumption. }
    intros ?.
    apply triple_step; [apply steady_check_function_memory_leaks; exact Hempty|].
    intros ?.
    apply triple_step; [apply steady_perform_interprocedural_analysis|]. intros ?.
    apply triple_step; [apply steady_exit_scope; exact Hempty|].
    intros ?. apply triple_modify. intros st [Ha Hb]. split; [exact Ha0|exact Hb].
  - (* ReturnStmt *)
    destruct v as [v|]; [|apply steady_aret].
    simpl in Hinert. apply negb_true_iff in Hinert.
    apply steady_abind; [apply steady_analyze_expr; assumption|].
    intros ?. apply steady_aret.
  - (* SwitchStmt *)
    apply andb_prop in Hinert. destruct Hinert as [Hinert Hdefault].
    apply andb_prop in Hinert. destruct Hinert as [Hcond Hcases].
    apply negb_true_iff in Hcond.
    apply steady_abind; [apply steady_analyze_expr; assumption|]. intros ?.
    apply steady_abind.
    + apply steady_for_each. intros [value statements] Hin.
      pose proof (forallb_In _ _ _ Hcases Hin) as Hcase. simpl in Hcase.
      apply andb_prop in Hcase. destruct Hcase as [Hvalue Hstmts].
      apply negb_true_iff in Hvalue.
      rewrite Forall_forall in H.
      specialize (H _ (proj2 (list_elem_of_In _ _) Hin)). simpl in H.
      apply steady_abind; [apply steady_analyze_expr; assumption|]. intros ?.
      apply steady_get_bind. intros st1 [Ha1 Hb1].
      apply steady_abind.
      * apply steady_for_each. intros s Hs. rewrite Forall_forall in H.
        apply H; [apply list_elem_of_In; exact Hs| |exact Hal].
        eapply forallb_In; eassumption.
      * intros ?. apply steady_modify. intros st [Ha Hb]. split; assumption.
    + intros ?. destruct d as [statements|]; [|apply steady_aret].
      apply steady_for_each. intros s Hs.
      specialize (H0 statements eq_refl). rewrite Forall_forall in H0.
      apply H0; [apply list_elem_of_In; exact Hs| |exact Hal].
      eapply forallb_In; eassumption.
  - (* UnsafeBlock *)
    apply steady_get_bind. intros st0 [Ha0 Hb0].
    apply (triple_abind (leak_at tok) False _ _ _ (fun _ => walk_inv al false)).
    { apply triple_modify. intros st [Ha Hb]. split; [exact Ha|reflexivity]. }
    intros ?. apply triple_step.
    { apply steady_for_each. intros s Hs. rewrite Forall_forall in H.
      apply H; [apply list_elem_of_In; exact Hs| |exact Hal].
      eapply forallb_In; eassumption. }
    intros ?. apply triple_modify. intros st [Ha Hb]. split; [exact Ha|exact Hb0].
Qed.

Lemma is_allocator_true n :
  is_allocator n = true ->
  String.eqb n "free" = false /\ String.eqb n "deref" = false /\
  Analyzer.is_memory_primitive n = true.
Proof.
  unfold is_allocator. intros H.
  apply orb_true_iff in H. destruct H as [H|H];
    [apply orb_true_iff in H; destruct H as [H|H]|];
    apply String.eqb_eq in H; subst n; repeat split.
Qed.

Lemma around_weaken tl fr al b V V2 st :
  V ⊆ V2 -> around tl fr al b V2 st -> around tl fr al b V st.
Proof.
  intros HV ((V' & HV' & Hc) & H). split; [|exact H].
  exists V'. split; [etransitivity; eassumption|exact Hc].
Qed.

Section CalmSteps.
Variable tok : Token.
Variable al : gmap string AllocationInfo.
Hypothesis Hal : leak_records tok al.
Variables tl fr : list (gset string).
Variable b : bool.
Variable V : gset string.

Local Abbreviation stays m :=
  (triple (around tl fr al b V) m (fun _ => around tl fr al b V) (leak_at tok) False).

Lemma stays_aret {A} (a : A) : stays (aret a).
Proof. apply triple_aret. auto. Qed.

Lemma stays_abind {A B} (m : M A) (f : A -> M B) :
  stays m -> (forall a, stays (f a)) -> stays (abind m f).
Proof. intros Hm Hf. eapply triple_abind; [exact Hm|exact Hf]. Qed.

Lemma stays_for_each {A} (body : A -> M unit) l :
  (forall x, In x l -> stays (body x)) -> stays (for_each body l).
Proof. intros H. apply triple_for_each. exact H. Qed.

Lemma stays_check_variable_access name :
  stays (Analyzer.check_variable_access name).
Proof.
  intros st Hst. destruct Hst as (Hv & Hf & Ha & Hp & Hb).
  assert (Hst : around tl fr al b V st) by (repeat split; assumption).
  unfold Analyzer.check_variable_access, abind, get.
  rewrite Hp, lookup_empty.
  destruct (allocations st !! lexeme name) as [a|] eqn:E; simpl; [|exact Hst].
  rewrite Ha in E. destruct (Hal _ _ E) as [Hs _]. rewrite Hs. simpl. exact Hst.
Qed.

Lemma stays_analyze_deref paren args :
  length args = 1%nat -> stays (Analyzer.analyze_deref paren args).
Proof.
  intros Hlen st Hst. destruct Hst as (Hv & Hf & Ha & Hp & Hb).
  assert (Hst : around tl fr al b V st) by (repeat split; assumption).
  unfold Analyzer.analyze_deref, abind, get. rewrite Hlen. simpl.
  destruct args as [|arg args']; [exact Hst|].
  destruct arg as [| name | | | | | | | | | |]; simpl; try exact Hst.
  rewrite Hp, lookup_empty.
  destruct (allocations st !! lexeme name) as [a|] eqn:E; simpl; [|exact Hst].
  rewrite Ha in E. destruct (Hal _ _ E) as [Hs _]. rewrite Hs. simpl. exact Hst.
Qed.

Lemma calm_is_not_allocator_call e :
  calm_expr e = true -> Analyzer.is_allocator_call e = false.
Proof.
  destruct e as [| | | | | |callee paren args| | | | |]; try reflexivity.
  destruct callee as [|n| | | | | | | | | |]; try reflexivity. simpl.
  intros H. apply andb_prop in H. destruct H as [H _].
  destruct (String.eqb (lexeme n) "deref") eqn:E.
  - apply String.eqb_eq in E. rewrite E. reflexivity.
  - apply negb_true_iff, is_memory_primitive_false in H. tauto.
Qed.

Lemma stays_analyze_expr e :
  calm_expr e = true -> stays (Analyzer.analyze_expr e).
Proof.
  induction e using Expr_nested_ind; simpl; intros Hcalm;
    repeat match type of Hcalm with
           | (_ && _) = true =>
               apply andb_prop in Hcalm; destruct Hcalm as [Hcalm ?]
           end;
    try solve [apply stays_aret
              |auto
              |repeat (apply stays_abind; [auto|]; intros ?); apply stays_aret].
  - apply stays_check_variable_access.
  - (* Assign *)
    intros st Hst.
    unfold abind at 1, get.
    assert (G : stays (Analyzer.analyze_expr e ;; aret (None : option string))%analyzer).
    { apply stays_abind; [auto|]. intros ?. apply stays_aret. }
    unfold abind at 1.
    destruct (allocations st !! lexeme n) as [a|]; simpl.
    + rewrite (calm_is_not_allocator_call _ Hcalm), andb_false_r. simpl.
      exact (G st Hst).
    + exact (G st Hst).
  - (* Call *)
    unfold Analyzer.analyze_call_with.
    destruct e as [|n| | | | | | | | | |]; try apply stays_aret.
    destruct (String.eqb (lexeme n) "deref") eqn:E.
    + apply String.eqb_eq in E. rewrite E. simpl.
      apply Nat.eqb_eq in Hcalm.
      apply stays_abind; [apply stays_analyze_deref; exact Hcalm|]. intros ?.
      apply stays_abind; [apply stays_aret|]. intros ?. apply stays_aret.
    + apply negb_true_iff in Hcalm. rewrite Hcalm.
      apply is_memory_primitive_false in Hcalm.
      destruct Hcalm as (-> & _ & _ & _). simpl.
      apply stays_abind; [apply stays_aret|]. intros ?.
      apply stays_abind; [|intros ?; apply stays_aret].
      apply stays_for_each. intros arg Harg.
      apply stays_abind; [|intros ?; apply stays_aret].
      rewrite Forall_forall in H. apply H; [apply list_elem_of_In; exact Harg|].
      eapply forallb_In; eassumption.
  - (* ArrayLiteral *)
    apply stays_abind; [|intros ?; apply stays_aret].
    apply stays_for_each. intros arg Harg.
    apply stays_abind; [|intros ?; apply stays_aret].
    rewrite Forall_forall in H. apply H; [apply list_elem_of_In; exact Harg|].
    eapply forallb_In; eassumption.
Qed.

End CalmSteps.

Lemma record_of_leak_records n al : record_of n al -> leak_records n al.
Proof.
  intros (r & -> & Hs & Ht) k a H. apply lookup_singleton_Some in H.
  destruct H as [_ <-]. split; assumption.
Qed.

Lemma around_walk_inv tl fr al b V st : around tl fr al b V st -> walk_inv al b st.
Proof. intros (_ & _ & Ha & _ & Hb). split; assumption. Qed.

(** Entering a scope. *)
Lemma around_enter_scope tl fr al b V st :
  around tl fr al b V st ->
  exists V0 st1,
    Analyzer.enter_scope st = Done tt st1 /\ V ⊆ V0 /\
    around (V0 :: tl) (∅ :: fr) al b ∅ st1.
Proof.
  intros ((V0 & HV & Hc) & Hf & Ha & Hp & Hb).
  exists V0. eexists. split; [reflexivity|]. split; [exact HV|].
  unfold around. cbn. rewrite Hc, Hf. repeat split; try assumption.
  exists ∅. split; [reflexivity|reflexivity].
Qed.

(** Leaving a scope with records that are all leaks of [tok]: the records
    stay, and a report is a report of [tok]. *)
Lemma around_exit_scope tok al tl fr b V V0 :
  leak_records tok al ->
  triple (around (V0 :: tl) (∅ :: fr) al b V) Analyzer.exit_scope
         (fun _ => around tl fr al b V0) (leak_at tok) False.
Proof.
  intros Hal st ((V1 & HV & Hc) & Hf & Ha & Hp & Hb).
  unfold Analyzer.exit_scope. unfold abind at 1, get. rewrite Hc. cbn [length].
  change (1 <? S (S (length tl)))%nat with true. cbv iota.
  unfold abind at 1, modify. rewrite Hf. cbn [back tail].
  match goal with
  | |- match for_each ?body _ ?s with _ => _ end =>
      assert (G : triple (around tl fr al b V0) (for_each body (elements V1))
                         (fun _ => around tl fr al b V0) (leak_at tok) False);
        [|apply G]
  end.
  - apply triple_for_each. intros var _.
    apply triple_read. intros s Hs. destruct Hs as (Hv' & Hf' & Ha' & Hp' & Hb').
    destruct (allocations s !! var) as [alloc|] eqn:E; [|apply triple_aret; auto].
    destruct (_ && _); [|apply triple_aret; auto].
    destruct (strict_mode s).
    + apply triple_throw. intros st' _. split; [reflexivity|]. simpl.
      rewrite Ha' in E. exact (proj2 (Hal _ _ E)).
    + apply triple_modify. intros st' H'. exact H'.
  - unfold around. cbn [current_scope_vars freed_in_scope allocations pointers
                          strict_mode with_scopes].
    rewrite ?Hc, ?Hf. cbn [tail]. repeat split; try assumption.
    exists V0. split; reflexivity.
Qed.

(** Leaving the scope that declares [name], with its record at hand, in
    strict mode: the leak is reported. *)
Lemma around_exit_scope_reports name al tl fr V V0 :
  record_of name al -> lexeme name ∈ V ->
  triple (around (V0 :: tl) (∅ :: fr) al true V) Analyzer.exit_scope
         (fun _ _ => False) (leak_at name) False.
Proof.
  intros Hrec Hin st ((V1 & HV & Hc) & Hf & Ha & Hp & Hb).
  pose proof (record_of_leak_records _ _ Hrec) as Hal.
  unfold Analyzer.exit_scope. unfold abind at 1, get. rewrite Hc. cbn [length].
  change (1 <? S (S (length tl)))%nat with true. cbv iota.
  unfold abind at 1, modify. rewrite Hf. cbn [back tail].
  assert (Hel : In (lexeme name) (elements V1)).
  { apply list_elem_of_In, elem_of_elements. apply HV, Hin. }
  match goal with
  | |- match for_each ?body _ ?s with _ => _ end =>
      assert (G : forall l, In (lexeme name) l ->
                    triple (around tl fr al true V0) (for_each body l)
                           (fun _ _ => False) (leak_at name) False);
        [|apply (G _ Hel)]
  end.
  - induction l as [|x l IH]; intros Hl; [destruct Hl|].
    cbn [for_each]. intros s Hs. unfold abind at 1.
    assert (Hx : match allocations s !! x with
                 | Some _ => x = lexeme name
                 | None => x <> lexeme name
                 end).
    { destruct Hs as (_ & _ & Ha' & _). rewrite Ha'.
      destruct Hrec as (r & -> & _).
      destruct (decide (x = lexeme name)) as [->|Hne].
      - rewrite lookup_singleton_eq. reflexivity.
      - rewrite lookup_singleton_ne by congruence. exact Hne. }
    unfold abind at 1, get.
    destruct (allocations s !! x) as [alloc|] eqn:E.
    + destruct Hs as (_ & _ & Ha' & _ & Hb'). rewrite Ha' in E.
      destruct (Hal _ _ E) as [Hstate Htok]. rewrite Hstate, Hb'.
      rewrite bool_decide_eq_false_2 by apply not_elem_of_empty.
      simpl. split; [reflexivity|exact Htok].
    + unfold aret. destruct Hl as [Hl|Hl]; [congruence|].
      exact (IH Hl s Hs).
  - unfold around. cbn [current_scope_vars freed_in_scope allocations pointers
                          strict_mode with_scopes].
    rewrite ?Hc, ?Hf. cbn [tail]. repeat split; try assumption.
    exists V0. split; reflexivity.
Qed.

Lemma in_own_scope (x : string) : x ∈ ({[x]} ∪ ∅ : gset string).
Proof. apply elem_of_union_l, elem_of_singleton. reflexivity. Qed.

(** A part inside a scope. *)
Lemma behaves_scope l (body : M unit) :
  behaves l body ->
  behaves (closed l) (Analyzer.enter_scope ;; body ;; Analyzer.exit_scope)%analyzer.
Proof.
  intros H tl fr V. destruct l as [|n|n|]; cbn [closed]; [| | |exact I].
  - intros tok al b Hal st Hst.
    destruct (around_enter_scope _ _ _ _ _ _ Hst) as (V0 & st1 & E & HV & H1).
    unfold abind at 1. rewrite E.
    refine (triple_abind _ _ _ _ _ _ _ _ _ st1 H1).
    + apply (H (V0 :: tl) (∅ :: fr) ∅ tok al b Hal).
    + intros ?. eapply triple_conseq;
        [apply (around_exit_scope tok al tl fr b ∅ V0 Hal)|auto| |auto|auto].
      intros ? st'. apply around_weaken. exact HV.
  - intros st Hst.
    destruct (around_enter_scope _ _ _ _ _ _ Hst) as (V0 & st1 & E & HV & H1).
    unfold abind at 1. rewrite E.
    refine (triple_abind _ _ _ _ _ _ _ _ _ st1 H1).
    + apply (H (V0 :: tl) (∅ :: fr) ∅ true).
    + intros ? st' (al & Hrec & Har).
      exact (around_exit_scope_reports n al tl fr _ V0 Hrec (in_own_scope _) st' Har).
  - intros st Hst.
    destruct (around_enter_scope _ _ _ _ _ _ Hst) as (V0 & st1 & E & HV & H1).
    unfold abind at 1. rewrite E.
    refine (triple_abind _ _ _ _ _ _ _ _ _ st1 H1).
    + apply (H (V0 :: tl) (∅ :: fr) ∅).
    + intros ? st' [].
Qed.

(** A part after a calm expression. *)
Lemma behaves_after_expr {A} (m0 : M A) l (m : M unit) :
  (forall tok al tl fr b V,
      leak_records tok al ->
      triple (around tl fr al b V) m0 (fun _ => around tl fr al b V)
             (leak_at tok) False) ->
  behaves l m -> behaves l (m0 ;; m)%analyzer.
Proof.
  intros H0 H tl fr V. specialize (H tl fr V).
  destruct l as [|n|n|]; [| | |exact I].
  - intros tok al b Hal. eapply triple_abind; [apply H0; exact Hal|].
    intros ?. apply H. exact Hal.
  - intros b. eapply triple_abind; [apply H0; apply leak_records_empty|].
    intros ?. apply H.
  - eapply triple_abind; [apply H0; apply leak_records_empty|].
    intros ?. apply H.
Qed.

(** One part after another. *)
Lemma behaves_then l1 l2 (m1 m2 : M unit) :
  behaves l1 m1 -> behaves l2 m2 ->
  behaves (then_leak l1 l2) (m1 ;; m2)%analyzer.
Proof.
  intros H1 H2 tl fr V. specialize (H1 tl fr V).
  destruct l1 as [|n|n|]; cbn [then_leak].
  - specialize (H2 tl fr V). destruct l2 as [|n|n|]; [| | |exact I].
    + intros tok al b Hal. eapply triple_abind; [apply H1; exact Hal|].
      intros ?. apply H2. exact Hal.
    + intros b. eapply triple_abind; [apply H1; apply leak_records_empty|].
      intros ?. apply H2.
    + eapply triple_abind; [apply H1; apply leak_records_empty|].
      intros ?. apply H2.
  - destruct l2 as [|n2|n2|]; try exact I.
    intros b. eapply triple_abind; [apply H1|].
    intros ? st (al & Hrec & Har).
    pose proof (H2 tl fr ({[lexeme n]} ∪ V) n al b
                   (record_of_leak_records _ _ Hrec) st Har) as G.
    destruct (m2 st) as [u st'|e st'|]; try exact G.
    exists al. split; assumption.
  - destruct l2 as [|n2|n2|]; try exact I.
    eapply triple_abind; [apply H1|]. intros ? st [].
  - exact I.
Qed.

Lemma behaves_aret : behaves nowhere (aret tt).
Proof. intros tl fr V tok al b _. apply triple_aret. auto. Qed.

Lemma around_core tl fr al b V st st' :
  core st' = core st -> around tl fr al b V st -> around tl fr al b V st'.
Proof.
  unfold core. intros H. inversion H as [[Ha Hp Hc Hf He Hs]].
  unfold around. rewrite Ha, Hp, Hc, Hf, Hs. auto.
Qed.

Lemma around_perform_interprocedural_analysis exc tl fr al b V fuel name body :
  triple (around tl fr al b V)
         (Analyzer.perform_interprocedural_analysis (S fuel) name body)
         (fun _ => around tl fr al b V) exc False.
Proof.
  intros st Hst.
  assert (Hfuel : S fuel = 0%nat -> False) by discriminate.
  pose proof (core_perform_interprocedural_analysis
                (core st) (S fuel) name body False Hfuel st eq_refl) as H.
  destruct (Analyzer.perform_interprocedural_analysis (S fuel) name body st)
    as [u st'|e st'|]; try contradiction.
  exact (around_core _ _ _ _ _ _ _ H Hst).
Qed.

Lemma around_check_function_memory_leaks_empty exc tl fr b V name :
  triple (around tl fr ∅ b V) (Analyzer.check_function_memory_leaks name)
         (fun _ => around tl fr ∅ b V) exc False.
Proof.
  intros st Hst. unfold Analyzer.check_function_memory_leaks, abind, get.
  destruct Hst as (Hv & Hf & Ha & Hp & Hb). rewrite Ha, map_to_list_empty.
  repeat split; assumption.
Qed.

(** With the record of a declaration at hand in strict mode, the leak
    checks at the end of a function and of the program throw. *)
Lemma around_check_function_memory_leaks_reports n al tl fr V name :
  record_of n al ->
  triple (around tl fr al true V) (Analyzer.check_function_memory_leaks name)
         (fun _ _ => False) (leak_at n) False.
Proof.
  intros (r & -> & Hs & Ht) st (Hv & Hf & Ha & Hp & Hb).
  unfold Analyzer.check_function_memory_leaks, abind, get.
  rewrite Ha, map_to_list_singleton. simpl. unfold abind, get.
  rewrite Hs, Hb. simpl. split; [reflexivity|exact Ht].
Qed.

Lemma around_check_memory_leaks_reports n al tl fr V :
  record_of n al ->
  triple (around tl fr al true V) Analyzer.check_memory_leaks
         (fun _ _ => False) (leak_at n) False.
Proof.
  intros (r & -> & Hs & Ht) st (Hv & Hf & Ha & Hp & Hb).
  unfold Analyzer.check_memory_leaks, abind, get.
  rewrite Ha, map_to_list_singleton. simpl. unfold abind, get.
  rewrite Hs, Hb. simpl. split; [reflexivity|exact Ht].
Qed.

(** A part that is the body of a function. *)
Lemma behaves_function fuel name stmts l (body : M unit) :
  behaves l body ->
  behaves (closed l)
    (st0 <- get ;;
     modify (fun st => with_pointers (with_allocations st ∅) ∅) ;;
     Analyzer.enter_scope ;;
     body ;;
     Analyzer.check_function_memory_leaks name ;;
     Analyzer.perform_interprocedural_analysis (S fuel) name stmts ;;
     Analyzer.exit_scope ;;
     modify (fun st => with_pointers (with_allocations st (allocations st0))
                                     (pointers st0)))%analyzer.
Proof.
  intros H tl fr V. destruct l as [|n|n|]; cbn [closed]; [| | |exact I].
  - intros tok al b Hal. apply triple_get_bind. intros st0 Hst0.
    destruct Hst0 as (Hv0 & Hf0 & Ha0 & Hp0 & Hb0).
    eapply triple_abind with (mid := fun _ => around tl fr ∅ b V).
    { apply triple_modify. intros st ->. repeat split; assumption. }
    intros ? st Hst.
    destruct (around_enter_scope _ _ _ _ _ _ Hst) as (V0 & st1 & E & HV & H1).
    unfold abind at 1. rewrite E.
    pose proof (leak_records_empty tok) as Hempty.
    refine (triple_abind _ _ _ _ _ _ _ _ _ st1 H1).
    { apply (H (V0 :: tl) (∅ :: fr) ∅ tok ∅ b Hempty). }
    intros ?. eapply triple_abind;
      [apply around_check_function_memory_leaks_empty|].
    intros ?. eapply triple_abind;
      [apply around_perform_interprocedural_analysis|].
    intros ?. eapply triple_abind;
      [apply (around_exit_scope tok ∅ tl fr b ∅ V0 Hempty)|].
    intros ?. apply triple_modify.
    intros st' ((V1 & HV1 & Hc1) & Hf1 & Ha1 & Hp1 & Hb1).
    unfold around. cbn. rewrite Ha0, Hp0. repeat split; try assumption.
    exists V1. split; [|exact Hc1]. etransitivity; eassumption.
  - apply triple_get_bind. intros st0 Hst0.
    eapply triple_abind with (mid := fun _ => around tl fr ∅ true V).
    { apply triple_modify. intros st ->.
      destruct Hst0 as (Hv0 & Hf0 & Ha0 & Hp0 & Hb0). repeat split; assumption. }
    intros ? st Hst.
    destruct (around_enter_scope _ _ _ _ _ _ Hst) as (V0 & st1 & E & HV & H1).
    unfold abind at 1. rewrite E.
    refine (triple_abind _ _ _ _ _ _ _ _ _ st1 H1).
    { apply (H (V0 :: tl) (∅ :: fr) ∅ true). }
    intros ? st' (al & Hrec & Har).
    refine (triple_abind _ _ _ _ _ (fun _ _ => False) _ _ _ st' Har).
    + apply around_check_function_memory_leaks_reports. exact Hrec.
    + intros ? ? [].
  - apply triple_get_bind. intros st0 Hst0.
    eapply triple_abind with (mid := fun _ => around tl fr ∅ true V).
    { apply triple_modify. intros st ->.
      destruct Hst0 as (Hv0 & Hf0 & Ha0 & Hp0 & Hb0). repeat split; assumption. }
    intros ? st Hst.
    destruct (around_enter_scope _ _ _ _ _ _ Hst) as (V0 & st1 & E & HV & H1).
    unfold abind at 1. rewrite E.
    refine (triple_abind _ _ _ _ _ _ _ _ _ st1 H1).
    { apply (H (V0 :: tl) (∅ :: fr) ∅). }
    intros ? ? [].
Qed.

Lemma then_leak_nowhere_r l : then_leak l nowhere = l.
Proof. destruct l; reflexivity. Qed.

Lemma behaves_get l (k : MemorySafetyAnalyzer -> M unit) :
  (forall s, behaves l (k s)) -> behaves l (abind get k).
Proof.
  intros H tl fr V. destruct l as [|n|n|]; [| | |exact I].
  - intros tok al b Hal st Hst. exact (H st tl fr V tok al b Hal st Hst).
  - intros b st Hst. exact (H st tl fr V b st Hst).
  - intros st Hst. exact (H st tl fr V st Hst).
Qed.

(** A part followed by a look at the state. *)
Lemma behaves_before_get l (m : M unit) :
  behaves l m -> behaves l (m ;; _ <- get ;; aret tt)%analyzer.
Proof.
  intros H. rewrite <- (then_leak_nowhere_r l). apply behaves_then; [exact H|].
  apply behaves_get. intros ?. apply behaves_aret.
Qed.

Lemma revert_then_only_same F st :
  Analyzer.revert_then_only F F st = Done tt st.
Proof.
  unfold Analyzer.revert_then_only.
  assert (G : forall l, (forall x, In x l -> x ∈ F) ->
                for_each
                  (fun var =>
                     if bool_decide (var ∈ F) then aret tt
                     else
                       modify (fun st =>
                                 match allocations st !! var with
                                 | Some a =>
                                     if MemoryState.eqb (state a) MemoryState.FREED
                                     then with_allocations st
                                            (<[var := set_state MemoryState.ALLOCATED a]>
                                               (allocations st))
                                     else st
                                 | None => st
                                 end))
                  l st = Done tt st).
  { induction l as [|x l IH]; intros Hl; [reflexivity|].
    cbn [for_each]. unfold abind.
    rewrite bool_decide_eq_true_2 by (apply Hl; left; reflexivity).
    unfold aret. apply IH. intros y Hy. apply Hl. right. exact Hy. }
  apply G. intros x Hx. apply elem_of_elements, list_elem_of_In. exact Hx.
Qed.

(** The tail of [analyze_if_stmt] when there is an [else]: the records of
    before the then-branch are put back, the else-branch is analysed, and
    the revert loop finds the same freed set twice. *)
Lemma behaves_else l (els : M unit) (then_allocations : gmap string AllocationInfo)
      (st1 : MemorySafetyAnalyzer) tl fr V :
  behaves l els ->
  match l with
  | nowhere =>
      forall tok al b,
        leak_records tok al -> then_allocations = al -> freed_in_scope st1 = fr ->
        triple (around tl fr al b V)
               (modify (fun st => with_allocations st then_allocations) ;;
                els ;;
                st2 <- get ;;
                Analyzer.revert_then_only (back (freed_in_scope st1))
                                          (back (freed_in_scope st2)))%analyzer
               (fun _ => around tl fr al b V) (leak_at tok) False
  | carried n =>
      forall b,
        then_allocations = ∅ -> freed_in_scope st1 = fr ->
        triple (around tl fr ∅ b V)
               (modify (fun st => with_allocations st then_allocations) ;;
                els ;;
                st2 <- get ;;
                Analyzer.revert_then_only (back (freed_in_scope st1))
                                          (back (freed_in_scope st2)))%analyzer
               (fun _ st => exists al, record_of n al /\
                                       around tl fr al b ({[lexeme n]} ∪ V) st)
               (leak_at n) False
  | reported n =>
      then_allocations = ∅ -> freed_in_scope st1 = fr ->
      triple (around tl fr ∅ true V)
             (modify (fun st => with_allocations st then_allocations) ;;
              els ;;
              st2 <- get ;;
              Analyzer.revert_then_only (back (freed_in_scope st1))
                                        (back (freed_in_scope st2)))%analyzer
             (fun _ _ => False) (leak_at n) False
  | unclear => True
  end.
Proof.
  intros H. specialize (H tl fr V). destruct l as [|n|n|]; [| | |exact I].
  - intros tok al b Hal -> Hf1.
    eapply triple_abind with (mid := fun _ => around tl fr al b V).
    { apply triple_modify. intros st (Hv & Hf & Ha & Hp & Hb).
      repeat split; assumption. }
    intros ?. eapply triple_abind; [apply H; exact Hal|].
    intros ?. apply triple_read. intros s2 Hs2 st Hst.
    destruct Hs2 as (_ & Hf2 & _). rewrite Hf1, Hf2, revert_then_only_same.
    exact Hst.
  - intros b -> Hf1.
    eapply triple_abind with (mid := fun _ => around tl fr ∅ b V).
    { apply triple_modify. intros st (Hv & Hf & Ha & Hp & Hb).
      repeat split; assumption. }
    intros ?. eapply triple_abind; [apply H|].
    intros ? st (al & Hrec & Har). unfold abind, get.
    destruct Har as (Hv & Hf2 & Har). rewrite Hf1, Hf2, revert_then_only_same.
    exists al. split; [exact Hrec|]. split; [exact Hv|]. split; [exact Hf2|exact Har].
  - intros -> Hf1.
    eapply triple_abind with (mid := fun _ => around tl fr ∅ true V).
    { apply triple_modify. intros st (Hv & Hf & Ha & Hp & Hb).
      repeat split; assumption. }
    intros ?. eapply triple_abind; [apply H|]. intros ? ? [].
Qed.

Lemma behaves_if_else c (t els : M unit) lt le :
  calm_expr c = true -> behaves lt t -> behaves le els ->
  behaves (branches lt le)
    (Analyzer.analyze_expr c ;;
     st0 <- get ;;
     t ;;
     st1 <- get ;;
     modify (fun st => with_allocations st (allocations st0)) ;;
     els ;;
     st2 <- get ;;
     Analyzer.revert_then_only (back (freed_in_scope st1))
                               (back (freed_in_scope st2)))%analyzer.
Proof.
  intros Hc Ht He tl fr V. pose proof (Ht tl fr V) as Ht'.
  destruct lt as [|n|n|]; cbn [branches]; [|exact I| |exact I].
  - pose proof (behaves_else le els) as Hels.
    destruct le as [|n|n|]; [| | |exact I].
    + intros tok al b Hal.
      eapply triple_abind; [apply stays_analyze_expr; eassumption|]. intros ?.
      apply triple_read. intros st0 (_ & _ & Ha0 & _).
      eapply triple_abind; [apply Ht'; exact Hal|]. intros ?.
      apply triple_read. intros st1 (_ & Hf1 & _).
      exact (Hels (allocations st0) st1 tl fr V He tok al b Hal Ha0 Hf1).
    + intros b. pose proof (leak_records_empty n) as Hal.
      eapply triple_abind; [apply stays_analyze_expr; eassumption|]. intros ?.
      apply triple_read. intros st0 (_ & _ & Ha0 & _).
      eapply triple_abind; [apply Ht'; exact Hal|]. intros ?.
      apply triple_read. intros st1 (_ & Hf1 & _).
      exact (Hels (allocations st0) st1 tl fr V He b Ha0 Hf1).
    + pose proof (leak_records_empty n) as Hal.
      eapply triple_abind; [apply stays_analyze_expr; eassumption|]. intros ?.
      apply triple_read. intros st0 (_ & _ & Ha0 & _).
      eapply triple_abind; [apply Ht'; exact Hal|]. intros ?.
      apply triple_read. intros st1 (_ & Hf1 & _).
      exact (Hels (allocations st0) st1 tl fr V He Ha0 Hf1).
  - destruct le as [|n'|n'|]; try exact I.
    pose proof (leak_records_empty n) as Hal.
    eapply triple_abind; [apply stays_analyze_expr; eassumption|]. intros ?.
    apply triple_read. intros st0 _.
    eapply triple_abind; [apply Ht'|]. intros ? ? [].
Qed.

(** The cases of a [switch], all calm: the records are put back after
    each. *)
Lemma stays_cases tok al tl fr b V (case_body : list Stmt -> M unit) cases :
  leak_records tok al ->
  (forall v ss, In (CaseClause v ss) cases ->
                calm_expr v = true /\ behaves nowhere (case_body ss)) ->
  triple (around tl fr al b V)
         (for_each
            (fun case_clause : CaseClauseT =>
               let '(CaseClause value statements) := case_clause in
               Analyzer.analyze_expr value ;;
               st <- get ;;
               case_body statements ;;
               modify (fun st' => with_allocations st' (allocations st)))%analyzer
            cases)
         (fun _ => around tl fr al b V) (leak_at tok) False.
Proof.
  intros Hal H. apply triple_for_each. intros [v ss] Hin.
  destruct (H v ss Hin) as [Hv Hss].
  eapply triple_abind; [apply stays_analyze_expr; eassumption|]. intros ?.
  apply triple_read. intros st (_ & _ & Ha & _).
  eapply triple_abind; [apply (Hss tl fr V tok al b Hal)|]. intros ?.
  apply triple_modify. intros st' (Hv' & Hf' & Ha' & Hp' & Hb').
  repeat split; assumption.
Qed.

(** A part inside an [unsafe] block. *)
Lemma behaves_unsafe l (body : M unit) :
  behaves l body ->
  behaves (unchecked l)
    (st0 <- get ;;
     modify (fun st => with_strict_mode st false) ;;
     body ;;
     modify (fun st => with_strict_mode st (strict_mode st0)))%analyzer.
Proof.
  intros H tl fr V. specialize (H tl fr V).
  destruct l as [|n|n|]; cbn [unchecked]; [| |exact I|exact I].
  - intros tok al b Hal. apply triple_get_bind. intros st0 Hst0.
    eapply triple_abind with (mid := fun _ => around tl fr al false V).
    { apply triple_modify. intros st ->.
      destruct Hst0 as (Hv & Hf & Ha & Hp & Hb). repeat split; assumption. }
    intros ?. eapply triple_abind; [apply H; exact Hal|]. intros ?.
    apply triple_modify. intros st (Hv & Hf & Ha & Hp & Hb).
    destruct Hst0 as (_ & _ & _ & _ & Hb0). repeat split; assumption.
  - intros b. apply triple_get_bind. intros st0 Hst0.
    eapply triple_abind with (mid := fun _ => around tl fr ∅ false V).
    { apply triple_modify. intros st ->.
      destruct Hst0 as (Hv & Hf & Ha & Hp & Hb). repeat split; assumption. }
    intros ?. eapply triple_abind; [apply H|]. intros ?.
    apply triple_modify. intros st (al & Hrec & Hv & Hf & Ha & Hp & Hb).
    exists al. split; [exact Hrec|].
    destruct Hst0 as (_ & _ & _ & _ & Hb0). repeat split; assumption.
Qed.

Lemma back_insert_around x tl fr al b V st :
  around tl fr al b V st ->
  around tl fr al b ({[x]} ∪ V)
         (with_scopes st (back_insert x (current_scope_vars st)) (freed_in_scope st)).
Proof.
  intros ((V' & HV & Hc) & Hf & Ha & Hp & Hb). unfold around. cbn.
  rewrite Hc. cbn. repeat split; try assumption.
  exists ({[x]} ∪ V'). split; [|reflexivity]. apply union_mono_l. exact HV.
Qed.

(** A declaration without an allocator call. *)
Lemma behaves_calm_var_stmt name initializer :
  calm_option initializer = true ->
  behaves nowhere (Analyzer.analyze_var_stmt name initializer).
Proof.
  intros Hcalm tl fr V tok al b Hal. unfold Analyzer.analyze_var_stmt.
  eapply triple_abind with (mid := fun _ => around tl fr al b V).
  { apply triple_modify. intros st Hst.
    apply (around_weaken _ _ _ _ V ({[lexeme name]} ∪ V));
      [apply union_subseteq_r|].
    apply back_insert_around. exact Hst. }
  intros ?. destruct initializer as [init|]; [|apply triple_aret; auto].
  simpl in Hcalm.
  eapply triple_abind; [apply stays_analyze_expr; eassumption|]. intros ?.
  pose proof (calm_is_not_allocator_call _ Hcalm) as Hna.
  destruct init as [| | | | | |callee paren args| | | | |];
    try (apply triple_aret; auto).
  destruct callee as [|callee_var| | | | | | | | | |];
    try (apply triple_aret; auto).
  simpl in Hna. rewrite Hna.
  simpl in Hcalm. apply andb_prop in Hcalm. destruct Hcalm as [Hcalm _].
  destruct (String.eqb (lexeme callee_var) "deref") eqn:E.
  - apply String.eqb_eq in E. rewrite E. simpl. apply triple_aret. auto.
  - apply negb_true_iff, is_memory_primitive_false in Hcalm.
    destruct Hcalm as (_ & _ & _ & ->). apply triple_aret. auto.
Qed.

(** The allocating declaration makes the one record. *)
Lemma behaves_allocating name callee paren args :
  is_allocator (lexeme callee) = true ->
  behaves (carried name)
    (Analyzer.analyze_var_stmt name (Some (Call (Variable_ callee) paren args))).
Proof.
  intros Halloc tl fr V b.
  destruct (is_allocator_true _ Halloc) as (Hfree & Hderef & Hprim).
  unfold Analyzer.analyze_var_stmt.
  eapply triple_abind with (mid := fun _ => around tl fr ∅ b ({[lexeme name]} ∪ V)).
  { apply triple_modify. intros st Hst. apply back_insert_around. exact Hst. }
  intros ?. apply triple_step.
  { simpl. unfold Analyzer.analyze_call_with. rewrite Hfree, Hderef, Hprim. simpl.
    apply triple_step; [apply triple_aret; auto|]. intros ?.
    apply triple_step; [apply triple_aret; auto|]. intros ?.
    apply triple_aret. auto. }
  intros ?. rewrite Halloc.
  apply triple_read. intros s (_ & _ & Ha & _). rewrite Ha, lookup_empty.
  eapply triple_abind
    with (mid := fun _ => around tl fr ∅ b ({[lexeme name]} ∪ V));
    [apply triple_aret; auto|]. intros ?.
  apply triple_modify. intros st (Hv & Hf & Ha' & Hp & Hb).
  exists {[ lexeme name := declared name callee args ]}. split.
  - exists (declared name callee args). repeat split.
  - unfold around. cbn. rewrite Ha', insert_empty. repeat split; assumption.
Qed.

Lemma behaves_calm_expr_stmt e :
  calm_expr e = true ->
  behaves nowhere (Analyzer.analyze_expr e ;; aret tt)%analyzer.
Proof.
  intros Hcalm tl fr V tok al b Hal.
  eapply triple_abind; [apply stays_analyze_expr; eassumption|]. intros ?.
  apply triple_aret. auto.
Qed.

Lemma leaks_list_eq ss :
  (fix go (l : list Stmt) : Leak :=
     match l with
     | [] => nowhere
     | s' :: l' => then_leak (leak_of s') (go l')
     end) ss = leaks ss.
Proof. induction ss as [|s ss IH]; simpl; [reflexivity|]. rewrite IH. reflexivity. Qed.

Lemma leaks_behaves fuel ss :
  Forall (fun s => behaves (leak_of s) (Analyzer.analyze_stmt (S fuel) s)) ss ->
  behaves (leaks ss) (for_each (Analyzer.analyze_stmt (S fuel)) ss).
Proof.
  induction 1 as [|s ss Hs _ IH]; [apply behaves_aret|].
  cbn [leaks fold_right for_each]. apply behaves_then; assumption.
Qed.

Lemma allocating_calm s : calm s = true -> allocating s = None.
Proof.
  destruct s as [| | |name init| | | | | | | | | |]; try reflexivity.
  destruct init as [init|]; [|reflexivity]. simpl. intros H.
  pose proof (calm_is_not_allocator_call _ H) as Hna.
  destruct init as [| | | | | |callee paren args| | | | |]; try reflexivity.
  destruct callee; try reflexivity. simpl in Hna. rewrite Hna. reflexivity.
Qed.

Lemma leaks_nowhere ss :
  Forall (fun s => leak_of s = nowhere) ss -> leaks ss = nowhere.
Proof.
  induction 1 as [|s ss Hs _ IH]; [reflexivity|].
  cbn [leaks fold_right]. fold (leaks ss). rewrite Hs, IH. reflexivity.
Qed.

(** A calm statement has no allocating declaration. *)
Lemma calm_nowhere s : calm s = true -> leak_of s = nowhere.
Proof.
  induction s using Stmt_nested_ind; intros Hcalm;
    try (cbn [leak_of]; rewrite Hcalm; reflexivity).
  - (* VarStmt *)
    cbn [leak_of]. rewrite (allocating_calm _ Hcalm).
    simpl in Hcalm. rewrite Hcalm. reflexivity.
  - (* Block *)
    cbn [leak_of]. rewrite leaks_list_eq, leaks_nowhere; [reflexivity|].
    simpl in Hcalm. rewrite Forall_forall in *. intros s Hs.
    apply H; [exact Hs|].
    eapply forallb_In; [eassumption|]. apply list_elem_of_In. exact Hs.
  - (* IfStmt *)
    simpl in Hcalm. apply andb_prop in Hcalm. destruct Hcalm as [Hcalm He].
    apply andb_prop in Hcalm. destruct Hcalm as [Hc Ht].
    cbn [leak_of]. rewrite Hc, (IHs Ht).
    destruct e as [els|]; [|reflexivity].
    rewrite (H els eq_refl He). reflexivity.
  - (* WhileStmt *)
    simpl in Hcalm. apply andb_prop in Hcalm. destruct Hcalm as [Hc Hb].
    cbn [leak_of]. rewrite Hc, (IHs Hb). reflexivity.
  - (* FunctionStmt *)
    cbn [leak_of]. rewrite leaks_list_eq, leaks_nowhere; [reflexivity|].
    simpl in Hcalm. rewrite Forall_forall in *. intros s Hs.
    apply H; [exact Hs|].
    eapply forallb_In; [eassumption|]. apply list_elem_of_In. exact Hs.
  - (* SwitchStmt *)
    simpl in Hcalm. apply andb_prop in Hcalm. destruct Hcalm as [Hcalm Hd].
    cbn [leak_of]. rewrite Hcalm.
    destruct d as [ss|]; [|reflexivity].
    rewrite leaks_list_eq, leaks_nowhere; [reflexivity|].
    specialize (H0 ss eq_refl). rewrite Forall_forall in *. intros s Hs.
    apply H0; [exact Hs|].
    eapply forallb_In; [eassumption|]. apply list_elem_of_In. exact Hs.
  - (* UnsafeBlock *)
    cbn [leak_of]. rewrite leaks_list_eq, leaks_nowhere; [reflexivity|].
    simpl in Hcalm. rewrite Forall_forall in *. intros s Hs.
    apply H; [exact Hs|].
    eapply forallb_In; [eassumption|]. apply list_elem_of_In. exact Hs.
Qed.

Lemma behaves_unclear (m : M unit) : behaves unclear m.
Proof. intros tl fr V. exact I. Qed.

Lemma stays_calm_expr e :
  calm_expr e = true ->
  forall tok al tl fr b V,
    leak_records tok al ->
    triple (around tl fr al b V) (Analyzer.analyze_expr e)
           (fun _ => around tl fr al b V) (leak_at tok) False.
Proof. intros H tok al tl fr b V Hal. apply stays_analyze_expr; assumption. Qed.

(** The walk does with every statement what its classification says. *)
Lemma leak_of_behaves fuel s :
  behaves (leak_of s) (Analyzer.analyze_stmt (S fuel) s).
Proof.
  induction s using Stmt_nested_ind; cbn [leak_of Analyzer.analyze_stmt calm].
  - (* NullStmt *) apply behaves_aret.
  - (* ExprStmt *)
    destruct (calm_expr e) eqn:Hc; [|apply behaves_unclear].
    apply behaves_calm_expr_stmt, Hc.
  - (* PrintStmt *)
    destruct (calm_expr e) eqn:Hc; [|apply behaves_unclear].
    apply behaves_calm_expr_stmt, Hc.
  - (* VarStmt *)
    assert (G : behaves (if calm_option i then nowhere else unclear)
                        (Analyzer.analyze_var_stmt n i)).
    { destruct (calm_option i) eqn:Hc; [|apply behaves_unclear].
      apply behaves_calm_var_stmt, Hc. }
    unfold allocating.
    destruct i as [init|]; [|exact G].
    destruct init as [| | | | | |callee paren args| | | | |]; try exact G.
    destruct callee as [|callee_var| | | | | | | | | |]; try exact G.
    destruct (is_allocator (lexeme callee_var)) eqn:Ha; [|exact G].
    apply behaves_allocating, Ha.
  - (* Block *)
    rewrite leaks_list_eq. apply behaves_scope, leaks_behaves, H.
  - (* IfStmt *)
    destruct (calm_expr c) eqn:Hc; [|apply behaves_unclear].
    destruct e as [els|].
    + apply behaves_if_else; [exact Hc|exact IHs|exact (H els eq_refl)].
    + apply behaves_after_expr; [apply stays_calm_expr, Hc|].
      apply behaves_get. intros st0. apply behaves_before_get. exact IHs.
  - (* WhileStmt *)
    destruct (calm_expr c) eqn:Hc; [|apply behaves_unclear].
    apply behaves_after_expr; [apply stays_calm_expr, Hc|].
    apply behaves_scope. exact IHs.
  - (* FunctionStmt *)
    rewrite leaks_list_eq. apply behaves_function, leaks_behaves, H.
  - (* ReturnStmt *)
    destruct v as [v|]; [|apply behaves_aret]. cbn [calm_option].
    destruct (calm_expr v) eqn:Hc; [|apply behaves_unclear].
    apply behaves_calm_expr_stmt, Hc.
  - (* BreakStmt *) apply behaves_aret.
  - (* SwitchStmt *)
    destruct (calm_expr c && _) eqn:Hc; [|apply behaves_unclear].
    apply andb_prop in Hc. destruct Hc as [Hc Hcases].
    apply behaves_after_expr; [apply stays_calm_expr, Hc|].
    apply behaves_after_expr.
    + intros tok al tl fr b V Hal.
      apply (stays_cases tok al tl fr b V (for_each (Analyzer.analyze_stmt (S fuel))));
        [exact Hal|].
      intros v ss Hin. pose proof (forallb_In _ _ _ Hcases Hin) as Hcase.
      cbn in Hcase. apply andb_prop in Hcase. destruct Hcase as [Hv Hss].
      split; [exact Hv|].
      rewrite Forall_forall in H.
      specialize (H _ (proj2 (list_elem_of_In _ _) Hin)). cbn [case_statements] in H.
      rewrite <- (leaks_nowhere ss); [apply leaks_behaves, H|].
      apply Forall_forall. intros s Hs. apply calm_nowhere.
      eapply forallb_In; [eassumption|]. apply list_elem_of_In. exact Hs.
    + destruct d as [ss|]; [|apply behaves_aret].
      rewrite leaks_list_eq. apply leaks_behaves, (H0 ss eq_refl).
  - (* UnsafeBlock *)
    rewrite leaks_list_eq. apply behaves_unsafe, leaks_behaves, H.
  - (* LLVMInlineStmt *) apply behaves_aret.
  - (* ImportStmt *) apply behaves_aret.
Qed.

(** The whole of what [analyze] runs ends in the leak report. *)
Lemma analysis_body_reports fuel program name tl fr V :
  closed (leaks program) = reported name ->
  triple (around tl fr ∅ true V) (analysis_body (S fuel) program)
         (fun _ _ => False) (leak_at name) False.
Proof.
  intros Hl. unfold analysis_body.
  pose proof (leaks_behaves fuel program) as H.
  assert (Hall : Forall (fun s => behaves (leak_of s)
                                          (Analyzer.analyze_stmt (S fuel) s)) program).
  { apply Forall_forall. intros s _. apply leak_of_behaves. }
  specialize (H Hall tl fr V).
  destruct (leaks program) as [|n|n|]; try discriminate Hl;
    inversion Hl; subst n; clear Hl.
  - eapply triple_abind; [apply H|].
    intros ? st (al & Hrec & Har).
    refine (triple_abind _ _ _ _ _ (fun _ _ => False) _ _ _ st Har).
    + apply around_check_memory_leaks_reports. exact Hrec.
    + intros ? ? [].
  - eapply triple_abind; [apply H|]. intros ? ? [].
Qed.

(** C7, as far as it holds: a program with one declaration initialised by
    [malloc] (or [calloc], [realloc]) is rejected with exactly one error, a
    MEMORY LEAK whose token is the name in that declaration, when the
    declaration stands where its record is still at hand as its scope, its
    function or the program ends in strict mode ([leaks] finds it
    [carried] to the end of the program or [reported] on the way), and
    when the rest of the program calls neither [free] nor an allocator nor
    [addr_of] and calls [deref] with one argument.  The analyzer starts in
    strict mode with its global scope and without records. *)
Theorem C7_allocation_is_reported
        (fuel : nat) (this : MemorySafetyAnalyzer) (program : list Stmt)
        (name : Token) :
  allocations this = ∅ ->
  pointers this = ∅ ->
  strict_mode this = true ->
  current_scope_vars this <> [] ->
  closed (leaks program) = reported name ->
  exists e st',
    Analyzer.analyze (S fuel) program this = Some (false, st') /\
    errors st' = [e] /\ error_type e = "MEMORY LEAK" /\ token e = name.
Proof.
  intros Hthis Hptr Hstrict Hscope Hleak. rewrite analyze_unfold.
  set (st := with_warnings (with_errors this []) []).
  destruct (current_scope_vars this) as [|V0 tl] eqn:Hc; [congruence|].
  assert (Hst : around tl (freed_in_scope this) ∅ true ∅ st).
  { unfold around, st. cbn. rewrite Hc. repeat split; try assumption.
    exists V0. split; [apply empty_subseteq|reflexivity]. }
  pose proof (analysis_body_reports fuel program name tl _ ∅ Hleak st Hst) as Hrun.
  pose proof (errors_analysis_body (S fuel) program st) as Herr.
  destruct (analysis_body (S fuel) program st) as [u st1|e st1|];
    try contradiction.
  destruct Hrun as [Htype Htoken]. exists e. eexists. split; [reflexivity|].
  cbn [errors with_errors]. rewrite Herr. simpl. auto.
Qed.

(** [{ var x = malloc(100); }], [fun f() { var x = malloc(100); }],
    [switch (1) { default: var x = malloc(100); }],
    [var x = malloc(100); print deref(x);] and
    [while (true) { if (true) { unsafe { var x = malloc(100); }
    print deref(x); } else print 1; }]. *)
Lemma C7_allocation_is_reported_witness :
  Forall
    (fun program =>
       exists e st',
         Analyzer.analyze 1 program new_MemorySafetyAnalyzer = Some (false, st') /\
         errors st' = [e] /\ error_type e = "MEMORY LEAK" /\ lexeme (token e) = "x")
    [Samples.program_block_leak; Samples.program_function_leak; Samples.program_default_leak;
     Samples.program_deref_leak; Samples.program_nested_leak; Samples.program_plain_leak].
Proof.
  repeat constructor;
    match goal with
    | |- exists e st', Analyzer.analyze 1 ?p _ = _ /\ _ =>
        let l := eval vm_compute in (closed (leaks p)) in
        match l with
        | reported ?n =>
            destruct (C7_allocation_is_reported
                        0 new_MemorySafetyAnalyzer p n
                        eq_refl eq_refl eq_refl ltac:(discriminate) eq_refl)
              as (e & st' & Hrun & Herrors & Htype & Htoken);
            exists e, st'; split; [exact Hrun|]; split; [exact Herrors|];
            split; [exact Htype|]; rewrite Htoken; reflexivity
        end
    end.
Defined.

(** C7 as stated fails.  Inside an [unsafe] block a leak is a warning
    and a function's records are dropped when it ends, so
    [unsafe { fun f() { var x = malloc(100); } }] is accepted by an
    analyzer made in strict mode; and in
    [var x = malloc(100); free(y);] the one error is the INVALID FREE of
    [y], met before the end of the program. *)
Lemma C7_counterexample :
  strict_mode new_MemorySafetyAnalyzer = true /\
  (exists keyword f name init st',
      Samples.program_unsafe_function
      = [UnsafeBlock keyword [FunctionStmt f [] [VarStmt name (Some init)]]] /\
      Analyzer.is_allocator_call init = true /\
      Analyzer.analyze 100 Samples.program_unsafe_function new_MemorySafetyAnalyzer
      = Some (true, st') /\
      errors st' = []) /\
  (exists name init callee paren y e st',
      Samples.program_free_other
      = [VarStmt name (Some init); ExprStmt (Call callee paren [Variable_ y])] /\
      Analyzer.is_allocator_call init = true /\
      lexeme name = "x" /\ lexeme y = "y" /\
      Analyzer.analyze 100 Samples.program_free_other new_MemorySafetyAnalyzer
      = Some (false, st') /\
      errors st' = [e] /\ error_type e = "INVALID FREE").
Proof.
  vm_compute. split; [reflexivity|]. split.
  - do 5 eexists. repeat split.
  - do 7 eexists. repeat split.
Qed.

(** [switch (1) { case 1: var x = malloc(100); }]: the allocation records
    are put back after the case, and the program is accepted. *)
Example switch_case_leak_is_accepted :
  exists keyword cond value name init st',
    Samples.program_switch_leak
    = [SwitchStmt keyword cond [CaseClause value [VarStmt name (Some init)]] None] /\
    Analyzer.is_allocator_call init = true /\
    Analyzer.analyze 100 Samples.program_switch_leak new_MemorySafetyAnalyzer
    = Some (true, st') /\
    errors st' = [] /\ allocations st' = ∅.
Proof.
  vm_compute. do 6 eexists. repeat split.
Qed.

(** In an unsafe block a function's leak is a warning, and the records of
    the function are dropped when it ends:
    [unsafe { fun f() { var x = malloc(100); } }] is accepted. *)
Example unsafe_function_leak_is_accepted :
  exists st',
    Analyzer.analyze 100 Samples.program_unsafe_function new_MemorySafetyAnalyzer
    = Some (true, st') /\
    errors st' = [] /\ warnings st' = ["Potential memory leak: x"].
Proof.
  vm_compute. eexists. repeat split.
Qed.

(* ===================================================================== *)
(** * The scope stacks                                                   *)
(* ===================================================================== *)

Lemma stack_rel_refl st : stack_rel st st.
Proof. unfold stack_rel. split; [|split]; reflexivity. Qed.

Lemma stack_rel_same st st' :
  current_scope_vars st' = current_scope_vars st ->
  freed_in_scope st' = freed_in_scope st ->
  stack_rel st st'.
Proof. intros H1 H2. unfold stack_rel. rewrite H1, H2. split; [|split]; reflexivity. Qed.

Lemma stack_rel_trans st1 st2 st3 :
  stack_rel st1 st2 -> stack_rel st2 st3 -> stack_rel st1 st3.
Proof.
  intros (L1 & T1 & B1) (L2 & T2 & B2). repeat split; try congruence.
  etransitivity; eassumption.
Qed.

Lemma back_insert_grows x v :
  tail (back_insert x v) = tail v /\ back v ⊆ back (back_insert x v).
Proof. destruct v as [|s rest]; simpl; split; try reflexivity. set_solver. Qed.

Lemma length_back_insert x v : length (back_insert x v) = length v.
Proof. destruct v; reflexivity. Qed.

Section Grows.
Context {A B : Type}.

Lemma grows_aret (a : A) : grows (aret a).
Proof. intros st _. apply stack_rel_refl. Qed.

Lemma grows_throw e : grows (@throw A e).
Proof. intros st _. exact I. Qed.

Lemma grows_out_of_fuel : grows (@out_of_fuel A).
Proof. intros st _. exact I. Qed.

Lemma grows_abind (m : M A) (f : A -> M B) :
  grows m -> (forall a, grows (f a)) -> grows (abind m f).
Proof.
  intros Hm Hf st Hst. unfold abind. specialize (Hm st Hst).
  destruct (m st) as [a st'| |]; auto.
  assert (Hst' : (1 <= length (current_scope_vars st'))%nat)
    by (destruct Hm as [-> _]; exact Hst).
  specialize (Hf a st' Hst'). destruct (f a st'); auto.
  eapply stack_rel_trans; eassumption.
Qed.

Lemma grows_ext (m m' : M A) : (forall st, m st = m' st) -> grows m -> grows m'.
Proof. intros E H st Hst. rewrite <- E. exact (H st Hst). Qed.

End Grows.

Lemma grows_get : grows get.
Proof. intros st _. apply stack_rel_refl. Qed.

Lemma grows_modify f : (forall st, stack_rel st (f st)) -> grows (modify f).
Proof. intros H st _. apply H. Qed.

Lemma grows_when c (m : M unit) : grows m -> grows (when c m).
Proof. destruct c; simpl; auto using grows_aret. Qed.

Lemma grows_for_each {A} (body : A -> M unit) (l : list A) :
  (forall x, In x l -> grows (body x)) -> grows (for_each body l).
Proof.
  induction l as [|x l IH]; intros H; simpl.
  - apply grows_aret.
  - apply grows_abind; [apply H; left; reflexivity|].
    intros ?. apply IH. intros y Hy. apply H. right. exact Hy.
Qed.

Ltac grow_step :=
  match goal with
  | |- grows (abind _ _) => apply grows_abind
  | |- grows (aret _) => apply grows_aret
  | |- grows (throw _) => apply grows_throw
  | |- grows get => apply grows_get
  | |- grows out_of_fuel => apply grows_out_of_fuel
  | |- grows (when _ _) => apply grows_when
  | |- grows (push_warning _) =>
      apply grows_modify; intros; apply stack_rel_same; reflexivity
  | |- grows (modify _) => apply grows_modify; intros
  | |- grows (for_each _ _) => apply grows_for_each; intros
  | |- grows (match ?x with _ => _ end) => destruct x
  | |- forall _, _ => intros
  end.

Ltac grow := repeat grow_step; try (apply stack_rel_same; reflexivity); auto.

Lemma grows_check_variable_access n : grows (Analyzer.check_variable_access n).
Proof. unfold Analyzer.check_variable_access. grow. Qed.

Lemma grows_update_pointer_states_on_free v :
  grows (Analyzer.update_pointer_states_on_free v).
Proof.
  unfold Analyzer.update_pointer_states_on_free. apply grows_modify. intros st.
  destruct (allocations st !! v); apply stack_rel_same; reflexivity.
Qed.

(** [free] enters the variable in the innermost freed set. *)
Lemma grows_analyze_free p args : grows (Analyzer.analyze_free p args).
Proof.
  unfold Analyzer.analyze_free. grow.
  - unfold stack_rel. cbn [current_scope_vars freed_in_scope with_scopes with_allocations].
    split; [reflexivity|]. apply back_insert_grows.
  - apply grows_update_pointer_states_on_free.
Qed.

Lemma grows_analyze_deref p args : grows (Analyzer.analyze_deref p args).
Proof. unfold Analyzer.analyze_deref. grow. Qed.

Lemma grows_analyze_call_with rec callee p args :
  (forall a, In a args -> grows (rec a)) ->
  grows (Analyzer.analyze_call_with rec callee p args).
Proof.
  intros H. unfold Analyzer.analyze_call_with.
  destruct callee; try apply grows_aret.
  destruct (String.eqb (lexeme name) "free"); [apply grows_analyze_free|].
  grow. apply grows_analyze_deref.
Qed.

Lemma grows_analyze_expr e : grows (Analyzer.analyze_expr e).
Proof.
  induction e using Expr_nested_ind; simpl; try solve [grow].
  - apply grows_check_variable_access.
  - apply grows_analyze_call_with. intros a Ha.
    rewrite Forall_forall in H. apply H. apply list_elem_of_In. exact Ha.
  - grow. rewrite Forall_forall in H. apply H. apply list_elem_of_In. assumption.
Qed.

Lemma grows_analyze_var_stmt n i : grows (Analyzer.analyze_var_stmt n i).
Proof.
  unfold Analyzer.analyze_var_stmt. grow; try apply grows_analyze_expr.
  unfold stack_rel. cbn [current_scope_vars freed_in_scope with_scopes].
  rewrite length_back_insert. split; [|split]; reflexivity.
Qed.

Lemma grows_check_function_memory_leaks n :
  grows (Analyzer.check_function_memory_leaks n).
Proof. unfold Analyzer.check_function_memory_leaks. grow. Qed.

Lemma grows_revert_then_only a b : grows (Analyzer.revert_then_only a b).
Proof.
  unfold Analyzer.revert_then_only. apply grows_for_each. intros x _.
  destruct (bool_decide _); [apply grows_aret|].
  apply grows_modify. intros st.
  destruct (allocations st !! x) as [al|]; [|apply stack_rel_refl].
  destruct (MemoryState.eqb _ _); apply stack_rel_same; reflexivity.
Qed.

Lemma grows_perform_interprocedural_analysis fuel name body :
  grows (Analyzer.perform_interprocedural_analysis fuel name body).
Proof.
  intros st _.
  pose proof (core_perform_interprocedural_analysis
                (core st) fuel name body True (fun _ => I) st eq_refl) as H.
  destruct (Analyzer.perform_interprocedural_analysis fuel name body st)
    as [u st'|e st'|]; try exact I.
  unfold core in H. inversion H. apply stack_rel_same; assumption.
Qed.

(** With a scope to leave, [exit_scope] pops both stacks. *)
Lemma exit_scope_pops st :
  (2 <= length (current_scope_vars st))%nat ->
  match Analyzer.exit_scope st with
  | Done _ st' =>
      current_scope_vars st' = tail (current_scope_vars st) /\
      freed_in_scope st' = tail (freed_in_scope st)
  | _ => True
  end.
Proof.
  intros Hlen.
  unfold Analyzer.exit_scope. unfold abind at 1, get.
  destruct (Nat.ltb_spec 1 (length (current_scope_vars st))) as [_|Hle]; [|lia].
  unfold abind at 1, modify.
  set (st1 := with_scopes st _ _).
  set (body := fun var : string => _).
  assert (Hkeep : preserves (fun s => (current_scope_vars s, freed_in_scope s))
                            (for_each body (elements (back (current_scope_vars st))))).
  { apply preserves_for_each. intros x _. unfold body.
    apply preserves_abind; [apply preserves_get|]. intros s.
    destruct (allocations s !! x); [|apply preserves_aret].
    destruct (_ && _); [|apply preserves_aret].
    destruct (strict_mode s); [apply preserves_throw|].
    apply preserves_modify. reflexivity. }
  specialize (Hkeep st1).
  destruct (for_each body _ st1) as [u st'| |]; try exact I.
  inversion Hkeep as [[Hc Hf]]. rewrite Hc, Hf. split; reflexivity.
Qed.

(** A scope around [body], then [rest]. *)
Lemma grows_scoped {A} (body : M unit) (rest : M A) :
  grows body -> grows rest ->
  grows (Analyzer.enter_scope ;; body ;; Analyzer.exit_scope ;; rest)%analyzer.
Proof.
  intros Hbody Hrest st Hst. unfold abind at 1.
  unfold Analyzer.enter_scope at 1, modify at 1.
  set (st1 := with_scopes st _ _).
  assert (Hst1 : (1 <= length (current_scope_vars st1))%nat) by (simpl; lia).
  unfold abind at 1. specialize (Hbody st1 Hst1).
  destruct (body st1) as [u st2| |]; try exact I.
  destruct Hbody as (L2 & T2 & B2). simpl in L2, T2.
  assert (Hst2 : (2 <= length (current_scope_vars st2))%nat) by lia.
  unfold abind at 1. pose proof (exit_scope_pops st2 Hst2) as Hexit.
  destruct (Analyzer.exit_scope st2) as [u' st3| |]; try exact I.
  destruct Hexit as [C3 F3].
  assert (Hrel : stack_rel st st3).
  { unfold stack_rel. rewrite C3, F3, T2. split; [|split; reflexivity].
    destruct (current_scope_vars st2); simpl in *; lia. }
  assert (Hst3 : (1 <= length (current_scope_vars st3))%nat)
    by (destruct Hrel as [-> _]; exact Hst).
  specialize (Hrest st3 Hst3). destruct (rest st3); try exact I.
  eapply stack_rel_trans; eassumption.
Qed.

Lemma grows_scoped_last (body : M unit) :
  grows body ->
  grows (Analyzer.enter_scope ;; body ;; Analyzer.exit_scope)%analyzer.
Proof.
  intros Hbody.
  apply (grows_ext (Analyzer.enter_scope ;; body ;; Analyzer.exit_scope ;; aret tt)%analyzer).
  - intros st. unfold abind, aret.
    destruct (Analyzer.enter_scope st) as [? s1| |]; try reflexivity.
    destruct (body s1) as [? s2| |]; try reflexivity.
    destruct (Analyzer.exit_scope s2) as [[] s3| |]; reflexivity.
  - apply grows_scoped; [exact Hbody|apply grows_aret].
Qed.

Lemma grows_analyze_stmt fuel s : grows (Analyzer.analyze_stmt fuel s).
Proof.
  induction s using Stmt_nested_ind; simpl;
    try solve [grow; auto using grows_analyze_expr].
  - apply grows_analyze_var_stmt.
  - (* Block *)
    apply grows_scoped_last. apply grows_for_each. intros s Hs.
    rewrite Forall_forall in H. apply H. apply list_elem_of_In. exact Hs.
  - (* IfStmt *)
    apply grows_abind; [apply grows_analyze_expr|]. intros ?.
    apply grows_abind; [apply grows_get|]. intros st0.
    apply grows_abind; [exact IHs|]. intros ?.
    apply grows_abind; [apply grows_get|]. intros st1.
    destruct e as [els|]; [|apply grows_aret].
    apply grows_abind.
    { apply grows_modify. intros st. apply stack_rel_same; reflexivity. }
    intros ?. apply grows_abind; [eauto|]. intros ?.
    apply grows_abind; [apply grows_get|]. intros st2.
    apply grows_revert_then_only.
  - (* WhileStmt *)
    apply grows_abind; [apply grows_analyze_expr|]. intros ?.
    apply grows_scoped_last. exact IHs.
  - (* FunctionStmt *)
    apply grows_abind; [apply grows_get|]. intros st0.
    apply grows_abind.
    { apply grows_modify. intros st. apply stack_rel_same; reflexivity. }
    intros ?.
    eapply grows_ext; [|apply (grows_scoped
      (for_each (Analyzer.analyze_stmt fuel) b ;;
       Analyzer.check_function_memory_leaks n ;;
       Analyzer.perform_interprocedural_analysis fuel n b)%analyzer)].
    + intros st. unfold abind.
      destruct (Analyzer.enter_scope st) as [? s1| |]; try reflexivity.
      destruct (for_each (Analyzer.analyze_stmt fuel) b s1) as [? s2| |];
        try reflexivity.
      destruct (Analyzer.check_function_memory_leaks n s2) as [? s3| |];
        try reflexivity.
    + apply grows_abind.
      { apply grows_for_each. intros s Hs. rewrite Forall_forall in H.
        apply H. apply list_elem_of_In. exact Hs. }
      intros ?. apply grows_abind; [apply grows_check_function_memory_leaks|].
      intros ?. apply grows_perform_interprocedural_analysis.
    + apply grows_modify. intros st. apply stack_rel_same; reflexivity.
  - (* SwitchStmt *)
    apply grows_abind; [apply grows_analyze_expr|]. intros ?.
    apply grows_abind.
    + apply grows_for_each. intros [v ss] Hin.
      rewrite Forall_forall in H. specialize (H _ (proj2 (list_elem_of_In _ _) Hin)).
      simpl in H. grow; auto using grows_analyze_expr.
      rewrite Forall_forall in H. apply H. apply list_elem_of_In. assumption.
    + intros ?. destruct d as [ss|]; [|apply grows_aret].
      apply grows_for_each. intros s Hs.
      specialize (H0 ss eq_refl). rewrite Forall_forall in H0.
      apply H0. apply list_elem_of_In. assumption.
  - (* UnsafeBlock *)
    grow. rewrite Forall_forall in H. apply H. apply list_elem_of_In. assumption.
Qed.

(* ===================================================================== *)
(** * Branches of an [if]                                                *)
(* ===================================================================== *)

(** Every variable freed in the then-branch being in the else-branch's
    set, the revert loop finds nothing to revert. *)
Lemma revert_then_only_subset then_freed else_freed st :
  then_freed ⊆ else_freed ->
  Analyzer.revert_then_only then_freed else_freed st = Done tt st.
Proof.
  intros Hsub. unfold Analyzer.revert_then_only.
  assert (Hall : forall x, In x (elements then_freed) -> x ∈ else_freed).
  { intros x Hx. apply Hsub. apply elem_of_elements, list_elem_of_In. exact Hx. }
  revert Hall. generalize (elements then_freed) as l.
  induction l as [|x l IH]; intros Hall; simpl.
  - reflexivity.
  - unfold abind. rewrite bool_decide_eq_true_2 by (apply Hall; left; reflexivity).
    simpl. apply IH. intros y Hy. apply Hall. right. exact Hy.
Qed.

(** C1, as the code has it.  An [if] without [else] is analysed as its
    condition followed by its then-branch, and nothing is reverted
    afterwards: what the branch freed stays Freed.  An [if] with [else]
    is analysed as the condition, the then-branch, and the else-branch
    started from the allocation records of before the then-branch; the
    revert loop at the end never changes a record, so the state after the
    statement is the state after the else-branch. *)
Theorem C1_if_is_then_branch_or_else_branch
        (fuel : nat) (condition : Expr) (then_branch : Stmt) (keyword : Token)
        (st : MemorySafetyAnalyzer) :
  Analyzer.analyze_stmt fuel (IfStmt condition then_branch None keyword) st
  = (Analyzer.analyze_expr condition ;;
     Analyzer.analyze_stmt fuel then_branch)%analyzer st /\
  forall els,
    (1 <= length (current_scope_vars st))%nat ->
    Analyzer.analyze_stmt fuel (IfStmt condition then_branch (Some els) keyword) st
    = if_else_walk fuel condition then_branch els st.
Proof.
  split.
  - simpl. unfold abind, get, aret.
    destruct (Analyzer.analyze_expr condition st) as [u0 st0| |]; try reflexivity.
    destruct (Analyzer.analyze_stmt fuel then_branch st0) as [[] st1| |]; reflexivity.
  - intros els Hst. unfold if_else_walk. simpl. unfold abind, get, modify.
    pose proof (grows_analyze_expr condition st Hst) as H0.
    destruct (Analyzer.analyze_expr condition st) as [u0 st0| |]; try reflexivity.
    assert (Hst0 : (1 <= length (current_scope_vars st0))%nat)
      by (destruct H0 as [-> _]; exact Hst).
    pose proof (grows_analyze_stmt fuel then_branch st0 Hst0) as H1.
    destruct (Analyzer.analyze_stmt fuel then_branch st0) as [u1 st1| |];
      try reflexivity.
    assert (Hst1 : (1 <= length (current_scope_vars
                                   (with_allocations st1 (allocations st0))))%nat)
      by (destruct H1 as [L1 _]; simpl; lia).
    pose proof (grows_analyze_stmt fuel els _ Hst1) as H2.
    destruct (Analyzer.analyze_stmt fuel els (with_allocations st1 (allocations st0)))
      as [[] st2| |]; try reflexivity.
    apply revert_then_only_subset. destruct H2 as (_ & _ & Hsub). exact Hsub.
Qed.

(** [if (true) { free(x); } else { }] after [var x = malloc(100);]. *)
Lemma C1_if_witness :
  exists condition then_branch els keyword declaration,
    Samples.program_if_free_else
    = [declaration; IfStmt condition then_branch (Some els) keyword] /\
    Analyzer.analyze_stmt 1 (IfStmt condition then_branch (Some els) keyword)
                          allocated_x
    = if_else_walk 1 condition then_branch els allocated_x.
Proof.
  unfold Samples.program_if_free_else. do 5 eexists. split; [reflexivity|].
  apply C1_if_is_then_branch_or_else_branch. vm_compute. lia.
Defined.

(** [var x = malloc(100); if (true) { free(x); }] is accepted: no error,
    and [x] is Freed at the end. *)
Lemma C1_counterexample :
  exists declaration condition then_branch keyword st' a,
    Samples.program_if_free
    = [declaration; IfStmt condition then_branch None keyword] /\
    Analyzer.analyze 100 Samples.program_if_free new_MemorySafetyAnalyzer
    = Some (true, st') /\
    errors st' = [] /\
    allocations st' !! "x" = Some a /\ state a = MemoryState.FREED.
Proof.
  vm_compute. do 6 eexists. repeat split.
Qed.

(** With an empty [else] the same program is rejected: the records are
    put back before the else-branch, [x] is Allocated at the end and the
    leak is reported. *)
Example if_free_else_is_rejected :
  exists e st' a,
    Analyzer.analyze 100 Samples.program_if_free_else new_MemorySafetyAnalyzer
    = Some (false, st') /\
    errors st' = [e] /\ error_type e = "MEMORY LEAK" /\
    allocations st' !! "x" = Some a /\ state a = MemoryState.ALLOCATED.
Proof.
  vm_compute. do 3 eexists. repeat split.
Qed.

(** Freed in the else-branch only, [x] stays Freed: the program is
    accepted. *)
Example free_in_else_is_accepted :
  exists st' a,
    Analyzer.analyze 100 Samples.program_free_in_else new_MemorySafetyAnalyzer
    = Some (true, st') /\
    allocations st' !! "x" = Some a /\ state a = MemoryState.FREED.
Proof.
  vm_compute. do 2 eexists. repeat split.
Qed.

(* ===================================================================== *)
(** * Termination of the analysis                                        *)
(* ===================================================================== *)

Section Halts.
Context {A B : Type}.

Lemma halts_aret (a : A) : halts (aret a).
Proof. intros st. discriminate. Qed.

Lemma halts_throw e : halts (@throw A e).
Proof. intros st. discriminate. Qed.

Lemma halts_abind (m : M A) (f : A -> M B) :
  halts m -> (forall a, halts (f a)) -> halts (abind m f).
Proof.
  intros Hm Hf st. unfold abind. specialize (Hm st).
  destruct (m st) as [a st'| |]; [apply Hf|discriminate|contradiction].
Qed.

End Halts.

Lemma halts_get : halts get.
Proof. intros st. discriminate. Qed.

Lemma halts_modify f : halts (modify f).
Proof. intros st. discriminate. Qed.

Lemma halts_when c (m : M unit) : halts m -> halts (when c m).
Proof. destruct c; simpl; auto using halts_aret. Qed.

Lemma halts_for_each {A} (body : A -> M unit) (l : list A) :
  (forall x, In x l -> halts (body x)) -> halts (for_each body l).
Proof.
  induction l as [|x l IH]; intros H; simpl.
  - apply halts_aret.
  - apply halts_abind; [apply H; left; reflexivity|].
    intros ?. apply IH. intros y Hy. apply H. right. exact Hy.
Qed.

Ltac halt_step :=
  match goal with
  | |- halts (abind _ _) => apply halts_abind
  | |- halts (aret _) => apply halts_aret
  | |- halts (throw _) => apply halts_throw
  | |- halts get => apply halts_get
  | |- halts (when _ _) => apply halts_when
  | |- halts (push_warning _) => apply halts_modify
  | |- halts (modify _) => apply halts_modify
  | |- halts (for_each _ _) => apply halts_for_each; intros
  | |- halts (match ?x with _ => _ end) => destruct x
  | |- forall _, _ => intros
  end.

Ltac halt := repeat halt_step; auto.

Lemma halts_analyze_free p args : halts (Analyzer.analyze_free p args).
Proof.
  unfold Analyzer.analyze_free, Analyzer.update_pointer_states_on_free. halt.
Qed.

Lemma halts_analyze_deref p args : halts (Analyzer.analyze_deref p args).
Proof. unfold Analyzer.analyze_deref. halt. Qed.

Lemma halts_analyze_expr e : halts (Analyzer.analyze_expr e).
Proof.
  induction e using Expr_nested_ind; simpl; try solve [halt].
  - unfold Analyzer.check_variable_access. halt.
  - unfold Analyzer.analyze_call_with. destruct e; try apply halts_aret.
    destruct (String.eqb (lexeme name) "free"); [apply halts_analyze_free|].
    halt; [apply halts_analyze_deref|].
    rewrite Forall_forall in H. apply H. apply list_elem_of_In. assumption.
  - halt. rewrite Forall_forall in H. apply H. apply list_elem_of_In. assumption.
Qed.

Lemma halts_exit_scope : halts Analyzer.exit_scope.
Proof. unfold Analyzer.exit_scope. halt. Qed.

Lemma halts_perform_interprocedural_analysis fuel name body :
  halts (Analyzer.perform_interprocedural_analysis (S fuel) name body).
Proof.
  intros st E.
  assert (Hfuel : S fuel = 0%nat -> False) by discriminate.
  pose proof (core_perform_interprocedural_analysis
                (core st) (S fuel) name body False Hfuel st eq_refl) as H.
  rewrite E in H. exact H.
Qed.

(** With one unit of fuel the walk over a statement returns or throws. *)
Lemma halts_analyze_stmt fuel s : halts (Analyzer.analyze_stmt (S fuel) s).
Proof.
  induction s using Stmt_nested_ind; simpl;
    try solve [halt; auto using halts_analyze_expr].
  - unfold Analyzer.analyze_var_stmt. halt; apply halts_analyze_expr.
  - (* Block *)
    unfold Analyzer.enter_scope. halt; [|apply halts_exit_scope].
    rewrite Forall_forall in H. apply H. apply list_elem_of_In. assumption.
  - (* IfStmt *)
    apply halts_abind; [apply halts_analyze_expr|]. intros ?.
    apply halts_abind; [apply halts_get|]. intros st0.
    apply halts_abind; [exact IHs|]. intros ?.
    apply halts_abind; [apply halts_get|]. intros st1.
    destruct e as [els|]; [|apply halts_aret].
    apply halts_abind; [apply halts_modify|]. intros ?.
    apply halts_abind; [eauto|]. intros ?.
    apply halts_abind; [apply halts_get|]. intros st2.
    unfold Analyzer.revert_then_only. halt.
  - (* WhileStmt *)
    unfold Analyzer.enter_scope.
    halt; auto using halts_analyze_expr, halts_exit_scope.
  - (* FunctionStmt *)
    unfold Analyzer.enter_scope, Analyzer.check_function_memory_leaks.
    halt; auto using halts_exit_scope, halts_perform_interprocedural_analysis.
    rewrite Forall_forall in H. apply H. apply list_elem_of_In. assumption.
  - (* SwitchStmt *)
    apply halts_abind; [apply halts_analyze_expr|]. intros ?.
    apply halts_abind.
    + apply halts_for_each. intros [v ss] Hin.
      rewrite Forall_forall in H. specialize (H _ (proj2 (list_elem_of_In _ _) Hin)).
      simpl in H. halt; auto using halts_analyze_expr.
      rewrite Forall_forall in H. apply H. apply list_elem_of_In. assumption.
    + intros ?. destruct d as [ss|]; [|apply halts_aret].
      apply halts_for_each. intros s Hs.
      specialize (H0 ss eq_refl). rewrite Forall_forall in H0.
      apply H0. apply list_elem_of_In. assumption.
  - (* UnsafeBlock *)
    halt. rewrite Forall_forall in H. apply H. apply list_elem_of_In. assumption.
Qed.

(** The graph pass of [analyze] returns. *)
Lemma halts_graph_pass fuel statements :
  halts (cfg_entry <- Analyzer.build_cfg statements ;;
         Analyzer.perform_dataflow_analysis (S fuel) cfg_entry)%analyzer.
Proof.
  intros st. unfold abind.
  pose proof (core_build_cfg (core st) statements st eq_refl) as H.
  destruct (Analyzer.build_cfg statements st) as [r st1| |]; try contradiction.
  destruct H as [_ Hsrc]. destruct r as [e|]; [|discriminate].
  rewrite dataflow_at_source by (apply Hsrc; reflexivity). discriminate.
Qed.

Lemma halts_analysis_body fuel statements :
  halts (analysis_body (S fuel) statements).
Proof.
  unfold analysis_body.
  apply halts_abind; [apply halts_for_each; intros; apply halts_analyze_stmt|].
  intros ?. apply halts_abind.
  - unfold Analyzer.check_memory_leaks. halt.
  - intros ?. apply halts_graph_pass.
Qed.

(** C9: a call of [analyze] returns (one unit of fuel is all the worklist
    loop needs), and whenever it returns the error list holds at most one
    error: none when the verdict is [true], exactly one, the exception
    that ended the analysis and was caught by [analyze], when it is
    [false].  The first exception thrown in the [try] block ends the
    analysis: the verdict is then [false] and the analyzer is left in the
    state of the throw with that exception as its only error; a [try]
    block that runs to its end gives the verdict [true] and no error. *)
Theorem C9_at_most_one_error fuel statements this :
  (exists b st', Analyzer.analyze (S fuel) statements this = Some (b, st')) /\
  (forall b st',
     Analyzer.analyze fuel statements this = Some (b, st') ->
     (length (errors st') <= 1)%nat /\
     ((b = true /\ errors st' = []) \/
      (b = false /\ exists e st1,
          analysis_body fuel statements (with_warnings (with_errors this []) [])
          = Throw e st1 /\ errors st' = [e]))) /\
  (forall e st1,
     analysis_body fuel statements (with_warnings (with_errors this []) [])
     = Throw e st1 ->
     Analyzer.analyze fuel statements this = Some (false, with_errors st1 [e])) /\
  (forall u st1,
     analysis_body fuel statements (with_warnings (with_errors this []) [])
     = Done u st1 ->
     Analyzer.analyze fuel statements this = Some (true, st1) /\ errors st1 = []).
Proof.
  split; [|split; [|split]].
  - rewrite analyze_unfold.
    pose proof (halts_analysis_body fuel statements
                  (with_warnings (with_errors this []) [])) as Hh.
    destruct (analysis_body (S fuel) statements _); [eauto|eauto|contradiction].
  - intros b st'. rewrite analyze_unfold.
    pose proof (errors_analysis_body fuel statements
                  (with_warnings (with_errors this []) [])) as Hk.
    destruct (analysis_body fuel statements _) as [u st1|e st1|] eqn:E;
      intros Hr; inversion Hr; subst; clear Hr; simpl in Hk.
    + rewrite Hk. simpl. split; [lia|]. left. split; reflexivity.
    + simpl. rewrite Hk. simpl. split; [lia|]. right. split; [reflexivity|].
      exists e, st1. split; reflexivity.
  - intros e st1 E. rewrite analyze_unfold.
    pose proof (errors_analysis_body fuel statements
                  (with_warnings (with_errors this []) [])) as Hk.
    rewrite E in *. simpl in Hk. rewrite Hk. reflexivity.
  - intros u st1 E. rewrite analyze_unfold.
    pose proof (errors_analysis_body fuel statements
                  (with_warnings (with_errors this []) [])) as Hk.
    rewrite E in *. simpl in Hk. rewrite Hk. split; reflexivity.
Qed.

Lemma C9_at_most_one_error_witness :
  exists b st',
    Analyzer.analyze 100 Samples.program_double_free new_MemorySafetyAnalyzer
    = Some (b, st') /\ (length (errors st') <= 1)%nat.
Proof.
  destruct (proj1 (C9_at_most_one_error 99 Samples.program_double_free
                                        new_MemorySafetyAnalyzer))
    as (b & st' & E).
  exists b, st'. split; [exact E|].
  exact (proj1 (proj1 (proj2 (C9_at_most_one_error 100 Samples.program_double_free
                                                   new_MemorySafetyAnalyzer))
                      b st' E)).
Defined.

(* ===================================================================== *)
(** * Further properties of the optimizer                                *)
(* ===================================================================== *)

Lemma pmap_unchanged {A} (f : A -> Pass A) (l : list A) :
  Forall (fun x => f x = (x, false)) l -> pmap f l = (l, false).
Proof.
  induction 1 as [|x l Hx _ IH]; simpl; [reflexivity|].
  rewrite Hx. simpl. rewrite IH. reflexivity.
Qed.

Lemma map_unchanged {A} (f : A -> A) (l : list A) :
  Forall (fun x => f x = x) l -> List.map f l = l.
Proof.
  induction 1 as [|x l Hx _ IH]; simpl; [reflexivity|]. rewrite Hx, IH. reflexivity.
Qed.

(** ** Passes that do nothing *)

Lemma try_unroll_loop_nothing config s :
  LoopOptimizer.try_unroll_loop_result config s = s /\
  LoopOptimizer.try_unroll_loop_modified config s = false.
Proof.
  unfold LoopOptimizer.try_unroll_loop_result, LoopOptimizer.try_unroll_loop_modified.
  destruct (loop_unrolling config); split; reflexivity.
Qed.

Lemma loop_optimize_stmt_unchanged config s :
  LoopOptimizer.optimize_stmt config s = (s, false).
Proof.
  induction s using Stmt_nested_ind; try reflexivity.
  - simpl. rewrite (pmap_unchanged _ _ H). reflexivity.
  - simpl. rewrite IHs. destruct e as [els|]; simpl; [|reflexivity].
    rewrite (H els eq_refl). reflexivity.
  - cbn [LoopOptimizer.optimize_stmt].
    destruct (try_unroll_loop_nothing config (WhileStmt c s k)) as [-> ->].
    rewrite IHs. reflexivity.
  - simpl. rewrite (pmap_unchanged _ _ H). reflexivity.
Qed.

(** The loop pass returns every program as it is and reports no
    modification, whatever the configuration: [can_unroll] answers
    [false] for every statement. *)
Theorem loop_optimizer_changes_nothing config statements :
  LoopOptimizer.run config statements = (statements, false).
Proof.
  unfold LoopOptimizer.run. apply pmap_unchanged.
  apply Forall_forall. intros s _. apply loop_optimize_stmt_unchanged.
Qed.

Lemma cse_process_expr_unchanged e :
  CommonSubexpressionEliminator.process_expr e = e.
Proof.
  induction e; simpl; congruence.
Qed.

Lemma cse_process_stmt_unchanged s :
  CommonSubexpressionEliminator.process_stmt s = s.
Proof.
  induction s using Stmt_nested_ind; simpl;
    rewrite ?cse_process_expr_unchanged; try reflexivity.
  - destruct i; simpl; rewrite ?cse_process_expr_unchanged; reflexivity.
  - rewrite (map_unchanged _ _ H). reflexivity.
  - rewrite IHs. destruct e as [els|]; simpl; [|reflexivity].
    rewrite (H els eq_refl). reflexivity.
  - rewrite IHs. reflexivity.
  - rewrite (map_unchanged _ _ H). reflexivity.
  - destruct v; simpl; rewrite ?cse_process_expr_unchanged; reflexivity.
Qed.

(** The common-subexpression pass rebuilds the tree it is given and
    returns it structurally unchanged, unflagged: its cache is never
    written. *)
Theorem cse_changes_nothing statements :
  CommonSubexpressionEliminator.run statements = (statements, false).
Proof.
  unfold CommonSubexpressionEliminator.run, pret. f_equal.
  apply map_unchanged, Forall_forall. intros s _. apply cse_process_stmt_unchanged.
Qed.

Lemma inline_stmt_unchanged s : FunctionInliner.inline_stmt s = s.
Proof.
  induction s using Stmt_nested_ind; simpl; try reflexivity.
  rewrite (map_unchanged _ _ H). reflexivity.
Qed.

(** The inlining pass returns every program structurally unchanged and
    unflagged, whatever functions it declares and whatever the
    threshold. *)
Theorem function_inliner_changes_nothing statements :
  FunctionInliner.run statements = (statements, false).
Proof.
  unfold FunctionInliner.run, pret. f_equal.
  apply map_unchanged, Forall_forall. intros s _. apply inline_stmt_unchanged.
Qed.

(** ** Passes whose flag can be trusted *)

Section FlagSound.
Context {A B : Type}.

Lemma pbind_snd_false (m : Pass A) (f : A -> Pass B) :
  snd (pbind m f) = false -> snd m = false /\ snd (f (fst m)) = false.
Proof.
  destruct m as [a m1]. simpl. destruct (f a) as [b m2]. simpl.
  apply orb_false_elim.
Qed.

End FlagSound.

Lemma pmap_flag_sound {A} (f : A -> Pass A) (l : list A) :
  Forall (flag_sound f) l -> flag_sound (pmap f) l.
Proof.
  unfold flag_sound. induction 1 as [|x l Hx _ IH]; simpl; [reflexivity|].
  intros H. apply pbind_snd_false in H. destruct H as [H1 H2].
  apply pbind_snd_false in H2. destruct H2 as [H2 _].
  rewrite !pbind_fst. simpl. rewrite (Hx H1) in *. rewrite (IH H2). reflexivity.
Qed.

Lemma pmap_option_flag_sound {A} (f : A -> Pass A) (o : option A) :
  (forall x, o = Some x -> flag_sound f x) -> flag_sound (pmap_option f) o.
Proof.
  unfold flag_sound. destruct o as [x|]; simpl; [|reflexivity].
  intros Hx H. apply pbind_snd_false in H. destruct H as [H1 _].
  rewrite pbind_fst. simpl. rewrite (Hx x eq_refl H1). reflexivity.
Qed.

(** Takes an unflagged sequence apart and rewrites with what is known of
    its steps. *)
Ltac unflagged :=
  repeat match goal with
         | H : snd (pbind _ _) = false |- _ =>
             apply pbind_snd_false in H; destruct H
         end;
  repeat rewrite pbind_fst; simpl;
  repeat match goal with
         | H : snd ?m = false, S : flag_sound _ _ |- _ =>
             rewrite (S H); clear S
         end;
  repeat rewrite pbind_fst; simpl.

Lemma peephole_optimize_expr_sound e :
  flag_sound PeepholeOptimizer.optimize_expr e.
Proof.
  unfold flag_sound, PeepholeOptimizer.optimize_expr.
  destruct (PeepholeOptimizer.optimize_double_negation e); simpl;
    [discriminate|reflexivity].
Qed.

Lemma peephole_optimize_stmt_sound s :
  flag_sound PeepholeOptimizer.optimize_stmt s.
Proof.
  induction s using Stmt_nested_ind; unfold flag_sound; simpl;
    try reflexivity; intros Hflag.
  - pose proof (peephole_optimize_expr_sound e). unflagged. reflexivity.
  - pose proof (peephole_optimize_expr_sound e). unflagged. reflexivity.
  - pose proof (pmap_option_flag_sound PeepholeOptimizer.optimize_expr i
                  (fun x _ => peephole_optimize_expr_sound x)).
    unflagged. reflexivity.
  - pose proof (pmap_flag_sound _ _ H). unflagged. reflexivity.
Qed.

(** When the peephole pass reports no modification, the program it
    returns is the program it was given. *)
Theorem peephole_unflagged_is_unchanged statements :
  snd (PeepholeOptimizer.run statements) = false ->
  fst (PeepholeOptimizer.run statements) = statements.
Proof.
  apply (pmap_flag_sound PeepholeOptimizer.optimize_stmt).
  apply Forall_forall. intros s _. apply peephole_optimize_stmt_sound.
Qed.

Lemma peephole_unflagged_witness :
  fst (PeepholeOptimizer.run Samples.program_add) = Samples.program_add.
Proof.
  apply peephole_unflagged_is_unchanged. vm_compute. reflexivity.
Defined.

(** Each reducer raises the flag when it returns a node. *)
Lemma reducers_flag l r op :
  (forall e b, StrengthReducer.reduce_multiplication l r op = (Some e, b) -> b = true) /\
  (forall e b, StrengthReducer.reduce_division l r op = (Some e, b) -> b = true) /\
  (forall e b, StrengthReducer.reduce_modulo l r op = (Some e, b) -> b = true).
Proof.
  unfold StrengthReducer.reduce_multiplication, StrengthReducer.reduce_division,
    StrengthReducer.reduce_modulo.
  repeat split; intros e b; destruct r as [lit t| | | | | | | | | | | ];
    simpl; try discriminate; destruct lit; simpl; try discriminate;
    match goal with |- context [if ?c then _ else _] => destruct c end;
    unfold pbind, set_modified, pret; simpl; congruence.
Qed.

Lemma reduce_expr_sound e : flag_sound StrengthReducer.reduce_expr e.
Proof.
  induction e; unfold flag_sound; simpl; try reflexivity; intros Hflag.
  - unflagged. reflexivity.
  - apply pbind_snd_false in Hflag. destruct Hflag as [H1 H2].
    apply pbind_snd_false in H2. destruct H2 as [H2 H3].
    apply pbind_snd_false in H3. destruct H3 as [H3 _].
    rewrite !pbind_fst. revert H3.
    rewrite (IHe1 H1), (IHe2 H2).
    destruct (reducers_flag e1 e2 op) as (Hm & Hd & Ho).
    destruct (type op); simpl; try reflexivity; intros H3;
      match goal with
      | |- context [fst ?m] => destruct m as [[reduced|] b] eqn:E
      end; simpl in *; try reflexivity; exfalso; subst b;
      [discriminate (Hm _ _ eq_refl)|discriminate (Hd _ _ eq_refl)
      |discriminate (Ho _ _ eq_refl)].
  - unflagged. reflexivity.
Qed.

Lemma reduce_stmt_sound s : flag_sound StrengthReducer.reduce_stmt s.
Proof.
  pose proof reduce_expr_sound as He.
  pose proof (fun o => pmap_option_flag_sound StrengthReducer.reduce_expr o
                         (fun x _ => reduce_expr_sound x)) as Ho.
  induction s using Stmt_nested_ind; unfold flag_sound; simpl;
    try reflexivity; intros Hflag.
  - specialize (He e). unflagged. reflexivity.
  - specialize (He e). unflagged. reflexivity.
  - specialize (Ho i). unflagged. reflexivity.
  - pose proof (pmap_flag_sound _ _ H). unflagged. reflexivity.
  - specialize (He c).
    pose proof (pmap_option_flag_sound StrengthReducer.reduce_stmt e H) as Hels.
    unflagged. reflexivity.
  - specialize (He c). unflagged. reflexivity.
  - pose proof (pmap_flag_sound _ _ H). unflagged. reflexivity.
  - specialize (Ho v). unflagged. reflexivity.
Qed.

(** When the strength-reduction pass reports no modification, the program
    it returns is the program it was given. *)
Theorem strength_reducer_unflagged_is_unchanged statements :
  snd (StrengthReducer.run statements) = false ->
  fst (StrengthReducer.run statements) = statements.
Proof.
  apply (pmap_flag_sound StrengthReducer.reduce_stmt).
  apply Forall_forall. intros s _. apply reduce_stmt_sound.
Qed.

Lemma strength_reducer_unflagged_witness :
  fst (StrengthReducer.run Samples.program_add) = Samples.program_add.
Proof.
  apply strength_reducer_unflagged_is_unchanged. vm_compute. reflexivity.
Defined.

(** ** The constant folder is idempotent *)

Ltac pass_steps := repeat first [rewrite pbind_fst | progress (cbn [fst pret])].

Lemma is_literal_inv x : is_literal x = true -> exists v t, x = Literal v t.
Proof. destruct x; try discriminate. eauto. Qed.

Lemma folded_unary_other op r :
  is_literal (folded_expr r) = false ->
  folded_expr (Unary op r) = Unary op (folded_expr r).
Proof.
  unfold folded_expr. cbn [ConstantFolder.fold_expr]. pass_steps.
  destruct (fst (ConstantFolder.fold_expr r)); try discriminate; reflexivity.
Qed.

Lemma folded_binary_other l op r :
  foldable (folded_expr l) (folded_expr r) = false ->
  folded_expr (Binary l op r) = Binary (folded_expr l) op (folded_expr r).
Proof.
  unfold folded_expr. cbn [ConstantFolder.fold_expr]. pass_steps.
  destruct (fst (ConstantFolder.fold_expr l)) as [[] ?| | | | | | | | | | |];
    try reflexivity;
    destruct (fst (ConstantFolder.fold_expr r)) as [[] ?| | | | | | | | | | |];
    try reflexivity; discriminate.
Qed.

Lemma folded_logical_other l op r :
  is_literal (folded_expr l) = false ->
  folded_expr (Logical l op r) = Logical (folded_expr l) op (folded_expr r).
Proof.
  unfold folded_expr. cbn [ConstantFolder.fold_expr]. pass_steps.
  destruct (fst (ConstantFolder.fold_expr l)); try discriminate; reflexivity.
Qed.

Lemma fold_expr_idempotent e : folded_expr (folded_expr e) = folded_expr e.
Proof.
  induction e using Expr_nested_ind.
  - reflexivity.
  - reflexivity.
  - unfold folded_expr in *. cbn [ConstantFolder.fold_expr]. pass_steps.
    cbn [fst pret ConstantFolder.fold_expr]. pass_steps.
    rewrite IHe. reflexivity.
  - destruct (foldable (folded_expr e1) (folded_expr e2)) eqn:Hf.
    + unfold folded_expr in *. cbn [ConstantFolder.fold_expr]. pass_steps.
      destruct (fst (ConstantFolder.fold_expr e1)) as [[] ?| | | | | | | | | | |];
        try discriminate Hf;
        destruct (fst (ConstantFolder.fold_expr e2)) as [[] ?| | | | | | | | | | |];
        try discriminate Hf; pass_steps.
      * match goal with
        | |- context [ConstantFolder.fold_numeric ?o ?a ?b] =>
            destruct (ConstantFolder.fold_numeric o a b) eqn:Hn
        end; [reflexivity|]. simpl. rewrite Hn. reflexivity.
      * match goal with
        | |- context [ConstantFolder.fold_boolean ?o ?a ?b] =>
            destruct (ConstantFolder.fold_boolean o a b) eqn:Hn
        end; [reflexivity|]. simpl. rewrite Hn. reflexivity.
    + rewrite (folded_binary_other _ _ _ Hf).
      rewrite folded_binary_other; rewrite IHe1, IHe2; [reflexivity|exact Hf].
  - destruct (is_literal (folded_expr e)) eqn:Hl.
    + apply is_literal_inv in Hl. destruct Hl as (v & t & Hl).
      unfold folded_expr in *. cbn [ConstantFolder.fold_expr]. pass_steps.
      rewrite Hl. pass_steps.
      destruct (type op) eqn:Ht; destruct v; simpl; rewrite ?Ht; reflexivity.
    + rewrite (folded_unary_other _ _ Hl).
      rewrite folded_unary_other; rewrite IHe; [reflexivity|exact Hl].
  - destruct (is_literal (folded_expr e1)) eqn:Hl.
    + apply is_literal_inv in Hl. destruct Hl as (v & t & Hl).
      unfold folded_expr in *. cbn [ConstantFolder.fold_expr]. pass_steps.
      rewrite Hl.
      destruct (type op) eqn:Ht; pass_steps;
        try (cbn [fst pret ConstantFolder.fold_expr]; pass_steps;
             rewrite Ht, IHe2; reflexivity);
        cbn [fst pret];
        match goal with |- context [if ?c then _ else _] => destruct c end;
        solve [reflexivity | exact IHe2].
    + rewrite (folded_logical_other _ _ _ Hl).
      rewrite folded_logical_other; rewrite ?IHe1, ?IHe2; [reflexivity|exact Hl].
  - unfold folded_expr in *. cbn [ConstantFolder.fold_expr]. pass_steps.
    cbn [fst pret ConstantFolder.fold_expr]. pass_steps. cbn [fst pret].
    rewrite !pmap_fst, List.map_map. f_equal.
    apply map_ext_Forall. exact H.
  - exact IHe.
  - unfold folded_expr in *. cbn [ConstantFolder.fold_expr]. pass_steps.
    cbn [fst pret ConstantFolder.fold_expr]. pass_steps. cbn [fst pret].
    rewrite !pmap_fst, List.map_map. f_equal.
    apply map_ext_Forall. exact H.
  - unfold folded_expr in *. cbn [ConstantFolder.fold_expr]. pass_steps.
    cbn [fst pret ConstantFolder.fold_expr]. pass_steps.
    rewrite IHe1, IHe2. reflexivity.
  - unfold folded_expr in *. cbn [ConstantFolder.fold_expr]. pass_steps.
    cbn [fst pret ConstantFolder.fold_expr]. pass_steps.
    rewrite IHe1, IHe2, IHe3. reflexivity.
  - unfold folded_expr in *. cbn [ConstantFolder.fold_expr]. pass_steps.
    cbn [fst pret ConstantFolder.fold_expr]. pass_steps. cbn [fst pret].
    rewrite !pmap_fst, List.map_map. f_equal.
    apply map_ext_Forall. eapply Forall_impl; [exact H|].
    intros [k v] [Hk Hv]. pass_steps. cbn [fst snd pret] in *. pass_steps.
    cbn [fst pret]. rewrite Hk, Hv. reflexivity.
Qed.

Lemma pmap_option_fst {A B} (f : A -> Pass B) (o : option A) :
  fst (pmap_option f o) = option_map (fun x => fst (f x)) o.
Proof. destruct o; simpl; [rewrite pbind_fst|]; reflexivity. Qed.

Lemma keep_non_null_folded (l : list Stmt) :
  Forall (fun s => folded_stmt (folded_stmt s) = folded_stmt s) l ->
  keep_non_null (List.map folded_stmt (keep_non_null (List.map folded_stmt l))) =
  keep_non_null (List.map folded_stmt l).
Proof.
  induction 1 as [|s l Hs _ IH]; [reflexivity|].
  cbn [List.map keep_non_null List.filter].
  destruct (non_null (folded_stmt s)) eqn:Hn; [|exact IH].
  cbn [List.map keep_non_null List.filter]. rewrite Hs, Hn.
  f_equal. exact IH.
Qed.

Lemma folded_if_other c t e kw :
  is_literal (folded_expr c) = false ->
  folded_stmt (IfStmt c t e kw) =
  IfStmt (folded_expr c) (folded_stmt t) (option_map folded_stmt e) kw.
Proof.
  unfold folded_stmt, folded_expr. cbn [ConstantFolder.fold_stmt]. pass_steps.
  destruct (fst (ConstantFolder.fold_expr c)); try discriminate;
    intros _; pass_steps; rewrite pmap_option_fst; reflexivity.
Qed.

Lemma folded_while_other c b kw :
  is_literal (folded_expr c) = false ->
  folded_stmt (WhileStmt c b kw) = WhileStmt (folded_expr c) (folded_stmt b) kw.
Proof.
  unfold folded_stmt, folded_expr. cbn [ConstantFolder.fold_stmt]. pass_steps.
  destruct (fst (ConstantFolder.fold_expr c)); try discriminate;
    intros _; pass_steps; reflexivity.
Qed.

Lemma option_map_folded {A} (f : A -> A) (o : option A) :
  (forall x, o = Some x -> f (f x) = f x) ->
  option_map f (option_map f o) = option_map f o.
Proof. destruct o; simpl; [|reflexivity]. intros H. rewrite H; reflexivity. Qed.

Lemma fold_stmt_idempotent s : folded_stmt (folded_stmt s) = folded_stmt s.
Proof.
  pose proof fold_expr_idempotent as He. unfold folded_expr in He.
  induction s using Stmt_nested_ind; try reflexivity.
  - unfold folded_stmt. cbn [ConstantFolder.fold_stmt]. pass_steps.
    cbn [fst pret ConstantFolder.fold_stmt]. pass_steps. rewrite He. reflexivity.
  - unfold folded_stmt. cbn [ConstantFolder.fold_stmt]. pass_steps.
    cbn [fst pret ConstantFolder.fold_stmt]. pass_steps. rewrite He. reflexivity.
  - unfold folded_stmt. cbn [ConstantFolder.fold_stmt]. pass_steps.
    cbn [fst pret ConstantFolder.fold_stmt]. pass_steps. cbn [fst pret].
    rewrite !pmap_option_fst. rewrite option_map_folded; [reflexivity|].
    intros x _. apply He.
  - unfold folded_stmt. cbn [ConstantFolder.fold_stmt]. pass_steps.
    cbn [fst pret ConstantFolder.fold_stmt]. pass_steps. cbn [fst pret].
    rewrite !pmap_fst. fold folded_stmt.
    rewrite (keep_non_null_folded _ H). reflexivity.
  - destruct (is_literal (folded_expr c)) eqn:Hl.
    + apply is_literal_inv in Hl. destruct Hl as (v & t & Hl).
      unfold folded_stmt, folded_expr in *. cbn [ConstantFolder.fold_stmt].
      pass_steps. rewrite Hl. pass_steps.
      destruct (ConstantFolder.cond_val v); [exact IHs|].
      destruct e as [els|]; [exact (H _ eq_refl)|reflexivity].
    + rewrite (folded_if_other _ _ _ _ Hl).
      rewrite folded_if_other; rewrite ?fold_expr_idempotent; [|exact Hl].
      rewrite IHs, (option_map_folded folded_stmt e H). reflexivity.
  - destruct (is_literal (folded_expr c)) eqn:Hl.
    + apply is_literal_inv in Hl. destruct Hl as (v & t & Hl).
      unfold folded_stmt, folded_expr in *. cbn [ConstantFolder.fold_stmt].
      pass_steps. rewrite Hl.
      destruct (ConstantFolder.cond_val v) eqn:Hv; cbn [negb]; pass_steps;
        [|reflexivity].
      cbn [fst pret ConstantFolder.fold_stmt ConstantFolder.fold_expr].
      pass_steps. rewrite Hv. cbn [negb]. pass_steps. cbn [fst pret].
      rewrite IHs. reflexivity.
    + rewrite (folded_while_other _ _ _ Hl).
      rewrite folded_while_other; rewrite ?fold_expr_idempotent; [|exact Hl].
      rewrite IHs. reflexivity.
  - unfold folded_stmt. cbn [ConstantFolder.fold_stmt]. pass_steps.
    cbn [fst pret ConstantFolder.fold_stmt]. pass_steps. cbn [fst pret].
    rewrite !pmap_fst. fold folded_stmt.
    rewrite (keep_non_null_folded _ H). reflexivity.
  - unfold folded_stmt. cbn [ConstantFolder.fold_stmt]. pass_steps.
    cbn [fst pret ConstantFolder.fold_stmt]. pass_steps. cbn [fst pret].
    rewrite !pmap_option_fst. rewrite option_map_folded; [reflexivity|].
    intros x _. apply He.
  - unfold folded_stmt. cbn [ConstantFolder.fold_stmt]. pass_steps.
    cbn [fst pret ConstantFolder.fold_stmt]. pass_steps. cbn [fst pret].
    rewrite He. rewrite !pmap_fst, List.map_map, !pmap_option_fst.
    f_equal.
    + apply map_ext_Forall. eapply Forall_impl; [exact H|].
      intros [v ss] Hss. cbn [case_statements] in Hss. pass_steps. cbn [fst pret]. pass_steps.
      cbn [fst pret]. rewrite He, !pmap_fst. fold folded_stmt.
      rewrite (keep_non_null_folded _ Hss). reflexivity.
    + apply option_map_folded. intros ss Hd. pass_steps. cbn [fst pret].
      rewrite !pmap_fst. fold folded_stmt.
      rewrite (keep_non_null_folded _ (H0 _ Hd)). reflexivity.
Qed.

(** Constant folding is idempotent: folding an already folded program
    returns that program.  (The flag may be raised again: a unary node over
    a literal of the wrong kind is rebuilt, and flagged, on every run.) *)
Theorem constant_folder_idempotent statements :
  fst (ConstantFolder.run (fst (ConstantFolder.run statements))) =
  fst (ConstantFolder.run statements).
Proof.
  unfold ConstantFolder.run. pass_steps. cbn [fst pret].
  rewrite !pmap_fst. fold folded_stmt.
  apply keep_non_null_folded. apply Forall_forall. intros s _.
  apply fold_stmt_idempotent.
Qed.

(** ** Powers of two in the strength reducer *)

Lemma log2_int_loop_log2 (rounds : nat) :
  forall n result, n < 2 ^ Z.of_nat rounds ->
  StrengthReducer.log2_int_loop rounds n result = result + Z.log2 n.
Proof.
  induction rounds as [|k IH]; intros n result Hn.
  - simpl in *. rewrite Z.log2_nonpos by lia. lia.
  - cbn [StrengthReducer.log2_int_loop].
    destruct (1 <? n) eqn:H1.
    + apply Z.ltb_lt in H1.
      rewrite IH.
      * rewrite Z.log2_shiftr by lia.
        assert (1 <= Z.log2 n) by (apply Z.log2_le_pow2; simpl; lia).
        lia.
      * rewrite Z.shiftr_div_pow2 by lia.
        apply Z.div_lt_upper_bound; [lia|].
        rewrite Nat2Z.inj_succ, Z.pow_succ_r in Hn by lia.
        change (2 ^ 1) with 2. lia.
    + apply Z.ltb_ge in H1.
      assert (n <= 0 \/ n = 1) as [H|H] by lia.
      * rewrite Z.log2_nonpos by lia. lia.
      * subst n. simpl. lia.
Qed.

(** [log2_int] is the integer logarithm: on every [int] it returns the
    floor of the base-2 logarithm, and 0 on an argument below 1. *)
Theorem log2_int_is_floor_log2 (n : Z) :
  n <= Double.INT_MAX -> StrengthReducer.log2_int n = Z.log2 n.
Proof.
  intros Hn. unfold StrengthReducer.log2_int.
  rewrite log2_int_loop_log2; [lia|].
  unfold Double.INT_MAX in Hn. simpl. lia.
Qed.

Lemma log2_int_is_floor_log2_witness :
  StrengthReducer.log2_int 1000 = Z.log2 1000.
Proof.
  apply log2_int_is_floor_log2. unfold Double.INT_MAX. lia.
Defined.

(** [n & (n - 1) == 0] on a positive [n] leaves a single bit. *)
Lemma single_bit (val : Z) :
  0 < val -> Z.land val (val - 1) = 0 -> val = 2 ^ Z.log2 val.
Proof.
  intros Hpos Hland.
  destruct (Z.log2_spec val Hpos) as [Hlo Hhi].
  destruct (Z.eq_dec val (2 ^ Z.log2 val)) as [|Hne]; [assumption|exfalso].
  assert (Hk : 0 <= Z.log2 val) by apply Z.log2_nonneg.
  assert (Hlog : Z.log2 (val - 1) = Z.log2 val).
  { apply Z.log2_unique; [exact Hk|]. lia. }
  assert (H1 : Z.testbit val (Z.log2 val) = true) by (apply Z.bit_log2; lia).
  assert (H2 : Z.testbit (val - 1) (Z.log2 val) = true).
  { rewrite <- Hlog. apply Z.bit_log2. lia. }
  assert (H3 : Z.testbit (Z.land val (val - 1)) (Z.log2 val) = true).
  { rewrite Z.land_spec, H1, H2. reflexivity. }
  rewrite Hland, Z.bits_0 in H3. discriminate.
Qed.

Lemma static_cast_int_range (x : float) :
  Double.INT_MIN <= Double.static_cast_int x <= Double.INT_MAX.
Proof.
  unfold Double.static_cast_int.
  destruct (Prim2SF x); try (unfold Double.INT_MIN, Double.INT_MAX; lia).
  match goal with |- context [if ?c then _ else _] => destruct c eqn:Hc end;
    [|unfold Double.INT_MIN, Double.INT_MAX; lia].
  apply andb_true_iff in Hc. destruct Hc as [H1 H2].
  apply Z.leb_le in H1, H2. lia.
Qed.

(** A number accepted by [is_power_of_two] has a positive integer value. *)
Lemma is_power_of_two_positive (n : float) :
  StrengthReducer.is_power_of_two n = true -> 0 < Double.static_cast_int n.
Proof.
  unfold StrengthReducer.is_power_of_two.
  destruct (Double.le n 0 || _) eqn:Hchk; [discriminate|]. intros _.
  apply orb_false_elim in Hchk. destruct Hchk as [Hle Hne].
  unfold Double.le in Hle. unfold Double.ne in Hne.
  apply negb_false_iff in Hne.
  rewrite FloatAxioms.leb_spec in Hle. rewrite FloatAxioms.eqb_spec in Hne.
  revert Hne. unfold Double.static_cast_int.
  change (Prim2SF 0) with (S754_zero false) in Hle.
  destruct (Prim2SF n) as [s|s| |s m e] eqn:E.
  - discriminate Hle.
  - destruct s; [discriminate Hle|]. vm_compute. discriminate.
  - discriminate.
  - destruct s; [discriminate Hle|].
    set (a := if 0 <=? e then Z.pos m * 2 ^ e else Z.pos m / 2 ^ (- e)).
    assert (Ha : 0 <= a).
    { unfold a. destruct (0 <=? e) eqn:He.
      - apply Z.leb_le in He. apply Z.mul_nonneg_nonneg; [lia|].
        apply Z.pow_nonneg. lia.
      - apply Z.leb_gt in He. apply Z.div_pos; [lia|].
        apply Z.pow_pos_nonneg; lia. }
    cbn zeta.
    destruct ((Double.INT_MIN <=? a) && (a <=? Double.INT_MAX)) eqn:Hr.
    + destruct (Z.eq_dec a 0) as [H0|H0]; [|intros _; lia].
      rewrite H0. vm_compute. discriminate.
    + vm_compute. discriminate.
Qed.

(** Whenever [is_power_of_two] accepts a number, [log2_int] returns the
    exact logarithm of its integer value: the shift amount the reducers
    compute satisfies [2 ^ shift_amount = val]. *)
Theorem power_of_two_has_exact_log2 (n : float) :
  StrengthReducer.is_power_of_two n = true ->
  2 ^ StrengthReducer.log2_int (Double.static_cast_int n) =
  Double.static_cast_int n.
Proof.
  intros Hp. pose proof (is_power_of_two_positive n Hp) as Hpos.
  pose proof (static_cast_int_range n) as [_ Hmax].
  unfold StrengthReducer.log2_int.
  rewrite log2_int_loop_log2
    by (unfold Double.INT_MAX in Hmax; simpl; lia).
  rewrite Z.add_0_l.
  symmetry. apply single_bit; [exact Hpos|].
  unfold StrengthReducer.is_power_of_two in Hp.
  destruct (Double.le n 0 || _); [discriminate|].
  apply Z.eqb_eq. exact Hp.
Qed.

Lemma power_of_two_has_exact_log2_witness :
  2 ^ StrengthReducer.log2_int (Double.static_cast_int 8) =
  Double.static_cast_int 8.
Proof.
  apply power_of_two_has_exact_log2. vm_compute. reflexivity.
Defined.

(* ===================================================================== *)
(** * Further properties of the memory-safety analyzer                    *)
(* ===================================================================== *)

(** ** What follows a [free] *)

(** [free(x)] on an allocated [x]: the call returns, and the record of [x]
    is the old one marked [FREED] at the argument's token. *)
Lemma analyze_free_allocated paren x a st :
  allocations st !! lexeme x = Some a ->
  state a = MemoryState.ALLOCATED ->
  exists st',
    Analyzer.analyze_free paren [Variable_ x] st = Done None st' /\
    allocations st' =
      <[lexeme x := set_freed_at x (set_state MemoryState.FREED a)]> (allocations st) /\
    pointers st' =
      fold_left (fun ptrs alias => alter (set_p_state PointerState.DANGLING) alias ptrs)
                (elements (aliases a)) (pointers st).
Proof.
  intros Hx Ha.
  cbv beta iota zeta delta
    [Analyzer.analyze_free abind when get aret modify throw length Nat.eqb negb].
  rewrite Hx, Ha.
  cbv beta iota zeta delta
    [MemoryState.eqb negb Analyzer.update_pointer_states_on_free modify].
  eexists. split; [reflexivity|].
  cbn [allocations with_scopes with_allocations]. rewrite lookup_insert_eq.
  cbn. auto.
Qed.

(** Marking the aliases dangling reaches every alias that is a pointer. *)
Lemma dangling_fold (l : list string) : forall (ptrs : gmap string PointerInfo) q p,
  ptrs !! q = Some p ->
  (In q l \/ p_state p = PointerState.DANGLING) ->
  exists p',
    fold_left (fun ptrs alias => alter (set_p_state PointerState.DANGLING) alias ptrs)
              l ptrs !! q = Some p' /\
    p_state p' = PointerState.DANGLING.
Proof.
  induction l as [|y l IH]; intros ptrs q p Hq Hin; cbn [fold_left].
  - destruct Hin as [[]|Hd]. eauto.
  - destruct (decide (y = q)) as [->|Hne].
    + apply (IH _ q (set_p_state PointerState.DANGLING p)).
      * rewrite lookup_alter_eq, Hq. reflexivity.
      * right. reflexivity.
    + apply (IH _ q p).
      * rewrite lookup_alter_ne by exact Hne. exact Hq.
      * destruct Hin as [[Hy|Hin]|Hd]; [congruence|left; exact Hin|right; exact Hd].
Qed.

Lemma analyze_call_free callee paren args st :
  lexeme callee = "free" ->
  Analyzer.analyze_expr (Call (Variable_ callee) paren args) st =
  Analyzer.analyze_free paren args st.
Proof.
  intros H. cbn [Analyzer.analyze_expr Analyzer.analyze_call_with].
  rewrite H. reflexivity.
Qed.

(** A second [free] of the same variable is reported as a double free that
    names the line of the first one, whatever came before: it is enough
    that the variable was allocated when the first [free] ran. *)
Theorem free_twice_is_double_free fuel st callee1 paren1 x1 callee2 paren2 x2 a :
  lexeme callee1 = "free" -> lexeme callee2 = "free" ->
  lexeme x2 = lexeme x1 ->
  allocations st !! lexeme x1 = Some a ->
  state a = MemoryState.ALLOCATED ->
  exists st',
    for_each (Analyzer.analyze_stmt fuel)
      [ExprStmt (Call (Variable_ callee1) paren1 [Variable_ x1]);
       ExprStmt (Call (Variable_ callee2) paren2 [Variable_ x2])] st =
    Throw (mkMemorySafetyError
             ("Double-free detected: '" +:+ lexeme x1 +:+ "' has already been freed")
             x2
             (Some ("Previously freed at line " +:+ pretty (line x1)))
             "DOUBLE-FREE") st'.
Proof.
  intros Hc1 Hc2 Hx Hlook Ha.
  destruct (analyze_free_allocated paren1 x1 a st Hlook Ha)
    as (st1 & Hrun & Hal & _).
  exists st1. cbn [for_each Analyzer.analyze_stmt].
  unfold abind at 1. unfold abind at 1.
  rewrite (analyze_call_free _ _ _ _ Hc1), Hrun. cbn [aret].
  unfold abind at 1. unfold abind at 1.
  rewrite (analyze_call_free _ _ _ _ Hc2).
  cbv beta iota zeta delta
    [Analyzer.analyze_free abind when get aret modify throw length Nat.eqb negb].
  rewrite Hx, Hal, lookup_insert_eq.
  cbn. reflexivity.
Qed.

Lemma analyze_call_deref callee paren args st :
  lexeme callee = "deref" ->
  Analyzer.analyze_expr (Call (Variable_ callee) paren args) st =
  (Analyzer.analyze_deref paren args ;; aret None)%analyzer st.
Proof.
  intros H. cbn [Analyzer.analyze_expr Analyzer.analyze_call_with].
  rewrite H. cbn. unfold abind. destruct (Analyzer.analyze_deref paren args st);
    reflexivity.
Qed.

(** After a [free], a read and a [deref] of the same variable are
    reported as use after free, with the line of the [free] in the hint. *)
Theorem use_after_free_is_rejected
        fuel st callee1 paren1 x1 x2 a keyword callee2 paren2 :
  lexeme callee1 = "free" -> lexeme callee2 = "deref" ->
  lexeme x2 = lexeme x1 ->
  allocations st !! lexeme x1 = Some a ->
  state a = MemoryState.ALLOCATED ->
  (exists st',
      for_each (Analyzer.analyze_stmt fuel)
        [ExprStmt (Call (Variable_ callee1) paren1 [Variable_ x1]);
         PrintStmt (Variable_ x2) keyword] st =
      Throw (mkMemorySafetyError
               ("Use-after-free: Accessing freed memory '" +:+ lexeme x1 +:+ "'")
               x2
               (Some ("Memory was freed at line " +:+ pretty (line x1)))
               "USE-AFTER-FREE") st') /\
  (exists st',
      for_each (Analyzer.analyze_stmt fuel)
        [ExprStmt (Call (Variable_ callee1) paren1 [Variable_ x1]);
         ExprStmt (Call (Variable_ callee2) paren2 [Variable_ x2])] st =
      Throw (mkMemorySafetyError
               ("Use-after-free: Dereferencing freed pointer '" +:+ lexeme x1 +:+ "'")
               x2
               (Some ("Pointer was freed at line " +:+ pretty (line x1)))
               "USE-AFTER-FREE") st').
Proof.
  intros Hc1 Hc2 Hx Hlook Ha.
  destruct (analyze_free_allocated paren1 x1 a st Hlook Ha)
    as (st1 & Hrun & Hal & _).
  split.
  - exists st1. cbn [for_each Analyzer.analyze_stmt].
    unfold abind at 1. unfold abind at 1.
    rewrite (analyze_call_free _ _ _ _ Hc1), Hrun. cbn [aret].
    unfold abind at 1. unfold abind at 1.
    cbv beta iota zeta delta
      [Analyzer.analyze_expr Analyzer.check_variable_access abind get aret throw].
    rewrite Hx, Hal, lookup_insert_eq. cbn. reflexivity.
  - exists st1. cbn [for_each Analyzer.analyze_stmt].
    unfold abind at 1. unfold abind at 1.
    rewrite (analyze_call_free _ _ _ _ Hc1), Hrun. cbn [aret].
    unfold abind at 1. unfold abind at 1.
    rewrite (analyze_call_deref _ _ _ _ Hc2).
    cbv beta iota zeta delta
      [Analyzer.analyze_deref abind when get aret modify throw length Nat.eqb negb].
    rewrite Hx, Hal, lookup_insert_eq. cbn. reflexivity.
Qed.

(** [var q = addr_of(x);]: the pointer is recorded, and [q] becomes an
    alias of the record of [x]. *)
Lemma analyze_var_stmt_addr_of q callee paren x st :
  lexeme callee = "addr_of" ->
  Analyzer.analyze_var_stmt q (Some (Call (Variable_ callee) paren [Variable_ x])) st =
  Done tt
    (with_allocations
       (with_pointers
          (with_scopes st (back_insert (lexeme q) (current_scope_vars st))
                       (freed_in_scope st))
          (<[lexeme q := mkPointerInfo (lexeme q) q "number" PointerState.VALID
                                       (Some (lexeme x)) 1]> (pointers st)))
       (alter (add_alias (lexeme q)) (lexeme x) (allocations st))).
Proof.
  intros Hc. unfold Analyzer.analyze_var_stmt.
  cbn [Analyzer.analyze_expr Analyzer.analyze_call_with].
  rewrite Hc.
  cbn [String.eqb Ascii.eqb Bool.eqb Analyzer.is_memory_primitive is_allocator
       orb negb when].
  reflexivity.
Qed.

(** A pointer taken with [addr_of] dangles once its target is freed:
    [var q = addr_of(x); free(x); deref(q);] is reported as use after
    free through a dangling pointer, whenever [x] is allocated and [q] is
    not itself the name of an allocation. *)
Theorem alias_of_freed_memory_is_dangling
        fuel st q callee0 paren0 x0 callee1 paren1 x1 callee2 paren2 q2 a :
  lexeme callee0 = "addr_of" -> lexeme callee1 = "free" ->
  lexeme callee2 = "deref" ->
  lexeme x1 = lexeme x0 -> lexeme q2 = lexeme q ->
  allocations st !! lexeme x0 = Some a ->
  state a = MemoryState.ALLOCATED ->
  allocations st !! lexeme q = None ->
  exists st',
    for_each (Analyzer.analyze_stmt fuel)
      [VarStmt q (Some (Call (Variable_ callee0) paren0 [Variable_ x0]));
       ExprStmt (Call (Variable_ callee1) paren1 [Variable_ x1]);
       ExprStmt (Call (Variable_ callee2) paren2 [Variable_ q2])] st =
    Throw (mkMemorySafetyError
             ("Use-after-free: Dereferencing dangling pointer '" +:+ lexeme q +:+ "'")
             q2
             (Some "The memory this pointer refers to has been freed")
             "USE-AFTER-FREE") st'.
Proof.
  intros Hc0 Hc1 Hc2 Hx Hq Hlook Ha Hnone.
  assert (Hne : lexeme x0 <> lexeme q) by congruence.
  cbn [for_each Analyzer.analyze_stmt].
  unfold abind at 1. rewrite (analyze_var_stmt_addr_of _ _ _ _ _ Hc0).
  match goal with
  | |- context [abind _ _ ?s] =>
      destruct (analyze_free_allocated paren1 x1 (add_alias (lexeme q) a) s)
        as (st1 & Hrun & Hal & Hptr);
        [cbn [allocations with_allocations with_pointers with_scopes];
         rewrite Hx, lookup_alter_eq, Hlook; reflexivity
        |exact Ha|];
      destruct (dangling_fold (elements (aliases (add_alias (lexeme q) a)))
                  (pointers s) (lexeme q)
                  (mkPointerInfo (lexeme q) q "number" PointerState.VALID
                                 (Some (lexeme x0)) 1))
        as (p' & Hp' & Hd);
        [cbn [pointers with_allocations with_pointers]; apply lookup_insert_eq
        |left; apply list_elem_of_In, elem_of_elements;
         cbn [aliases add_alias]; set_solver|]
  end.
  rewrite <- Hptr in Hp'.
  exists st1.
  unfold abind at 1. unfold abind at 1.
  rewrite (analyze_call_free _ _ _ _ Hc1), Hrun. cbn [aret].
  unfold abind at 1. unfold abind at 1.
  rewrite (analyze_call_deref _ _ _ _ Hc2).
  cbv beta iota zeta delta
    [Analyzer.analyze_deref abind when get aret modify throw length Nat.eqb negb].
  rewrite Hq, Hal.
  cbn [allocations with_allocations with_pointers with_scopes].
  rewrite Hx, lookup_insert_ne, lookup_alter_ne, Hnone by exact Hne.
  rewrite Hp', Hd. reflexivity.
Qed.

Lemma free_twice_is_double_free_witness :
  exists st',
    for_each (Analyzer.analyze_stmt 1)
      [ExprStmt (call_on "free" 2 "p"); ExprStmt (call_on "free" 3 "p")]
      allocated_p =
    Throw (mkMemorySafetyError
             "Double-free detected: 'p' has already been freed"
             (Token4 IDENTIFIER "p" 3 6)
             (Some "Previously freed at line 2")
             "DOUBLE-FREE") st'.
Proof.
  apply (free_twice_is_double_free 1 allocated_p
           (Token4 IDENTIFIER "free" 2 1) (Token4 RPAREN ")" 2 8)
           (Token4 IDENTIFIER "p" 2 6)
           (Token4 IDENTIFIER "free" 3 1) (Token4 RPAREN ")" 3 8)
           (Token4 IDENTIFIER "p" 3 6)
           (new_AllocationInfo "p" (Token4 IDENTIFIER "p" 1 5)
                               MemoryState.ALLOCATED false));
    reflexivity.
Defined.

Lemma use_after_free_is_rejected_witness :
  (exists st',
      for_each (Analyzer.analyze_stmt 1)
        [ExprStmt (call_on "free" 2 "p");
         PrintStmt (Variable_ (Token4 IDENTIFIER "p" 3 7))
                   (Token4 PRINT "print" 3 1)] allocated_p =
      Throw (mkMemorySafetyError
               "Use-after-free: Accessing freed memory 'p'"
               (Token4 IDENTIFIER "p" 3 7)
               (Some "Memory was freed at line 2")
               "USE-AFTER-FREE") st') /\
  (exists st',
      for_each (Analyzer.analyze_stmt 1)
        [ExprStmt (call_on "free" 2 "p");
         ExprStmt (Call (Variable_ (Token4 IDENTIFIER "deref" 3 1))
                        (Token4 RPAREN ")" 3 9)
                        [Variable_ (Token4 IDENTIFIER "p" 3 7)])] allocated_p =
      Throw (mkMemorySafetyError
               "Use-after-free: Dereferencing freed pointer 'p'"
               (Token4 IDENTIFIER "p" 3 7)
               (Some "Pointer was freed at line 2")
               "USE-AFTER-FREE") st').
Proof.
  apply (use_after_free_is_rejected 1 allocated_p
           (Token4 IDENTIFIER "free" 2 1) (Token4 RPAREN ")" 2 8)
           (Token4 IDENTIFIER "p" 2 6) (Token4 IDENTIFIER "p" 3 7)
           (new_AllocationInfo "p" (Token4 IDENTIFIER "p" 1 5)
                               MemoryState.ALLOCATED false)
           (Token4 PRINT "print" 3 1)
           (Token4 IDENTIFIER "deref" 3 1) (Token4 RPAREN ")" 3 9));
    reflexivity.
Defined.

Lemma alias_of_freed_memory_is_dangling_witness :
  exists st',
    for_each (Analyzer.analyze_stmt 1)
      [VarStmt (Token4 IDENTIFIER "q" 2 5) (Some (call_on "addr_of" 2 "p"));
       ExprStmt (call_on "free" 3 "p");
       ExprStmt (call_on "deref" 4 "q")] allocated_p =
    Throw (mkMemorySafetyError
             "Use-after-free: Dereferencing dangling pointer 'q'"
             (Token4 IDENTIFIER "q" 4 6)
             (Some "The memory this pointer refers to has been freed")
             "USE-AFTER-FREE") st'.
Proof.
  apply (alias_of_freed_memory_is_dangling 1 allocated_p
           (Token4 IDENTIFIER "q" 2 5)
           (Token4 IDENTIFIER "addr_of" 2 1) (Token4 RPAREN ")" 2 8)
           (Token4 IDENTIFIER "p" 2 6)
           (Token4 IDENTIFIER "free" 3 1) (Token4 RPAREN ")" 3 8)
           (Token4 IDENTIFIER "p" 3 6)
           (Token4 IDENTIFIER "deref" 4 1) (Token4 RPAREN ")" 4 8)
           (Token4 IDENTIFIER "q" 4 6)
           (new_AllocationInfo "p" (Token4 IDENTIFIER "p" 1 5)
                               MemoryState.ALLOCATED false));
    reflexivity.
Defined.

(** ** A freed variable stays freed, and reading it is an error *)

Section Freed.
Variable x : string.

(** [m] keeps [x] freed / never returns once [x] is freed. *)
Local Abbreviation kept m :=
  (triple (freed x) m (fun _ => freed x) (fun _ _ => True) True).
Local Abbreviation rejects m :=
  (triple (freed x) m (fun _ _ => False) (fun _ _ => True) True).

Lemma rejects_abind_l {A B} (m : M A) (f : A -> M B) :
  rejects m -> rejects (abind m f).
Proof.
  intros H. eapply triple_abind; [exact H|]. intros a st [].
Qed.

Lemma rejects_abind_r {A B} (m : M A) (f : A -> M B) :
  kept m -> (forall a, rejects (f a)) -> rejects (abind m f).
Proof. intros Hm Hf. eapply triple_abind; [exact Hm|exact Hf]. Qed.

Lemma rejects_for_each {A} (body : A -> M unit) (l : list A) :
  (forall y, In y l -> kept (body y)) ->
  (exists y, In y l /\ rejects (body y)) ->
  rejects (for_each body l).
Proof.
  induction l as [|y l IH]; intros Hk (z & Hz & Hr); [destruct Hz|].
  cbn [for_each]. destruct Hz as [->|Hz].
  - apply rejects_abind_l. exact Hr.
  - apply rejects_abind_r; [apply Hk; left; reflexivity|].
    intros _. apply IH; [intros; apply Hk; right; assumption|eauto].
Qed.

Lemma freed_frame (st st' : MemorySafetyAnalyzer) :
  allocations st' = allocations st -> freed x st -> freed x st'.
Proof. unfold freed. intros ->. auto. Qed.

Ltac keep_step :=
  match goal with
  | |- triple _ (abind get _) _ _ _ => apply triple_read; intros ? ?
  | |- triple _ (abind _ _) _ _ _ => apply triple_step; [|intros ?]
  | |- triple _ (aret _) _ _ _ => apply triple_aret; auto
  | |- triple _ (throw _) _ _ _ => apply triple_throw; auto
  | |- triple _ (when _ _) _ _ _ => apply triple_when
  | |- triple _ (for_each _ _) _ _ _ => apply triple_for_each; intros ? ?
  | |- triple _ (push_warning _) _ _ _ =>
      apply triple_modify; intros ? ?; cbn beta;
      eapply freed_frame; [|eassumption]; reflexivity
  | |- triple _ (match ?c with _ => _ end) _ _ _ => destruct c
  end.
Ltac keep := repeat keep_step.

Lemma kept_check_variable_access n : kept (Analyzer.check_variable_access n).
Proof. unfold Analyzer.check_variable_access. keep. Qed.

Lemma kept_analyze_deref p args : kept (Analyzer.analyze_deref p args).
Proof. unfold Analyzer.analyze_deref. keep. Qed.

Lemma kept_analyze_free p args : kept (Analyzer.analyze_free p args).
Proof.
  unfold Analyzer.analyze_free. keep.
  - apply triple_modify. intros st (b & Hl & Hs). unfold freed.
    cbn [allocations with_scopes with_allocations].
    destruct (decide (lexeme name = x)) as [->|Hne].
    + rewrite lookup_insert_eq. eexists. split; [reflexivity|reflexivity].
    + rewrite lookup_insert_ne by exact Hne. eauto.
  - unfold Analyzer.update_pointer_states_on_free.
    apply triple_modify. intros st Hst. apply (freed_frame st); [|exact Hst].
    destruct (allocations st !! lexeme name); reflexivity.
Qed.

Lemma kept_analyze_expr e : kept (Analyzer.analyze_expr e).
Proof.
  induction e using Expr_nested_ind; cbn [Analyzer.analyze_expr];
    try solve [keep; auto].
  - apply kept_check_variable_access.
  - unfold Analyzer.analyze_call_with. destruct e; try solve [keep].
    destruct (String.eqb (lexeme name) "free"); [apply kept_analyze_free|].
    keep; try apply kept_analyze_deref.
    rewrite Forall_forall in H. apply H.
    apply list_elem_of_In. assumption.
  - keep. rewrite Forall_forall in H. apply H.
    apply list_elem_of_In. assumption.
Qed.

Lemma rejects_read n : lexeme n = x -> rejects (Analyzer.check_variable_access n).
Proof.
  intros Hn st (a & Hl & Hs).
  cbv beta iota zeta delta [Analyzer.check_variable_access abind get aret throw].
  rewrite Hn, Hl, Hs. exact I.
Qed.

Lemma rejects_deref p n : lexeme n = x -> rejects (Analyzer.analyze_deref p [Variable_ n]).
Proof.
  intros Hn st (a & Hl & Hs).
  cbv beta iota zeta delta
    [Analyzer.analyze_deref abind when get aret throw length Nat.eqb negb].
  rewrite Hn, Hl, Hs. exact I.
Qed.

Lemma existsb_In {A} (f : A -> bool) (l : list A) :
  existsb f l = true -> exists y, In y l /\ f y = true.
Proof. intros H. apply existsb_exists in H. exact H. Qed.

Lemma rejects_analyze_expr e :
  reads x e = true -> rejects (Analyzer.analyze_expr e).
Proof.
  induction e using Expr_nested_ind; cbn [reads Analyzer.analyze_expr];
    try discriminate; intros Hr.
  - apply rejects_read. apply String.eqb_eq. exact Hr.
  - apply triple_read. intros s _.
    apply rejects_abind_r; [keep|]. intros _.
    apply rejects_abind_l. auto.
  - destruct (reads x e1) eqn:H1.
    + apply rejects_abind_l. auto.
    + apply rejects_abind_r; [apply kept_analyze_expr|]. intros _.
      apply rejects_abind_l. auto.
  - apply rejects_abind_l. auto.
  - destruct (reads x e1) eqn:H1.
    + apply rejects_abind_l. auto.
    + apply rejects_abind_r; [apply kept_analyze_expr|]. intros _.
      apply rejects_abind_l. auto.
  - destruct e; try discriminate Hr. cbn [Analyzer.analyze_call_with].
    destruct (String.eqb (lexeme name) "deref") eqn:Hd.
    + apply String.eqb_eq in Hd. rewrite Hd. cbn [String.eqb Ascii.eqb Bool.eqb].
      destruct args as [|[] [|]]; try discriminate Hr.
      apply rejects_abind_l. cbn [when]. apply rejects_deref.
      apply String.eqb_eq. exact Hr.
    + destruct (Analyzer.is_memory_primitive (lexeme name)) eqn:Hp;
        [discriminate Hr|].
      assert (Hf : String.eqb (lexeme name) "free" = false).
      { unfold Analyzer.is_memory_primitive in Hp.
        destruct (String.eqb (lexeme name) "free"); [discriminate Hp|reflexivity]. }
      rewrite Hf. cbn [when negb].
      apply rejects_abind_r; [keep|]. intros _.
      apply rejects_abind_l.
      apply existsb_In in Hr. destruct Hr as (y & Hy & Hry).
      rewrite Forall_forall in H.
      apply rejects_for_each.
      * intros z _. keep. apply kept_analyze_expr.
      * exists y. split; [exact Hy|]. apply rejects_abind_l.
        apply H; [apply list_elem_of_In; exact Hy|exact Hry].
  - auto.
  - apply rejects_abind_l.
    apply existsb_In in Hr. destruct Hr as (y & Hy & Hry).
    rewrite Forall_forall in H.
    apply rejects_for_each.
    + intros z _. keep. apply kept_analyze_expr.
    + exists y. split; [exact Hy|]. apply rejects_abind_l.
      apply H; [apply list_elem_of_In; exact Hy|exact Hry].
  - destruct (reads x e1) eqn:H1.
    + apply rejects_abind_l. auto.
    + apply rejects_abind_r; [apply kept_analyze_expr|]. intros _.
      apply rejects_abind_l. auto.
  - destruct (reads x e1) eqn:H1; [apply rejects_abind_l; auto|].
    apply rejects_abind_r; [apply kept_analyze_expr|]. intros _.
    destruct (reads x e2) eqn:H2; [apply rejects_abind_l; auto|].
    apply rejects_abind_r; [apply kept_analyze_expr|]. intros _.
    apply rejects_abind_l. auto.
Qed.

End Freed.

(** The analyzer never accepts an expression that reads a freed variable:
    whatever the expression does before it reaches the read, the analysis
    ends in an exception. *)
Theorem read_of_freed_variable_is_rejected x e st a :
  allocations st !! x = Some a ->
  state a = MemoryState.FREED ->
  reads x e = true ->
  exists err st', Analyzer.analyze_expr e st = Throw err st'.
Proof.
  intros Hl Hs Hr.
  pose proof (rejects_analyze_expr x e Hr st (ex_intro _ a (conj Hl Hs))) as H.
  pose proof (halts_analyze_expr e st) as Hh.
  destruct (Analyzer.analyze_expr e st) as [r st'|err st'|];
    [destruct H|eauto|congruence].
Qed.

Lemma read_of_freed_variable_witness :
  exists err st',
    Analyzer.analyze_expr
      (Binary (Literal (LDouble 1) (Token4 NUMBER "1" 3 7))
              (Token4 PLUS "+" 3 9)
              (Call (Variable_ (Token4 IDENTIFIER "f" 3 11)) (Token4 RPAREN ")" 3 14)
                    [Variable_ (Token4 IDENTIFIER "p" 3 13)]))
      freed_p = Throw err st'.
Proof.
  apply (read_of_freed_variable_is_rejected "p" _ freed_p
           (set_freed_at (Token4 IDENTIFIER "p" 2 6)
              (new_AllocationInfo "p" (Token4 IDENTIFIER "p" 1 5)
                                  MemoryState.FREED false)));
    reflexivity.
Defined.

(** ** Strict mode around an [unsafe] block *)

Section StrictMode.

Local Abbreviation same_mode := (preserves strict_mode).

Ltac members :=
  unfold Analyzer.enter_scope, Analyzer.exit_scope,
    Analyzer.check_variable_access, Analyzer.update_pointer_states_on_free,
    Analyzer.analyze_free, Analyzer.analyze_deref, Analyzer.analyze_var_stmt,
    Analyzer.check_function_memory_leaks, Analyzer.connect_cfg_nodes,
    Analyzer.update_node, Analyzer.propagate_allocations,
    Analyzer.detect_memory_access_patterns, Analyzer.analyze_path_memory_safety,
    Analyzer.revert_then_only, Analyzer.perform_dataflow_analysis,
    Analyzer.analyze_call_with.

Ltac mode_step :=
  match goal with
  | |- preserves _ (Analyzer.create_cfg_node _) => intros ?; reflexivity
  | |- preserves _ _ => progress members
  | |- _ = _ =>
      repeat match goal with
             | |- context [match ?c with _ => _ end] => destruct c
             end; reflexivity
  | _ => frame_step
  end.
Ltac mode := members; repeat mode_step; auto.

Lemma mode_analyze_expr e : same_mode (Analyzer.analyze_expr e).
Proof.
  induction e using Expr_nested_ind; cbn [Analyzer.analyze_expr];
    try solve [mode].
  - mode. rewrite Forall_forall in H. apply H. apply list_elem_of_In. assumption.
  - mode. rewrite Forall_forall in H. apply H. apply list_elem_of_In. assumption.
Qed.

Lemma mode_build_cfg_block_with rec ss exit :
  (forall s, In s ss -> forall x, same_mode (rec s x)) ->
  same_mode (Analyzer.build_cfg_block_with rec ss exit).
Proof.
  intros H. unfold Analyzer.build_cfg_block_with.
  match goal with
  | |- context [abind (?go ss None None) ?k] =>
      assert (G : forall l first prev,
                 (forall s, In s l -> forall x, same_mode (rec s x)) ->
                 same_mode (go l first prev));
        [|destruct ss as [|s0 ss0]; [apply preserves_aret|];
          apply (preserves_abind strict_mode (go (s0 :: ss0) None None) k);
          [exact (G _ None None H)|]]
  end.
  - induction l as [|s l IH]; intros first prev Hl.
    + apply preserves_aret.
    + apply preserves_abind; [apply Hl; left; reflexivity|].
      intros n. apply preserves_abind.
      * destruct prev, n; mode.
      * intros _. apply IH. intros s' Hs'. apply Hl. right. exact Hs'.
  - intros [first prev]. mode.
Qed.

Lemma mode_build_cfg_stmt s : forall x, same_mode (Analyzer.build_cfg_stmt s x).
Proof.
  induction s using Stmt_nested_ind; intros x; cbn [Analyzer.build_cfg_stmt];
    try solve [mode].
  apply mode_build_cfg_block_with. intros s Hs.
  rewrite Forall_forall in H. apply H. apply list_elem_of_In. exact Hs.
Qed.

Lemma mode_dataflow_loop fuel : forall wl inw,
  same_mode (Analyzer.dataflow_loop fuel wl inw).
Proof.
  induction fuel as [|fuel IH]; intros wl inw; destruct wl as [|n rest];
    cbn [Analyzer.dataflow_loop];
    try apply preserves_aret; try apply preserves_out_of_fuel.
  apply preserves_abind; [apply preserves_get|]. intros st.
  apply preserves_abind; [mode|]. intros _.
  apply preserves_abind; [mode|]. intros _.
  apply preserves_abind; [apply preserves_get|]. intros st'.
  destruct (negb _); [destruct (Analyzer.enqueue _ _ _ _)|]; apply IH.
Qed.

Lemma mode_perform_interprocedural_analysis fuel n b :
  same_mode (Analyzer.perform_interprocedural_analysis fuel n b).
Proof.
  unfold Analyzer.perform_interprocedural_analysis, Analyzer.build_cfg_block.
  mode; try apply mode_dataflow_loop.
  apply mode_build_cfg_block_with. intros. apply mode_build_cfg_stmt.
Qed.

(** In strict mode [b]: [m] returns in mode [b]. *)
Local Abbreviation back_in b m :=
  (triple (fun st => strict_mode st = b) m (fun _ st => strict_mode st = b)
          (fun _ _ => True) True).

Lemma same_mode_back_in {A} (m : M A) b : same_mode m -> back_in b m.
Proof.
  intros H st Hst. specialize (H st). destruct (m st); auto. congruence.
Qed.

Ltac back_step :=
  match goal with
  | |- triple _ (abind get _) _ _ _ => apply triple_read; intros ? ?
  | |- triple _ (abind _ _) _ _ _ => apply triple_step; [|intros ?]
  | |- triple _ (aret _) _ _ _ => apply triple_aret; auto
  | |- triple _ (for_each _ _) _ _ _ => apply triple_for_each; intros ? ?
  | |- triple _ (Analyzer.analyze_expr _) _ _ _ =>
      apply same_mode_back_in, mode_analyze_expr
  | |- triple _ (Analyzer.perform_interprocedural_analysis _ _ _) _ _ _ =>
      apply same_mode_back_in, mode_perform_interprocedural_analysis
  | |- triple _ (modify _) _ _ _ => apply triple_modify; intros ? ?; assumption
  | |- triple _ (match ?c with _ => _ end) _ _ _ => destruct c
  | |- triple _ _ _ _ _ => apply same_mode_back_in; solve [mode]
  end.
Ltac back_again := repeat back_step.

Lemma back_in_analyze_stmt fuel s : forall b, back_in b (Analyzer.analyze_stmt fuel s).
Proof.
  induction s using Stmt_nested_ind; intros strict; cbn [Analyzer.analyze_stmt];
    try solve [back_again].
  - (* VarStmt *)
    apply same_mode_back_in. mode; apply mode_analyze_expr.
  - (* Block *)
    back_again. rewrite Forall_forall in H. apply H.
    apply list_elem_of_In. assumption.
  - (* IfStmt *)
    back_again; auto.
  - (* WhileStmt *)
    back_again; auto.
  - (* FunctionStmt *)
    back_again. rewrite Forall_forall in H. apply H.
    apply list_elem_of_In. assumption.
  - (* SwitchStmt *)
    apply triple_step; [back_again|]. intros _.
    apply triple_step.
    + apply triple_for_each. intros [v ss] Hin.
      rewrite Forall_forall in H.
      specialize (H _ (proj2 (list_elem_of_In _ _) Hin)).
      cbn [case_statements] in H. rewrite Forall_forall in H.
      back_again. apply H. apply list_elem_of_In. assumption.
    + intros _. destruct d as [ss|]; [|back_again].
      specialize (H0 ss eq_refl). rewrite Forall_forall in H0.
      back_again. apply H0. apply list_elem_of_In. assumption.
  - (* UnsafeBlock *)
    apply triple_get_bind. intros s Hs.
    eapply triple_abind with (mid := fun _ st => strict_mode st = false).
    + apply triple_modify. reflexivity.
    + intros _. eapply triple_abind with (mid := fun _ st => strict_mode st = false).
      * apply triple_for_each. intros y Hy.
        rewrite Forall_forall in H. apply H. apply list_elem_of_In. exact Hy.
      * intros _. apply triple_modify. intros st _. exact Hs.
Qed.

End StrictMode.

(** A statement that completes leaves strict mode as it found it: the
    leniency of an [unsafe] block ends with the block, however deep the
    block is nested. *)
Theorem strict_mode_is_restored fuel s st u st' :
  Analyzer.analyze_stmt fuel s st = Done u st' ->
  strict_mode st' = strict_mode st.
Proof.
  intros Hrun.
  pose proof (back_in_analyze_stmt fuel s (strict_mode st) st eq_refl) as H.
  rewrite Hrun in H. exact H.
Qed.

Lemma strict_mode_is_restored_witness :
  strict_mode after_unsafe_function = strict_mode new_MemorySafetyAnalyzer.
Proof.
  apply (strict_mode_is_restored 100
           (nth 0 Samples.program_unsafe_function NullStmt)
           new_MemorySafetyAnalyzer tt).
  vm_compute. reflexivity.
Defined.

(** ** The scope stacks around a statement *)

(** A statement that completes leaves the scope stack as deep as it found
    it; the freed sets of the enclosing scopes are untouched and that of
    the current scope can only grow. *)
Theorem scope_stacks_are_balanced fuel s st u st' :
  (1 <= length (current_scope_vars st))%nat ->
  Analyzer.analyze_stmt fuel s st = Done u st' ->
  length (current_scope_vars st') = length (current_scope_vars st) /\
  tail (freed_in_scope st') = tail (freed_in_scope st) /\
  back (freed_in_scope st) ⊆ back (freed_in_scope st').
Proof.
  intros Hdepth Hrun. pose proof (grows_analyze_stmt fuel s st Hdepth) as H.
  rewrite Hrun in H. exact H.
Qed.

Lemma scope_stacks_are_balanced_witness :
  length (current_scope_vars after_unsafe_function) =
  length (current_scope_vars new_MemorySafetyAnalyzer) /\
  tail (freed_in_scope after_unsafe_function) =
  tail (freed_in_scope new_MemorySafetyAnalyzer) /\
  back (freed_in_scope new_MemorySafetyAnalyzer) ⊆
  back (freed_in_scope after_unsafe_function).
Proof.
  apply (scope_stacks_are_balanced 100
           (nth 0 Samples.program_unsafe_function NullStmt)
           new_MemorySafetyAnalyzer tt).
  - vm_compute. lia.
  - vm_compute. reflexivity.
Defined.

(** ** The paths that are enumerated *)

Section Paths.
Variable cfg : list ControlFlowNode.
Variable exit : CFGNodePtr.

Local Abbreviation found := (found cfg exit).

Lemma found_step cp current visited succ p :
  node_id (Analyzer.node_at cfg current) ∉ visited ->
  In succ (successors (Analyzer.node_at cfg current)) ->
  found (cp ++ [current]) succ
        ({[node_id (Analyzer.node_at cfg current)]} ∪ visited) p ->
  found cp current visited p.
Proof.
  intros Hcur Hsucc (rest & Hn & Hl & Hk & Hlen & Hnd & Hv & Hrest).
  destruct Hrest as (Hfa & Hfv & Hfe).
  exists (succ :: rest).
  refine (conj _ (conj _ (conj _ (conj Hlen (conj _ (conj _
            (conj Hfa (conj Hfv Hfe)))))))).
  - rewrite Hn, <- app_assoc. reflexivity.
  - exact Hl.
  - change (linked cfg (current :: succ :: rest))
      with (existsb (Nat.eqb succ) (successors (Analyzer.node_at cfg current))
            && linked cfg (succ :: rest)).
    rewrite Hk, andb_true_r. apply existsb_exists.
    exists succ. split; [exact Hsucc|apply Nat.eqb_refl].
  - unfold path_ids in *.
    change (NoDup (node_id (Analyzer.node_at cfg current)
                   :: List.map (fun n => node_id (Analyzer.node_at cfg n))
                        (succ :: rest))).
    apply NoDup_cons; split; [|exact Hnd].
    intros Hin. apply list_elem_of_In, in_map_iff in Hin.
    destruct Hin as (n & Hid & Hin). apply (Hv n Hin). rewrite Hid.
    apply elem_of_union_l, elem_of_singleton_2. reflexivity.
  - intros n [<-|Hin]; [exact Hcur|].
    intros Hn'. apply (Hv n Hin). apply elem_of_union_r. exact Hn'.
Qed.

Lemma enumerate_paths_recursive_found depth :
  forall current cp visited acc,
  exists new,
    Analyzer.enumerate_paths_recursive depth cfg current exit cp visited acc =
    acc ++ new /\
    Forall (found cp current visited) new.
Proof.
  induction depth as [|depth IH]; intros current cp visited acc;
    cbn [Analyzer.enumerate_paths_recursive].
  { exists []. rewrite app_nil_r. auto. }
  destruct (Analyzer.MAX_PATHS <=? length acc)%nat;
    [exists []; rewrite app_nil_r; auto|].
  destruct (bool_decide _) eqn:Hvis; [exists []; rewrite app_nil_r; auto|].
  apply bool_decide_eq_false in Hvis.
  destruct (Analyzer.MAX_PATH_DEPTH <=? length cp)%nat eqn:Hdepth;
    [exists []; rewrite app_nil_r; auto|].
  apply Nat.leb_gt in Hdepth.
  destruct (current =? exit)%nat eqn:Hexit.
  - apply Nat.eqb_eq in Hexit. subst current.
    eexists [_]. split; [reflexivity|]. constructor; [|constructor].
    exists []. cbn [nodes final_allocations path_freed_vars is_feasible].
    refine (conj eq_refl (conj eq_refl (conj eq_refl (conj _ (conj _ (conj _
              (conj eq_refl (conj eq_refl eq_refl)))))))).
    + rewrite length_app. cbn [length]. lia.
    + cbn. apply NoDup_cons. split; [apply not_elem_of_nil|apply NoDup_nil_2].
    + intros n [<-|[]]. exact Hvis.
  - set (n := Analyzer.node_at cfg current) in *.
    assert (G : forall succs acc0,
               (forall s, In s succs -> In s (successors n)) ->
               exists new,
                 fold_left
                   (fun acc1 succ =>
                      Analyzer.enumerate_paths_recursive
                        depth cfg succ exit (cp ++ [current])
                        ({[node_id n]} ∪ visited) acc1)
                   succs acc0 = acc0 ++ new /\
                 Forall (found cp current visited) new).
    { induction succs as [|s succs IHs]; intros acc0 Hsub; cbn [fold_left].
      - exists []. rewrite app_nil_r. auto.
      - destruct (IH s (cp ++ [current]) ({[node_id n]} ∪ visited) acc0)
          as (new1 & -> & Hnew1).
        destruct (IHs (acc0 ++ new1)) as (new2 & -> & Hnew2).
        { intros; apply Hsub; right; assumption. }
        exists (new1 ++ new2). rewrite app_assoc. split; [reflexivity|].
        apply Forall_app. split; [|exact Hnew2].
        eapply Forall_impl; [exact Hnew1|].
        intros p Hp. apply (found_step cp current visited s p Hvis);
          [apply Hsub; left; reflexivity|exact Hp]. }
    apply G. auto.
Qed.

Lemma enumerate_paths_recursive_count depth :
  forall current cp visited acc,
    (length (Analyzer.enumerate_paths_recursive depth cfg current exit cp visited acc)
     <= Nat.max (length acc) Analyzer.MAX_PATHS)%nat.
Proof.
  induction depth as [|depth IH]; intros current cp visited acc;
    cbn [Analyzer.enumerate_paths_recursive]; [lia|].
  destruct (Analyzer.MAX_PATHS <=? length acc)%nat eqn:Hmax; [lia|].
  apply Nat.leb_gt in Hmax.
  destruct (bool_decide _); [lia|].
  destruct (Analyzer.MAX_PATH_DEPTH <=? length cp)%nat; [lia|].
  destruct (current =? exit)%nat.
  - rewrite length_app. cbn [length]. lia.
  - generalize (successors (Analyzer.node_at cfg current)). intros succs.
    assert (G : forall acc0,
               (length
                  (fold_left
                     (fun acc1 succ =>
                        Analyzer.enumerate_paths_recursive
                          depth cfg succ exit (cp ++ [current])
                          ({[node_id (Analyzer.node_at cfg current)]} ∪ visited) acc1)
                     succs acc0)
                <= Nat.max (length acc0) Analyzer.MAX_PATHS)%nat).
    { induction succs as [|s succs IHs]; intros acc0; cbn [fold_left]; [lia|].
      etransitivity; [apply IHs|].
      specialize (IH s (cp ++ [current])
                     ({[node_id (Analyzer.node_at cfg current)]} ∪ visited) acc0).
      lia. }
    apply G.
Qed.

End Paths.

(** Every path [enumerate_all_paths] returns is a path of the graph: it
    starts at the entry, ends at the exit, follows successor edges, visits
    no node identifier twice, has at most [MAX_PATH_DEPTH] nodes, and
    carries the out-map and the freed set of the exit node. *)
Theorem enumerated_paths_are_paths cfg entry exit p :
  In p (Analyzer.enumerate_all_paths cfg entry exit) ->
  head (nodes p) = Some entry /\
  last (nodes p) = Some exit /\
  linked cfg (nodes p) = true /\
  NoDup (path_ids cfg (nodes p)) /\
  (length (nodes p) <= Analyzer.MAX_PATH_DEPTH)%nat /\
  final_allocations p = allocations_out (Analyzer.node_at cfg exit) /\
  path_freed_vars p = freed_vars (Analyzer.node_at cfg exit) /\
  is_feasible p = true.
Proof.
  unfold Analyzer.enumerate_all_paths. intros Hin.
  destruct (enumerate_paths_recursive_found cfg exit (S Analyzer.MAX_PATH_DEPTH)
              entry [] ∅ []) as (new & Heq & Hnew).
  rewrite Heq in Hin. cbn [app] in Hin.
  rewrite Forall_forall in Hnew.
  destruct (Hnew p (proj2 (list_elem_of_In _ _) Hin))
    as (rest & Hn & Hl & Hk & Hlen & Hnd & _ & Hrest).
  cbn [app] in Hn. rewrite Hn in *.
  exact (conj eq_refl (conj Hl (conj Hk (conj Hnd (conj Hlen Hrest))))).
Qed.

(** At most [MAX_PATHS] paths are returned. *)
Theorem enumerated_paths_are_bounded cfg entry exit :
  (length (Analyzer.enumerate_all_paths cfg entry exit) <= Analyzer.MAX_PATHS)%nat.
Proof.
  unfold Analyzer.enumerate_all_paths.
  pose proof (enumerate_paths_recursive_count cfg exit (S Analyzer.MAX_PATH_DEPTH)
                entry [] ∅ []) as H.
  cbn [length] in H. lia.
Qed.

Lemma enumerated_paths_are_paths_witness :
  head (nodes first_path_free_in_else) = Some 0%nat /\
  last (nodes first_path_free_in_else) = Some 1%nat /\
  linked cfg_free_in_else (nodes first_path_free_in_else) = true /\
  NoDup (path_ids cfg_free_in_else (nodes first_path_free_in_else)) /\
  (length (nodes first_path_free_in_else) <= Analyzer.MAX_PATH_DEPTH)%nat /\
  final_allocations first_path_free_in_else =
    allocations_out (Analyzer.node_at cfg_free_in_else 1%nat) /\
  path_freed_vars first_path_free_in_else =
    freed_vars (Analyzer.node_at cfg_free_in_else 1%nat) /\
  is_feasible first_path_free_in_else = true.
Proof.
  apply enumerated_paths_are_paths. vm_compute. left. reflexivity.
Defined.

(* ===================================================================== *)
(** * Further properties of the parser                                    *)
(* ===================================================================== *)

(** ** Hoare triples for the productions of the parser *)

Section ParserRules.
Import Parser.
Context {A B : Type}.

Lemma ptriple_ret pre (a : A) (post : A -> State -> Prop) exc :
  (forall st, pre st -> post a st) -> ptriple pre (ret a) post exc.
Proof. intros H st Hst. apply H. exact Hst. Qed.

Lemma ptriple_raise pre e (post : A -> State -> Prop) (exc : ParserError -> State -> Prop) :
  (forall st, pre st -> exc e st) -> ptriple pre (raise e) post exc.
Proof. intros H st Hst. apply H. exact Hst. Qed.

Lemma ptriple_gets pre (f : State -> A) (post : A -> State -> Prop) exc :
  (forall st, pre st -> post (f st) st) -> ptriple pre (gets f) post exc.
Proof. intros H st Hst. apply H. exact Hst. Qed.

Lemma ptriple_modify pre f (post : unit -> State -> Prop) exc :
  (forall st, pre st -> post tt (f st)) -> ptriple pre (modify f) post exc.
Proof. intros H st Hst. apply H. exact Hst. Qed.

Lemma ptriple_bind pre (m : P A) (f : A -> P B) mid post exc :
  ptriple pre m mid exc ->
  (forall a, ptriple (mid a) (f a) post exc) ->
  ptriple pre (bind m f) post exc.
Proof.
  intros Hm Hf st Hst. unfold bind. specialize (Hm st Hst).
  destruct (m st) as [a st'| |]; auto. exact (Hf a st' Hm).
Qed.

Lemma ptriple_try_catch pre (m : P A) handler post caught exc :
  ptriple pre m post caught ->
  (forall e, ptriple (caught e) (handler e) post exc) ->
  ptriple pre (try_catch m handler) post exc.
Proof.
  intros Hm Hh st Hst. unfold try_catch. specialize (Hm st Hst).
  destruct (m st) as [a st'|e st'|]; auto. exact (Hh e st' Hm).
Qed.

Lemma ptriple_conseq (pre pre' : State -> Prop) (m : P A)
      (post post' : A -> State -> Prop) (exc exc' : ParserError -> State -> Prop) :
  ptriple pre m post exc ->
  (forall st, pre' st -> pre st) ->
  (forall a st, post a st -> post' a st) ->
  (forall e st, exc e st -> exc' e st) ->
  ptriple pre' m post' exc'.
Proof.
  intros H Hpre Hpost Hexc st Hst. specialize (H st (Hpre st Hst)).
  destruct (m st); auto.
Qed.

End ParserRules.

Lemma ptriple_loop {A} (inv post : A -> Parser.State -> Prop) exc fuel
      (body : A -> Parser.P (A + A)) :
  (forall a, ptriple (inv a) (body a)
               (fun r st => match r with inl a' => inv a' st | inr a' => post a' st end)
               exc) ->
  forall a, ptriple (inv a) (Parser.loop fuel body a) post exc.
Proof.
  intros Hbody. induction fuel as [|fuel IH]; intros a; cbn [Parser.loop].
  - intros st _. exact I.
  - eapply ptriple_bind; [apply Hbody|].
    intros [a'|a']; [apply IH|]. apply ptriple_ret. auto.
Qed.

(** ** What every production leaves as it was *)

Section Balanced.
Import Parser.

Lemma balanced_ret {A} (a : A) : balanced (ret a).
Proof. intros l b f u base. apply ptriple_ret. auto. Qed.

Lemma balanced_raise {A} e : balanced (@raise A e).
Proof. intros l b f u base. apply ptriple_raise. tauto. Qed.

Lemma balanced_gets {A} (g : State -> A) : balanced (gets g).
Proof. intros l b f u base. apply ptriple_gets. auto. Qed.

Lemma balanced_bind {A B} (m : P A) (k : A -> P B) :
  balanced m -> (forall a, balanced (k a)) -> balanced (bind m k).
Proof.
  intros Hm Hk l b f u base.
  eapply ptriple_bind; [apply Hm|]. intros a. apply Hk.
Qed.

Lemma balanced_loop {A} fuel (body : A -> P (A + A)) a :
  (forall a, balanced (body a)) -> balanced (loop fuel body a).
Proof.
  intros Hbody l b f u base.
  apply (ptriple_loop
           (fun _ st => settled l b f base st /\ in_unsafe_block st = u)
           (fun _ st => settled l b f base st /\ in_unsafe_block st = u)).
  intros a'. eapply ptriple_conseq; [apply (Hbody a' l b f u base)|auto| |auto].
  intros [?|?] st H; exact H.
Qed.

Lemma raising_raise {A} e : raising (@raise A e).
Proof. intros l b f base. apply ptriple_raise. auto. Qed.

Lemma raising_gets_raise {A} (g : State -> Token) (k : Token -> ParserError) :
  raising (bind (gets g) (fun t => @raise A (k t))).
Proof.
  intros l b f base.
  apply ptriple_bind with (mid := fun _ => settled l b f base);
    [apply ptriple_gets; intros st H; exact H|].
  intros t. apply ptriple_raise. auto.
Qed.

Lemma balanced_try_raise {A} (m : P A) handler :
  balanced m -> (forall e, raising (handler e)) -> balanced (try_catch m handler).
Proof.
  intros Hm Hh l b f u base.
  eapply ptriple_try_catch; [apply Hm|].
  intros e. eapply ptriple_conseq; [apply (Hh e l b f base)|auto| |auto].
  intros ? ? [].
Qed.

Lemma balanced_advance : balanced advance.
Proof.
  intros l b f u base. unfold advance.
  apply ptriple_bind
    with (mid := fun _ st => settled l b f base st /\ in_unsafe_block st = u);
    [|intros _; apply ptriple_gets; intros st H; exact H].
  apply ptriple_modify. intros st [(Hl & Hb & Hf & Ht & Hs & He & Hc) Hu].
  destruct (is_at_end_at st); [repeat split; assumption|].
  repeat split; cbn; try assumption. lia.
Qed.

Ltac bal_step :=
  match goal with
  | H : balanced ?m |- balanced ?m => exact H
  | |- balanced (bind _ _) => apply balanced_bind; [|intros ?]
  | |- balanced (ret _) => apply balanced_ret
  | |- balanced (raise _) => apply balanced_raise
  | |- balanced (gets _) => apply balanced_gets
  | |- balanced peek => apply balanced_gets
  | |- balanced previous => apply balanced_gets
  | |- balanced is_at_end => apply balanced_gets
  | |- balanced (check _) => apply balanced_gets
  | |- balanced advance => apply balanced_advance
  | |- balanced (rethrow_as _ _ _) => unfold rethrow_as
  | |- balanced (try_catch _ _) =>
      apply balanced_try_raise;
      [|intros ?; first [apply raising_raise | apply raising_gets_raise]]
  | |- balanced (loop _ _ _) => apply balanced_loop; intros ?
  | |- balanced (if ?c then _ else _) => destruct c
  | |- balanced (match ?x with _ => _ end) => destruct x
  | |- balanced (let '(_, _) := ?x in _) => destruct x
  end.
Ltac bal := repeat bal_step.

Lemma balanced_match_ types : balanced (match_ types).
Proof. induction types as [|t types IH]; cbn [match_]; bal. Qed.

Lemma balanced_consume t msg : balanced (consume t msg).
Proof. unfold consume. bal. Qed.

Lemma balanced_expect t msg : balanced (expect t msg).
Proof. unfold expect. bal. apply balanced_consume. Qed.

(** Settles a state whose counters or flag were just assigned. *)
Ltac settle :=
  let st := fresh "st" in
  let H := fresh "H" in
  intros st H;
  repeat match goal with x := _ |- _ => subst x end;
  unfold held, settled in *; cbn in *;
  repeat match goal with H : _ /\ _ |- _ => destruct H end;
  repeat match goal with |- _ /\ _ => split end;
  solve [assumption | lia | reflexivity].

Lemma balanced_in_loop {A} keyword (rest : P A) :
  balanced rest -> balanced (in_loop keyword rest).
Proof.
  intros Hrest l b f u base. unfold in_loop.
  pose (inside := fun (st : State) =>
                    settled (l + 1) b f base st /\ in_unsafe_block st = u).
  apply ptriple_bind with (mid := fun _ => inside);
    [apply ptriple_modify; settle|]. intros _.
  apply ptriple_bind with (mid := fun _ => inside);
    [apply ptriple_gets; auto|]. intros st0.
  apply ptriple_bind with (mid := fun _ => inside).
  { destruct (MAX_LOOP_DEPTH <? loop_depth st0); [|apply ptriple_ret; auto].
    apply ptriple_bind with (mid := fun _ => settled l b f base);
      [apply ptriple_modify; settle|].
    intros _. apply ptriple_raise. auto. }
  intros _. unfold on_throw.
  apply ptriple_try_catch with (caught := fun _ => settled (l + 1) b f base).
  - apply ptriple_bind with (mid := fun _ => inside); [apply Hrest|]. intros r.
    apply ptriple_bind
      with (mid := fun _ st => settled l b f base st /\ in_unsafe_block st = u);
      [apply ptriple_modify; settle|].
    intros _. apply ptriple_ret. auto.
  - intros e. apply ptriple_bind with (mid := fun _ => settled l b f base);
      [apply ptriple_modify; settle|].
    intros _. apply ptriple_raise. auto.
Qed.

Section Productions.
Variables expression assignment_rec unary_rec : P Expr.
Variables statement declaration : P Stmt.
Variable fuel : nat.
Hypothesis balanced_expression : balanced expression.
Hypothesis balanced_assignment_rec : balanced assignment_rec.
Hypothesis balanced_unary_rec : balanced unary_rec.
Hypothesis balanced_statement : balanced statement.
Hypothesis balanced_declaration : balanced declaration.

Ltac prod_step :=
  match goal with
  | |- balanced (match_ _) => apply balanced_match_
  | |- balanced (consume _ _) => apply balanced_consume
  | |- balanced (expect _ _) => apply balanced_expect
  | |- balanced (in_loop _ _) => apply balanced_in_loop
  | _ => bal_step
  end.
Ltac prod := repeat prod_step.

Lemma balanced_separated {A} limit too_many (element : P A) closing trailing :
  balanced element ->
  balanced (separated fuel limit too_many element closing trailing).
Proof. intros H. unfold separated. prod. Qed.

Lemma balanced_finish_call callee : balanced (finish_call expression fuel callee).
Proof. unfold finish_call. prod. apply balanced_separated. prod. Qed.

Lemma balanced_finish_index array : balanced (finish_index expression array).
Proof. unfold finish_index. prod. Qed.

Lemma balanced_array_literal : balanced (array_literal expression fuel).
Proof. unfold array_literal. prod. apply balanced_separated. prod. Qed.

Lemma balanced_dict_literal : balanced (dict_literal expression fuel).
Proof. unfold dict_literal. prod. apply balanced_separated. prod. Qed.

Lemma balanced_primary : balanced (primary expression fuel).
Proof.
  unfold primary. prod;
    auto using balanced_array_literal, balanced_dict_literal.
Qed.

Lemma balanced_call : balanced (call expression fuel).
Proof.
  unfold call. prod;
    auto using balanced_primary, balanced_finish_call, balanced_finish_index.
Qed.

Lemma balanced_unary : balanced (unary expression unary_rec fuel).
Proof. unfold unary. prod. apply balanced_call. Qed.

Lemma balanced_left_assoc operand ops node bad_right :
  balanced operand -> balanced (left_assoc fuel operand ops node bad_right).
Proof. intros H. unfold left_assoc. prod. Qed.

Lemma balanced_or_expr : balanced (or_expr expression unary_rec fuel).
Proof.
  unfold or_expr, and_expr, equality, comparison, term, factor.
  repeat apply balanced_left_assoc. apply balanced_unary.
Qed.

Lemma balanced_assignment :
  balanced (assignment expression assignment_rec unary_rec fuel).
Proof. unfold assignment. prod. apply balanced_or_expr. Qed.

Lemma balanced_expression_statement : balanced (expression_statement expression).
Proof. unfold expression_statement. prod. Qed.

Lemma balanced_var_declaration : balanced (var_declaration expression).
Proof. unfold var_declaration. prod. Qed.

Lemma balanced_declarations_until stops :
  balanced (declarations_until declaration fuel stops).
Proof. unfold declarations_until. prod. Qed.

Lemma balanced_block : balanced (block declaration fuel).
Proof.
  intros l b f u base. unfold block.
  pose (inside := fun (st : State) =>
                    settled l (b + 1) f base st /\ in_unsafe_block st = u).
  apply ptriple_bind with (mid := fun _ => inside);
    [apply ptriple_modify; settle|]. intros _.
  apply ptriple_bind with (mid := fun _ => inside);
    [apply ptriple_gets; auto|]. intros st0.
  apply ptriple_bind with (mid := fun _ => inside).
  { destruct (MAX_BLOCK_DEPTH <? block_depth st0); [|apply ptriple_ret; auto].
    apply ptriple_bind with (mid := fun _ => settled l b f base);
      [apply ptriple_modify; settle|]. intros _.
    apply ptriple_bind with (mid := fun _ => settled l b f base);
      [apply ptriple_gets; auto|]. intros tok.
    apply ptriple_raise. auto. }
  intros _. unfold on_throw.
  apply ptriple_try_catch with (caught := fun _ => settled l (b + 1) f base).
  - apply ptriple_bind with (mid := fun _ => inside);
      [apply balanced_declarations_until|]. intros statements.
    apply ptriple_bind with (mid := fun _ => inside);
      [apply balanced_expect|]. intros _.
    apply ptriple_bind
      with (mid := fun _ st => settled l b f base st /\ in_unsafe_block st = u);
      [apply ptriple_modify; settle|].
    intros _. apply ptriple_ret. auto.
  - intros e. apply ptriple_bind with (mid := fun _ => settled l b f base);
      [apply ptriple_modify; settle|].
    intros _. apply ptriple_raise. auto.
Qed.

Lemma balanced_parameters name : balanced (parameters fuel name).
Proof. unfold parameters. prod. Qed.

Lemma balanced_function kind : balanced (function declaration fuel kind).
Proof.
  unfold function.
  apply balanced_bind; [prod|]. intros name.
  apply balanced_bind; [prod|]. intros _.
  apply balanced_bind; [prod|]. intros _.
  apply balanced_bind; [apply balanced_parameters|]. intros params.
  apply balanced_bind; [prod|]. intros _.
  apply balanced_bind; [prod|]. intros _.
  intros l b f u base.
  pose (inside := fun (st : State) =>
                    settled l b (f + 1) base st /\ in_unsafe_block st = u).
  apply ptriple_bind with (mid := fun _ => inside);
    [apply ptriple_modify; settle|]. intros _.
  apply ptriple_bind with (mid := fun _ => inside);
    [apply ptriple_gets; auto|]. intros st0.
  apply ptriple_bind with (mid := fun _ => inside).
  { destruct (100 <? function_depth st0); [|apply ptriple_ret; auto].
    apply ptriple_bind with (mid := fun _ => settled l b f base);
      [apply ptriple_modify; settle|]. intros _.
    apply ptriple_raise. auto. }
  intros _.
  apply ptriple_bind with (mid := fun _ => inside).
  { unfold on_throw.
    apply ptriple_try_catch with (caught := fun _ => settled l b (f + 1) base);
      [apply balanced_block|].
    intros e. apply ptriple_bind with (mid := fun _ => settled l b f base);
      [apply ptriple_modify; settle|].
    intros _. apply ptriple_raise. auto. }
  intros body.
  apply ptriple_bind
    with (mid := fun _ st => settled l b f base st /\ in_unsafe_block st = u);
    [apply ptriple_modify; settle|].
  intros _. apply ptriple_ret. auto.
Qed.

Lemma balanced_print_statement : balanced (print_statement expression).
Proof. unfold print_statement. prod. Qed.

Lemma balanced_if_statement : balanced (if_statement expression statement).
Proof. unfold if_statement. prod. Qed.

Lemma balanced_while_statement : balanced (while_statement expression statement).
Proof. unfold while_statement. prod. Qed.

Lemma balanced_for_statement : balanced (for_statement expression statement).
Proof.
  unfold for_statement, for_initializer, optional_clause. prod;
    auto using balanced_var_declaration, balanced_expression_statement.
Qed.

Lemma balanced_return_statement : balanced (return_statement expression).
Proof. unfold return_statement. prod. Qed.

Lemma balanced_break_statement : balanced break_statement.
Proof. unfold break_statement. prod. Qed.

Lemma balanced_switch_statement :
  balanced (switch_statement expression declaration fuel).
Proof.
  unfold switch_statement.
  apply balanced_bind; [prod|]. intros keyword.
  apply balanced_bind; [prod|]. intros _.
  apply balanced_bind; [prod|]. intros condition.
  apply balanced_bind; [prod|]. intros _.
  apply balanced_bind; [prod|]. intros _.
  intros l b f u base.
  pose (inside := fun (st : State) =>
                    settled (l + 1) b f base st /\ in_unsafe_block st = u).
  apply ptriple_bind with (mid := fun _ => inside);
    [apply ptriple_modify; settle|]. intros _.
  unfold on_throw.
  apply ptriple_try_catch with (caught := fun _ => settled (l + 1) b f base).
  - apply ptriple_bind with (mid := fun _ => inside).
    { apply balanced_loop. intros acc. prod; apply balanced_declarations_until. }
    intros [[cases default_case] seen].
    apply ptriple_bind with (mid := fun _ => inside);
      [apply balanced_expect|]. intros _.
    apply ptriple_bind
      with (mid := fun _ st => settled l b f base st /\ in_unsafe_block st = u);
      [apply ptriple_modify; settle|].
    intros _. apply ptriple_ret. auto.
  - intros e. apply ptriple_bind with (mid := fun _ => settled l b f base);
      [apply ptriple_modify; settle|].
    intros _. apply ptriple_raise. auto.
Qed.

Lemma balanced_unsafe_statement : balanced (unsafe_statement declaration fuel).
Proof.
  unfold unsafe_statement.
  apply balanced_bind; [prod|]. intros keyword.
  apply balanced_bind; [prod|]. intros _.
  intros l b f u base.
  pose (outside := fun (st : State) =>
                     settled l b f base st /\ in_unsafe_block st = u).
  pose (inside := fun (st : State) =>
                    settled l b f base st /\ in_unsafe_block st = true).
  apply ptriple_bind
    with (mid := fun st0 st => outside st /\ in_unsafe_block st0 = u);
    [apply ptriple_gets; intros st [H Hu];
     exact (conj (conj H Hu) Hu)|].
  intros st0.
  apply ptriple_bind
    with (mid := fun _ st => inside st /\ in_unsafe_block st0 = u).
  { apply ptriple_modify. intros st [[H Hu] H0].
    exact (conj (conj H eq_refl) H0). }
  intros _. intros st [Hin H0]. revert st Hin.
  change (ptriple inside
            (statements <- declarations_until declaration fuel [RBRACE] ;;
             expect RBRACE "Expect '}' after unsafe block" ;;
             modify (fun st => with_in_unsafe_block st (in_unsafe_block st0)) ;;
             ret (UnsafeBlock keyword statements))%parser
            (fun _ => outside) (fun _ => settled l b f base)).
  apply ptriple_bind with (mid := fun _ => inside);
    [apply balanced_declarations_until|]. intros statements.
  apply ptriple_bind with (mid := fun _ => inside);
    [apply balanced_expect|]. intros _.
  apply ptriple_bind with (mid := fun _ => outside).
  { apply ptriple_modify. intros st [H _]. exact (conj H H0). }
  intros _. apply ptriple_ret. auto.
Qed.

Lemma balanced_llvm_inline_statement : balanced llvm_inline_statement.
Proof. unfold llvm_inline_statement. prod. Qed.

Lemma balanced_import_statement : balanced import_statement.
Proof. unfold import_statement. prod. Qed.

Lemma balanced_statement_body :
  balanced (statement_body expression statement declaration fuel).
Proof.
  unfold statement_body. prod;
    auto using balanced_print_statement, balanced_if_statement,
               balanced_while_statement, balanced_for_statement,
               balanced_switch_statement, balanced_return_statement,
               balanced_break_statement, balanced_unsafe_statement,
               balanced_llvm_inline_statement, balanced_block,
               balanced_expression_statement.
Qed.

Lemma balanced_declaration_body :
  balanced (declaration_body expression statement declaration fuel).
Proof.
  unfold declaration_body. prod;
    auto using balanced_import_statement, balanced_var_declaration,
               balanced_function.
Qed.

(** *** Where [break], [return] and [llvm_inline] can stand *)

Hypothesis well_placed_statement : well_placed statement.
Hypothesis well_placed_declaration : well_placed declaration.

Lemma after {A B} l b f u base (m : P A) (k : A -> P B) post :
  balanced m ->
  (forall a, ptriple (held l b f u base) (k a) post (fun _ => settled l b f base)) ->
  ptriple (held l b f u base) (bind m k) post (fun _ => settled l b f base).
Proof. intros Hm Hk. eapply ptriple_bind; [apply (Hm l b f u base)|exact Hk]. Qed.

Lemma thrown {A B} l b f u base e (k : A -> P B) post :
  ptriple (held l b f u base) (bind (raise e) k) post (fun _ => settled l b f base).
Proof. intros st [Hst _]. exact Hst. Qed.

Lemma ptriple_pure {A} (phi : Prop) pre (m : P A) post exc :
  (phi -> ptriple pre m post exc) ->
  ptriple (fun st => pre st /\ phi) m post exc.
Proof. intros H st [Hst Hphi]. exact (H Hphi st Hst). Qed.

Lemma returned {A} l b f u base (a : A) (good : A -> Prop) :
  good a ->
  ptriple (held l b f u base) (ret a)
          (fun a st => held l b f u base st /\ good a)
          (fun _ => settled l b f base).
Proof. intros H. apply ptriple_ret. auto. Qed.

Ltac walk_step :=
  match goal with
  | |- ptriple _ (bind (raise _) _) _ _ => apply thrown
  | |- ptriple _ (bind _ _) _ _ => apply after; [solve [prod]|intros ?]
  | |- ptriple _ (if ?c then _ else _) _ _ => destruct c
  | |- ptriple _ (match ?x with _ => _ end) _ _ => destruct x
  | |- ptriple _ (raise _) _ _ => apply ptriple_raise; intros ? [? ?]; assumption
  | |- ptriple _ (ret _) _ _ => apply returned
  end.
Ltac walk := repeat walk_step.

Lemma leaf_well_placed m : leaf m -> well_placed m.
Proof.
  intros H l b f u base Hl Hf.
  eapply ptriple_conseq; [apply (H l b f u base Hl Hf)|auto| |auto].
  intros s st [Hst Hs]. split; [exact Hst|apply Hs].
Qed.

Lemma leaf_print_statement : leaf (print_statement expression).
Proof.
  intros l b f u base _ _. unfold print_statement. walk. reflexivity.
Qed.

Lemma leaf_expression_statement : leaf (expression_statement expression).
Proof.
  intros l b f u base _ _. unfold expression_statement. walk. reflexivity.
Qed.

Lemma leaf_var_declaration : leaf (var_declaration expression).
Proof.
  intros l b f u base _ _. unfold var_declaration. walk; reflexivity.
Qed.

Lemma leaf_import_statement : leaf import_statement.
Proof.
  intros l b f u base _ _. unfold import_statement. walk; reflexivity.
Qed.

Lemma leaf_for_initializer : leaf (for_initializer expression).
Proof.
  intros l b f u base Hl Hf. unfold for_initializer.
  apply after; [prod|intros m1]. destruct m1; [walk; reflexivity|].
  apply after; [prod|intros m2].
  destruct m2; [apply leaf_var_declaration|apply leaf_expression_statement];
    assumption.
Qed.

(** The state read by [gets] is settled like the one it leaves. *)
Lemma read_state {B} l b f u base (k : State -> P B) post :
  (forall st0, held l b f u base st0 ->
     ptriple (held l b f u base) (k st0) post (fun _ => settled l b f base)) ->
  ptriple (held l b f u base) (bind (gets (fun st => st)) k) post
          (fun _ => settled l b f base).
Proof. intros H st Hst. exact (H st Hst st Hst). Qed.

Lemma well_placed_return_statement : well_placed (return_statement expression).
Proof.
  intros l b f u base Hl Hf. unfold return_statement.
  apply after; [prod|intros keyword].
  apply read_state. intros st0 [(_ & _ & H0 & _) _].
  destruct (function_depth st0 =? 0) eqn:E; [apply thrown|].
  apply Z.eqb_neq in E. walk; cbn [placed]; apply Z.ltb_lt; lia.
Qed.

Lemma well_placed_break_statement : well_placed break_statement.
Proof.
  intros l b f u base Hl Hf. unfold break_statement.
  apply after; [prod|intros keyword].
  apply read_state. intros st0 [(H0 & _) _].
  destruct (loop_depth st0 =? 0) eqn:E; [apply thrown|].
  apply Z.eqb_neq in E. walk; cbn [placed]; apply Z.ltb_lt; lia.
Qed.

Lemma well_placed_llvm_inline_statement : well_placed llvm_inline_statement.
Proof.
  intros l b f u base Hl Hf. unfold llvm_inline_statement.
  apply after; [prod|intros keyword].
  apply read_state. intros st0 [_ H0].
  destruct (in_unsafe_block st0) eqn:E; cbn [negb]; [|apply thrown].
  walk; cbn [placed]; congruence.
Qed.

Lemma all_well_placed_declarations_until stops :
  all_well_placed (declarations_until declaration fuel stops).
Proof.
  intros l b f u base Hl Hf. unfold declarations_until.
  pose (good := fun ss : list Stmt =>
                  forallb (placed (0 <? l) (0 <? f) u) ss = true).
  eapply ptriple_conseq;
    [apply (ptriple_loop (fun acc st => held l b f u base st /\ good acc)
                         (fun acc st => held l b f u base st /\ good acc)
                         (fun _ => settled l b f base))
    |intros st Hst; exact (conj Hst eq_refl)|auto|auto].
  intros acc. apply ptriple_pure. intros Hacc.
  apply read_state. intros st0 _.
  destruct (_ || _).
  - apply ptriple_ret. intros st Hst. exact (conj Hst Hacc).
  - eapply ptriple_bind;
      [apply (well_placed_declaration l b f u base Hl Hf)|].
    intros s. apply ptriple_pure. intros Hs.
    apply ptriple_ret. intros st Hst. split; [exact Hst|].
    destruct (non_null s); [|exact Hacc].
    unfold good. rewrite forallb_app, Hacc. cbn [forallb]. rewrite Hs. reflexivity.
Qed.

Lemma all_well_placed_block : all_well_placed (block declaration fuel).
Proof.
  intros l b f u base Hl Hf. unfold block.
  pose (good := fun ss : list Stmt =>
                  forallb (placed (0 <? l) (0 <? f) u) ss = true).
  apply ptriple_bind with (mid := fun _ => held l (b + 1) f u base);
    [apply ptriple_modify; settle|]. intros _.
  apply ptriple_bind with (mid := fun _ => held l (b + 1) f u base);
    [apply ptriple_gets; auto|]. intros st0.
  apply ptriple_bind with (mid := fun _ => held l (b + 1) f u base).
  { destruct (MAX_BLOCK_DEPTH <? block_depth st0); [|apply ptriple_ret; auto].
    apply ptriple_bind with (mid := fun _ => settled l b f base);
      [apply ptriple_modify; settle|]. intros _.
    apply ptriple_bind with (mid := fun _ => settled l b f base);
      [apply ptriple_gets; auto|]. intros tok.
    apply ptriple_raise. auto. }
  intros _. unfold on_throw.
  apply ptriple_try_catch with (caught := fun _ => settled l (b + 1) f base).
  - eapply ptriple_bind;
      [apply (all_well_placed_declarations_until [RBRACE] l (b + 1) f u base Hl Hf)|].
    intros statements. apply ptriple_pure. intros Hss.
    apply ptriple_bind with (mid := fun _ => held l (b + 1) f u base);
      [apply balanced_expect|]. intros _.
    apply ptriple_bind with (mid := fun _ => held l b f u base);
      [apply ptriple_modify; settle|].
    intros _. apply ptriple_ret. intros st Hst. exact (conj Hst Hss).
  - intros e. apply ptriple_bind with (mid := fun _ => settled l b f base);
      [apply ptriple_modify; settle|].
    intros _. apply ptriple_raise. auto.
Qed.

Lemma well_placed_function kind : well_placed (function declaration fuel kind).
Proof.
  intros l b f u base Hl Hf. unfold function.
  apply after; [prod|intros name].
  apply after; [prod|intros _].
  apply after; [prod|intros _].
  apply after; [apply balanced_parameters|intros params].
  apply after; [prod|intros _].
  apply after; [prod|intros _].
  apply ptriple_bind with (mid := fun _ => held l b (f + 1) u base);
    [apply ptriple_modify; settle|]. intros _.
  apply ptriple_bind with (mid := fun _ => held l b (f + 1) u base);
    [apply ptriple_gets; auto|]. intros st0.
  apply ptriple_bind with (mid := fun _ => held l b (f + 1) u base).
  { destruct (100 <? function_depth st0); [|apply ptriple_ret; auto].
    apply ptriple_bind with (mid := fun _ => settled l b f base);
      [apply ptriple_modify; settle|]. intros _.
    apply ptriple_raise. auto. }
  intros _.
  apply ptriple_bind
    with (mid := fun body st =>
                   held l b (f + 1) u base st /\
                   forallb (placed (0 <? l) true u) body = true).
  { unfold on_throw.
    apply ptriple_try_catch with (caught := fun _ => settled l b (f + 1) base).
    - assert (Hpos : (0 <? f + 1) = true) by (apply Z.ltb_lt; lia).
      pose proof (all_well_placed_block l b (f + 1) u base Hl) as H.
      rewrite Hpos in H. apply H. lia.
    - intros e. apply ptriple_bind with (mid := fun _ => settled l b f base);
        [apply ptriple_modify; settle|].
      intros _. apply ptriple_raise. auto. }
  intros body. apply ptriple_pure. intros Hbody.
  apply ptriple_bind with (mid := fun _ => held l b f u base);
    [apply ptriple_modify; settle|].
  intros _. apply ptriple_ret. intros st Hst. exact (conj Hst Hbody).
Qed.

Lemma well_placed_if_statement : well_placed (if_statement expression statement).
Proof.
  intros l b f u base Hl Hf. unfold if_statement.
  apply after; [prod|intros keyword].
  apply after; [prod|intros _].
  apply after; [prod|intros condition].
  apply after; [prod|intros _].
  eapply ptriple_bind; [apply (well_placed_statement l b f u base Hl Hf)|].
  intros then_branch. apply ptriple_pure. intros Hthen.
  apply after; [prod|intros m].
  pose (good := fun e : option Stmt =>
                  match e with
                  | Some s' => placed (0 <? l) (0 <? f) u s' = true
                  | None => True
                  end).
  apply ptriple_bind with (mid := fun e st => held l b f u base st /\ good e).
  - destruct m; [|apply returned; exact I].
    eapply ptriple_bind; [apply (well_placed_statement l b f u base Hl Hf)|].
    intros s. apply ptriple_pure. intros Hs.
    apply (returned l b f u base (Some s) good). exact Hs.
  - intros [els|]; apply ptriple_pure; intros Hels; apply returned;
      cbn [placed]; rewrite Hthen; [exact Hels|reflexivity].
Qed.

Lemma in_loop_returns {A} keyword (rest : P A) (good : A -> Prop) l b f u base :
  ptriple (held (l + 1) b f u base) rest
          (fun a st => held (l + 1) b f u base st /\ good a)
          (fun _ => settled (l + 1) b f base) ->
  ptriple (held l b f u base) (in_loop keyword rest)
          (fun a st => held l b f u base st /\ good a)
          (fun _ => settled l b f base).
Proof.
  intros Hrest. unfold in_loop.
  apply ptriple_bind with (mid := fun _ => held (l + 1) b f u base);
    [apply ptriple_modify; settle|]. intros _.
  apply ptriple_bind with (mid := fun _ => held (l + 1) b f u base);
    [apply ptriple_gets; auto|]. intros st0.
  apply ptriple_bind with (mid := fun _ => held (l + 1) b f u base).
  { destruct (MAX_LOOP_DEPTH <? loop_depth st0); [|apply ptriple_ret; auto].
    apply ptriple_bind with (mid := fun _ => settled l b f base);
      [apply ptriple_modify; settle|].
    intros _. apply ptriple_raise. auto. }
  intros _. unfold on_throw.
  apply ptriple_try_catch with (caught := fun _ => settled (l + 1) b f base).
  - eapply ptriple_bind; [exact Hrest|]. intros r.
    apply ptriple_pure. intros Hr.
    apply ptriple_bind with (mid := fun _ => held l b f u base);
      [apply ptriple_modify; settle|].
    intros _. apply ptriple_ret. intros st Hst. exact (conj Hst Hr).
  - intros e. apply ptriple_bind with (mid := fun _ => settled l b f base);
      [apply ptriple_modify; settle|].
    intros _. apply ptriple_raise. auto.
Qed.

Lemma inside_a_loop l : 0 <= l -> (0 <? l + 1) = true.
Proof. intros H. apply Z.ltb_lt. lia. Qed.

Lemma well_placed_while_statement :
  well_placed (while_statement expression statement).
Proof.
  intros l b f u base Hl Hf. unfold while_statement.
  apply after; [prod|intros keyword].
  apply in_loop_returns.
  apply after; [prod|intros _].
  apply after; [prod|intros condition].
  apply after; [prod|intros _].
  eapply ptriple_bind;
    [apply (well_placed_statement (l + 1) b f u base); lia|].
  intros body. rewrite (inside_a_loop l Hl).
  apply ptriple_pure. intros Hbody. apply returned. exact Hbody.
Qed.

Lemma placed_for_desugar lp fn us keyword initializer condition increment body :
  (forall lp fn us, placed lp fn us initializer = true) ->
  placed true fn us body = true ->
  placed lp fn us (for_desugar keyword initializer condition increment body) = true.
Proof.
  intros Hinit Hbody. unfold for_desugar.
  destruct increment, (non_null initializer); cbn [placed forallb];
    rewrite ?Hinit, ?Hbody; reflexivity.
Qed.

Lemma well_placed_for_statement : well_placed (for_statement expression statement).
Proof.
  intros l b f u base Hl Hf. unfold for_statement, optional_clause.
  apply after; [prod|intros keyword].
  apply in_loop_returns.
  apply after; [prod|intros _].
  eapply ptriple_bind;
    [apply (leaf_for_initializer (l + 1) b f u base); lia|].
  intros initializer. apply ptriple_pure. intros Hinit.
  apply after; [prod|intros condition].
  apply after; [prod|intros _].
  apply after; [prod|intros increment].
  apply after; [prod|intros _].
  eapply ptriple_bind;
    [apply (well_placed_statement (l + 1) b f u base); lia|].
  intros body. rewrite (inside_a_loop l Hl).
  apply ptriple_pure. intros Hbody. apply returned.
  apply placed_for_desugar; assumption.
Qed.

Lemma well_placed_switch_statement :
  well_placed (switch_statement expression declaration fuel).
Proof.
  intros l b f u base Hl Hf. unfold switch_statement.
  apply after; [prod|intros keyword].
  apply after; [prod|intros _].
  apply after; [prod|intros condition].
  apply after; [prod|intros _].
  apply after; [prod|intros _].
  pose (inner := fun ss : list Stmt =>
                   forallb (placed true (0 <? f) u) ss = true).
  pose (good := fun acc : list CaseClauseT * option (list Stmt) * bool =>
                  forallb (fun cl : CaseClauseT =>
                             let '(CaseClause _ ss) := cl in
                             forallb (placed true (0 <? f) u) ss)
                          (fst (fst acc)) = true /\
                  match snd (fst acc) with
                  | Some ss => inner ss
                  | None => True
                  end).
  assert (Hinner : forall stops,
             ptriple (held (l + 1) b f u base)
                     (declarations_until declaration fuel stops)
                     (fun ss st => held (l + 1) b f u base st /\ inner ss)
                     (fun _ => settled (l + 1) b f base)).
  { intros stops.
    pose proof (all_well_placed_declarations_until stops (l + 1) b f u base) as H.
    rewrite (inside_a_loop l Hl) in H. apply H; lia. }
  apply ptriple_bind with (mid := fun _ => held (l + 1) b f u base);
    [apply ptriple_modify; settle|]. intros _.
  unfold on_throw.
  apply ptriple_try_catch with (caught := fun _ => settled (l + 1) b f base).
  - apply ptriple_bind
      with (mid := fun acc st => held (l + 1) b f u base st /\ good acc).
    { eapply ptriple_conseq;
        [apply (ptriple_loop
                  (fun acc st => held (l + 1) b f u base st /\ good acc)
                  (fun acc st => held (l + 1) b f u base st /\ good acc)
                  (fun _ => settled (l + 1) b f base))
        |intros st Hst; exact (conj Hst (conj eq_refl I))|auto|auto].
      intros [[cases default_case] seen]. apply ptriple_pure. intros [Hcases Hdef].
      cbn [fst snd] in Hcases, Hdef.
      apply read_state. intros st0 _.
      destruct (_ || _);
        [apply ptriple_ret; intros st Hst; exact (conj Hst (conj Hcases Hdef))|].
      apply after; [prod|intros m1]. destruct m1.
      - apply after; [prod|intros _].
        apply after; [prod|intros case_value].
        apply after; [prod|intros _].
        eapply ptriple_bind; [apply Hinner|]. intros statements.
        apply ptriple_pure. intros Hss.
        apply ptriple_ret. intros st Hst. split; [exact Hst|]. split; [|exact Hdef].
        cbn [fst snd]. rewrite forallb_app, Hcases. cbn [forallb].
        rewrite Hss. reflexivity.
      - apply after; [prod|intros m2]. destruct m2.
        + apply after; [prod|intros _].
          apply after; [prod|intros _].
          eapply ptriple_bind; [apply Hinner|]. intros statements.
          apply ptriple_pure. intros Hss.
          apply ptriple_ret. intros st Hst. exact (conj Hst (conj Hcases Hss)).
        + walk. }
    intros [[cases default_case] seen]. apply ptriple_pure. intros [Hcases Hdef].
    cbn [fst snd] in Hcases, Hdef.
    apply ptriple_bind with (mid := fun _ => held (l + 1) b f u base);
      [apply balanced_expect|]. intros _.
    apply ptriple_bind with (mid := fun _ => held l b f u base);
      [apply ptriple_modify; settle|].
    intros _. apply ptriple_ret. intros st Hst. split; [exact Hst|].
    cbn [placed]. rewrite Hcases.
    destruct default_case; [exact Hdef|reflexivity].
  - intros e. apply ptriple_bind with (mid := fun _ => settled l b f base);
      [apply ptriple_modify; settle|].
    intros _. apply ptriple_raise. auto.
Qed.

Lemma well_placed_unsafe_statement :
  well_placed (unsafe_statement declaration fuel).
Proof.
  intros l b f u base Hl Hf. unfold unsafe_statement.
  apply after; [prod|intros keyword].
  apply after; [prod|intros _].
  apply read_state. intros st0 [_ H0].
  apply ptriple_bind with (mid := fun _ => held l b f true base).
  { apply ptriple_modify. intros st [H _]. exact (conj H eq_refl). }
  intros _.
  eapply ptriple_bind;
    [apply (all_well_placed_declarations_until [RBRACE] l b f true base Hl Hf)|].
  intros statements. apply ptriple_pure. intros Hss.
  apply ptriple_bind with (mid := fun _ => held l b f true base);
    [apply balanced_expect|]. intros _.
  apply ptriple_bind with (mid := fun _ => held l b f u base).
  { apply ptriple_modify. intros st [H _]. exact (conj H H0). }
  intros _. apply returned. exact Hss.
Qed.

Lemma well_placed_statement_body :
  well_placed (statement_body expression statement declaration fuel).
Proof.
  intros l b f u base Hl Hf. unfold statement_body.
  apply after; [prod|intros m]. destruct m;
    [apply leaf_well_placed; [apply leaf_print_statement|assumption..]|].
  apply after; [prod|intros m]. destruct m;
    [apply well_placed_if_statement; assumption|].
  apply after; [prod|intros m]. destruct m;
    [apply well_placed_while_statement; assumption|].
  apply after; [prod|intros m]. destruct m;
    [apply well_placed_for_statement; assumption|].
  apply after; [prod|intros m]. destruct m;
    [apply well_placed_switch_statement; assumption|].
  apply after; [prod|intros m]. destruct m;
    [apply well_placed_return_statement; assumption|].
  apply after; [prod|intros m]. destruct m;
    [apply well_placed_break_statement; assumption|].
  apply after; [prod|intros m]. destruct m;
    [apply well_placed_unsafe_statement; assumption|].
  apply after; [prod|intros m]. destruct m;
    [apply well_placed_llvm_inline_statement; assumption|].
  apply after; [prod|intros m]. destruct m.
  - apply after; [prod|intros opening_brace].
    eapply ptriple_bind; [apply (all_well_placed_block l b f u base Hl Hf)|].
    intros statements. apply ptriple_pure. intros Hss. apply returned. exact Hss.
  - apply leaf_well_placed; [apply leaf_expression_statement|assumption..].
Qed.

Lemma well_placed_declaration_body :
  well_placed (declaration_body expression statement declaration fuel).
Proof.
  intros l b f u base Hl Hf. unfold declaration_body.
  apply after; [prod|intros m]. destruct m;
    [apply leaf_well_placed; [apply leaf_import_statement|assumption..]|].
  apply after; [prod|intros m]. destruct m;
    [apply leaf_well_placed; [apply leaf_var_declaration|assumption..]|].
  apply after; [prod|intros m]. destruct m;
    [apply well_placed_function; assumption|].
  apply well_placed_statement; assumption.
Qed.

End Productions.

Lemma balanced_no_fuel {A} : balanced (@no_fuel A).
Proof. intros l b f u base st _. exact I. Qed.

Lemma balanced_entry fuel :
  balanced (e_expression (entry fuel)) /\
  balanced (e_assignment (entry fuel)) /\
  balanced (e_unary (entry fuel)) /\
  balanced (e_statement (entry fuel)) /\
  balanced (e_declaration (entry fuel)).
Proof.
  induction fuel as [|fuel (He & Ha & Hu & Hs & Hd)]; cbn [entry e_expression
    e_assignment e_unary e_statement e_declaration].
  - repeat split; apply balanced_no_fuel.
  - repeat split.
    + apply balanced_assignment; assumption.
    + apply balanced_assignment; assumption.
    + apply balanced_unary; assumption.
    + apply balanced_statement_body; assumption.
    + apply balanced_declaration_body; assumption.
Qed.

Lemma well_placed_no_fuel : well_placed no_fuel.
Proof. intros l b f u base _ _ st _. exact I. Qed.

Lemma well_placed_entry fuel :
  well_placed (e_statement (entry fuel)) /\
  well_placed (e_declaration (entry fuel)).
Proof.
  induction fuel as [|fuel [IHs IHd]];
    cbn [entry e_expression e_assignment e_unary e_statement e_declaration].
  - split; apply well_placed_no_fuel.
  - destruct (balanced_entry fuel) as (He & Ha & Hu & Hs & Hd).
    split; [apply well_placed_statement_body|apply well_placed_declaration_body];
      assumption.
Qed.

Lemma balanced_synchronize fuel : balanced (synchronize fuel).
Proof. unfold synchronize. bal. Qed.

Lemma settled_here st l f :
  loop_depth st = l -> function_depth st = f ->
  settled l (block_depth st) f st st.
Proof. intros Hl Hf. unfold settled. repeat split; assumption || reflexivity || lia. Qed.

Lemma parse_step fuel statements :
  ptriple (between_declarations statements)
    (st <- gets (fun st => st) ;;
     if is_at_end_at st then ret (inr statements)
     else
       try_catch
         (stmt <- declaration fuel ;;
          ret (inl (if non_null stmt then statements ++ [stmt] else statements)))
         (fun e =>
            modify (fun st => with_errors st (errors st ++ [e])) ;;
            synchronize fuel ;;
            ret (inl statements)))%parser
    (fun r st =>
       match r with
       | inl a => between_declarations a st
       | inr a => between_declarations a st
       end)
    (fun _ _ => True).
Proof.
  intros st0 Hinv. cbn [bind gets]. unfold bind at 1. cbn [gets].
  destruct (is_at_end_at st0); [exact Hinv|].
  destruct Hinv as (Hl & Hf & Hclean).
  unfold try_catch, bind at 1.
  destruct (well_placed_entry fuel) as [_ Hwp].
  destruct (balanced_entry fuel) as (_ & _ & _ & _ & Hbal).
  specialize (Hwp 0 (block_depth st0) 0 (in_unsafe_block st0) st0
                  (Z.le_refl 0) (Z.le_refl 0) st0).
  unfold declaration.
  destruct (e_declaration (entry fuel) st0) as [s st1|e st1|] eqn:Hrun;
    [| |exact I].
  - (* a statement *)
    destruct Hwp as [[(Hl1 & _ & Hf1 & _ & _ & He1 & _) Hu1] Hs].
    { split; [|reflexivity]. apply settled_here; assumption. }
    cbn [ret]. refine (conj Hl1 (conj Hf1 _)). intros Hno.
    rewrite He1 in Hno. destruct (Hclean Hno) as [Hu0 Hacc].
    split; [congruence|].
    destruct (non_null s); [|exact Hacc].
    rewrite forallb_app, Hacc. cbn [forallb]. rewrite Hu0 in Hs.
    cbn in Hs. rewrite Hs. reflexivity.
  - (* an error: record it and resynchronize *)
    assert (Hs : settled 0 (block_depth st0) 0 st0 st1).
    { apply Hwp. split; [|reflexivity]. apply settled_here; assumption. }
    destruct Hs as (Hl1 & Hb1 & Hf1 & _).
    cbn [modify]. unfold bind at 1.
    set (st2 := with_errors st1 (errors st1 ++ [e])).
    pose proof (balanced_synchronize fuel 0 (block_depth st2) 0
                  (in_unsafe_block st2) st2 st2) as Hsync.
    destruct (synchronize fuel st2) as [[] st3|e3 st3|]; [|exact I|exact I].
    destruct Hsync as [(Hl3 & _ & Hf3 & _ & _ & He3 & _) _].
    { split; [|reflexivity]. unfold settled, st2. cbn.
      repeat split; try assumption; reflexivity || lia. }
    cbn [ret]. refine (conj Hl3 (conj Hf3 _)). intros Hno.
    rewrite He3 in Hno. unfold st2 in Hno. cbn in Hno.
    destruct (errors st1); discriminate Hno.
Qed.

End Balanced.

(** Whether [declaration] returns a statement or throws, it leaves the
    three nesting counters, the token list, the source and the error list
    as they were, and the cursor where it was or further on; when it
    returns, the unsafe flag is as it was too. *)
Theorem declaration_is_balanced fuel st :
  match Parser.declaration fuel st with
  | Parser.Ok _ st' =>
      undisturbed st st' /\ Parser.in_unsafe_block st' = Parser.in_unsafe_block st
  | Parser.Raise _ st' => undisturbed st st'
  | Parser.NoFuel => True
  end.
Proof.
  destruct (balanced_entry fuel) as (_ & _ & _ & _ & Hd).
  unfold Parser.declaration.
  specialize (Hd (Parser.loop_depth st) (Parser.block_depth st)
                 (Parser.function_depth st) (Parser.in_unsafe_block st) st st).
  cbv beta in Hd. unfold undisturbed.
  destruct (Parser.e_declaration (Parser.entry fuel) st);
    [apply Hd|apply Hd|exact I];
    unfold settled; repeat split; reflexivity || lia.
Qed.

(** Every program the parser accepts has its [break] statements inside a
    loop or a [switch], its [return] statements inside a function and its
    [llvm_inline] statements inside an [unsafe] block. *)
Theorem parsed_programs_are_well_placed fuel tokens source statements :
  Parser.parse fuel (Parser.new_Parser tokens source) = Some (inl statements) ->
  forallb (placed false false false) statements = true.
Proof.
  unfold Parser.parse. intros Hparse.
  match type of Hparse with
  | context [Parser.loop fuel ?body [] ?st] =>
      pose proof (ptriple_loop between_declarations between_declarations
                    (fun _ _ => True) fuel body (parse_step fuel) [] st) as Hloop;
      destruct (Parser.loop fuel body [] st) as [r st'|e st'|]
  end; [| |discriminate Hparse].
  - destruct Hloop as (_ & _ & Hclean).
    { repeat split; reflexivity. }
    destruct (Parser.errors st'); [|discriminate Hparse].
    injection Hparse as <-. apply Hclean. reflexivity.
  - discriminate Hparse.
Qed.

Lemma parsed_programs_are_well_placed_witness :
  forallb (placed false false false) program_while_break = true.
Proof.
  apply (parsed_programs_are_well_placed
           64 (Samples.layout source_while_break 1) "").
  vm_compute. reflexivity.
Defined.

(** ** Misplaced keywords *)

Section Misplaced.
Import Parser.

Lemma match_other t types st :
  type (peek_at st) = t ->
  existsb (TokenType_eqb t) types = false ->
  match_ types st = Ok false st.
Proof.
  intros Ht. induction types as [|t' types IH]; cbn [existsb match_]; intros H.
  - reflexivity.
  - apply orb_false_elim in H. destruct H as [H1 H2].
    unfold bind, check, gets, check_at, is_at_end_at. rewrite Ht.
    destruct (TokenType_eqb t END_OF_FILE); [apply IH; exact H2|].
    rewrite H1. apply IH. exact H2.
Qed.

Lemma match_this t st :
  type (peek_at st) = t -> t <> END_OF_FILE ->
  match_ [t] st = Ok true (with_current st (S (current st))).
Proof.
  intros Ht Hne. cbn [match_].
  unfold bind, check, gets, check_at, is_at_end_at, advance, bind, modify,
    previous, gets, is_at_end_at.
  rewrite Ht.
  destruct t; try congruence; cbn; rewrite Ht; reflexivity.
Qed.

(** Passes a [match] that fails on the token at hand. *)
Ltac skip_other :=
  unfold bind at 1;
  match goal with
  | Ht : type (peek_at ?st) = ?t |- context [match_ ?ts ?st] =>
      rewrite (match_other t ts st Ht eq_refl)
  end.

(** A [break] at loop depth 0, a [return] at function depth 0 and an
    [llvm_inline] outside an unsafe block are errors at the keyword,
    whatever follows it; only the keyword has been consumed. *)
Theorem misplaced_keyword_is_rejected fuel st msg :
  (type (peek_at st) = BREAK /\ loop_depth st = 0 /\
   msg = "Cannot use 'break' outside of a loop or switch") \/
  (type (peek_at st) = RETURN /\ function_depth st = 0 /\
   msg = "Cannot use 'return' outside of a function") \/
  (type (peek_at st) = LLVM_INLINE /\ in_unsafe_block st = false /\
   msg = "llvm_inline() requires unsafe context") ->
  declaration (S (S fuel)) st =
  Raise (error (peek_at st) msg) (with_current st (S (current st))).
Proof.
  intros [(Ht & Hd & ->)|[(Ht & Hd & ->)|(Ht & Hd & ->)]];
    unfold declaration; cbn [entry e_declaration]; unfold declaration_body;
    repeat skip_other;
    cbn [entry e_statement]; unfold statement_body;
    repeat skip_other;
    unfold bind at 1; rewrite (match_this _ st Ht) by discriminate.
  - unfold break_statement, bind, previous, gets. cbn. rewrite Hd. reflexivity.
  - unfold return_statement, bind, previous, gets. cbn. rewrite Hd. reflexivity.
  - unfold llvm_inline_statement, bind, previous, gets. cbn. rewrite Hd.
    reflexivity.
Qed.

End Misplaced.

Lemma misplaced_keyword_witness :
  Parser.declaration 2 (Parser.new_Parser (Samples.layout source_stray_break 1) "") =
  Parser.Raise
    (Parser.error (Token4 BREAK "break" 1 1)
                  "Cannot use 'break' outside of a loop or switch")
    (Parser.with_current
       (Parser.new_Parser (Samples.layout source_stray_break 1) "") 1).
Proof.
  apply (misplaced_keyword_is_rejected
           0 (Parser.new_Parser (Samples.layout source_stray_break 1) "")).
  left. repeat split; reflexivity.
Defined.

(* ===================================================================== *)
(** * Further properties: dead code, the pipeline, plain programs          *)
(* ===================================================================== *)

(** ** What the dead-code eliminator keeps *)

Section UsedVariables.
Import DeadCodeEliminator.
Variable x : string.

Local Abbreviation marks := (marks x).

Lemma marks_id : marks false (fun st => st).
Proof. intros st. split; [reflexivity|discriminate]. Qed.

Lemma marks_comp h1 h2 f g :
  marks h1 f -> marks h2 g -> marks (h1 || h2) (fun st => g (f st)).
Proof.
  intros Hf Hg st. destruct (Hf st) as [Hf1 Hf2], (Hg (f st)) as [Hg1 Hg2].
  split; [set_solver|]. intros H. apply orb_true_iff in H.
  destruct H as [H|H]; [apply Hg1, Hf2, H|apply Hg2, H].
Qed.

Lemma marks_ext h h' f f' :
  h = h' -> (forall st, f st = f' st) -> marks h f -> marks h' f'.
Proof. intros <- E H st. rewrite <- E. apply H. Qed.

Lemma marks_fold {A} (hit : A -> bool) (step : A -> State -> State) (l : list A) :
  Forall (fun a => marks (hit a) (step a)) l ->
  marks (existsb hit l) (fun st => fold_left (fun acc a => step a acc) l st).
Proof.
  induction 1 as [|a l Ha _ IH]; cbn [existsb fold_left]; [apply marks_id|].
  exact (marks_comp _ _ _ _ Ha IH).
Qed.

Lemma marks_use n : marks (String.eqb (lexeme n) x) (use (lexeme n)).
Proof.
  intros st. unfold use. cbn [used_vars]. split; [set_solver|].
  intros H. apply String.eqb_eq in H. set_solver.
Qed.

Lemma marks_analyze_expr e : marks (mentions_expr x e) (analyze_expr e).
Proof.
  induction e using Expr_nested_ind; cbn [mentions_expr analyze_expr].
  - apply marks_id.
  - apply marks_use.
  - exact (marks_comp _ _ _ _ (marks_use n) IHe).
  - exact (marks_comp _ _ _ _ IHe1 IHe2).
  - exact IHe.
  - exact (marks_comp _ _ _ _ IHe1 IHe2).
  - apply (marks_fold (mentions_expr x) analyze_expr). exact H.
  - exact IHe.
  - apply (marks_fold (mentions_expr x) analyze_expr). exact H.
  - exact (marks_comp _ _ _ _ IHe1 IHe2).
  - exact (marks_comp _ _ _ _ (marks_comp _ _ _ _ IHe1 IHe2) IHe3).
  - apply (marks_fold
             (fun kv : Expr * Expr =>
                let '(k, v) := kv in mentions_expr x k || mentions_expr x v)
             (fun kv st => let '(k, v) := kv in analyze_expr v (analyze_expr k st))).
    eapply Forall_impl; [exact H|]. intros [k v] [Hk Hv].
    exact (marks_comp _ _ _ _ Hk Hv).
Qed.

Lemma marks_analyze_opt_expr o :
  marks match o with Some e => mentions_expr x e | None => false end
        (analyze_opt_expr o).
Proof. destruct o; [apply marks_analyze_expr|apply marks_id]. Qed.

Lemma marks_define n s : marks false (define n s).
Proof. intros st. split; [reflexivity|discriminate]. Qed.

Lemma marks_analyze_stmt s : marks (mentions x s) (analyze_stmt s).
Proof.
  induction s using Stmt_nested_ind; cbn [mentions analyze_stmt];
    try apply marks_id.
  - apply marks_analyze_expr.
  - apply marks_analyze_expr.
  - exact (marks_comp _ _ _ _ (marks_define _ _) (marks_analyze_opt_expr i)).
  - apply (marks_fold (mentions x) analyze_stmt). exact H.
  - destruct e as [els|].
    + exact (marks_comp _ _ _ _
               (marks_comp _ _ _ _ (marks_analyze_expr c) IHs) (H els eq_refl)).
    + eapply marks_ext;
        [| |exact (marks_comp _ _ _ _ (marks_analyze_expr c) IHs)];
        [rewrite orb_false_r; reflexivity|reflexivity].
  - exact (marks_comp _ _ _ _ (marks_analyze_expr c) IHs).
  - apply (marks_fold (mentions x) analyze_stmt). exact H.
  - apply marks_analyze_opt_expr.
  - assert (Hcases :
              marks (existsb (fun cl : CaseClauseT =>
                                let '(CaseClause v ss) := cl in
                                mentions_expr x v || existsb (mentions x) ss) cs)
                    (fun st =>
                       fold_left
                         (fun acc (cl : CaseClauseT) =>
                            let '(CaseClause v ss) := cl in
                            fold_left (fun acc s => analyze_stmt s acc) ss
                                      (analyze_expr v acc))
                         cs st)).
    { apply (marks_fold
               (fun cl : CaseClauseT =>
                  let '(CaseClause v ss) := cl in
                  mentions_expr x v || existsb (mentions x) ss)
               (fun (cl : CaseClauseT) st =>
                  let '(CaseClause v ss) := cl in
                  fold_left (fun acc s => analyze_stmt s acc) ss
                            (analyze_expr v st))).
      eapply Forall_impl; [exact H|]. intros [v ss] Hss. cbn [case_statements] in Hss.
      exact (marks_comp _ _ _ _ (marks_analyze_expr v)
               (marks_fold (mentions x) analyze_stmt ss Hss)). }
    destruct d as [ss|].
    + exact (marks_comp _ _ _ _
               (marks_comp _ _ _ _ (marks_analyze_expr c) Hcases)
               (marks_fold (mentions x) analyze_stmt ss (H0 ss eq_refl))).
    + eapply marks_ext;
        [| |exact (marks_comp _ _ _ _ (marks_analyze_expr c) Hcases)];
        [rewrite orb_false_r; reflexivity|reflexivity].
Qed.

End UsedVariables.

(** The dead-code eliminator never removes the declaration of a variable
    that is read or assigned somewhere in the program: a top-level
    declaration of such a variable is in the output as it was. *)
Theorem dce_keeps_used_declarations statements name initializer :
  In (VarStmt name initializer) statements ->
  existsb (mentions (lexeme name)) statements = true ->
  In (VarStmt name initializer) (fst (DeadCodeEliminator.run statements)).
Proof.
  intros Hin Hused. unfold DeadCodeEliminator.run. cbn [fst pret].
  set (st := fold_left _ _ _).
  assert (Hx : lexeme name ∈ DeadCodeEliminator.used_vars st).
  { apply (marks_fold (lexeme name) (mentions (lexeme name))
             DeadCodeEliminator.analyze_stmt statements); [|exact Hused].
    apply Forall_forall. intros s _. apply marks_analyze_stmt. }
  change (VarStmt name initializer)
    with (DeadCodeEliminator.eliminate_stmt st (VarStmt name initializer)).
  apply in_map. apply filter_In. split; [exact Hin|].
  cbn [DeadCodeEliminator.should_keep_stmt]. unfold DeadCodeEliminator.count.
  rewrite (bool_decide_eq_true_2 _ Hx).
  destruct initializer as [e|]; [destruct (DeadCodeEliminator.has_side_effects e)|];
    reflexivity.
Qed.

Lemma dce_keeps_used_declarations_witness :
  In (VarStmt (Token4 IDENTIFIER "a" 1 5)
              (Some (Literal (LDouble 1) (mkToken NUMBER "1" (LDouble 1) 1 9))))
     (fst (DeadCodeEliminator.run Samples.program_dead_chain)).
Proof.
  apply dce_keeps_used_declarations.
  - left. reflexivity.
  - reflexivity.
Defined.

(** ** The pipeline of the passes that do nothing *)

Lemma sweep_unchanged passes statements :
  Forall (fun pass : list Stmt -> Pass (list Stmt) =>
            forall ss, pass ss = (ss, false)) passes ->
  Optimizer.sweep passes statements = (statements, false).
Proof.
  induction 1 as [|pass passes Hp _ IH]; cbn [Optimizer.sweep]; [reflexivity|].
  rewrite Hp. unfold pbind. rewrite IH. reflexivity.
Qed.

(** With constant folding, algebraic simplification, dead-code
    elimination, strength reduction and the peephole pass switched off,
    [optimize] returns the program it was given, whatever the remaining
    switches and thresholds are: the three passes left never change a
    tree. *)
Theorem optimizer_without_rewriting_passes_is_identity config statements :
  constant_folding config = false ->
  algebraic_simplification config = false ->
  dead_code_elimination config = false ->
  strength_reduction config = false ->
  peephole_optimization config = false ->
  Optimizer.optimize config statements = statements.
Proof.
  intros H1 H2 H3 H4 H5.
  unfold Optimizer.optimize, Optimizer.max_iterations. cbn [Optimizer.iterate].
  rewrite sweep_unchanged; [reflexivity|].
  unfold Optimizer.initialize_passes. rewrite H1, H2, H3, H4, H5. cbn [app].
  repeat apply Forall_app_2;
    repeat match goal with |- Forall _ (if ?c then _ else _) => destruct c end;
    repeat constructor; intros ss.
  - unfold CommonSubexpressionEliminator.run, pret. f_equal.
    apply map_unchanged, Forall_forall. intros s _.
    apply cse_process_stmt_unchanged.
  - unfold LoopOptimizer.run. apply pmap_unchanged.
    apply Forall_forall. intros s _. apply loop_optimize_stmt_unchanged.
  - unfold FunctionInliner.run, pret. f_equal.
    apply map_unchanged, Forall_forall. intros s _. apply inline_stmt_unchanged.
Qed.

Lemma optimizer_without_rewriting_passes_witness :
  Optimizer.optimize
    (mkOptimizerConfig false true false true true true 32 false true 10 false
                       false 3 true false false)
    Samples.program_add = Samples.program_add.
Proof.
  apply optimizer_without_rewriting_passes_is_identity; reflexivity.
Defined.

(** ** Programs without memory primitives *)

Lemma graph_pass_never_throws fuel statements :
  triple (fun _ => True)
         (cfg_entry <- Analyzer.build_cfg statements ;;
          Analyzer.perform_dataflow_analysis (S fuel) cfg_entry)%analyzer
         (fun _ _ => True) never False.
Proof.
  intros st _. unfold abind.
  pose proof (core_build_cfg (core st) statements st eq_refl) as H.
  destruct (Analyzer.build_cfg statements st) as [r st1| |]; try contradiction.
  destruct H as [Hc Hsrc]. destruct r as [e|]; [|exact I].
  rewrite dataflow_at_source by (apply Hsrc; reflexivity). exact I.
Qed.

Lemma plain_analysis_body tok fuel statements b :
  forallb inert statements = true ->
  triple (walk_inv ∅ b) (analysis_body (S fuel) statements)
         (fun _ _ => True) (leak_at tok) False.
Proof.
  intros Hinert. unfold analysis_body.
  eapply triple_abind.
  { apply (triple_for_each (walk_inv ∅ b)). intros s Hs.
    apply inert_analyze_stmt; [exact (forallb_In inert _ _ Hinert Hs)|].
    apply leak_records_empty. }
  intros ?. eapply triple_abind with (mid := fun _ _ => True).
  { intros st [Ha _]. unfold Analyzer.check_memory_leaks, abind, get.
    rewrite Ha, map_to_list_empty. exact I. }
  intros ?.
  eapply triple_conseq; [apply (graph_pass_never_throws fuel statements)|auto..].
  intros e st [].
Qed.

(** A program that calls no memory primitive is accepted: started with
    no allocation record, in either mode, [analyze] returns [true] with an
    empty error list. *)
Theorem plain_programs_are_accepted fuel statements this :
  forallb inert statements = true ->
  allocations this = ∅ ->
  exists st',
    Analyzer.analyze (S fuel) statements this = Some (true, st') /\
    errors st' = [].
Proof.
  intros Hinert Hthis. rewrite analyze_unfold.
  set (st := with_warnings (with_errors this []) []).
  assert (Hst : walk_inv ∅ (strict_mode this) st) by (split; [exact Hthis|reflexivity]).
  pose proof (plain_analysis_body (Token4 NIL "" 0 0) fuel statements _ Hinert st Hst)
    as H0.
  pose proof (plain_analysis_body (Token4 NIL "" 1 0) fuel statements _ Hinert st Hst)
    as H1.
  pose proof (errors_analysis_body (S fuel) statements st) as Herr.
  destruct (analysis_body (S fuel) statements st) as [u st1|e st1|];
    [|exfalso|contradiction].
  - cbn in Herr. rewrite Herr. eauto.
  - destruct H0 as [_ H0], H1 as [_ H1]. rewrite H0 in H1. discriminate H1.
Qed.

Lemma plain_programs_are_accepted_witness :
  exists st',
    Analyzer.analyze 1 Samples.program_add new_MemorySafetyAnalyzer = Some (true, st') /\
    errors st' = [].
Proof.
  apply plain_programs_are_accepted; reflexivity.
Defined.

(* ===================================================================== *)
(** * Further properties: what the graph analyses report                 *)
(* ===================================================================== *)

Section Quiet.
Variable w : list string.

Local Abbreviation stays_quiet m :=
  (triple (quiet w) m (fun _ => quiet w) never False).

Lemma clean_node_at st p :
  clean st -> allocations_out (Analyzer.node_at (cfg_nodes st) p) = ∅.
Proof.
  intros H. unfold Analyzer.node_at.
  destruct (cfg_nodes st !! p) as [n|] eqn:E; [|reflexivity].
  simpl. unfold clean in H. rewrite Forall_lookup in H. exact (H p n E).
Qed.

Lemma quiet_create_cfg_node t : stays_quiet (Analyzer.create_cfg_node t).
Proof.
  intros st [Hc Hw]. unfold Analyzer.create_cfg_node. split; [|exact Hw].
  unfold clean. cbn [cfg_nodes with_cfg]. apply Forall_app. split; [exact Hc|].
  constructor; [reflexivity|constructor].
Qed.

Lemma quiet_update_node p f :
  (forall n, allocations_out (f n) = allocations_out n) ->
  stays_quiet (Analyzer.update_node p f).
Proof.
  intros Hf. unfold Analyzer.update_node. apply triple_modify.
  intros st [Hc Hw]. split; [|exact Hw].
  unfold clean. cbn [cfg_nodes with_cfg]. apply Forall_alter; [exact Hc|].
  intros n _ Hn. rewrite Hf. exact Hn.
Qed.

Lemma quiet_connect_cfg_nodes from to :
  stays_quiet (Analyzer.connect_cfg_nodes from to).
Proof.
  unfold Analyzer.connect_cfg_nodes.
  apply triple_step; [|intros ?]; apply quiet_update_node; reflexivity.
Qed.

Lemma quiet_build_cfg_block_with rec ss exit :
  (forall s, In s ss -> forall x, stays_quiet (rec s x)) ->
  stays_quiet (Analyzer.build_cfg_block_with rec ss exit).
Proof.
  intros H. unfold Analyzer.build_cfg_block_with.
  match goal with
  | |- context [abind (?go ss None None) ?k] =>
      assert (G : forall l first prev,
                 (forall s, In s l -> forall x, stays_quiet (rec s x)) ->
                 stays_quiet (go l first prev));
        [|destruct ss as [|s0 ss0]; [apply triple_aret; auto|];
          apply (triple_step (quiet w) (go (s0 :: ss0) None None) k);
          [exact (G _ None None H)|]]
  end.
  - induction l as [|s l IH]; intros first prev Hl.
    + apply triple_aret. auto.
    + apply triple_step; [apply Hl; left; reflexivity|].
      intros n. apply triple_step.
      * destruct prev, n; try (apply triple_aret; auto).
        apply quiet_connect_cfg_nodes.
      * intros _. apply IH. intros s' Hs'. apply Hl. right. exact Hs'.
  - intros [first prev]. cbn [fst snd].
    apply triple_step; [|intros ?; apply triple_aret; auto].
    destruct prev; [apply quiet_connect_cfg_nodes|apply triple_aret; auto].
Qed.

Ltac quiet_step :=
  match goal with
  | |- triple _ (abind _ _) _ _ _ => apply triple_step; [|intros ?]
  | |- triple _ (aret _) _ _ _ => apply triple_aret; auto
  | |- triple _ (Analyzer.create_cfg_node _) _ _ _ => apply quiet_create_cfg_node
  | |- triple _ (Analyzer.update_node _ _) _ _ _ =>
      apply quiet_update_node; reflexivity
  | |- triple _ (Analyzer.connect_cfg_nodes _ _) _ _ _ =>
      apply quiet_connect_cfg_nodes
  | |- triple _ (match ?c with _ => _ end) _ _ _ => destruct c
  end.

Lemma quiet_build_cfg_stmt s : forall x, stays_quiet (Analyzer.build_cfg_stmt s x).
Proof.
  induction s using Stmt_nested_ind; intros x; cbn [Analyzer.build_cfg_stmt];
    try solve [repeat quiet_step].
  - apply quiet_build_cfg_block_with. intros s Hs.
    rewrite Forall_forall in H. apply H. apply list_elem_of_In. exact Hs.
  - repeat quiet_step; auto.
  - repeat quiet_step; auto.
Qed.

Lemma quiet_build_cfg_block ss x : stays_quiet (Analyzer.build_cfg_block ss x).
Proof.
  apply quiet_build_cfg_block_with. intros s _. apply quiet_build_cfg_stmt.
Qed.

Lemma quiet_build_cfg statements : stays_quiet (Analyzer.build_cfg statements).
Proof.
  unfold Analyzer.build_cfg. destruct statements as [|s0 ss0];
    [apply triple_aret; auto|].
  repeat quiet_step. apply quiet_build_cfg_block.
Qed.


Lemma triple_both {A} P P' (m : M A) Q Q' (oof : Prop) :
  triple P m Q never False -> triple P' m Q' never False ->
  triple (fun st => P st /\ P' st) m (fun a st => Q a st /\ Q' a st) never oof.
Proof.
  intros H H' st [Hp Hp']. specialize (H st Hp). specialize (H' st Hp').
  destruct (m st); auto; contradiction.
Qed.

(** The worklist pass from a source leaves a clean graph clean. *)
Lemma quiet_perform_dataflow_analysis c e fuel (oof : Prop) :
  (fuel = 0%nat -> oof) ->
  triple (fun st => cfg_ok c e st /\ quiet w st)
         (Analyzer.perform_dataflow_analysis fuel (Some e))
         (fun _ st => core st = c /\ quiet w st) never oof.
Proof.
  intros Hoof st [[Hc Hsrc] [Hcl Hw]]. destruct fuel as [|fuel].
  - simpl. unfold abind, get. simpl. apply Hoof. reflexivity.
  - rewrite dataflow_at_source by exact Hsrc.
    split; [exact Hc|]. split; [|exact Hw].
    unfold clean. cbn [cfg_nodes with_cfg]. apply Forall_alter; [exact Hcl|].
    intros n Hn _. destruct Hsrc as (_ & Hp & Hs & _).
    unfold Analyzer.node_at, CFGNodePtr in Hp, Hs. rewrite Hn in Hp, Hs. simpl in Hp, Hs.
    rewrite propagate_node_source by assumption. reflexivity.
Qed.

(** A path that carries no record gives no warning. *)
Lemma analyze_path_memory_safety_empty path st :
  final_allocations path = ∅ ->
  Analyzer.analyze_path_memory_safety path st = Done tt st.
Proof.
  intros H. unfold Analyzer.analyze_path_memory_safety.
  destruct (negb _); [reflexivity|]. rewrite H, map_to_list_empty. reflexivity.
Qed.

Lemma quiet_interprocedural_rest c e fuel name body (oof : Prop) :
  (fuel = 0%nat -> oof) ->
  triple (fun st => cfg_ok c e st /\ quiet w st)
         (interprocedural_rest fuel name body e)
         (fun _ st => core st = c /\ quiet w st) never oof.
Proof.
  intros Hoof. unfold interprocedural_rest.
  eapply triple_abind;
    [apply triple_both; [apply cfg_create_cfg_node|apply quiet_create_cfg_node]|].
  intros func_exit.
  apply (triple_conseq (fun st => (cfg_ok c e st /\ quiet w st) /\ func_exit <> e)
           _ _ (fun _ st => core st = c /\ quiet w st) _ never never oof oof);
    [|tauto|auto|auto|auto].
  apply triple_pure. intros Hexit.
  eapply triple_abind.
  { apply triple_modify.
    instantiate (1 := fun _ st => cfg_ok c e st /\ quiet w st).
    intros st Hst. exact Hst. }
  intros ?. eapply triple_abind;
    [apply triple_both;
     [apply cfg_build_cfg_block; exact Hexit|apply quiet_build_cfg_block]|].
  intros body_node.
  apply (triple_conseq (fun st => (cfg_ok c e st /\ quiet w st) /\ fresh e body_node)
           _ _ (fun _ st => core st = c /\ quiet w st) _ never never oof oof);
    [|tauto|auto|auto|auto].
  apply triple_pure. intros Hbody.
  eapply triple_abind;
    [apply triple_both;
     [apply cfg_connect_cfg_nodes, fresh_default; assumption
     |apply quiet_connect_cfg_nodes]|].
  intros ?. eapply triple_abind;
    [apply quiet_perform_dataflow_analysis; exact Hoof|].
  intros ?. apply triple_get_bind. intros s [Hc [Hcl Hw]].
  intros st ->.
  destruct (enumerate_paths_recursive_found (cfg_nodes s) func_exit
              (S Analyzer.MAX_PATH_DEPTH) e [] ∅ []) as (new & E & Hnew).
  unfold Analyzer.enumerate_all_paths. rewrite E. cbn [app].
  assert (G : for_each Analyzer.analyze_path_memory_safety new s = Done tt s).
  { clear E. induction new as [|p new IH]; [reflexivity|].
    cbn [for_each]. unfold abind.
    apply Forall_cons in Hnew. destruct Hnew as [Hp Hnew].
    rewrite analyze_path_memory_safety_empty; [exact (IH Hnew)|].
    destruct Hp as (rest & _ & _ & _ & _ & _ & _ & Hfa & _).
    rewrite Hfa. apply clean_node_at. exact Hcl. }
  rewrite G. split; [exact Hc|]. split; [exact Hcl|exact Hw].
Qed.

(** [perform_interprocedural_analysis] on a clean graph: nothing but the
    graph changes. *)
Lemma quiet_perform_interprocedural_analysis c fuel name body (oof : Prop) :
  (fuel = 0%nat -> oof) ->
  triple (fun st => core st = c /\ quiet w st)
         (Analyzer.perform_interprocedural_analysis fuel name body)
         (fun _ st => core st = c /\ quiet w st) never oof.
Proof.
  intros Hoof st [Hc Hq].
  change (Analyzer.perform_interprocedural_analysis fuel name body st)
    with (interprocedural_rest fuel name body (length (cfg_nodes st))
            (with_cfg st (next_cfg_node_id st + 1)
               (cfg_nodes st
                ++ [new_ControlFlowNode NodeType.FUNCTION_CALL (next_cfg_node_id st)]))).
  apply (quiet_interprocedural_rest c _ fuel name body oof Hoof).
  split; [split; [exact Hc|apply source_created]|].
  exact (quiet_create_cfg_node NodeType.FUNCTION_CALL st Hq).
Qed.

End Quiet.

(** On a graph out of whose nodes nothing flows,
    [perform_interprocedural_analysis] returns with one unit of fuel, adds
    no warning, leaves the walk's part of the state alone, and the graph is
    as clean as before: the path analysis has nothing to report. *)
Theorem path_analysis_reports_nothing fuel name body st :
  clean st ->
  exists st',
    Analyzer.perform_interprocedural_analysis (S fuel) name body st = Done tt st' /\
    warnings st' = warnings st /\ core st' = core st /\ clean st'.
Proof.
  intros Hcl.
  pose proof (quiet_perform_interprocedural_analysis (warnings st) (core st)
                (S fuel) name body False ltac:(discriminate) st
                (conj eq_refl (conj Hcl eq_refl))) as H.
  destruct (Analyzer.perform_interprocedural_analysis (S fuel) name body st)
    as [[] st'|err st'|]; try contradiction.
  destruct H as (Hc & Hcl' & Hw). exists st'. auto.
Qed.

Section Unreported.

Local Abbreviation tells_nothing m :=
  (triple unreported m (fun _ => unreported) (fun _ => unreported) True).

Lemma unreported_push_warning w :
  graph_warning w = false -> tells_nothing (push_warning w).
Proof.
  intros Hw. apply triple_modify. intros st [Hc Hf]. split; [exact Hc|].
  cbn [warnings with_warnings]. apply Forall_app. split; [exact Hf|].
  constructor; [exact Hw|constructor].
Qed.

(** What is true of [m] at every list of warnings is true of it when
    neither graph warning is on the list. *)
Lemma unreported_of_quiet {A} (m : M A) :
  (forall w c, triple (fun st => core st = c /\ quiet w st) m
                      (fun _ st => core st = c /\ quiet w st) never True) ->
  tells_nothing m.
Proof.
  intros H st [Hc Hf].
  specialize (H (warnings st) (core st) st (conj eq_refl (conj Hc eq_refl))).
  destruct (m st) as [a st'|err st'|]; [|contradiction|exact I].
  destruct H as (_ & Hc' & Hw). split; [exact Hc'|]. rewrite Hw. exact Hf.
Qed.

Ltac leaves :=
  unfold Analyzer.enter_scope, Analyzer.exit_scope,
    Analyzer.check_variable_access, Analyzer.update_pointer_states_on_free,
    Analyzer.analyze_free, Analyzer.analyze_deref, Analyzer.analyze_var_stmt,
    Analyzer.check_function_memory_leaks, Analyzer.check_memory_leaks,
    Analyzer.revert_then_only, Analyzer.analyze_call_with.

Ltac told_step :=
  match goal with
  | |- triple _ (abind get _) _ _ _ => apply triple_read; intros ? ?
  | |- triple _ (abind _ _) _ _ _ => apply triple_step; [|intros ?]
  | |- triple _ (aret _) _ _ _ => apply triple_aret; auto
  | |- triple _ (throw _) _ _ _ => apply triple_throw; auto
  | |- triple _ out_of_fuel _ _ _ => apply triple_out_of_fuel; exact I
  | |- triple _ (when _ _) _ _ _ => apply triple_when
  | |- triple _ (for_each _ _) _ _ _ => apply triple_for_each; intros ? ?
  | |- triple _ (push_warning _) _ _ _ =>
      apply unreported_push_warning; reflexivity
  | |- triple _ (modify _) _ _ _ =>
      apply triple_modify; intros ? ?;
      repeat match goal with
             | |- context [match ?c with _ => _ end] => destruct c
             end; assumption
  | |- triple _ (match ?c with _ => _ end) _ _ _ => destruct c
  | |- triple _ (let '(_, _) := ?x in _) _ _ _ => destruct x
  | |- triple _ _ _ _ _ => progress leaves
  end.
Ltac told := leaves; repeat told_step; auto.

Lemma unreported_analyze_expr e : tells_nothing (Analyzer.analyze_expr e).
Proof.
  induction e using Expr_nested_ind; cbn [Analyzer.analyze_expr];
    try solve [told].
  - told. rewrite Forall_forall in H. apply H. apply list_elem_of_In. assumption.
  - told. rewrite Forall_forall in H. apply H. apply list_elem_of_In. assumption.
Qed.


Lemma unreported_perform_interprocedural_analysis fuel name body :
  tells_nothing (Analyzer.perform_interprocedural_analysis fuel name body).
Proof.
  apply unreported_of_quiet. intros w c.
  apply quiet_perform_interprocedural_analysis. auto.
Qed.

Ltac silent_step :=
  match goal with
  | |- triple _ (Analyzer.analyze_expr _) _ _ _ => apply unreported_analyze_expr
  | |- triple _ (Analyzer.perform_interprocedural_analysis _ _ _) _ _ _ =>
      apply unreported_perform_interprocedural_analysis
  | _ => told_step
  end.
Ltac silent := repeat silent_step; auto.

Lemma unreported_analyze_stmt fuel s : tells_nothing (Analyzer.analyze_stmt fuel s).
Proof.
  induction s using Stmt_nested_ind; cbn [Analyzer.analyze_stmt];
    try solve [silent].
  - (* Block *)
    silent. rewrite Forall_forall in H. apply H. apply list_elem_of_In. assumption.
  - (* FunctionStmt *)
    silent. rewrite Forall_forall in H. apply H. apply list_elem_of_In. assumption.
  - (* SwitchStmt *)
    apply triple_step; [silent|]. intros _.
    apply triple_step.
    + apply triple_for_each. intros [v ss] Hin.
      rewrite Forall_forall in H.
      specialize (H _ (proj2 (list_elem_of_In _ _) Hin)).
      cbn [case_statements] in H. rewrite Forall_forall in H.
      silent. apply H. apply list_elem_of_In. assumption.
    + intros _. destruct d as [ss|]; [|silent].
      specialize (H0 ss eq_refl). rewrite Forall_forall in H0.
      silent. apply H0. apply list_elem_of_In. assumption.
  - (* UnsafeBlock *)
    silent. rewrite Forall_forall in H. apply H. apply list_elem_of_In. assumption.
Qed.

(** The graph of the whole program and the worklist pass over it. *)
Lemma unreported_graph_pass fuel statements :
  tells_nothing (cfg_entry <- Analyzer.build_cfg statements ;;
                 Analyzer.perform_dataflow_analysis fuel cfg_entry)%analyzer.
Proof.
  apply unreported_of_quiet. intros w c.
  eapply triple_abind.
  - apply triple_both; [apply core_build_cfg|apply quiet_build_cfg].
  - intros [e|].
    + intros st [[Hc Hsrc] Hq].
      apply (quiet_perform_dataflow_analysis w c e fuel True); [auto|].
      split; [split; [exact Hc|apply Hsrc; reflexivity]|exact Hq].
    + apply triple_aret. tauto.
Qed.

Lemma unreported_analysis_body fuel statements :
  tells_nothing (analysis_body fuel statements).
Proof.
  unfold analysis_body.
  apply triple_step; [apply triple_for_each; intros; apply unreported_analyze_stmt|].
  intros _. apply triple_step; [told|].
  intros _. apply unreported_graph_pass.
Qed.

End Unreported.

Lemma path_analysis_reports_nothing_witness :
  clean new_MemorySafetyAnalyzer /\
  exists st',
    Analyzer.perform_interprocedural_analysis
      1 (Token4 IDENTIFIER "f" 1 5) Samples.program_if_free new_MemorySafetyAnalyzer
    = Done tt st' /\
    warnings st' = warnings new_MemorySafetyAnalyzer /\
    core st' = core new_MemorySafetyAnalyzer /\ clean st'.
Proof.
  split; [constructor|].
  apply (path_analysis_reports_nothing 0). constructor.
Defined.

(** Run on an analyzer out of whose graph nothing flows, as a new one is,
    [analyze] returns, whatever the program and the verdict, without
    either warning of the graph analyses: neither the worklist's
    use-after-free warning nor the path analysis' leak warning is on the
    list, and the graph is as clean as before. *)
Theorem graph_warnings_are_never_given fuel statements this :
  clean this ->
  exists verdict st',
    Analyzer.analyze (S fuel) statements this = Some (verdict, st') /\
    Forall (fun w => graph_warning w = false) (warnings st') /\ clean st'.
Proof.
  intros Hcl. rewrite analyze_unfold.
  pose proof (unreported_analysis_body (S fuel) statements
                (with_warnings (with_errors this []) [])
                (conj Hcl (Forall_nil_2 _))) as H.
  pose proof (halts_analysis_body fuel statements
                (with_warnings (with_errors this []) [])) as Hh.
  destruct (analysis_body (S fuel) statements _) as [u st'|err st'|];
    [| |contradiction].
  - eexists _, st'. split; [reflexivity|]. destruct H. auto.
  - eexists _, _. split; [reflexivity|]. destruct H. auto.
Qed.

Lemma graph_warnings_are_never_given_witness :
  clean new_MemorySafetyAnalyzer /\
  exists verdict st',
    Analyzer.analyze 1 Samples.program_unsafe_function new_MemorySafetyAnalyzer
    = Some (verdict, st') /\
    Forall (fun w => graph_warning w = false) (warnings st') /\ clean st'.
Proof.
  split; [constructor|].
  apply (graph_warnings_are_never_given 0). constructor.
Defined.

(* ===================================================================== *)
(** * The join of the dataflow pass                                      *)
(* ===================================================================== *)

Section Blank.

Local Abbreviation stays_blank m := (triple blank m (fun _ => blank) never False).

Lemma blank_node_at st p :
  blank st ->
  allocations_in (Analyzer.node_at (cfg_nodes st) p) = ∅ /\
  allocations_out (Analyzer.node_at (cfg_nodes st) p) = ∅.
Proof.
  intros H. unfold Analyzer.node_at.
  destruct (cfg_nodes st !! p) as [n|] eqn:E; [|split; reflexivity].
  simpl. unfold blank in H. rewrite Forall_lookup in H. exact (H p n E).
Qed.

Lemma blank_create_cfg_node t : stays_blank (Analyzer.create_cfg_node t).
Proof.
  intros st Hb. unfold Analyzer.create_cfg_node.
  unfold blank. cbn [cfg_nodes with_cfg]. apply Forall_app. split; [exact Hb|].
  constructor; [split; reflexivity|constructor].
Qed.

Lemma blank_update_node p f :
  (forall n, allocations_in (f n) = allocations_in n /\
             allocations_out (f n) = allocations_out n) ->
  stays_blank (Analyzer.update_node p f).
Proof.
  intros Hf. unfold Analyzer.update_node. apply triple_modify.
  intros st Hb. unfold blank. cbn [cfg_nodes with_cfg].
  apply Forall_alter; [exact Hb|].
  intros n _ Hn. destruct (Hf n) as [-> ->]. exact Hn.
Qed.

Lemma blank_connect_cfg_nodes from to :
  stays_blank (Analyzer.connect_cfg_nodes from to).
Proof.
  unfold Analyzer.connect_cfg_nodes.
  apply triple_step; [|intros ?]; apply blank_update_node; split; reflexivity.
Qed.

Lemma blank_build_cfg_block_with rec ss exit :
  (forall s, In s ss -> forall x, stays_blank (rec s x)) ->
  stays_blank (Analyzer.build_cfg_block_with rec ss exit).
Proof.
  intros H. unfold Analyzer.build_cfg_block_with.
  match goal with
  | |- context [abind (?go ss None None) ?k] =>
      assert (G : forall l first prev,
                 (forall s, In s l -> forall x, stays_blank (rec s x)) ->
                 stays_blank (go l first prev));
        [|destruct ss as [|s0 ss0]; [apply triple_aret; auto|];
          apply (triple_step blank (go (s0 :: ss0) None None) k);
          [exact (G _ None None H)|]]
  end.
  - induction l as [|s l IH]; intros first prev Hl.
    + apply triple_aret. auto.
    + apply triple_step; [apply Hl; left; reflexivity|].
      intros n. apply triple_step.
      * destruct prev, n; try (apply triple_aret; auto).
        apply blank_connect_cfg_nodes.
      * intros _. apply IH. intros s' Hs'. apply Hl. right. exact Hs'.
  - intros [first prev]. cbn [fst snd].
    apply triple_step; [|intros ?; apply triple_aret; auto].
    destruct prev; [apply blank_connect_cfg_nodes|apply triple_aret; auto].
Qed.

Ltac blank_step :=
  match goal with
  | |- triple _ (abind _ _) _ _ _ => apply triple_step; [|intros ?]
  | |- triple _ (aret _) _ _ _ => apply triple_aret; auto
  | |- triple _ (Analyzer.create_cfg_node _) _ _ _ => apply blank_create_cfg_node
  | |- triple _ (Analyzer.update_node _ _) _ _ _ =>
      apply blank_update_node; split; reflexivity
  | |- triple _ (Analyzer.connect_cfg_nodes _ _) _ _ _ =>
      apply blank_connect_cfg_nodes
  | |- triple _ (match ?c with _ => _ end) _ _ _ => destruct c
  end.

Lemma blank_build_cfg_stmt s : forall x, stays_blank (Analyzer.build_cfg_stmt s x).
Proof.
  induction s using Stmt_nested_ind; intros x; cbn [Analyzer.build_cfg_stmt];
    try solve [repeat blank_step].
  - apply blank_build_cfg_block_with. intros s Hs.
    rewrite Forall_forall in H. apply H. apply list_elem_of_In. exact Hs.
  - repeat blank_step; auto.
  - repeat blank_step; auto.
Qed.

Lemma blank_build_cfg_block ss x : stays_blank (Analyzer.build_cfg_block ss x).
Proof.
  apply blank_build_cfg_block_with. intros s _. apply blank_build_cfg_stmt.
Qed.

Lemma blank_build_cfg statements : stays_blank (Analyzer.build_cfg statements).
Proof.
  unfold Analyzer.build_cfg. destruct statements as [|s0 ss0];
    [apply triple_aret; auto|].
  repeat blank_step. apply blank_build_cfg_block.
Qed.

(** The one node the worklist pass touches gets two empty maps. *)
Lemma blank_perform_dataflow_analysis c e fuel :
  triple (fun st => cfg_ok c e st /\ blank st)
         (Analyzer.perform_dataflow_analysis fuel (Some e))
         (fun _ => blank) never True.
Proof.
  intros st [[Hc Hsrc] Hb]. destruct fuel as [|fuel].
  - simpl. unfold abind, get. simpl. exact I.
  - rewrite dataflow_at_source by exact Hsrc.
    unfold blank. cbn [cfg_nodes with_cfg]. apply Forall_alter; [exact Hb|].
    intros n Hn _. destruct Hsrc as (_ & Hp & Hs & _).
    unfold Analyzer.node_at, CFGNodePtr in Hp, Hs. rewrite Hn in Hp, Hs.
    simpl in Hp, Hs.
    rewrite propagate_node_source by assumption. split; reflexivity.
Qed.

Lemma blank_analyze_path_memory_safety path :
  triple blank (Analyzer.analyze_path_memory_safety path) (fun _ => blank)
         never True.
Proof.
  unfold Analyzer.analyze_path_memory_safety. destruct (negb _).
  - apply triple_aret. auto.
  - apply triple_for_each. intros [var alloc] _. apply triple_when.
    apply triple_modify. intros st Hst. exact Hst.
Qed.


Lemma blank_interprocedural_rest c e fuel name body :
  triple (fun st => cfg_ok c e st /\ blank st)
         (interprocedural_rest fuel name body e)
         (fun _ => blank) never True.
Proof.
  unfold interprocedural_rest.
  eapply triple_abind;
    [apply triple_both; [apply cfg_create_cfg_node|apply blank_create_cfg_node]|].
  intros func_exit.
  apply (triple_conseq (fun st => (cfg_ok c e st /\ blank st) /\ func_exit <> e)
           _ _ (fun _ => blank) _ never never True True);
    [|tauto|auto|auto|auto].
  apply triple_pure. intros Hexit.
  eapply triple_abind.
  { apply triple_modify.
    instantiate (1 := fun _ st => cfg_ok c e st /\ blank st).
    intros st Hst. exact Hst. }
  intros ?. eapply triple_abind;
    [apply triple_both;
     [apply cfg_build_cfg_block; exact Hexit|apply blank_build_cfg_block]|].
  intros body_node.
  apply (triple_conseq (fun st => (cfg_ok c e st /\ blank st) /\ fresh e body_node)
           _ _ (fun _ => blank) _ never never True True);
    [|tauto|auto|auto|auto].
  apply triple_pure. intros Hbody.
  eapply triple_abind;
    [apply triple_both;
     [apply cfg_connect_cfg_nodes, fresh_default; assumption
     |apply blank_connect_cfg_nodes]|].
  intros ?. eapply triple_abind; [apply blank_perform_dataflow_analysis|].
  intros ?. apply triple_read. intros s Hs.
  apply triple_for_each. intros path _. apply blank_analyze_path_memory_safety.
Qed.

Lemma blank_perform_interprocedural_analysis fuel name body :
  triple blank (Analyzer.perform_interprocedural_analysis fuel name body)
         (fun _ => blank) never True.
Proof.
  intros st Hb.
  change (Analyzer.perform_interprocedural_analysis fuel name body st)
    with (interprocedural_rest fuel name body (length (cfg_nodes st))
            (with_cfg st (next_cfg_node_id st + 1)
               (cfg_nodes st
                ++ [new_ControlFlowNode NodeType.FUNCTION_CALL (next_cfg_node_id st)]))).
  apply (blank_interprocedural_rest (core st) _ fuel name body).
  split; [split; [reflexivity|apply source_created]|].
  exact (blank_create_cfg_node NodeType.FUNCTION_CALL st Hb).
Qed.

(** The walk does not touch the graph but through
    [perform_interprocedural_analysis]. *)
Local Abbreviation untouched m :=
  (triple blank m (fun _ => blank) (fun _ => blank) True).

Ltac leaves :=
  unfold Analyzer.enter_scope, Analyzer.exit_scope,
    Analyzer.check_variable_access, Analyzer.update_pointer_states_on_free,
    Analyzer.analyze_free, Analyzer.analyze_deref, Analyzer.analyze_var_stmt,
    Analyzer.check_function_memory_leaks, Analyzer.check_memory_leaks,
    Analyzer.revert_then_only, Analyzer.analyze_call_with, push_warning.

Ltac untouched_step :=
  match goal with
  | |- triple _ (Analyzer.analyze_expr _) _ _ _ => fail 1
  | |- triple _ (Analyzer.perform_interprocedural_analysis _ _ _) _ _ _ =>
      eapply triple_conseq;
      [apply blank_perform_interprocedural_analysis|auto|auto|intros ? ? []|auto]
  | |- triple _ (abind get _) _ _ _ => apply triple_read; intros ? ?
  | |- triple _ (abind _ _) _ _ _ => apply triple_step; [|intros ?]
  | |- triple _ (aret _) _ _ _ => apply triple_aret; auto
  | |- triple _ (throw _) _ _ _ => apply triple_throw; auto
  | |- triple _ out_of_fuel _ _ _ => apply triple_out_of_fuel; exact I
  | |- triple _ (when _ _) _ _ _ => apply triple_when
  | |- triple _ (for_each _ _) _ _ _ => apply triple_for_each; intros ? ?
  | |- triple _ (modify _) _ _ _ =>
      apply triple_modify; intros ? ?;
      repeat match goal with
             | |- context [match ?c with _ => _ end] => destruct c
             end; assumption
  | |- triple _ (match ?c with _ => _ end) _ _ _ => destruct c
  | |- triple _ (let '(_, _) := ?x in _) _ _ _ => destruct x
  | |- triple _ _ _ _ _ => progress leaves
  end.

Lemma untouched_analyze_expr e : untouched (Analyzer.analyze_expr e).
Proof.
  induction e using Expr_nested_ind; cbn [Analyzer.analyze_expr];
    try solve [leaves; repeat untouched_step; auto].
  - leaves; repeat untouched_step; auto.
    rewrite Forall_forall in H. apply H. apply list_elem_of_In. assumption.
  - leaves; repeat untouched_step; auto.
    rewrite Forall_forall in H. apply H. apply list_elem_of_In. assumption.
Qed.

Ltac walk_on :=
  repeat first [apply untouched_analyze_expr | untouched_step]; auto.

Lemma untouched_analyze_stmt fuel s : untouched (Analyzer.analyze_stmt fuel s).
Proof.
  induction s using Stmt_nested_ind; cbn [Analyzer.analyze_stmt];
    try solve [walk_on].
  - walk_on. rewrite Forall_forall in H. apply H. apply list_elem_of_In. assumption.
  - walk_on. rewrite Forall_forall in H. apply H. apply list_elem_of_In. assumption.
  - apply triple_step; [walk_on|]. intros _.
    apply triple_step.
    + apply triple_for_each. intros [v ss] Hin.
      rewrite Forall_forall in H.
      specialize (H _ (proj2 (list_elem_of_In _ _) Hin)).
      cbn [case_statements] in H. rewrite Forall_forall in H.
      walk_on. apply H. apply list_elem_of_In. assumption.
    + intros _. destruct d as [ss|]; [|walk_on].
      specialize (H0 ss eq_refl). rewrite Forall_forall in H0.
      walk_on. apply H0. apply list_elem_of_In. assumption.
  - walk_on. rewrite Forall_forall in H. apply H. apply list_elem_of_In. assumption.
Qed.

Lemma untouched_graph_pass fuel statements :
  untouched (cfg_entry <- Analyzer.build_cfg statements ;;
             Analyzer.perform_dataflow_analysis fuel cfg_entry)%analyzer.
Proof.
  intros st Hb. unfold abind.
  pose proof (core_build_cfg (core st) statements st eq_refl) as H.
  pose proof (blank_build_cfg statements st Hb) as H'.
  destruct (Analyzer.build_cfg statements st) as [r st1| |]; try contradiction.
  destruct H as [Hc Hsrc]. destruct r as [e|]; [|exact H'].
  pose proof (blank_perform_dataflow_analysis (core st) e fuel st1
                (conj (conj Hc (Hsrc e eq_refl)) H')) as H2.
  destruct (Analyzer.perform_dataflow_analysis fuel (Some e) st1);
    [exact H2|contradiction|exact I].
Qed.

Lemma untouched_analysis_body fuel statements :
  untouched (analysis_body fuel statements).
Proof.
  unfold analysis_body.
  apply triple_step; [apply triple_for_each; intros; apply untouched_analyze_stmt|].
  intros _. apply triple_step; [leaves; repeat untouched_step; auto|].
  intros _. apply untouched_graph_pass.
Qed.

Lemma blank_joined st : blank st -> Forall (joined (cfg_nodes st)) (cfg_nodes st).
Proof.
  intros Hb. apply Forall_forall. intros n Hn.
  pose proof Hb as Hb'. unfold blank in Hb'. rewrite Forall_forall in Hb'.
  destruct (Hb' n Hn) as [Hin _]. unfold joined. rewrite Hin. split.
  - intros k. rewrite lookup_empty. split.
    + intros [a Ha]. discriminate Ha.
    + intros (p & _ & [a Ha]).
      rewrite (proj2 (blank_node_at st p Hb)), lookup_empty in Ha. discriminate Ha.
  - intros k a Ha. rewrite lookup_empty in Ha. discriminate Ha.
Qed.

End Blank.



(* ===================================================================== *)
(** * The fixed point of the pass pipeline                               *)
(* ===================================================================== *)

(** ** What an unflagged pass returns *)

Lemma pbind_set_modified_snd {B} (k : unit -> Pass B) :
  snd (pbind set_modified k) = true.
Proof. unfold pbind, set_modified. destruct (k tt). reflexivity. Qed.

Lemma pmap_tidies {A} (t : A -> A) (f : A -> Pass A) (l : list A) :
  Forall (flag_sound_upto t f) l -> flag_sound_upto (List.map t) (pmap f) l.
Proof.
  unfold flag_sound_upto. induction 1 as [|x l Hx _ IH]; simpl; [reflexivity|].
  intros H. apply pbind_snd_false in H. destruct H as [H1 H2].
  apply pbind_snd_false in H2. destruct H2 as [H2 _].
  rewrite !pbind_fst. simpl. rewrite (Hx H1) in *. rewrite (IH H2). reflexivity.
Qed.

Lemma pmap_option_tidies {A} (t : A -> A) (f : A -> Pass A) (o : option A) :
  (forall x, o = Some x -> flag_sound_upto t f x) ->
  flag_sound_upto (option_map t) (pmap_option f) o.
Proof.
  unfold flag_sound_upto. destruct o as [x|]; simpl; [|reflexivity].
  intros Hx H. apply pbind_snd_false in H. destruct H as [H1 _].
  rewrite pbind_fst. simpl. rewrite (Hx x eq_refl H1). reflexivity.
Qed.

Lemma pmap_blind {A} (t : A -> A) (f : A -> Pass A) (l : list A) :
  Forall (fun x => f (t x) = f x) l -> pmap f (List.map t l) = pmap f l.
Proof.
  induction 1 as [|x l Hx _ IH]; simpl; [reflexivity|]. rewrite Hx, IH. reflexivity.
Qed.

Lemma pmap_option_blind {A} (t : A -> A) (f : A -> Pass A) (o : option A) :
  (forall x, o = Some x -> f (t x) = f x) ->
  pmap_option f (option_map t o) = pmap_option f o.
Proof.
  destruct o as [x|]; simpl; [|reflexivity]. intros H. rewrite (H x eq_refl). reflexivity.
Qed.

(** Takes an unflagged sequence apart and rewrites with what is known of
    its steps. *)
Ltac unflagged_upto :=
  repeat match goal with
         | H : snd (pbind _ _) = false |- _ =>
             apply pbind_snd_false in H; destruct H
         end;
  repeat rewrite pbind_fst; simpl;
  repeat match goal with
         | H : snd ?m = false, S : flag_sound_upto _ _ _ |- _ =>
             rewrite (S H) in *; clear S
         end;
  repeat rewrite pbind_fst; simpl.

(** Closes a goal in which a flagged step is assumed unflagged. *)
Ltac flagged :=
  match goal with
  | H : snd (pbind set_modified _) = false |- _ =>
      rewrite pbind_set_modified_snd in H; discriminate H
  end.

Lemma pair_tidies (t : Expr -> Expr) (f : Expr -> Pass Expr) (kv : Expr * Expr) :
  flag_sound_upto t f (fst kv) -> flag_sound_upto t f (snd kv) ->
  flag_sound_upto (fun kv : Expr * Expr => let '(k, v) := kv in (t k, t v))
    (fun kv : Expr * Expr =>
       let '(k, v) := kv in
       (k' <- f k ;; v' <- f v ;; pret (k', v'))%pass) kv.
Proof.
  destruct kv as [k v]. unfold flag_sound_upto at 3. simpl. intros Hk Hv H.
  unflagged_upto. reflexivity.
Qed.

Lemma pairs_tidy (t : Expr -> Expr) (f : Expr -> Pass Expr) ps :
  Forall (fun kv : Expr * Expr => flag_sound_upto t f (fst kv) /\ flag_sound_upto t f (snd kv)) ps ->
  Forall (flag_sound_upto (fun kv : Expr * Expr => let '(k, v) := kv in (t k, t v))
    (fun kv : Expr * Expr =>
       let '(k, v) := kv in
       (k' <- f k ;; v' <- f v ;; pret (k', v'))%pass)) ps.
Proof.
  intros H. eapply Forall_impl; [exact H|].
  intros kv [Hk Hv]. apply pair_tidies; assumption.
Qed.

Lemma pairs_blind (t : Expr -> Expr) (f : Expr -> Pass Expr) ps :
  Forall (fun kv : Expr * Expr => f (t (fst kv)) = f (fst kv) /\ f (t (snd kv)) = f (snd kv)) ps ->
  Forall (fun kv => (fun kv : Expr * Expr =>
       let '(k, v) := kv in
       (k' <- f k ;; v' <- f v ;; pret (k', v'))%pass)
       ((fun kv : Expr * Expr => let '(k, v) := kv in (t k, t v)) kv) =
       (fun kv : Expr * Expr =>
       let '(k, v) := kv in
       (k' <- f k ;; v' <- f v ;; pret (k', v'))%pass) kv) ps.
Proof.
  intros H. eapply Forall_impl; [exact H|].
  intros [k v] [Hk Hv]. simpl in *. rewrite Hk, Hv. reflexivity.
Qed.

(** An unflagged folder has only removed parentheses and null
    statements, and it does not see whether they were there. *)
Lemma fold_expr_tidies e : flag_sound_upto tidy_expr ConstantFolder.fold_expr e.
Proof.
  induction e using Expr_nested_ind; unfold flag_sound_upto;
    cbn [ConstantFolder.fold_expr tidy_expr]; try reflexivity; intros Hflag.
  - unflagged_upto. reflexivity.
  - apply pbind_snd_false in Hflag. destruct Hflag as [H1 H2].
    apply pbind_snd_false in H2. destruct H2 as [H2 H3].
    rewrite !pbind_fst. rewrite (IHe1 H1), (IHe2 H2) in *.
    destruct (tidy_expr e1) as [[] ?| | | | | | | | | | |]; try reflexivity;
      destruct (tidy_expr e2) as [[] ?| | | | | | | | | | |]; try reflexivity;
      flagged.
  - apply pbind_snd_false in Hflag. destruct Hflag as [H1 H2].
    rewrite !pbind_fst. rewrite (IHe H1) in *.
    destruct (tidy_expr e); try reflexivity; flagged.
  - apply pbind_snd_false in Hflag. destruct Hflag as [H1 H2].
    apply pbind_snd_false in H2. destruct H2 as [H2 H3].
    rewrite !pbind_fst. rewrite (IHe1 H1), (IHe2 H2) in *.
    destruct (tidy_expr e1); try reflexivity.
    destruct (type op); try reflexivity; flagged.
  - pose proof (pmap_tidies _ _ _ H). unflagged_upto. reflexivity.
  - exact (IHe Hflag).
  - pose proof (pmap_tidies _ _ _ H). unflagged_upto. reflexivity.
  - unflagged_upto. reflexivity.
  - unflagged_upto. reflexivity.
  - pose proof (pmap_tidies _ _ _ (pairs_tidy _ _ _ H)). unflagged_upto. reflexivity.
Qed.

Lemma fold_expr_blind e :
  ConstantFolder.fold_expr (tidy_expr e) = ConstantFolder.fold_expr e.
Proof.
  induction e using Expr_nested_ind;
    cbn [ConstantFolder.fold_expr tidy_expr]; try reflexivity;
    rewrite ?IHe, ?IHe1, ?IHe2, ?IHe3; try reflexivity.
  - rewrite (pmap_blind _ _ _ H). reflexivity.
  - rewrite (pmap_blind _ _ _ H). reflexivity.
  - rewrite (pmap_blind _ _ _ (pairs_blind _ _ _ H)). reflexivity.
Qed.

Lemma list_tidies (f : Stmt -> Pass Stmt) (l : list Stmt) :
  Forall (flag_sound_upto tidy_stmt f) l ->
  snd (pmap f l) = false -> keep_non_null (fst (pmap f l)) = tidy l.
Proof.
  intros H Hflag. rewrite (pmap_tidies _ _ _ H Hflag). reflexivity.
Qed.

Lemma list_run_tidies (f : Stmt -> Pass Stmt) (l : list Stmt) :
  Forall (flag_sound_upto tidy_stmt f) l ->
  flag_sound_upto tidy (fun l => (r <- pmap f l ;; pret (keep_non_null r))%pass) l.
Proof.
  intros H Hflag. apply pbind_snd_false in Hflag. destruct Hflag as [H1 _].
  rewrite pbind_fst. apply (list_tidies _ _ H H1).
Qed.

Lemma list_blind (f : Stmt -> Pass Stmt) (l : list Stmt) :
  f NullStmt = (NullStmt, false) ->
  Forall (fun s => f (tidy_stmt s) = f s) l ->
  (r <- pmap f (tidy l) ;; pret (keep_non_null r))%pass
  = (r <- pmap f l ;; pret (keep_non_null r))%pass.
Proof.
  intros Hnull. unfold tidy.
  induction 1 as [|s l Hs _ IH]; [reflexivity|].
  cbn [List.map keep_non_null List.filter pmap].
  destruct (non_null (tidy_stmt s)) eqn:Hn.
  - cbn [pmap]. rewrite Hs. fold (keep_non_null (List.map tidy_stmt l)).
    revert IH. unfold pbind, pret.
    destruct (f s) as [y m1].
    destruct (pmap f (keep_non_null (List.map tidy_stmt l))) as [ys m2].
    destruct (pmap f l) as [zs m3].
    cbn [keep_non_null List.filter]. intros IH. inversion IH; subst.
    rewrite !orb_false_r in *. subst. unfold keep_non_null in *.
    destruct (non_null y); congruence.
  - fold (keep_non_null (List.map tidy_stmt l)). rewrite IH.
    destruct (tidy_stmt s) eqn:Ht; try discriminate.
    rewrite <- Hs, Hnull. unfold pbind, pret. destruct (pmap f l) as [zs m3].
    cbn [keep_non_null List.filter non_null]. destruct m3; reflexivity.
Qed.

Lemma clause_tidies (fe : Expr -> Pass Expr) (f : Stmt -> Pass Stmt) cl :
  (forall e, flag_sound_upto tidy_expr fe e) ->
  Forall (flag_sound_upto tidy_stmt f) (case_statements cl) ->
  flag_sound_upto
    (fun cl : CaseClauseT =>
       let '(CaseClause v ss) := cl in CaseClause (tidy_expr v) (tidy ss))
    (fun c : CaseClauseT =>
       let '(CaseClause v ss) := c in
       (val <- fe v ;;
        stmts <- (r <- pmap f ss ;; pret (keep_non_null r)) ;;
        pret (CaseClause val stmts))%pass) cl.
Proof.
  destruct cl as [v ss]. intros He Hs. pose proof (He v) as Hv.
  cbn [case_statements] in Hs. pose proof (list_tidies _ _ Hs) as Hl.
  unfold flag_sound_upto in *. intros Hflag.
  apply pbind_snd_false in Hflag. destruct Hflag as [H1 H2].
  apply pbind_snd_false in H2. destruct H2 as [H2 _].
  apply pbind_snd_false in H2. destruct H2 as [H2 _].
  rewrite !pbind_fst. cbn [fst pret]. rewrite (Hv H1), (Hl H2). reflexivity.
Qed.

Lemma clause_blind (fe : Expr -> Pass Expr) (f : Stmt -> Pass Stmt) cl :
  (forall e, fe (tidy_expr e) = fe e) ->
  f NullStmt = (NullStmt, false) ->
  Forall (fun s => f (tidy_stmt s) = f s) (case_statements cl) ->
  (fun c : CaseClauseT =>
       let '(CaseClause v ss) := c in
       (val <- fe v ;;
        stmts <- (r <- pmap f ss ;; pret (keep_non_null r)) ;;
        pret (CaseClause val stmts))%pass)
    ((fun cl : CaseClauseT =>
       let '(CaseClause v ss) := cl in CaseClause (tidy_expr v) (tidy ss)) cl)
  = (fun c : CaseClauseT =>
       let '(CaseClause v ss) := c in
       (val <- fe v ;;
        stmts <- (r <- pmap f ss ;; pret (keep_non_null r)) ;;
        pret (CaseClause val stmts))%pass) cl.
Proof.
  destruct cl as [v ss]. intros He Hn Hs. cbn [case_statements] in Hs. cbn beta iota.
  rewrite He, (list_blind f ss Hn Hs). reflexivity.
Qed.

Lemma fold_stmt_tidies s : flag_sound_upto tidy_stmt ConstantFolder.fold_stmt s.
Proof.
  pose proof fold_expr_tidies as He.
  pose proof (fun o => pmap_option_tidies tidy_expr ConstantFolder.fold_expr o
                         (fun x _ => fold_expr_tidies x)) as Ho.
  induction s using Stmt_nested_ind; unfold flag_sound_upto;
    cbn [ConstantFolder.fold_stmt tidy_stmt]; try reflexivity; intros Hflag.
  - specialize (He e). unflagged_upto. reflexivity.
  - specialize (He e). unflagged_upto. reflexivity.
  - specialize (Ho i). unflagged_upto. reflexivity.
  - pose proof (list_tidies _ _ H) as Hl.
    apply pbind_snd_false in Hflag. destruct Hflag as [H1 _].
    apply pbind_snd_false in H1. destruct H1 as [H1 _].
    rewrite !pbind_fst. cbn [fst pret]. rewrite (Hl H1). reflexivity.
  - specialize (He c).
    pose proof (pmap_option_tidies tidy_stmt ConstantFolder.fold_stmt e H) as Hels.
    apply pbind_snd_false in Hflag. destruct Hflag as [H1 H2].
    rewrite pbind_fst. rewrite (He H1) in *.
    destruct (tidy_expr c); try flagged; unflagged_upto; reflexivity.
  - specialize (He c).
    apply pbind_snd_false in Hflag. destruct Hflag as [H1 H2].
    rewrite pbind_fst. rewrite (He H1) in *. cbv zeta in *.
    destruct (tidy_expr c) as [v t| | | | | | | | | | |];
      try (unflagged_upto; reflexivity).
    destruct (negb (ConstantFolder.cond_val v)); [flagged|].
    unflagged_upto. reflexivity.
  - pose proof (list_tidies _ _ H) as Hl.
    apply pbind_snd_false in Hflag. destruct Hflag as [H1 _].
    apply pbind_snd_false in H1. destruct H1 as [H1 _].
    rewrite !pbind_fst. cbn [fst pret]. rewrite (Hl H1). reflexivity.
  - specialize (Ho v). unflagged_upto. reflexivity.
  - specialize (He c).
    assert (Hcs : Forall (flag_sound_upto
       (fun cl : CaseClauseT =>
          let '(CaseClause v ss) := cl in CaseClause (tidy_expr v) (tidy ss))
       (fun c : CaseClauseT =>
          let '(CaseClause v ss) := c in
          (val <- ConstantFolder.fold_expr v ;;
           stmts <- (r <- pmap ConstantFolder.fold_stmt ss ;; pret (keep_non_null r)) ;;
           pret (CaseClause val stmts))%pass)) cs).
    { eapply Forall_impl; [exact H|]. intros cl Hcl.
      apply clause_tidies; [exact fold_expr_tidies|exact Hcl]. }
    pose proof (pmap_tidies _ _ _ Hcs) as Hcases.
    pose proof (pmap_option_tidies tidy
                  (fun l => (r <- pmap ConstantFolder.fold_stmt l ;;
                             pret (keep_non_null r))%pass) d
                  (fun ss Hd => list_run_tidies _ _ (H0 ss Hd))) as Hd.
    unfold flag_sound_upto in Hcases, Hd.
    apply pbind_snd_false in Hflag. destruct Hflag as [H1 H2].
    apply pbind_snd_false in H2. destruct H2 as [H2 H3].
    apply pbind_snd_false in H3. destruct H3 as [H3 _].
    rewrite !pbind_fst. rewrite (He H1) in *.
    unfold tidy in Hcases, Hd. rewrite (Hcases H2) in *. rewrite (Hd H3).
    reflexivity.
Qed.

Lemma fold_stmt_blind s :
  ConstantFolder.fold_stmt (tidy_stmt s) = ConstantFolder.fold_stmt s.
Proof.
  pose proof fold_expr_blind as He.
  induction s using Stmt_nested_ind;
    cbn [ConstantFolder.fold_stmt tidy_stmt]; try reflexivity;
    rewrite ?He; try reflexivity.
  - rewrite (pmap_option_blind _ _ i (fun x _ => He x)). reflexivity.
  - fold (tidy ss). rewrite (list_blind _ ss eq_refl H). reflexivity.
  - rewrite IHs. rewrite (pmap_option_blind _ _ e H).
    destruct e as [els|]; cbn [option_map]; [rewrite (H els eq_refl)|]; reflexivity.
  - rewrite IHs. reflexivity.
  - fold (tidy b). rewrite (list_blind _ b eq_refl H). reflexivity.
  - rewrite (pmap_option_blind _ _ v (fun x _ => He x)). reflexivity.
  - rewrite (pmap_blind _ _ cs).
    + rewrite (pmap_option_blind _ _ d); [reflexivity|].
      intros ss Hd. apply (list_blind _ ss eq_refl (H0 ss Hd)).
    + eapply Forall_impl; [exact H|]. intros cl Hcl.
      apply (clause_blind ConstantFolder.fold_expr ConstantFolder.fold_stmt cl He eq_refl Hcl).
Qed.

(** The same of the simplifier. *)
Lemma simplify_expr_tidies e :
  flag_sound_upto tidy_expr AlgebraicSimplifier.simplify_expr e.
Proof.
  induction e using Expr_nested_ind; unfold flag_sound_upto;
    cbn [AlgebraicSimplifier.simplify_expr tidy_expr]; try reflexivity; intros Hflag.
  - unflagged_upto. reflexivity.
  - apply pbind_snd_false in Hflag. destruct Hflag as [H1 H2].
    apply pbind_snd_false in H2. destruct H2 as [H2 H3].
    rewrite !pbind_fst. rewrite (IHe1 H1), (IHe2 H2) in *. cbv zeta in *.
    destruct (type op); try reflexivity;
      repeat match goal with
             | H : snd (if ?c then _ else _) = false |- _ =>
                 destruct c; [flagged|]
             end; try reflexivity.
    destruct (tidy_expr e2) as [[] ?| | | | | | | | | | |]; try reflexivity.
    repeat match goal with
           | H : snd (if ?c then _ else _) = false |- _ =>
               destruct c; [flagged|]
           end; reflexivity.
  - apply pbind_snd_false in Hflag. destruct Hflag as [H1 H2].
    rewrite !pbind_fst. rewrite (IHe H1) in *.
    destruct (type op); try reflexivity.
    destruct (tidy_expr e) as [| | | |inner_op inner_right| | | | | | |];
      try reflexivity.
    destruct (type inner_op); try reflexivity; flagged.
  - unflagged_upto. reflexivity.
  - pose proof (pmap_tidies _ _ _ H). unflagged_upto. reflexivity.
  - exact (IHe Hflag).
  - pose proof (pmap_tidies _ _ _ H). unflagged_upto. reflexivity.
  - unflagged_upto. reflexivity.
  - unflagged_upto. reflexivity.
  - pose proof (pmap_tidies _ _ _ (pairs_tidy _ _ _ H)). unflagged_upto. reflexivity.
Qed.

Lemma simplify_expr_blind e :
  AlgebraicSimplifier.simplify_expr (tidy_expr e) = AlgebraicSimplifier.simplify_expr e.
Proof.
  induction e using Expr_nested_ind;
    cbn [AlgebraicSimplifier.simplify_expr tidy_expr]; try reflexivity;
    rewrite ?IHe, ?IHe1, ?IHe2, ?IHe3; try reflexivity.
  - rewrite (pmap_blind _ _ _ H). reflexivity.
  - rewrite (pmap_blind _ _ _ H). reflexivity.
  - rewrite (pmap_blind _ _ _ (pairs_blind _ _ _ H)). reflexivity.
Qed.

Lemma simplify_stmt_tidies s :
  flag_sound_upto tidy_stmt AlgebraicSimplifier.simplify_stmt s.
Proof.
  pose proof simplify_expr_tidies as He.
  pose proof (fun o => pmap_option_tidies tidy_expr AlgebraicSimplifier.simplify_expr o
                         (fun x _ => simplify_expr_tidies x)) as Ho.
  induction s using Stmt_nested_ind; unfold flag_sound_upto;
    cbn [AlgebraicSimplifier.simplify_stmt tidy_stmt]; try reflexivity; intros Hflag.
  - specialize (He e). unflagged_upto. reflexivity.
  - specialize (He e). unflagged_upto. reflexivity.
  - specialize (Ho i). unflagged_upto. reflexivity.
  - pose proof (list_tidies _ _ H) as Hl.
    apply pbind_snd_false in Hflag. destruct Hflag as [H1 _].
    apply pbind_snd_false in H1. destruct H1 as [H1 _].
    rewrite !pbind_fst. cbn [fst pret]. rewrite (Hl H1). reflexivity.
  - specialize (He c).
    pose proof (pmap_option_tidies tidy_stmt AlgebraicSimplifier.simplify_stmt e H) as Hels.
    unflagged_upto. reflexivity.
  - specialize (He c). unflagged_upto. reflexivity.
  - pose proof (list_tidies _ _ H) as Hl.
    apply pbind_snd_false in Hflag. destruct Hflag as [H1 _].
    apply pbind_snd_false in H1. destruct H1 as [H1 _].
    rewrite !pbind_fst. cbn [fst pret]. rewrite (Hl H1). reflexivity.
  - specialize (Ho v). unflagged_upto. reflexivity.
  - specialize (He c).
    assert (Hcs : Forall (flag_sound_upto
       (fun cl : CaseClauseT =>
          let '(CaseClause v ss) := cl in CaseClause (tidy_expr v) (tidy ss))
       (fun c : CaseClauseT =>
          let '(CaseClause v ss) := c in
          (val <- AlgebraicSimplifier.simplify_expr v ;;
           stmts <- (r <- pmap AlgebraicSimplifier.simplify_stmt ss ;; pret (keep_non_null r)) ;;
           pret (CaseClause val stmts))%pass)) cs).
    { eapply Forall_impl; [exact H|]. intros cl Hcl.
      apply clause_tidies; [exact simplify_expr_tidies|exact Hcl]. }
    pose proof (pmap_tidies _ _ _ Hcs) as Hcases.
    pose proof (pmap_option_tidies tidy
                  (fun l => (r <- pmap AlgebraicSimplifier.simplify_stmt l ;;
                             pret (keep_non_null r))%pass) d
                  (fun ss Hd => list_run_tidies _ _ (H0 ss Hd))) as Hd.
    unfold flag_sound_upto in Hcases, Hd.
    apply pbind_snd_false in Hflag. destruct Hflag as [H1 H2].
    apply pbind_snd_false in H2. destruct H2 as [H2 H3].
    apply pbind_snd_false in H3. destruct H3 as [H3 _].
    rewrite !pbind_fst. rewrite (He H1) in *.
    unfold tidy in Hcases, Hd. rewrite (Hcases H2) in *. rewrite (Hd H3).
    reflexivity.
Qed.

Lemma simplify_stmt_blind s :
  AlgebraicSimplifier.simplify_stmt (tidy_stmt s) = AlgebraicSimplifier.simplify_stmt s.
Proof.
  pose proof simplify_expr_blind as He.
  induction s using Stmt_nested_ind;
    cbn [AlgebraicSimplifier.simplify_stmt tidy_stmt]; try reflexivity;
    rewrite ?He; try reflexivity.
  - rewrite (pmap_option_blind _ _ i (fun x _ => He x)). reflexivity.
  - fold (tidy ss). rewrite (list_blind _ ss eq_refl H). reflexivity.
  - rewrite IHs. rewrite (pmap_option_blind _ _ e H). reflexivity.
  - rewrite IHs. reflexivity.
  - fold (tidy b). rewrite (list_blind _ b eq_refl H). reflexivity.
  - rewrite (pmap_option_blind _ _ v (fun x _ => He x)). reflexivity.
  - rewrite (pmap_blind _ _ cs).
    + rewrite (pmap_option_blind _ _ d); [reflexivity|].
      intros ss Hd. apply (list_blind _ ss eq_refl (H0 ss Hd)).
    + eapply Forall_impl; [exact H|]. intros cl Hcl.
      apply (clause_blind AlgebraicSimplifier.simplify_expr AlgebraicSimplifier.simplify_stmt cl He eq_refl Hcl).
Qed.

(** ** The passes at the end of a sweep without a report *)

Lemma pass_unflagged {A B} (m : Pass A) (f : A -> Pass B) (y : B) :
  pbind m f = (y, false) -> exists x, m = (x, false) /\ f x = (y, false).
Proof.
  unfold pbind. destruct m as [x m1]. destruct (f x) as [b m2] eqn:E.
  intros H. inversion H as [[Hb Hm]]. apply orb_false_elim in Hm.
  destruct Hm as [-> ->]. exists x. subst b. split; [reflexivity|exact E].
Qed.

Lemma constant_folder_tidies x y :
  ConstantFolder.run x = (y, false) -> y = tidy x.
Proof.
  intros H. pose proof (f_equal snd H) as Hflag. pose proof (f_equal fst H) as Hy.
  simpl in Hflag, Hy. subst y.
  apply (list_run_tidies ConstantFolder.fold_stmt x); [|exact Hflag].
  apply Forall_forall. intros s _. apply fold_stmt_tidies.
Qed.

Lemma constant_folder_blind x :
  ConstantFolder.run (tidy x) = ConstantFolder.run x.
Proof.
  apply (list_blind ConstantFolder.fold_stmt x eq_refl).
  apply Forall_forall. intros s _. apply fold_stmt_blind.
Qed.

Lemma simplifier_tidies x y :
  AlgebraicSimplifier.run x = (y, false) -> y = tidy x.
Proof.
  intros H. pose proof (f_equal snd H) as Hflag. pose proof (f_equal fst H) as Hy.
  simpl in Hflag, Hy. subst y.
  apply (list_run_tidies AlgebraicSimplifier.simplify_stmt x); [|exact Hflag].
  apply Forall_forall. intros s _. apply simplify_stmt_tidies.
Qed.

Lemma simplifier_blind x :
  AlgebraicSimplifier.run (tidy x) = AlgebraicSimplifier.run x.
Proof.
  apply (list_blind AlgebraicSimplifier.simplify_stmt x eq_refl).
  apply Forall_forall. intros s _. apply simplify_stmt_blind.
Qed.

(** An unflagged run of the folder or of the simplifier returns a program
    that the same pass returns as it is, unflagged. *)
Lemma constant_folder_rests x y :
  ConstantFolder.run x = (y, false) -> ConstantFolder.run y = (y, false).
Proof.
  intros H. rewrite (constant_folder_tidies _ _ H) at 1.
  rewrite constant_folder_blind. exact H.
Qed.

Lemma simplifier_rests x y :
  AlgebraicSimplifier.run x = (y, false) -> AlgebraicSimplifier.run y = (y, false).
Proof.
  intros H. rewrite (simplifier_tidies _ _ H) at 1.
  rewrite simplifier_blind. exact H.
Qed.

(** The passes after the dead-code eliminator return their argument
    whenever they leave the flag down. *)
Lemma back_passes_honest cfg :
  Forall (fun p : list Stmt -> Pass (list Stmt) =>
            forall x y, p x = (y, false) -> y = x)
    ((if common_subexpression_elimination cfg
      then [CommonSubexpressionEliminator.run] else []) ++
     (if loop_unrolling cfg || loop_invariant_code_motion cfg
      then [LoopOptimizer.run cfg] else []) ++
     (if strength_reduction cfg then [StrengthReducer.run] else []) ++
     (if function_inlining cfg then [FunctionInliner.run] else []) ++
     (if peephole_optimization cfg then [PeepholeOptimizer.run] else [])).
Proof.
  repeat apply Forall_app_2;
    match goal with |- context [if ?b then _ else _] => destruct b end;
    repeat constructor; intros x y H.
  - unfold CommonSubexpressionEliminator.run, pret in H. inversion H.
    apply map_unchanged, Forall_forall. intros s _. apply cse_process_stmt_unchanged.
  - unfold LoopOptimizer.run in H. rewrite pmap_unchanged in H; [congruence|].
    apply Forall_forall. intros s _. apply loop_optimize_stmt_unchanged.
  - pose proof (pmap_flag_sound StrengthReducer.reduce_stmt x) as Hs.
    unfold flag_sound, StrengthReducer.run in *. rewrite H in Hs. apply Hs; [|reflexivity].
    apply Forall_forall. intros s _. apply reduce_stmt_sound.
  - unfold FunctionInliner.run, pret in H. inversion H.
    apply map_unchanged, Forall_forall. intros s _. apply inline_stmt_unchanged.
  - pose proof (pmap_flag_sound PeepholeOptimizer.optimize_stmt x) as Hs.
    unfold flag_sound, PeepholeOptimizer.run in *. rewrite H in Hs. apply Hs; [|reflexivity].
    apply Forall_forall. intros s _. apply peephole_optimize_stmt_sound.
Qed.

Lemma sweep_honest ps x y :
  Forall (fun p : list Stmt -> Pass (list Stmt) =>
            forall x y, p x = (y, false) -> y = x) ps ->
  Optimizer.sweep ps x = (y, false) -> y = x.
Proof.
  intros H. revert x. induction H as [|p ps Hp _ IH]; intros x Hs.
  - inversion Hs. reflexivity.
  - cbn [Optimizer.sweep] in Hs. apply pass_unflagged in Hs.
    destruct Hs as (x1 & H1 & H2). apply Hp in H1. subst x1. apply IH, H2.
Qed.

Lemma sweep_rests_cons p ps x :
  p x = (x, false) -> Optimizer.sweep ps x = (x, false) ->
  Optimizer.sweep (p :: ps) x = (x, false).
Proof.
  intros Hp Hs. cbn [Optimizer.sweep]. rewrite Hp. unfold pbind. rewrite Hs. reflexivity.
Qed.


(** ** Programs at rest under a pass *)

Lemma pbind_unflagged {A B} (x : A) (k : A -> Pass B) : pbind (x, false) k = k x.
Proof. unfold pbind. destruct (k x). reflexivity. Qed.

Lemma flagged_is_not_unflagged {B} (k : unit -> Pass B) (y : B) :
  pbind set_modified k = (y, false) -> False.
Proof.
  intros H. pose proof (pbind_set_modified_snd k) as Hk. rewrite H in Hk.
  discriminate Hk.
Qed.

Lemma pmap_unflagged_fixed {A} (f : A -> Pass A) (l : list A) :
  pmap f l = (l, false) -> Forall (fun x => f x = (x, false)) l.
Proof.
  induction l as [|x l IH]; [constructor|]. cbn [pmap]. intros H.
  apply pass_unflagged in H. destruct H as (y & Hy & H).
  apply pass_unflagged in H. destruct H as (ys & Hys & H).
  inversion H; subst. constructor; [exact Hy|exact (IH Hys)].
Qed.

Lemma pmap_option_unflagged_fixed {A} (f : A -> Pass A) (o : option A) :
  pmap_option f o = (o, false) -> forall x, o = Some x -> f x = (x, false).
Proof.
  intros H x ->. cbn [pmap_option] in H. apply pass_unflagged in H.
  destruct H as (y & Hy & H). inversion H; subst. exact Hy.
Qed.

Lemma pmap_option_unchanged {A} (f : A -> Pass A) (o : option A) :
  (forall x, o = Some x -> f x = (x, false)) -> pmap_option f o = (o, false).
Proof.
  destruct o as [x|]; cbn [pmap_option]; [|reflexivity].
  intros H. rewrite (H x eq_refl). reflexivity.
Qed.

Lemma filter_full {A} (p : A -> bool) (l : list A) :
  length (List.filter p l) = length l -> Forall (fun x => p x = true) l.
Proof.
  induction l as [|x l IH]; [constructor|]. cbn [List.filter].
  destruct (p x) eqn:Hx; cbn [length]; intros H.
  - constructor; [exact Hx|]. apply IH. congruence.
  - pose proof (List.filter_length_le p l). rewrite H in *.  lia.
Qed.

Lemma filter_all {A} (p : A -> bool) (l : list A) :
  Forall (fun x => p x = true) l -> List.filter p l = l.
Proof.
  induction 1 as [|x l Hx _ IH]; [reflexivity|]. cbn [List.filter].
  rewrite Hx, IH. reflexivity.
Qed.

Lemma pmap_length {A B} (f : A -> Pass B) (l : list A) :
  length (fst (pmap f l)) = length l.
Proof. rewrite pmap_fst. apply List.length_map. Qed.

(** A statement list at rest: every statement is returned as it is,
    unflagged, and none is the null statement. *)
Lemma list_rests_inv (f : Stmt -> Pass Stmt) (l : list Stmt) :
  (r <- pmap f l ;; pret (keep_non_null r))%pass = (l, false) ->
  Forall (fun s => f s = (s, false) /\ non_null s = true) l.
Proof.
  intros H. apply pass_unflagged in H. destruct H as (r & Hr & H).
  unfold pret in H. injection H as Hk. pose proof (pmap_length f l) as Hlen.
  rewrite Hr in Hlen. cbn [fst] in Hlen.
  assert (Hall : Forall (fun x => non_null x = true) r).
  { apply filter_full. fold (keep_non_null r). rewrite Hk. symmetry. exact Hlen. }
  unfold keep_non_null in Hk. rewrite (filter_all _ _ Hall) in Hk. subst r.
  apply Forall_and. split; [apply pmap_unflagged_fixed, Hr|exact Hall].
Qed.

Lemma list_rests (f : Stmt -> Pass Stmt) (l : list Stmt) :
  Forall (fun s => f s = (s, false) /\ non_null s = true) l ->
  (r <- pmap f l ;; pret (keep_non_null r))%pass = (l, false).
Proof.
  intros H. apply Forall_and in H. destruct H as [Hf Hn].
  rewrite (pmap_unchanged _ _ Hf). rewrite pbind_unflagged. unfold pret, keep_non_null.
  rewrite (filter_all _ _ Hn). reflexivity.
Qed.

Lemma eliminate_non_null st s :
  non_null (DeadCodeEliminator.eliminate_stmt st s) = non_null s.
Proof. destruct s; reflexivity. Qed.

Lemma kept_rests st (f : Stmt -> Pass Stmt) (ss : list Stmt) :
  Forall (fun s => f s = (s, false) ->
                   f (DeadCodeEliminator.eliminate_stmt st s)
                   = (DeadCodeEliminator.eliminate_stmt st s, false)) ss ->
  Forall (fun s => f s = (s, false) /\ non_null s = true) ss ->
  Forall (fun s => f s = (s, false) /\ non_null s = true)
    ((fix go (l : list Stmt) : list Stmt :=
        match l with
        | [] => []
        | s :: l' =>
            if DeadCodeEliminator.should_keep_stmt st s
            then DeadCodeEliminator.eliminate_stmt st s :: go l' else go l'
        end) ss).
Proof.
  induction 1 as [|s ss Hs _ IH]; intros Hall; [constructor|].
  apply Forall_cons in Hall. destruct Hall as [[Hf Hn] Hall].
  destruct (DeadCodeEliminator.should_keep_stmt st s); [|exact (IH Hall)].
  constructor; [|exact (IH Hall)].
  split; [exact (Hs Hf)|]. rewrite eliminate_non_null. exact Hn.
Qed.

Lemma eliminated_rests st (f : Stmt -> Pass Stmt) (ss : list Stmt) :
  (forall s, f s = (s, false) ->
             f (DeadCodeEliminator.eliminate_stmt st s)
             = (DeadCodeEliminator.eliminate_stmt st s, false)) ->
  Forall (fun s => f s = (s, false) /\ non_null s = true) ss ->
  Forall (fun s => f s = (s, false) /\ non_null s = true)
    (List.map (DeadCodeEliminator.eliminate_stmt st)
       (List.filter (DeadCodeEliminator.should_keep_stmt st) ss)).
Proof.
  intros Hf. induction 1 as [|s ss [Hs Hn] _ IH]; [constructor|].
  cbn [List.filter]. destruct (DeadCodeEliminator.should_keep_stmt st s); [|exact IH].
  cbn [List.map]. constructor; [|exact IH].
  split; [exact (Hf s Hs)|]. rewrite eliminate_non_null. exact Hn.
Qed.

(** The clauses of a [switch] at rest. *)
Lemma clauses_rest st (fe : Expr -> Pass Expr) (f : Stmt -> Pass Stmt) cs :
  Forall (fun cl => Forall (fun s => f s = (s, false) ->
                   f (DeadCodeEliminator.eliminate_stmt st s)
                   = (DeadCodeEliminator.eliminate_stmt st s, false))
                      (case_statements cl)) cs ->
  pmap (fun c : CaseClauseT =>
          let '(CaseClause v ss) := c in
          (val <- fe v ;;
           stmts <- (r <- pmap f ss ;; pret (keep_non_null r)) ;;
           pret (CaseClause val stmts))%pass) cs = (cs, false) ->
  pmap (fun c : CaseClauseT =>
          let '(CaseClause v ss) := c in
          (val <- fe v ;;
           stmts <- (r <- pmap f ss ;; pret (keep_non_null r)) ;;
           pret (CaseClause val stmts))%pass)
    (List.map (fun cl : CaseClauseT =>
                 let '(CaseClause v ss) := cl in
                 CaseClause v
                   ((fix go (l : list Stmt) : list Stmt :=
                       match l with
                       | [] => []
                       | s :: l' =>
                           if DeadCodeEliminator.should_keep_stmt st s
                           then DeadCodeEliminator.eliminate_stmt st s :: go l'
                           else go l'
                       end) ss)) cs)
  = (List.map (fun cl : CaseClauseT =>
                 let '(CaseClause v ss) := cl in
                 CaseClause v
                   ((fix go (l : list Stmt) : list Stmt :=
                       match l with
                       | [] => []
                       | s :: l' =>
                           if DeadCodeEliminator.should_keep_stmt st s
                           then DeadCodeEliminator.eliminate_stmt st s :: go l'
                           else go l'
                       end) ss)) cs, false).
Proof.
  intros IH H. apply pmap_unflagged_fixed in H. apply pmap_unchanged.
  apply Forall_map. assert (HH := proj2 (Forall_and _ _) (conj IH H)).
  eapply Forall_impl; [exact HH|]. clear. intros [v ss] [IH H].
  cbn [case_statements] in IH. cbn beta iota in *.
  apply pass_unflagged in H. destruct H as (v' & Hv & H).
  apply pass_unflagged in H. destruct H as (ss' & Hss & H).
  inversion H; subst. rewrite Hv, pbind_unflagged.
  rewrite (list_rests f _ (kept_rests st f ss IH (list_rests_inv f ss Hss))).
  reflexivity.
Qed.

(** ** The dead-code eliminator keeps a program at rest *)

Lemma fold_stmt_rest_eliminated st s :
  ConstantFolder.fold_stmt s = (s, false) ->
  ConstantFolder.fold_stmt (DeadCodeEliminator.eliminate_stmt st s)
  = (DeadCodeEliminator.eliminate_stmt st s, false).
Proof.
  induction s as [ | e | e k | n i | ss brace H | c t e k IHs H | c b k IHs | n ps b H | k v | k | k c cs d H H0 | k ss H | k c m | k f p ] using Stmt_nested_ind;
    cbn [DeadCodeEliminator.eliminate_stmt]; try (intros Hrest; exact Hrest);
    cbn [ConstantFolder.fold_stmt]; intros Hrest.
  - apply pass_unflagged in Hrest. destruct Hrest as (r & Hr & Hrest).
    injection Hrest as ->.
    rewrite (list_rests _ _ (kept_rests st _ ss H (list_rests_inv _ ss Hr))).
    reflexivity.
  - apply pass_unflagged in Hrest. destruct Hrest as (fc & Hc & Hrest).
    destruct fc; try (exfalso; exact (flagged_is_not_unflagged _ _ Hrest));
      apply pass_unflagged in Hrest; destruct Hrest as (t' & Ht & Hrest);
      apply pass_unflagged in Hrest; destruct Hrest as (e' & He & Hrest);
      injection Hrest as <- -> ->;
      rewrite Hc, pbind_unflagged, (IHs Ht), pbind_unflagged;
      (rewrite (pmap_option_unchanged ConstantFolder.fold_stmt
                  (option_map (DeadCodeEliminator.eliminate_stmt st) e));
       [reflexivity|]);
      intros x Hx; (destruct e as [els|]; [|discriminate]);
      injection Hx as <-;
      exact (H els eq_refl (pmap_option_unflagged_fixed _ _ He els eq_refl)).
  - apply pass_unflagged in Hrest. destruct Hrest as (fc & Hc & Hrest).
    cbv zeta in Hrest.
    assert (Hkeep : (b0 <- ConstantFolder.fold_stmt b ;;
                     pret (WhileStmt fc b0 k))%pass = (WhileStmt c b k, false)).
    { destruct fc as [v t| | | | | | | | | | |]; try exact Hrest.
      destruct (negb (ConstantFolder.cond_val v)); [|exact Hrest].
      exfalso. exact (flagged_is_not_unflagged _ _ Hrest). }
    apply pass_unflagged in Hkeep. destruct Hkeep as (b' & Hb & Hkeep).
    injection Hkeep as -> ->. rewrite Hc, pbind_unflagged. cbv zeta.
    rewrite (IHs Hb), pbind_unflagged.
    revert Hrest. destruct c as [v t| | | | | | | | | | |]; try reflexivity.
    destruct (negb (ConstantFolder.cond_val v)); [|reflexivity].
    intros Hrest. exfalso. exact (flagged_is_not_unflagged _ _ Hrest).
  - apply pass_unflagged in Hrest. destruct Hrest as (r & Hr & Hrest).
    injection Hrest as ->.
    rewrite (list_rests _ _ (kept_rests st _ b H (list_rests_inv _ b Hr))).
    reflexivity.
  - apply pass_unflagged in Hrest. destruct Hrest as (fc & Hc & Hrest).
    apply pass_unflagged in Hrest. destruct Hrest as (cs' & Hcs & Hrest).
    apply pass_unflagged in Hrest. destruct Hrest as (d' & Hd & Hrest).
    injection Hrest as -> -> ->. rewrite Hc, pbind_unflagged.
    rewrite (clauses_rest st ConstantFolder.fold_expr ConstantFolder.fold_stmt cs H Hcs).
    rewrite pbind_unflagged.
    rewrite pmap_option_unchanged; [reflexivity|].
    intros x Hx. destruct d as [ss|]; [|discriminate]. injection Hx as <-.
    apply list_rests, (kept_rests st _ ss (H0 ss eq_refl)), list_rests_inv.
    exact (pmap_option_unflagged_fixed _ _ Hd ss eq_refl).
Qed.

Lemma simplify_stmt_rest_eliminated st s :
  AlgebraicSimplifier.simplify_stmt s = (s, false) ->
  AlgebraicSimplifier.simplify_stmt (DeadCodeEliminator.eliminate_stmt st s)
  = (DeadCodeEliminator.eliminate_stmt st s, false).
Proof.
  induction s as [ | e | e k | n i | ss brace H | c t e k IHs H | c b k IHs | n ps b H | k v | k | k c cs d H H0 | k ss H | k c m | k f p ] using Stmt_nested_ind;
    cbn [DeadCodeEliminator.eliminate_stmt]; try (intros Hrest; exact Hrest);
    cbn [AlgebraicSimplifier.simplify_stmt]; intros Hrest.
  - apply pass_unflagged in Hrest. destruct Hrest as (r & Hr & Hrest).
    injection Hrest as ->.
    rewrite (list_rests _ _ (kept_rests st _ ss H (list_rests_inv _ ss Hr))).
    reflexivity.
  - apply pass_unflagged in Hrest. destruct Hrest as (fc & Hc & Hrest).
    apply pass_unflagged in Hrest. destruct Hrest as (t' & Ht & Hrest).
    apply pass_unflagged in Hrest. destruct Hrest as (e' & He & Hrest).
    injection Hrest as -> -> ->.
    rewrite Hc, pbind_unflagged, (IHs Ht), pbind_unflagged.
    rewrite (pmap_option_unchanged AlgebraicSimplifier.simplify_stmt
               (option_map (DeadCodeEliminator.eliminate_stmt st) e));
      [reflexivity|].
    intros x Hx. destruct e as [els|]; [|discriminate].
    injection Hx as <-.
    exact (H els eq_refl (pmap_option_unflagged_fixed _ _ He els eq_refl)).
  - apply pass_unflagged in Hrest. destruct Hrest as (fc & Hc & Hrest).
    apply pass_unflagged in Hrest. destruct Hrest as (b' & Hb & Hrest).
    injection Hrest as -> ->.
    rewrite Hc, pbind_unflagged, (IHs Hb), pbind_unflagged. reflexivity.
  - apply pass_unflagged in Hrest. destruct Hrest as (r & Hr & Hrest).
    injection Hrest as ->.
    rewrite (list_rests _ _ (kept_rests st _ b H (list_rests_inv _ b Hr))).
    reflexivity.
  - apply pass_unflagged in Hrest. destruct Hrest as (fc & Hc & Hrest).
    apply pass_unflagged in Hrest. destruct Hrest as (cs' & Hcs & Hrest).
    apply pass_unflagged in Hrest. destruct Hrest as (d' & Hd & Hrest).
    injection Hrest as -> -> ->. rewrite Hc, pbind_unflagged.
    rewrite (clauses_rest st AlgebraicSimplifier.simplify_expr
               AlgebraicSimplifier.simplify_stmt cs H Hcs).
    rewrite pbind_unflagged.
    rewrite pmap_option_unchanged; [reflexivity|].
    intros x Hx. destruct d as [ss|]; [|discriminate]. injection Hx as <-.
    apply list_rests, (kept_rests st _ ss (H0 ss eq_refl)), list_rests_inv.
    exact (pmap_option_unflagged_fixed _ _ Hd ss eq_refl).
Qed.

(** A program at rest under the folder, or under the simplifier, is still
    at rest after the dead-code eliminator went over it. *)
Lemma constant_folder_rest_eliminated x :
  ConstantFolder.run x = (x, false) ->
  ConstantFolder.run (fst (DeadCodeEliminator.run x))
  = (fst (DeadCodeEliminator.run x), false).
Proof.
  intros H. apply list_rests, eliminated_rests, list_rests_inv, H.
  intros s. apply fold_stmt_rest_eliminated.
Qed.

Lemma simplifier_rest_eliminated x :
  AlgebraicSimplifier.run x = (x, false) ->
  AlgebraicSimplifier.run (fst (DeadCodeEliminator.run x))
  = (fst (DeadCodeEliminator.run x), false).
Proof.
  intros H. apply list_rests, eliminated_rests, list_rests_inv, H.
  intros s. apply simplify_stmt_rest_eliminated.
Qed.

(** ** A sweep without a report ends at a fixed point *)

Lemma sweep_app ps qs x :
  Optimizer.sweep (ps ++ qs) x
  = pbind (Optimizer.sweep ps x) (Optimizer.sweep qs).
Proof.
  revert x. induction ps as [|p ps IH]; intros x; cbn [app Optimizer.sweep].
  - rewrite pbind_pret. reflexivity.
  - destruct (p x) as [x1 m1]. unfold pbind at 1 3. rewrite IH.
    destruct (Optimizer.sweep ps x1) as [x2 m2]. unfold pbind.
    destruct (Optimizer.sweep qs x2) as [x3 m3]. rewrite orb_assoc. reflexivity.
Qed.

Lemma sweep_at_rest ps x :
  Forall (fun p : list Stmt -> Pass (list Stmt) => p x = (x, false)) ps ->
  Optimizer.sweep ps x = (x, false).
Proof.
  induction 1 as [|p ps Hp _ IH]; [reflexivity|].
  apply sweep_rests_cons; assumption.
Qed.

Lemma dead_code_eliminator_unflagged x :
  DeadCodeEliminator.run x = (fst (DeadCodeEliminator.run x), false).
Proof. reflexivity. Qed.

(** The folder and the simplifier, whichever are enabled, are at rest at
    the program they hand on in a sweep that reports no modification. *)
Lemma front_rests (folding simplification : bool) qs x y :
  Optimizer.sweep
    ((if folding then [ConstantFolder.run] else []) ++
     (if simplification then [AlgebraicSimplifier.run] else []) ++ qs) x
  = (y, false) ->
  exists z,
    Optimizer.sweep qs z = (y, false) /\
    Forall (fun p : list Stmt -> Pass (list Stmt) => p z = (z, false))
      ((if folding then [ConstantFolder.run] else []) ++
       (if simplification then [AlgebraicSimplifier.run] else [])).
Proof.
  destruct folding, simplification; cbn [app Optimizer.sweep]; intros H.
  - apply pass_unflagged in H. destruct H as (x1 & H1 & H).
    apply pass_unflagged in H. destruct H as (x2 & H2 & H).
    pose proof (constant_folder_rests _ _ H1) as R1.
    pose proof (simplifier_tidies _ _ H2) as E2.
    rewrite <- (constant_folder_tidies _ _ R1) in E2. subst x2.
    exists x1. split; [exact H|]. repeat constructor; assumption.
  - apply pass_unflagged in H. destruct H as (x1 & H1 & H).
    exists x1. split; [exact H|].
    repeat constructor. exact (constant_folder_rests _ _ H1).
  - apply pass_unflagged in H. destruct H as (x1 & H1 & H).
    exists x1. split; [exact H|].
    repeat constructor. exact (simplifier_rests _ _ H1).
  - exists x. split; [exact H|constructor].
Qed.

Lemma front_rest_eliminated (folding simplification : bool) z :
  Forall (fun p : list Stmt -> Pass (list Stmt) => p z = (z, false))
    ((if folding then [ConstantFolder.run] else []) ++
     (if simplification then [AlgebraicSimplifier.run] else [])) ->
  Forall (fun p : list Stmt -> Pass (list Stmt) =>
            p (fst (DeadCodeEliminator.run z))
            = (fst (DeadCodeEliminator.run z), false))
    ((if folding then [ConstantFolder.run] else []) ++
     (if simplification then [AlgebraicSimplifier.run] else [])).
Proof.
  destruct folding, simplification; cbn [app]; intros H;
    repeat match goal with
           | H : Forall _ (_ :: _) |- _ =>
               apply Forall_cons in H; destruct H as [? H]
           end;
    repeat constructor;
    first [apply constant_folder_rest_eliminated; assumption
          |apply simplifier_rest_eliminated; assumption].
Qed.

(** A sweep that reports no modification returns a program that a further
    sweep returns as it is, again without a report, provided the dead-code
    eliminator, when enabled, finds nothing to remove in it. *)
Lemma sweep_rests cfg x y :
  dead_code_elimination cfg = false \/ fst (DeadCodeEliminator.run y) = y ->
  Optimizer.sweep (Optimizer.initialize_passes cfg) x = (y, false) ->
  Optimizer.sweep (Optimizer.initialize_passes cfg) y = (y, false).
Proof.
  intros Hdce. unfold Optimizer.initialize_passes.
  pose proof (back_passes_honest cfg) as Hback.
  set (back := (if common_subexpression_elimination cfg then _ else _) ++ _) in *.
  clearbody back. intros H.
  apply front_rests in H. destruct H as (z & H & Hfront).
  rewrite app_assoc, sweep_app.
  destruct (dead_code_elimination cfg); cbn [app Optimizer.sweep] in *.
  - destruct Hdce as [Hdce|Hdce]; [discriminate|].
    apply pass_unflagged in H. destruct H as (z' & Hz & H).
    pose proof (sweep_honest _ _ _ Hback H). subst z'.
    pose proof (f_equal fst Hz) as Ey. cbn [fst] in Ey. subst y.
    rewrite (sweep_at_rest _ _ (front_rest_eliminated _ _ _ Hfront)).
    rewrite pbind_unflagged.
    rewrite (dead_code_eliminator_unflagged (fst (DeadCodeEliminator.run z))).
    rewrite Hdce, pbind_unflagged. exact H.
  - pose proof (sweep_honest _ _ _ Hback H). subst z.
    rewrite (sweep_at_rest _ _ Hfront), pbind_unflagged. exact H.
Qed.

Lemma iterate_settles n ps A :
  settles n ps A = true ->
  exists B, Optimizer.sweep ps B = (Optimizer.iterate n ps A, false).
Proof.
  revert A. induction n as [|n IH]; intros A; cbn [settles Optimizer.iterate];
    [discriminate|].
  destruct (Optimizer.sweep ps A) as [next m] eqn:E. destruct m.
  - apply IH.
  - intros _. exists A. exact E.
Qed.

(** ** The fixed-point loop *)

(** C6, as the code has it: a second run of [optimize] changes nothing,
    and stops after one sweep in which no pass reports a modification,
    whenever the first run left its loop because a sweep reported no
    modification (rather than at the cap of [max_iterations] sweeps) and
    the dead-code eliminator is disabled or finds nothing to remove in
    the result of the first run. *)
Theorem C6_idempotent_once_settled :
  forall (cfg : OptimizerConfig) (A : list Stmt),
    settles Optimizer.max_iterations (Optimizer.initialize_passes cfg) A = true ->
    dead_code_elimination cfg = false
    \/ fst (DeadCodeEliminator.run (Optimizer.optimize cfg A)) = Optimizer.optimize cfg A ->
    Optimizer.optimize cfg (Optimizer.optimize cfg A) = Optimizer.optimize cfg A
    /\ Optimizer.sweep (Optimizer.initialize_passes cfg) (Optimizer.optimize cfg A)
       = (Optimizer.optimize cfg A, false).
Proof.
  intros cfg A Hs Hdce. unfold Optimizer.optimize in *.
  destruct (iterate_settles _ _ _ Hs) as [B HB].
  pose proof (sweep_rests cfg _ _ Hdce HB) as Hrest.
  split; [|exact Hrest]. apply iterate_fixed. rewrite Hrest. reflexivity.
Qed.

Lemma C6_idempotent_witness :
  settles Optimizer.max_iterations (Optimizer.initialize_passes default_config)
    Samples.program_call_times_zero = true
  /\ fst (DeadCodeEliminator.run
            (Optimizer.optimize default_config Samples.program_call_times_zero))
     = Optimizer.optimize default_config Samples.program_call_times_zero
  /\ Optimizer.optimize default_config
       (Optimizer.optimize default_config Samples.program_call_times_zero)
     = Optimizer.optimize default_config Samples.program_call_times_zero.
Proof.
  split; [vm_compute; reflexivity|]. split; [vm_compute; reflexivity|].
  apply (C6_idempotent_once_settled default_config Samples.program_call_times_zero);
    [vm_compute; reflexivity|right; vm_compute; reflexivity].
Defined.

(** C6 as stated fails.  On [print b * (b * ( ... (a - a - 3 + 3) ... ) - 3 + 3);]
    with ten nested products each sweep resolves one level, so the ten
    iterations end at [print b * (0 - 3 + 3)], which a second run still
    rewrites to [print 0]. *)
Lemma C6_counterexample :
  exists b star zero minus three plus three' kw,
    Optimizer.optimize default_config Samples.program_nest10
    = [PrintStmt
         (Binary (Variable_ b) star
                 (Binary (Binary (Literal (LDouble 0) zero) minus
                                 (Literal (LDouble 3) three))
                         plus (Literal (LDouble 3) three')))
         kw]
    /\ Optimizer.optimize default_config
         (Optimizer.optimize default_config Samples.program_nest10)
       = [PrintStmt (Literal (LDouble 0) zero) kw].
Proof. vm_compute. do 8 eexists. split; reflexivity. Qed.

(** A second source of the same failure: the dead-code eliminator drops a
    declaration without reporting a modification, so the loop stops after
    the sweep that removed [b] from [var a = 1; var b = a;], and only a
    second run removes [a]. *)
Example optimize_dead_chain :
  length (Optimizer.optimize default_config Samples.program_dead_chain) = 1%nat
  /\ Optimizer.optimize default_config
       (Optimizer.optimize default_config Samples.program_dead_chain) = [].
Proof. vm_compute. split; reflexivity. Qed.

(** The ten sweeps of the first run all report a modification. *)
Example nest10_does_not_settle :
  settles Optimizer.max_iterations (Optimizer.initialize_passes default_config)
    Samples.program_nest10 = false.
Proof. vm_compute. reflexivity. Qed.
